(** * Parse analysis of the SQL compiler: a shallow embedding

    The development follows the parser sources:
    - [parse_relation.cpp]: unqualified table and column lookup;
    - [parse_agg.cpp]: aggregate levels, ungrouped columns, grouping sets;
    - [parse_target.cpp]: assignment coercion of INSERT/UPDATE targets;
    - [parse_startwith.cpp]: START WITH / CONNECT BY rewriting.

    [ereport(ERROR, ...)] unwinds the whole analysis, so every routine that can
    raise returns in the error monad [res].  Lists are the parser's [List];
    [NIL] and a NULL pointer to a list are both [nil].  Pointers that may be
    NULL are [option]s. *)

From Stdlib Require Import String ZArith List Bool Lia Permutation Sorted.
Import ListNotations.

#[local] Set Warnings "-register-all".
#[local] Open Scope string_scope.
#[local] Open Scope list_scope.
#[local] Open Scope Z_scope.

(** ** Error reporting *)

Inductive sqlerrcode : Type :=
| ERRCODE_ASSERT_FAILED
| ERRCODE_AMBIGUOUS_ALIAS
| ERRCODE_AMBIGUOUS_COLUMN
| ERRCODE_INVALID_COLUMN_REFERENCE
| ERRCODE_GROUPING_ERROR
| ERRCODE_FEATURE_NOT_SUPPORTED
| ERRCODE_INVALID_AGG
| ERRCODE_WINDOWING_ERROR
| ERRCODE_TOO_MANY_ARGUMENTS
| ERRCODE_DATATYPE_MISMATCH
| ERRCODE_INVALID_ENCRYPTED_COLUMN_DATA
| ERRCODE_UNRECOGNIZED_NODE_TYPE
| ERRCODE_INTERNAL_ERROR
| ERRCODE_EXTERNAL
| ERRCODE_DUPLICATE_ALIAS
| ERRCODE_SYNTAX_ERROR
| ERRCODE_OPTIMIZER_INCONSISTENT_STATE
| ERRCODE_NO_DATA_FOUND
| ERRCODE_UNDEFINED_COLUMN
| ERRCODE_DUPLICATE_COLUMN
| ERRCODE_NULL_VALUE_NOT_ALLOWED
| ERRCODE_INVALID_ATTRIBUTE
| ERRCODE_PROGRAM_LIMIT_EXCEEDED
| ERRCODE_UNDEFINED_OBJECT.

(** What [ereport(ERROR, (errcode(c), errmsg(fmt, args...)))] raises: the
    code, the message format and the arguments substituted into it. *)
Record ErrorData : Type :=
  ereportf { errcode : sqlerrcode; errmsg : string; errargs : list string }.

Definition ereport (c : sqlerrcode) (msg : string) : ErrorData := ereportf c msg [].

(** The double quote character, for message formats that quote a name. *)
Definition dq : string :=
  String (Ascii.Ascii false true false false false true false false) EmptyString.

Inductive res (A : Type) : Type :=
| Ok (x : A)
| Error (e : ErrorData).
Arguments Ok {A} x.
Arguments Error {A} e.

Definition bind {A B : Type} (c : res A) (k : A -> res B) : res B :=
  match c with
  | Ok x => k x
  | Error e => Error e
  end.

Notation "'do' x <- c ; k" := (bind c (fun x => k))
  (at level 10, x name, c at level 100, k at level 200).
Notation "'do' ' p <- c ; k" := (bind c (fun x => match x with p => k end))
  (at level 10, p pattern, c at level 100, k at level 200).

Definition is_ok {A : Type} (c : res A) : bool :=
  match c with Ok _ => true | Error _ => false end.

(** Modelled from the spec: the macro [AssertEreport(cond, module, msg)] is
    declared in a header that is not among the sources.  The spec has such an
    assertion cap the input rather than let a shift wrap silently: the macro
    raises when the condition does not hold. *)
Definition AssertEreport (cond : bool) (msg : string) : res unit :=
  if cond then Ok tt else Error (ereport ERRCODE_ASSERT_FAILED msg).

(** Machine integers.  [uint32] values are kept in [0, 2^32). *)
Definition uint32_wrap (z : Z) : Z := z mod 2 ^ 32.

(** Conversion of an unsigned 32-bit [Index] to [int]. *)
Definition int_of_Index (z : Z) : Z :=
  if z <? 2 ^ 31 then z else z - 2 ^ 32.

(** Modelled from the spec: the [Min] macro of c.h, which is not among the
    sources; the spec has the level be the minimum of the candidates. *)
Definition Min (a b : Z) : Z := if a <? b then a else b.

(** Length of a [List] as the C [int] that [list_length] returns. *)
Definition list_length {A : Type} (l : list A) : Z := Z.of_nat (length l).

(** ** Range table entries

    The fields of [RangeTblEntry] that the modelled routines read. *)
Inductive RTEKind : Type :=
| RTE_RELATION | RTE_SUBQUERY | RTE_JOIN | RTE_FUNCTION | RTE_VALUES | RTE_CTE
| RTE_RESULT.

Definition RTEKind_eqb (a b : RTEKind) : bool :=
  match a, b with
  | RTE_RELATION, RTE_RELATION | RTE_SUBQUERY, RTE_SUBQUERY | RTE_JOIN, RTE_JOIN
  | RTE_FUNCTION, RTE_FUNCTION | RTE_VALUES, RTE_VALUES | RTE_CTE, RTE_CTE
  | RTE_RESULT, RTE_RESULT => true
  | _, _ => false
  end.

Inductive RelKind : Type :=
| RELKIND_RELATION | RELKIND_VIEW | RELKIND_FOREIGN_TABLE | RELKIND_STREAM
| RELKIND_CONTQUERY | RELKIND_OTHER.

Record Alias : Type := makeAlias { aliasname : string; colnames : list string }.

Record RangeTblEntry : Type := mkRangeTblEntry {
  rtekind : RTEKind;
  relid : Z;
  relkind : RelKind;
  alias : option Alias;
  eref : Alias;
  ctename : string;
  isexcluded : bool;
  swAborted : bool;
  swConverted : bool;
  swSubExist : bool
}.

(** Modelled from the spec: the macro [rt_fetch(rangetable_index, rangetable)]
    of parsetree.h, which is not among the sources; the spec has the position
    in the range table count from 1. *)
Definition rt_fetch {A : Type} (rangetable_index : Z) (rangetable : list A) : option A :=
  if rangetable_index >? 0 then nth_error rangetable (Z.to_nat (rangetable_index - 1))
  else None.

(** ASCII lower case of a character, and of a string. *)
Definition tolower (c : Ascii.ascii) : Ascii.ascii :=
  let n := Ascii.nat_of_ascii c in
  if ((65 <=? n) && (n <=? 90))%nat then Ascii.ascii_of_nat (n + 32) else c.

Fixpoint string_map (f : Ascii.ascii -> Ascii.ascii) (s : string) : string :=
  match s with
  | EmptyString => EmptyString
  | String c rest => String (f c) (string_map f rest)
  end.

(** Modelled from the spec: [pg_strcasecmp] is defined in pgstrcasecmp.cpp,
    which is not among the sources; [pg_strcasecmp(a, b) == 0] compares two
    names without regard to the case of ASCII letters. *)
Definition pg_strcasecmp_eq (a b : string) : bool :=
  String.eqb (string_map tolower a) (string_map tolower b).

(** [strrchr(s, c)] followed by a step past the character: what follows the
    last occurrence of [c], if there is one. *)
Fixpoint after_last (c : Ascii.ascii) (s : string) : option string :=
  match s with
  | EmptyString => None
  | String a rest =>
      match after_last c rest with
      | Some t => Some t
      | None => if Ascii.eqb a c then Some rest else None
      end
  end.

Definition IsSWCBRewriteRTE (rte : RangeTblEntry) : bool :=
  if negb (RTEKind_eqb (rtekind rte) RTE_CTE) then false
  else if negb (pg_strcasecmp_eq (ctename rte) "tmp_reuslt") then false
  else swConverted rte.

(** * parse_agg.cpp : grouping sets *)

Module Agg.

(** A [GroupingSet] node: the kind and its content.  The content of a SIMPLE
    set is an integer list of sort-group references; the content of ROLLUP,
    CUBE and SETS is a list of [GroupingSet] nodes. *)
Inductive GroupingSet : Type :=
| GROUPING_SET_EMPTY
| GROUPING_SET_SIMPLE (content : list Z)
| GROUPING_SET_ROLLUP (content : list GroupingSet)
| GROUPING_SET_CUBE (content : list GroupingSet)
| GROUPING_SET_SETS (content : list GroupingSet).

Definition kind_unexpected : string := "Kind is unexpected".

(** The inner [foreach] of the ROLLUP case: concatenate the contents of the
    leading members, counting [i] down, and stop when [--i == 0]. *)
Fixpoint rollup_current (rollup_val : list GroupingSet) (i : Z)
    (current_result : list Z) : res (list Z) :=
  match rollup_val with
  | [] => Ok current_result
  | gs_current :: rest =>
      match gs_current with
      | GROUPING_SET_SIMPLE content =>
          let current_result := current_result ++ content in
          let i := i - 1 in
          if i =? 0 then Ok current_result
          else rollup_current rest i current_result
      | _ => Error (ereport ERRCODE_ASSERT_FAILED kind_unexpected)
      end
  end.

(** The [while (curgroup_size > 0)] loop of the ROLLUP case. *)
Fixpoint rollup_loop (rollup_val : list GroupingSet) (curgroup_size : nat)
    (result : list (list Z)) : res (list (list Z)) :=
  match curgroup_size with
  | O => Ok result
  | S n =>
      do current_result <- rollup_current rollup_val (Z.of_nat curgroup_size) [];
      rollup_loop rollup_val n (result ++ [current_result])
  end.

(** The inner [foreach] of the CUBE case: [mask] is a [uint32] that starts at
    1 and is shifted left once per member. *)
Fixpoint cube_current (cube_list : list GroupingSet) (mask i : Z)
    (current_result : list Z) : res (list Z) :=
  match cube_list with
  | [] => Ok current_result
  | gs_current :: rest =>
      match gs_current with
      | GROUPING_SET_SIMPLE content =>
          let current_result :=
            if negb (Z.land mask i =? 0) then current_result ++ content
            else current_result in
          cube_current rest (uint32_wrap (Z.shiftl mask 1)) i current_result
      | _ => Error (ereport ERRCODE_ASSERT_FAILED kind_unexpected)
      end
  end.

(** The [for (i = 0; i < num_sets; i++)] loop of the CUBE case; [todo] is the
    number of iterations that remain, [num_sets - i]. *)
Fixpoint cube_loop (cube_list : list GroupingSet) (todo : nat) (i : Z)
    (result : list (list Z)) : res (list (list Z)) :=
  match todo with
  | O => Ok result
  | S n =>
      do current_result <- cube_current cube_list 1 i [];
      cube_loop cube_list n (uint32_wrap (i + 1)) (result ++ [current_result])
  end.

Fixpoint expand_groupingset_node (gs : GroupingSet) : res (list (list Z)) :=
  match gs with
  | GROUPING_SET_EMPTY => Ok [[]]
  | GROUPING_SET_SIMPLE content => Ok [content]
  | GROUPING_SET_ROLLUP content =>
      do result <- rollup_loop content (length content) [];
      Ok (result ++ [[]])
  | GROUPING_SET_CUBE cube_list =>
      let number_bits := list_length cube_list in
      do _ <- AssertEreport (number_bits <? 31) "parser should cap this much lower";
      let num_sets := uint32_wrap (Z.shiftl 1 number_bits) in
      cube_loop cube_list (Z.to_nat num_sets) 0 []
  | GROUPING_SET_SETS content =>
      (fix sets (l : list GroupingSet) (result : list (list Z)) :=
         match l with
         | [] => Ok result
         | g :: rest =>
             do current_result <- expand_groupingset_node g;
             sets rest (result ++ current_result)
         end) content []
  end.

Definition cmp_list_len_asc (a b : list Z) : Z :=
  let la := list_length a in
  let lb := list_length b in
  if la >? lb then 1 else if la =? lb then 0 else -1.

(** Modelled from the spec: [list_member_int] and [list_union_int] are defined
    in list.cpp, which is not among the sources.  The spec has the cross product
    drop duplicate elements: the union keeps [list1] and appends the members of
    [list2] that are not yet there. *)
Definition list_member_int (l : list Z) (datum : Z) : bool :=
  existsb (Z.eqb datum) l.

Fixpoint list_union_int (list1 list2 : list Z) : list Z :=
  match list2 with
  | [] => list1
  | x :: rest =>
      if list_member_int list1 x then list_union_int list1 rest
      else list_union_int (list1 ++ [x]) rest
  end.

(** First loop of [expand_grouping_sets]: expand every clause, multiplying
    the set count; [None] is the early [return NIL] taken once the count
    exceeds a non-negative [limit].  [numsets] is a C [double]; while the limit
    is honoured it is an exact product of list lengths, so it is an integer
    here. *)
Fixpoint expand_all (groupingSets : list GroupingSet) (limit : Z) (numsets : Z)
    (expanded_groups : list (list (list Z)))
    : res (option (list (list (list Z)))) :=
  match groupingSets with
  | [] => Ok (Some expanded_groups)
  | gs :: rest =>
      do current_result <- expand_groupingset_node gs;
      do _ <- AssertEreport (negb (list_length current_result =? 0))
                "current_result should not be NULL";
      let numsets := numsets * list_length current_result in
      if (limit >=? 0) && (numsets >? limit) then Ok None
      else expand_all rest limit numsets (expanded_groups ++ [current_result])
  end.

(** The pairwise cross product: every set [q] of [result] is united with
    every set of [p]. *)
Definition cross_product (result p : list (list Z)) : list (list Z) :=
  flat_map (fun q => map (fun s => list_union_int q s) p) result.

Section ExpandGroupingSets.

(** The C library's [qsort], applied to the buffer of list pointers. *)
Variable qsort : (list Z -> list Z -> Z) -> list (list Z) -> list (list Z).

Definition expand_grouping_sets (groupingSets : list GroupingSet) (limit : Z)
    : res (list (list Z)) :=
  match groupingSets with
  | [] => Ok []
  | _ =>
      do expanded <- expand_all groupingSets limit 1 [];
      match expanded with
      | None => Ok []
      | Some expanded_groups =>
          let result := map (list_union_int []) (hd [] expanded_groups) in
          let result := fold_left cross_product (tl expanded_groups) result in
          if list_length result >? 1 then Ok (qsort cmp_list_len_asc result)
          else Ok result
      end
  end.

End ExpandGroupingSets.

(** Selection of the members of a cube by a bit vector, least significant
    bit first: the subset of the member sets that one expansion stands for. *)
Fixpoint cube_subset (sel : list bool) (cs : list (list Z)) : list Z :=
  match sel, cs with
  | b :: sel', c :: cs' => (if b then c else []) ++ cube_subset sel' cs'
  | _, _ => []
  end.

(** The [n] bits of [i] from bit [from] upwards. *)
Definition mask_bits (from : Z) (n : nat) (i : Z) : list bool :=
  map (fun j => Z.testbit i (from + Z.of_nat j)) (seq 0 n).

(** The number whose binary digits are [sel], least significant first. *)
Fixpoint Z_of_bits (sel : list bool) : Z :=
  match sel with
  | [] => 0
  | b :: sel' => 2 * Z_of_bits sel' + Z.b2z b
  end.

(** An instance of [qsort]: insertion sort driven by the comparator. *)
Fixpoint insert_sorted (cmp : list Z -> list Z -> Z) (x : list Z)
    (l : list (list Z)) : list (list Z) :=
  match l with
  | [] => [x]
  | y :: rest =>
      if cmp x y <=? 0 then x :: y :: rest
      else y :: insert_sorted cmp x rest
  end.

Definition insertion_qsort (cmp : list Z -> list Z -> Z)
    (l : list (list Z)) : list (list Z) :=
  fold_right (insert_sorted cmp) [] l.

(** ** parse_agg.cpp : expression trees

    The analysed expression nodes that the aggregate checks look at.  The
    [levelsup] fields are [Index] (unsigned) in the source. *)
Inductive Node : Type :=
| Var (varno varattno varlevelsup : Z) (location : Z)
| Const (constvalue : Z)
| Param (paramid : Z)
| Aggref (agglevelsup : Z) (aggdirectargs args : list Node) (location : Z)
| GroupingFunc (agglevelsup : Z) (args : list Node) (location : Z)
| WindowFunc (args : list Node) (location : Z)
| FuncExpr (funcid : Z) (funcretset : bool) (args : list Node) (location : Z)
| OpExpr (opno : Z) (opretset : bool) (args : list Node) (location : Z)
| Rownum (location : Z)
| TargetEntry (expr : Node) (ressortgroupref : Z)
| SubLink (testexpr : option Node) (subselect : Node)
| Query (clauses : list Node)
| List_ (elements : list Node).

(** A walker threads its context through the nodes and may raise. *)
Definition walk_list {C : Type} (walker : Node -> C -> res C)
    : list Node -> C -> res C :=
  fix go (l : list Node) (c : C) : res C :=
    match l with
    | [] => Ok c
    | n :: rest => do c' <- walker n c; go rest c'
    end.

(** Modelled from the spec: [expression_tree_walker] is defined in
    nodeFuncs.cpp, which is not among the sources; the spec calls it a
    recursive tree-walk helper that unwinds on failure.  It applies the walker
    to every child of the node, in field order, and not to the node itself (the
    walkers below hand it the node they are at to reach its operands);
    list-valued fields are walked element by element, and a sub-[Query] is left
    alone. *)
Definition expression_tree_walker {C : Type} (walker : Node -> C -> res C)
    (node : Node) (c : C) : res C :=
  match node with
  | Var _ _ _ _ | Const _ | Param _ | Rownum _ | Query _ => Ok c
  | Aggref _ aggdirectargs args _ =>
      do c <- walk_list walker aggdirectargs c; walk_list walker args c
  | GroupingFunc _ args _ => walk_list walker args c
  | WindowFunc args _ => walk_list walker args c
  | FuncExpr _ _ args _ => walk_list walker args c
  | OpExpr _ _ args _ => walk_list walker args c
  | TargetEntry expr _ => walker expr c
  | SubLink testexpr subselect =>
      do c <- match testexpr with Some t => walker t c | None => Ok c end;
      walker subselect c
  | List_ elements => walk_list walker elements c
  end.

(** Modelled from the spec: [query_tree_walker], of nodeFuncs.cpp as well,
    applies the walker to the clauses of a sub-query. *)
Definition query_tree_walker {C : Type} (walker : Node -> C -> res C)
    (clauses : list Node) (c : C) : res C :=
  walk_list walker clauses c.

(** *** check_agg_arguments *)

Record check_agg_arguments_context : Type := mk_agg_context {
  min_varlevel : Z;
  min_agglevel : Z;
  sublevels_up : Z
}.

Definition note_varlevel (context : check_agg_arguments_context) (varlevelsup : Z)
    : check_agg_arguments_context :=
  if varlevelsup >=? 0 then
    if (min_varlevel context <? 0) || (min_varlevel context >? varlevelsup)
    then mk_agg_context varlevelsup (min_agglevel context) (sublevels_up context)
    else context
  else context.

Definition note_agglevel (context : check_agg_arguments_context) (agglevelsup : Z)
    : check_agg_arguments_context :=
  if agglevelsup >=? 0 then
    if (min_agglevel context <? 0) || (min_agglevel context >? agglevelsup)
    then mk_agg_context (min_varlevel context) agglevelsup (sublevels_up context)
    else context
  else context.

Definition with_sublevels (context : check_agg_arguments_context) (s : Z)
    : check_agg_arguments_context :=
  mk_agg_context (min_varlevel context) (min_agglevel context) s.

Definition err_srf_in_agg : ErrorData :=
  ereport ERRCODE_FEATURE_NOT_SUPPORTED
    "aggregate function calls cannot contain set-returning function calls".
Definition err_window_in_agg : ErrorData :=
  ereport ERRCODE_GROUPING_ERROR
    "aggregate function calls cannot contain window function calls".
Definition err_nested_agg : ErrorData :=
  ereport ERRCODE_GROUPING_ERROR "aggregate function calls cannot be nested".
Definition err_lower_var_in_direct_args : ErrorData :=
  ereport ERRCODE_GROUPING_ERROR
    "outer-level aggregate cannot contain a lower-level variable in its direct arguments".

Fixpoint check_agg_arguments_walker (node : Node)
    (context : check_agg_arguments_context) : res check_agg_arguments_context :=
  match node with
  | Var _ _ varlevelsup _ =>
      (* convert levelsup to frame of reference of original query *)
      let varlevelsup := int_of_Index varlevelsup - sublevels_up context in
      Ok (note_varlevel context varlevelsup)
  | Aggref agglevelsup _ _ _ =>
      let agglevelsup := int_of_Index agglevelsup - sublevels_up context in
      (* no need to examine args of the inner aggregate *)
      Ok (note_agglevel context agglevelsup)
  | GroupingFunc agglevelsup _ _ =>
      let agglevelsup := int_of_Index agglevelsup - sublevels_up context in
      (* continue and descend into subtree *)
      expression_tree_walker check_agg_arguments_walker node
        (note_agglevel context agglevelsup)
  | FuncExpr _ funcretset _ _ =>
      if (sublevels_up context =? 0) && funcretset then Error err_srf_in_agg
      else expression_tree_walker check_agg_arguments_walker node context
  | OpExpr _ opretset _ _ =>
      if (sublevels_up context =? 0) && opretset then Error err_srf_in_agg
      else expression_tree_walker check_agg_arguments_walker node context
  | WindowFunc _ _ =>
      if sublevels_up context =? 0 then Error err_window_in_agg
      else expression_tree_walker check_agg_arguments_walker node context
  | Query clauses =>
      (* recurse into subselects *)
      do context' <- query_tree_walker check_agg_arguments_walker clauses
                       (with_sublevels context (sublevels_up context + 1));
      Ok (with_sublevels context' (sublevels_up context' - 1))
  | _ => expression_tree_walker check_agg_arguments_walker node context
  end.

(** Application of a walker to a pointer that may be NULL. *)
Definition walk_opt {C : Type} (walker : Node -> C -> res C)
    (node : option Node) (c : C) : res C :=
  match node with
  | Some n => walker n c
  | None => Ok c
  end.

Definition check_agg_arguments (directargs args : list Node) (filter : option Node)
    : res Z :=
  let context := mk_agg_context (-1) (-1) 0 in
  do context <- walk_list check_agg_arguments_walker args context;
  do context <- walk_opt check_agg_arguments_walker filter context;
  (* level zero if nothing was found, else the minimum of what was found *)
  let agglevel :=
    if min_varlevel context <? 0 then
      if min_agglevel context <? 0 then 0 else min_agglevel context
    else if min_agglevel context <? 0 then min_varlevel context
    else Min (min_varlevel context) (min_agglevel context) in
  (* a nested aggregate of the same semantic level is an error *)
  if agglevel =? min_agglevel context then Error err_nested_agg
  else
    match directargs with
    | [] => Ok agglevel
    | _ =>
        let context := mk_agg_context (-1) (-1) (sublevels_up context) in
        do context <- walk_list check_agg_arguments_walker directargs context;
        if (min_varlevel context >=? 0) && (min_varlevel context <? agglevel)
        then Error err_lower_var_in_direct_args
        else if (min_agglevel context >=? 0) && (min_agglevel context <=? agglevel)
        then Error err_nested_agg
        else Ok agglevel
    end.

(** *** The levels found by the scan, as the specification words them

    A variable or a nested aggregate (or GROUPING call) found by the scan at
    sublevel depth [s] contributes its levels-up minus [s]; contributions
    that are negative belong to a nested subquery and are ignored.  The scan
    does not look inside a nested aggregate. *)
Definition contribution (levelsup s : Z) : list Z :=
  let v := int_of_Index levelsup - s in
  if v >=? 0 then [v] else [].

Fixpoint var_levels (s : Z) (node : Node) : list Z :=
  match node with
  | Var _ _ varlevelsup _ => contribution varlevelsup s
  | Const _ | Param _ | Rownum _ => []
  | Aggref _ _ _ _ => []
  | GroupingFunc _ args _ => flat_map (var_levels s) args
  | WindowFunc args _ => flat_map (var_levels s) args
  | FuncExpr _ _ args _ => flat_map (var_levels s) args
  | OpExpr _ _ args _ => flat_map (var_levels s) args
  | TargetEntry expr _ => var_levels s expr
  | SubLink testexpr subselect =>
      match testexpr with Some t => var_levels s t | None => [] end
      ++ var_levels s subselect
  | Query clauses => flat_map (var_levels (s + 1)) clauses
  | List_ elements => flat_map (var_levels s) elements
  end.

Fixpoint agg_levels (s : Z) (node : Node) : list Z :=
  match node with
  | Var _ _ _ _ | Const _ | Param _ | Rownum _ => []
  | Aggref agglevelsup _ _ _ => contribution agglevelsup s
  | GroupingFunc agglevelsup args _ =>
      contribution agglevelsup s ++ flat_map (agg_levels s) args
  | WindowFunc args _ => flat_map (agg_levels s) args
  | FuncExpr _ _ args _ => flat_map (agg_levels s) args
  | OpExpr _ _ args _ => flat_map (agg_levels s) args
  | TargetEntry expr _ => agg_levels s expr
  | SubLink testexpr subselect =>
      match testexpr with Some t => agg_levels s t | None => [] end
      ++ agg_levels s subselect
  | Query clauses => flat_map (agg_levels (s + 1)) clauses
  | List_ elements => flat_map (agg_levels s) elements
  end.

(** The first set-returning or window function call that the scan meets at
    sublevel 0 outside nested aggregates, as the error it raises. *)
Definition first_error (l : list (option ErrorData)) : option ErrorData :=
  fold_right (fun o acc => match o with Some e => Some e | None => acc end) None l.

Fixpoint scan_error (s : Z) (node : Node) : option ErrorData :=
  match node with
  | Var _ _ _ _ | Const _ | Param _ | Rownum _ => None
  | Aggref _ _ _ _ => None
  | GroupingFunc _ args _ => first_error (map (scan_error s) args)
  | WindowFunc args _ =>
      if s =? 0 then Some err_window_in_agg
      else first_error (map (scan_error s) args)
  | FuncExpr _ retset args _ =>
      if (s =? 0) && retset then Some err_srf_in_agg
      else first_error (map (scan_error s) args)
  | OpExpr _ retset args _ =>
      if (s =? 0) && retset then Some err_srf_in_agg
      else first_error (map (scan_error s) args)
  | TargetEntry expr _ => scan_error s expr
  | SubLink testexpr subselect =>
      first_error [match testexpr with Some t => scan_error s t | None => None end;
                   scan_error s subselect]
  | Query clauses => first_error (map (scan_error (s + 1)) clauses)
  | List_ elements => first_error (map (scan_error s) elements)
  end.

(** Minimum of a list of levels, [None] for the empty list. *)
Fixpoint list_min (l : list Z) : option Z :=
  match l with
  | [] => None
  | x :: rest =>
      match list_min rest with
      | None => Some x
      | Some m => Some (Z.min x m)
      end
  end.

(** The level the specification assigns: the minimum contribution, or 0. *)
Definition semantic_level (args : list Node) (filter : option Node) : Z :=
  let nodes := args ++ match filter with Some f => [f] | None => [] end in
  match list_min (flat_map (var_levels 0) nodes ++ flat_map (agg_levels 0) nodes) with
  | Some m => m
  | None => 0
  end.

Definition min_nested_agg_level (args : list Node) (filter : option Node) : option Z :=
  let nodes := args ++ match filter with Some f => [f] | None => [] end in
  list_min (flat_map (agg_levels 0) nodes).

Definition args_scan_error (args : list Node) (filter : option Node)
    : option ErrorData :=
  let nodes := args ++ match filter with Some f => [f] | None => [] end in
  first_error (map (scan_error 0) nodes).

(** Folding the contributions into a running minimum, [-1] meaning that
    nothing was found yet. *)
Definition merge_level (m v : Z) : Z :=
  if (m <? 0) || (m >? v) then v else m.

Definition merge_levels (m : Z) (l : list Z) : Z := fold_left merge_level l m.

(** Induction on expression trees, with the hypothesis available for every
    element of a list-valued field. *)
Section NodeInduction.

Variable P : Node -> Prop.
Hypothesis HVar : forall varno varattno varlevelsup location,
    P (Var varno varattno varlevelsup location).
Hypothesis HConst : forall v, P (Const v).
Hypothesis HParam : forall v, P (Param v).
Hypothesis HAggref : forall lvl dargs args location,
    Forall P dargs -> Forall P args -> P (Aggref lvl dargs args location).
Hypothesis HGroupingFunc : forall lvl args location,
    Forall P args -> P (GroupingFunc lvl args location).
Hypothesis HWindowFunc : forall args location,
    Forall P args -> P (WindowFunc args location).
Hypothesis HFuncExpr : forall funcid retset args location,
    Forall P args -> P (FuncExpr funcid retset args location).
Hypothesis HOpExpr : forall opno retset args location,
    Forall P args -> P (OpExpr opno retset args location).
Hypothesis HRownum : forall location, P (Rownum location).
Hypothesis HTargetEntry : forall expr ref, P expr -> P (TargetEntry expr ref).
Hypothesis HSubLink : forall testexpr subselect,
    (forall t, testexpr = Some t -> P t) -> P subselect ->
    P (SubLink testexpr subselect).
Hypothesis HQuery : forall clauses, Forall P clauses -> P (Query clauses).
Hypothesis HList : forall elements, Forall P elements -> P (List_ elements).

Fixpoint Node_induction (n : Node) : P n :=
  let all := fix all (l : list Node) : Forall P l :=
    match l with
    | [] => Forall_nil P
    | x :: rest => Forall_cons x (Node_induction x) (all rest)
    end in
  match n with
  | Var a b c d => HVar a b c d
  | Const v => HConst v
  | Param v => HParam v
  | Aggref lvl dargs args location => HAggref lvl dargs args location (all dargs) (all args)
  | GroupingFunc lvl args location => HGroupingFunc lvl args location (all args)
  | WindowFunc args location => HWindowFunc args location (all args)
  | FuncExpr f r args location => HFuncExpr f r args location (all args)
  | OpExpr o r args location => HOpExpr o r args location (all args)
  | Rownum location => HRownum location
  | TargetEntry expr ref => HTargetEntry expr ref (Node_induction expr)
  | SubLink testexpr subselect =>
      HSubLink testexpr subselect
        (match testexpr as o return forall t, o = Some t -> P t with
         | Some t' => fun t E =>
             match E in _ = o return match o with Some x => P x | None => True end with
             | eq_refl => Node_induction t'
             end
         | None => fun t E =>
             match E in _ = o return match o with Some x => P x | None => True end with
             | eq_refl => I
             end
         end)
        (Node_induction subselect)
  | Query clauses => HQuery clauses (all clauses)
  | List_ elements => HList elements (all elements)
  end.

End NodeInduction.

(** [check_agg_arguments] as the specification words it: the level is the
    minimum contribution of the aggregated arguments and the filter; a nested
    aggregate at that very level is rejected; the direct arguments of an
    ordered-set aggregate may hold neither a variable below the level nor an
    aggregate at or below it. *)
Definition below (bound : Z) (strict : bool) (m : option Z) : bool :=
  match m with
  | Some v => if strict then v <? bound else v <=? bound
  | None => false
  end.

Definition direct_args_spec (level : Z) (directargs : list Node) : res Z :=
  match directargs with
  | [] => Ok level
  | _ =>
      match first_error (map (scan_error 0) directargs) with
      | Some e => Error e
      | None =>
          if below level true (list_min (flat_map (var_levels 0) directargs))
          then Error err_lower_var_in_direct_args
          else if below level false (list_min (flat_map (agg_levels 0) directargs))
          then Error err_nested_agg
          else Ok level
      end
  end.

Definition check_agg_arguments_spec (directargs args : list Node)
    (filter : option Node) : res Z :=
  match args_scan_error args filter with
  | Some e => Error e
  | None =>
      let level := semantic_level args filter in
      if match min_nested_agg_level args filter with
         | Some m => m =? level
         | None => false
         end
      then Error err_nested_agg
      else direct_args_spec level directargs
  end.

(** The running minima after a scan, and the outcome of a scan. *)
Definition scanned (context : check_agg_arguments_context)
    (vars aggs : list Z) : check_agg_arguments_context :=
  mk_agg_context (merge_levels (min_varlevel context) vars)
                 (merge_levels (min_agglevel context) aggs)
                 (sublevels_up context).

Definition scan_result (context : check_agg_arguments_context)
    (err : option ErrorData) (vars aggs : list Z) : res check_agg_arguments_context :=
  match err with
  | Some e => Error e
  | None => Ok (scanned context vars aggs)
  end.

(** *** transformGroupingFunc *)

Definition err_too_many_grouping_args : ErrorData :=
  ereport ERRCODE_TOO_MANY_ARGUMENTS "GROUPING 参数数量不能超过 32".

Section TransformGroupingFunc.

(** The parse state as this routine uses it. *)
Record GroupingParseState : Type := mk_grouping_pstate {
  isAliasReplace : bool;
  p_is_flt_frame : bool;
  p_hasAggs : bool
}.

(** Raw argument nodes and the expression transformer of parse_expr. *)
Variable RawNode : Type.
Variable transformExpr : GroupingParseState -> RawNode -> res (GroupingParseState * Node).
(** [check_agglevels_and_constraints], which sets the level of the call. *)
Variable check_agglevels_and_constraints :
  GroupingParseState -> Node -> res (GroupingParseState * Node).

Fixpoint transform_grouping_args (pstate : GroupingParseState) (args : list RawNode)
    (result_list : list Node) : res (GroupingParseState * list Node) :=
  match args with
  | [] => Ok (pstate, result_list)
  | a :: rest =>
      do '(pstate, current_result) <- transformExpr pstate a;
      (* acceptability of expressions is checked later *)
      transform_grouping_args pstate rest (result_list ++ [current_result])
  end.

(** The statements of [transformGroupingFunc] that follow the length check. *)
Definition transformGroupingFunc_checked (pstate : GroupingParseState)
    (args : list RawNode) (location : Z) : res (GroupingParseState * Node) :=
  let orig_is_replace := isAliasReplace pstate in
  (* GROUPING does not take part in alias replacement *)
  let pstate := mk_grouping_pstate false (p_is_flt_frame pstate) (p_hasAggs pstate) in
  do '(pstate, result_list) <- transform_grouping_args pstate args [];
  let pstate := mk_grouping_pstate orig_is_replace (p_is_flt_frame pstate)
                  (p_hasAggs pstate) in
  let result := GroupingFunc 0 result_list location in
  do '(pstate, result) <-
    (if p_is_flt_frame pstate then check_agglevels_and_constraints pstate result
     else Ok (pstate, result));
  Ok (mk_grouping_pstate (isAliasReplace pstate) (p_is_flt_frame pstate) true, result).

Definition transformGroupingFunc (pstate : GroupingParseState) (args : list RawNode)
    (location : Z) : res (GroupingParseState * Node) :=
  if list_length args >? 31 then Error err_too_many_grouping_args
  else transformGroupingFunc_checked pstate args location.

End TransformGroupingFunc.

End Agg.

(** * parse_agg.cpp : ungrouped columns *)

Module Grouping.
Import Agg.

(** Modelled from the spec: [equal] is defined in equalfuncs.cpp, which is not
    among the sources; the spec's "lexically equal".  [equal(a, b)] on
    expression nodes is structural equality that leaves the parse location
    out. *)
Fixpoint equal (a b : Node) : bool :=
  let equal_list := fix equal_list (x y : list Node) : bool :=
    match x, y with
    | [], [] => true
    | p :: x', q :: y' => equal p q && equal_list x' y'
    | _, _ => false
    end in
  match a, b with
  | Var n1 a1 l1 _, Var n2 a2 l2 _ => (n1 =? n2) && (a1 =? a2) && (l1 =? l2)
  | Const v1, Const v2 => v1 =? v2
  | Param p1, Param p2 => p1 =? p2
  | Aggref l1 d1 a1 _, Aggref l2 d2 a2 _ =>
      (l1 =? l2) && equal_list d1 d2 && equal_list a1 a2
  | GroupingFunc l1 a1 _, GroupingFunc l2 a2 _ => (l1 =? l2) && equal_list a1 a2
  | WindowFunc a1 _, WindowFunc a2 _ => equal_list a1 a2
  | FuncExpr f1 r1 a1 _, FuncExpr f2 r2 a2 _ =>
      (f1 =? f2) && Bool.eqb r1 r2 && equal_list a1 a2
  | OpExpr o1 r1 a1 _, OpExpr o2 r2 a2 _ =>
      (o1 =? o2) && Bool.eqb r1 r2 && equal_list a1 a2
  | Rownum _, Rownum _ => true
  | TargetEntry e1 r1, TargetEntry e2 r2 => equal e1 e2 && (r1 =? r2)
  | SubLink t1 s1, SubLink t2 s2 =>
      match t1, t2 with
      | Some x, Some y => equal x y
      | None, None => true
      | _, _ => false
      end && equal s1 s2
  | Query c1, Query c2 => equal_list c1 c2
  | List_ e1, List_ e2 => equal_list e1 e2
  | _, _ => false
  end.

(** A GROUP BY target entry: its expression and sort-group reference. *)
Record GroupTle : Type := mkGroupTle { tle_expr : Node; ressortgroupref : Z }.

Record check_ungrouped_columns_context : Type := mk_ungrouped_context {
  p_rtable : list RangeTblEntry;      (* pstate->p_rtable *)
  constraintDeps : list Z;            (* qry->constraintDeps *)
  groupClauses : list GroupTle;
  groupClauseCommonVars : list Node;
  have_non_var_grouping : bool;
  func_grouped_rels : list Z;
  sublevels_up : Z;
  in_agg_direct_args : bool
}.

Definition set_sublevels_up (c : check_ungrouped_columns_context) (s : Z) :=
  mk_ungrouped_context (p_rtable c) (constraintDeps c) (groupClauses c)
    (groupClauseCommonVars c) (have_non_var_grouping c) (func_grouped_rels c)
    s (in_agg_direct_args c).

Definition set_in_agg_direct_args (c : check_ungrouped_columns_context) (b : bool) :=
  mk_ungrouped_context (p_rtable c) (constraintDeps c) (groupClauses c)
    (groupClauseCommonVars c) (have_non_var_grouping c) (func_grouped_rels c)
    (sublevels_up c) b.

Definition set_func_grouped (c : check_ungrouped_columns_context)
    (rels deps : list Z) :=
  mk_ungrouped_context (p_rtable c) deps (groupClauses c)
    (groupClauseCommonVars c) (have_non_var_grouping c) rels
    (sublevels_up c) (in_agg_direct_args c).

Definition err_args_inside_direct_args : ErrorData :=
  ereport ERRCODE_INVALID_AGG "unexpected args inside agg direct args".
Definition err_rownum_ungrouped : ErrorData :=
  ereport ERRCODE_GROUPING_ERROR "ROWNUM 必须出现在 GROUP BY 子句中或在聚合函数中使用".
Definition err_ungrouped_column (aliasname attname : string) : ErrorData :=
  ereportf ERRCODE_GROUPING_ERROR
    (String.append "column "
       (String.append dq
          (String.append "%s.%s"
             (String.append dq
                " must appear in the GROUP BY clause or be used in an aggregate function"))))
    [aliasname; attname].
Definition err_ungrouped_outer_column (aliasname attname : string) : ErrorData :=
  ereportf ERRCODE_GROUPING_ERROR
    (String.append "subquery uses ungrouped column "
       (String.append dq (String.append "%s.%s" (String.append dq " from outer query"))))
    [aliasname; attname].

Section CheckUngroupedColumns.

(** The catalog's functional-dependency test: whether the grouping columns
    determine the relation (through a primary key), and the constraints that
    the verdict rests on. *)
Variable functionally_grouped : Z -> Z -> list Node -> bool.
Variable grouping_constraints : Z -> Z -> list Node -> list Z.
(** Name of a column of a range table entry, for the error message. *)
Variable get_rte_attribute_name : RangeTblEntry -> Z -> string.

(** [check_functional_grouping(relid, varno, varlevelsup, grouping_columns,
    &constraintDeps)]: on success the constraints are appended to the list. *)
Definition check_functional_grouping (relid varno varlevelsup : Z)
    (grouping_columns : list Node) (constraintDeps : list Z) : bool * list Z :=
  if functionally_grouped relid varno grouping_columns
  then (true, constraintDeps ++ grouping_constraints relid varno grouping_columns)
  else (false, constraintDeps).

Definition is_Rownum (n : Node) : bool :=
  match n with Rownum _ => true | _ => false end.

Definition find_rownum_in_groupby_clauses (context : check_ungrouped_columns_context)
    : res unit :=
  if negb (have_non_var_grouping context) then
    let haveRownum := existsb (fun gl => is_Rownum (tle_expr gl)) (groupClauses context) in
    if negb haveRownum then Error err_rownum_ungrouped else Ok tt
  else Ok tt.

(** Whether the whole subexpression matches a GROUP BY item; only tried at
    the outer query level and when some item is not a plain variable. *)
Definition group_expr_match (have_non_var_grouping : bool)
    (groupClauses : list GroupTle) (s : Z) (node : Node) : bool :=
  have_non_var_grouping && (s =? 0)
  && existsb (fun tle => equal node (tle_expr tle)) groupClauses.

Definition matches_group_expr (context : check_ungrouped_columns_context)
    (node : Node) : bool :=
  group_expr_match (have_non_var_grouping context) (groupClauses context)
    (sublevels_up context) node.

(** Whether a variable is one of the GROUP BY columns, by range table index
    and attribute number; tried when the expression match above was not. *)
Definition group_var_match (have_non_var_grouping : bool)
    (groupClauses : list GroupTle) (s : Z) (varno varattno : Z) : bool :=
  (negb have_non_var_grouping || negb (s =? 0))
  && existsb (fun tle =>
                match tle_expr tle with
                | Var gvarno gvarattno gvarlevelsup _ =>
                    (gvarno =? varno) && (gvarattno =? varattno) && (gvarlevelsup =? 0)
                | _ => false
                end) groupClauses.

Definition matches_group_var (context : check_ungrouped_columns_context)
    (varno varattno : Z) : bool :=
  group_var_match (have_non_var_grouping context) (groupClauses context)
    (sublevels_up context) varno varattno.

Definition ungrouped_attname (rte : RangeTblEntry) (varattno : Z) : string :=
  let attname := get_rte_attribute_name rte varattno in
  if IsSWCBRewriteRTE rte then
    match after_last (Ascii.Ascii false false false false false false true false) attname with
    | Some tail => tail
    | None => attname
    end
  else attname.

(** The [IsA(node, Var)] block of the walker. *)
Definition check_ungrouped_var (context : check_ungrouped_columns_context)
    (varno varattno varlevelsup : Z) : res check_ungrouped_columns_context :=
  if negb (varlevelsup =? uint32_wrap (sublevels_up context)) then Ok context
  else if matches_group_var context varno varattno then Ok context
  else if list_member_int (func_grouped_rels context) varno then Ok context
  else
    do _ <- AssertEreport ((varno >? 0) && (varno <=? list_length (p_rtable context)))
              "Var is unexpected";
    match rt_fetch varno (p_rtable context) with
    | None => Error (ereport ERRCODE_ASSERT_FAILED "Var is unexpected")
    | Some rte =>
        let '(grouped, deps) :=
          if RTEKind_eqb (rtekind rte) RTE_RELATION
          then check_functional_grouping (relid rte) varno 0
                 (groupClauseCommonVars context) (constraintDeps context)
          else (false, constraintDeps context) in
        if grouped
        then Ok (set_func_grouped context (func_grouped_rels context ++ [varno]) deps)
        else
          let attname := ungrouped_attname rte varattno in
          if sublevels_up context =? 0
          then Error (err_ungrouped_column (aliasname (eref rte)) attname)
          else Error (err_ungrouped_outer_column (aliasname (eref rte)) attname)
    end.

Fixpoint check_ungrouped_columns_walker (node : Node)
    (context : check_ungrouped_columns_context)
    : res check_ungrouped_columns_context :=
  (* the statements from the GROUP BY expression match onwards *)
  let general := fun context : check_ungrouped_columns_context =>
    if matches_group_expr context node then Ok context
    else
      do _ <- (if is_Rownum node && (sublevels_up context =? 0)
               then find_rownum_in_groupby_clauses context else Ok tt);
      match node with
      | Var varno varattno varlevelsup _ =>
          check_ungrouped_var context varno varattno varlevelsup
      | Query clauses =>
          do context' <- query_tree_walker check_ungrouped_columns_walker clauses
                           (set_sublevels_up context (sublevels_up context + 1));
          Ok (set_sublevels_up context' (sublevels_up context' - 1))
      | _ => expression_tree_walker check_ungrouped_columns_walker node context
      end in
  match node with
  | Const _ | Param _ => Ok context
  | Aggref agglevelsup aggdirectargs _ _ =>
      if int_of_Index agglevelsup =? sublevels_up context then
        if in_agg_direct_args context then Error err_args_inside_direct_args
        else
          do context' <- walk_list check_ungrouped_columns_walker aggdirectargs
                           (set_in_agg_direct_args context true);
          Ok (set_in_agg_direct_args context' false)
      else if int_of_Index agglevelsup >? sublevels_up context then Ok context
      else general context
  | GroupingFunc agglevelsup _ _ =>
      if int_of_Index agglevelsup >=? sublevels_up context then Ok context
      else general context
  | _ => general context
  end.

Definition check_ungrouped_columns (node : option Node) (p_rtable : list RangeTblEntry)
    (constraintDeps : list Z) (groupClauses : list GroupTle)
    (groupClauseCommonVars : list Node) (have_non_var_grouping : bool)
    (func_grouped_rels : list Z) : res check_ungrouped_columns_context :=
  let context := mk_ungrouped_context p_rtable constraintDeps groupClauses
                   groupClauseCommonVars have_non_var_grouping func_grouped_rels
                   0 false in
  walk_opt check_ungrouped_columns_walker node context.

(** *** The variables the check looks at, as the specification words them

    [reached_vars] lists, as (range table index, attribute number, depth),
    the variables of the level under check that lie outside the aggregated
    arguments of an aggregate of that level, outside aggregates of a higher
    level, outside GROUPING calls of that level or above, and outside
    subexpressions equal to a GROUP BY expression.  [contained_vars] lists
    every variable of the level under check. *)
Section ReachedVars.

Variable have_non_var_grouping : bool.
Variable groupClauses : list GroupTle.

Fixpoint reached_vars (s : Z) (node : Node) : list (Z * Z * Z) :=
  let skip := group_expr_match have_non_var_grouping groupClauses s node in
  match node with
  | Const _ | Param _ | Rownum _ => []
  | Var varno varattno varlevelsup _ =>
      if varlevelsup =? uint32_wrap s then [(varno, varattno, s)] else []
  | Aggref agglevelsup aggdirectargs args _ =>
      if int_of_Index agglevelsup =? s then flat_map (reached_vars s) aggdirectargs
      else if int_of_Index agglevelsup >? s then []
      else if skip then []
      else flat_map (reached_vars s) aggdirectargs ++ flat_map (reached_vars s) args
  | GroupingFunc agglevelsup args _ =>
      if int_of_Index agglevelsup >=? s then []
      else if skip then [] else flat_map (reached_vars s) args
  | WindowFunc args _ => if skip then [] else flat_map (reached_vars s) args
  | FuncExpr _ _ args _ => if skip then [] else flat_map (reached_vars s) args
  | OpExpr _ _ args _ => if skip then [] else flat_map (reached_vars s) args
  | TargetEntry expr _ => if skip then [] else reached_vars s expr
  | SubLink testexpr subselect =>
      if skip then []
      else match testexpr with Some t => reached_vars s t | None => [] end
           ++ reached_vars s subselect
  | Query clauses => if skip then [] else flat_map (reached_vars (s + 1)) clauses
  | List_ elements => if skip then [] else flat_map (reached_vars s) elements
  end.

Fixpoint contained_vars (s : Z) (node : Node) : list (Z * Z * Z) :=
  match node with
  | Const _ | Param _ | Rownum _ => []
  | Var varno varattno varlevelsup _ =>
      if varlevelsup =? uint32_wrap s then [(varno, varattno, s)] else []
  | Aggref _ aggdirectargs args _ =>
      flat_map (contained_vars s) aggdirectargs ++ flat_map (contained_vars s) args
  | GroupingFunc _ args _ => flat_map (contained_vars s) args
  | WindowFunc args _ => flat_map (contained_vars s) args
  | FuncExpr _ _ args _ => flat_map (contained_vars s) args
  | OpExpr _ _ args _ => flat_map (contained_vars s) args
  | TargetEntry expr _ => contained_vars s expr
  | SubLink testexpr subselect =>
      match testexpr with Some t => contained_vars s t | None => [] end
      ++ contained_vars s subselect
  | Query clauses => flat_map (contained_vars (s + 1)) clauses
  | List_ elements => flat_map (contained_vars s) elements
  end.

(** (a) the variable is lexically equal to a GROUP BY expression, or (b) it
    matches a GROUP BY column by range table index and attribute number. *)
Definition var_grouped (v : Z * Z * Z) : bool :=
  let '(varno, varattno, s) := v in
  group_expr_match have_non_var_grouping groupClauses s
    (Var varno varattno (uint32_wrap s) 0)
  || group_var_match have_non_var_grouping groupClauses s varno varattno.

End ReachedVars.

(** (c) the variable's range table entry is a base relation that the
    grouping columns functionally determine. *)
Definition functionally_dependent (p_rtable : list RangeTblEntry)
    (groupClauseCommonVars : list Node) (varno : Z) : Prop :=
  exists rte, rt_fetch varno p_rtable = Some rte
              /\ rtekind rte = RTE_RELATION
              /\ functionally_grouped (relid rte) varno groupClauseCommonVars = true.

Definition constraints_of (p_rtable : list RangeTblEntry)
    (groupClauseCommonVars : list Node) (varno : Z) : list Z :=
  match rt_fetch varno p_rtable with
  | Some rte => grouping_constraints (relid rte) varno groupClauseCommonVars
  | None => []
  end.

(** The error for an ungrouped variable met at depth [s]. *)
Definition ungrouped_error (p_rtable : list RangeTblEntry) (v : Z * Z * Z)
    (e : ErrorData) : Prop :=
  let '(varno, varattno, s) := v in
  exists rte, rt_fetch varno p_rtable = Some rte
    /\ e = if s =? 0
           then err_ungrouped_column (aliasname (eref rte)) (ungrouped_attname rte varattno)
           else err_ungrouped_outer_column (aliasname (eref rte))
                  (ungrouped_attname rte varattno).

(** What a successful walk may change: range table indexes proven
    functionally dependent are appended, once each, to [func_grouped_rels],
    and their constraints to [constraintDeps]. *)
Definition grows (c c' : check_ungrouped_columns_context) : Prop :=
  p_rtable c' = p_rtable c
  /\ groupClauses c' = groupClauses c
  /\ groupClauseCommonVars c' = groupClauseCommonVars c
  /\ have_non_var_grouping c' = have_non_var_grouping c
  /\ exists new : list Z,
       func_grouped_rels c' = func_grouped_rels c ++ new
       /\ constraintDeps c'
          = constraintDeps c
            ++ flat_map (constraints_of (p_rtable c)
                           (groupClauseCommonVars c)) new
       /\ Forall (fun v => ~ In v (func_grouped_rels c) /\ functionally_dependent (p_rtable c) (groupClauseCommonVars c) v) new
       /\ NoDup new.

Definition accepted (c' : check_ungrouped_columns_context) (v : Z * Z * Z) : Prop :=
  var_grouped (have_non_var_grouping c') (groupClauses c') v = true
  \/ In (fst (fst v)) (func_grouped_rels c').

Definition rejected (c : check_ungrouped_columns_context) (v : Z * Z * Z)
    (e : ErrorData) : Prop :=
  var_grouped (have_non_var_grouping c) (groupClauses c) v = false
  /\ ~ In (fst (fst v)) (func_grouped_rels c)
  /\ ~ functionally_dependent (p_rtable c) (groupClauseCommonVars c) (fst (fst v))
  /\ ungrouped_error (p_rtable c) v e.

Definition other_error (e : ErrorData) : Prop :=
  e = err_args_inside_direct_args \/ e = err_rownum_ungrouped
  \/ errcode e = ERRCODE_ASSERT_FAILED.

Definition outcome (c : check_ungrouped_columns_context) (vars : list (Z * Z * Z))
    (r : res check_ungrouped_columns_context) : Prop :=
  match r with
  | Ok c' =>
      grows c c' /\ sublevels_up c' = sublevels_up c
      /\ in_agg_direct_args c' = in_agg_direct_args c
      /\ Forall (accepted c') vars
  | Error e => other_error e \/ exists v, In v vars /\ rejected c v e
  end.

End CheckUngroupedColumns.

(** Two contexts that differ only in the depth and direct-argument flags. *)
Definition same_tables (c0 c : check_ungrouped_columns_context) : Prop :=
  p_rtable c0 = p_rtable c /\ groupClauses c0 = groupClauses c
  /\ groupClauseCommonVars c0 = groupClauseCommonVars c
  /\ have_non_var_grouping c0 = have_non_var_grouping c
  /\ func_grouped_rels c0 = func_grouped_rels c
  /\ constraintDeps c0 = constraintDeps c.

(** *** The other errors of the walk

    The walk can also stop at a ROWNUM that the GROUP BY clause does not
    cover, at an aggregate met inside the direct arguments of an aggregate,
    and at a variable whose range table index is out of range. *)

(** [find_rownum_in_groupby_clauses] lets every ROWNUM pass: an item of the
    GROUP BY clause is no plain variable, or is ROWNUM itself. *)
Definition rownum_grouped (have_non_var_grouping : bool) (groupClauses : list GroupTle)
    : bool :=
  have_non_var_grouping || existsb (fun gl => is_Rownum (tle_expr gl)) groupClauses.

(** The expression holds a ROWNUM that is not let pass, or an aggregate with
    direct arguments. *)
Fixpoint stops_early (rownum_passes : bool) (node : Node) : bool :=
  match node with
  | Var _ _ _ _ | Const _ | Param _ => false
  | Rownum _ => negb rownum_passes
  | Aggref _ aggdirectargs args _ =>
      match aggdirectargs with
      | [] => existsb (stops_early rownum_passes) args
      | _ :: _ => true
      end
  | GroupingFunc _ args _ => existsb (stops_early rownum_passes) args
  | WindowFunc args _ => existsb (stops_early rownum_passes) args
  | FuncExpr _ _ args _ => existsb (stops_early rownum_passes) args
  | OpExpr _ _ args _ => existsb (stops_early rownum_passes) args
  | TargetEntry expr _ => stops_early rownum_passes expr
  | SubLink testexpr subselect =>
      match testexpr with Some t => stops_early rownum_passes t | None => false end
      || stops_early rownum_passes subselect
  | Query clauses => existsb (stops_early rownum_passes) clauses
  | List_ elements => existsb (stops_early rownum_passes) elements
  end.

(** The range table index of the variable points into the range table. *)
Definition in_range_table (p_rtable : list RangeTblEntry) (v : Z * Z * Z) : Prop :=
  0 < fst (fst v) <= list_length p_rtable.

End Grouping.

(** * parse_relation.cpp : unqualified name lookup *)

Module Rel.
Import Agg.

Record ParseNamespaceItem : Type := makeNamespaceItem {
  p_rte : RangeTblEntry;
  p_lateral_only : bool;
  p_lateral_ok : bool
}.

Inductive ParseExprKind : Type :=
| EXPR_KIND_NONE
| EXPR_KIND_OTHER
| EXPR_KIND_GENERATED_COLUMN.

(** The fields of [ParseState] that name lookup reads; the parent link makes
    the scope chain. *)
Inductive ParseState : Type := mkParseState {
  p_rtable : list RangeTblEntry;
  p_relnamespace : list ParseNamespaceItem;
  p_varnamespace : list ParseNamespaceItem;
  p_lateral_active : bool;
  use_level : bool;
  p_hasStartWith : bool;
  p_expr_kind : ParseExprKind;
  parentParseState : option ParseState
}.

Definition err_ambiguous_table (refname : string) : ErrorData :=
  ereportf ERRCODE_AMBIGUOUS_ALIAS
    (String.append "table reference "
       (String.append dq (String.append "%s" (String.append dq " is ambiguous"))))
    [refname].
Definition err_ambiguous_relid (relid : Z) : ErrorData :=
  ereportf ERRCODE_AMBIGUOUS_ALIAS "table reference %u is ambiguous" [].
Definition err_invalid_lateral_reference (refname : string) : ErrorData :=
  ereportf ERRCODE_INVALID_COLUMN_REFERENCE
    (String.append "invalid reference to FROM-clause entry for table "
       (String.append dq (String.append "%s" dq)))
    [refname].
Definition err_ambiguous_column (colname : string) : ErrorData :=
  ereportf ERRCODE_AMBIGUOUS_COLUMN
    (String.append "column reference "
       (String.append dq (String.append "%s" (String.append dq " is ambiguous"))))
    [colname].
Definition err_system_column_in_generated (colname : string) : ErrorData :=
  ereportf ERRCODE_INVALID_COLUMN_REFERENCE
    (String.append "cannot use system column "
       (String.append dq
          (String.append "%s" (String.append dq " in column generation expression"))))
    [colname].

(** An entry that is visible only to LATERAL references is passed over
    unless the scope is inside LATERAL. *)
Definition ignored (nsitem : ParseNamespaceItem) (lateral_active : bool) : bool :=
  p_lateral_only nsitem && negb lateral_active.

(** The [foreach] of [scanNameSpaceForRefname] over [p_relnamespace]. *)
Fixpoint scan_relnamespace (items : list ParseNamespaceItem) (lateral_active : bool)
    (refname : string) (result : option RangeTblEntry)
    : res (option RangeTblEntry) :=
  match items with
  | [] => Ok result
  | nsitem :: rest =>
      let rte := p_rte nsitem in
      if ignored nsitem lateral_active
      then scan_relnamespace rest lateral_active refname result
      else if String.eqb (aliasname (eref rte)) refname then
        match result with
        | Some _ => Error (err_ambiguous_table refname)
        | None =>
            (* SQL:2008 demands this be an error, not an invisible item *)
            if p_lateral_only nsitem && negb (p_lateral_ok nsitem)
            then Error (err_invalid_lateral_reference refname)
            else scan_relnamespace rest lateral_active refname (Some rte)
        end
      else scan_relnamespace rest lateral_active refname result
  end.

Definition scanNameSpaceForRefname (pstate : ParseState) (refname : string)
    (location : Z) : res (option RangeTblEntry) :=
  do result <- scan_relnamespace (p_relnamespace pstate) (p_lateral_active pstate)
                 refname None;
  (* start with ... connect by: hand out the converted CTE entry instead *)
  match result with
  | Some r =>
      if p_hasStartWith pstate && swAborted r then
        match find swConverted (p_rtable pstate) with
        | Some tbl => Ok (Some tbl)
        | None => Ok result
        end
      else Ok result
  | None => Ok result
  end.

Fixpoint scan_relnamespace_relid (items : list ParseNamespaceItem)
    (lateral_active : bool) (relid' : Z) (result : option RangeTblEntry)
    : res (option RangeTblEntry) :=
  match items with
  | [] => Ok result
  | nsitem :: rest =>
      let rte := p_rte nsitem in
      if ignored nsitem lateral_active
      then scan_relnamespace_relid rest lateral_active relid' result
      else if RTEKind_eqb (rtekind rte) RTE_RELATION && (relid rte =? relid')
              && match alias rte with None => true | Some _ => false end then
        match result with
        | Some _ => Error (err_ambiguous_relid relid')
        | None =>
            if p_lateral_only nsitem && negb (p_lateral_ok nsitem)
            then Error (err_invalid_lateral_reference (aliasname (eref rte)))
            else scan_relnamespace_relid rest lateral_active relid' (Some rte)
        end
      else scan_relnamespace_relid rest lateral_active relid' result
  end.

Definition scanNameSpaceForRelid (pstate : ParseState) (relid' : Z) (location : Z)
    : res (option RangeTblEntry) :=
  scan_relnamespace_relid (p_relnamespace pstate) (p_lateral_active pstate) relid' None.

Section NameLookup.

(** Catalog lookups and node construction that live outside this file. *)
Variable LookupNamespaceNoError : string -> option Z.
Variable get_relname_relid_extend : string -> Z -> option Z.
Variable make_var : ParseState -> RangeTblEntry -> Z -> Z -> res Node.
Variable ts_make_var : ParseState -> RangeTblEntry -> Z -> Z -> res (option Node).
Variable TS_PSEUDO_DIST_COLUMN : string.
Variable specialAttNum : string -> Z.
Variable SearchSysCacheExists2_ATTNUM : Z -> Z -> bool.
Variable get_rel_relkind : Z -> RelKind.

Definition InvalidAttrNumber : Z := 0.

(** The walk outward over the scope chain in [refnameRangeTblEntry];
    [sublevels_up] is [None] for a NULL pointer, and then only the current
    scope is searched. *)
Fixpoint refname_walk (pstate : ParseState) (relId : option Z) (refname : string)
    (location : Z) (sublevels_up : option Z)
    : res (option RangeTblEntry * option Z) :=
  do result <- match relId with
               | Some r => scanNameSpaceForRelid pstate r location
               | None => scanNameSpaceForRefname pstate refname location
               end;
  match result with
  | Some _ => Ok (result, sublevels_up)
  | None =>
      match sublevels_up with
      | Some n =>
          match parentParseState pstate with
          | Some parent => refname_walk parent relId refname location (Some (n + 1))
          | None => Ok (None, Some (n + 1))
          end
      | None => Ok (None, None)
      end
  end.

Definition refnameRangeTblEntry (pstate : ParseState) (schemaname : option string)
    (refname : string) (location : Z) (want_sublevels_up : bool)
    : res (option RangeTblEntry * option Z) :=
  let sublevels_up := if want_sublevels_up then Some 0 else None in
  match schemaname with
  | Some schema =>
      match LookupNamespaceNoError schema with
      | None => Ok (None, sublevels_up)
      | Some namespaceId =>
          match get_relname_relid_extend refname namespaceId with
          | None => Ok (None, sublevels_up)
          | Some relId => refname_walk pstate (Some relId) refname location sublevels_up
          end
      end
  | None => refname_walk pstate None refname location sublevels_up
  end.

(** The [foreach] of [scanRTEForColumn] over the column names of the entry.
    The marking of the entry for SELECT privilege is a side channel that does
    not bear on the result and is left out. *)
Fixpoint scan_colnames (pstate : ParseState) (rte : RangeTblEntry)
    (colnames : list string) (attnum : Z) (colname : string) (location : Z)
    (omit_excluded : bool) (result : option Node) : res (option Node) :=
  match colnames with
  | [] => Ok result
  | c :: rest =>
      let attnum := attnum + 1 in
      if omit_excluded && isexcluded rte
      then scan_colnames pstate rte rest attnum colname location omit_excluded result
      else if String.eqb c colname then
        match result with
        | Some _ => Error (err_ambiguous_column colname)
        | None =>
            if String.eqb TS_PSEUDO_DIST_COLUMN colname then
              do var <- ts_make_var pstate rte attnum location;
              match var with
              | None =>
                  scan_colnames pstate rte rest attnum colname location omit_excluded
                    result
              | Some v =>
                  scan_colnames pstate rte rest attnum colname location omit_excluded
                    (Some v)
              end
            else
              do var <- make_var pstate rte attnum location;
              scan_colnames pstate rte rest attnum colname location omit_excluded
                (Some var)
        end
      else scan_colnames pstate rte rest attnum colname location omit_excluded result
  end.

Definition is_relkind (a b : RelKind) : bool :=
  match a, b with
  | RELKIND_RELATION, RELKIND_RELATION | RELKIND_VIEW, RELKIND_VIEW
  | RELKIND_FOREIGN_TABLE, RELKIND_FOREIGN_TABLE | RELKIND_STREAM, RELKIND_STREAM
  | RELKIND_CONTQUERY, RELKIND_CONTQUERY | RELKIND_OTHER, RELKIND_OTHER => true
  | _, _ => false
  end.

Definition is_generated_column (k : ParseExprKind) : bool :=
  match k with EXPR_KIND_GENERATED_COLUMN => true | _ => false end.

Definition scanRTEForColumn (pstate : ParseState) (rte : RangeTblEntry)
    (colname : string) (location : Z) (omit_excluded : bool) : res (option Node) :=
  do result <- scan_colnames pstate rte (colnames (eref rte)) 0 colname location
                 omit_excluded None;
  match result with
  | Some _ => Ok result
  | None =>
      (* a real table: consider the system column names *)
      if RTEKind_eqb (rtekind rte) RTE_RELATION
         && negb (is_relkind (relkind rte) RELKIND_FOREIGN_TABLE)
         && negb (is_relkind (relkind rte) RELKIND_STREAM)
      then
        let attnum := specialAttNum colname in
        if is_generated_column (p_expr_kind pstate) && (attnum <? InvalidAttrNumber)
        then Error (err_system_column_in_generated colname)
        else if negb (attnum =? InvalidAttrNumber) then
          if SearchSysCacheExists2_ATTNUM (relid rte) attnum
             && negb (is_relkind (get_rel_relkind (relid rte)) RELKIND_VIEW)
             && negb (is_relkind (get_rel_relkind (relid rte)) RELKIND_CONTQUERY)
          then do var <- make_var pstate rte attnum location; Ok (Some var)
          else Ok None
        else Ok None
      else Ok None
  end.

(** The [foreach] of [colNameToVar] over [p_varnamespace] of one scope;
    the pair is [result] and [*final_rte]. *)
Fixpoint scan_varnamespace (orig_pstate : ParseState)
    (items : list ParseNamespaceItem) (lateral_active use_level' : bool)
    (colname : string) (location : Z)
    (result : option Node) (final_rte : option RangeTblEntry)
    : res (option Node * option RangeTblEntry) :=
  match items with
  | [] => Ok (result, final_rte)
  | nsitem :: rest =>
      let rte := p_rte nsitem in
      if ignored nsitem lateral_active
      then scan_varnamespace orig_pstate rest lateral_active use_level' colname
             location result final_rte
      else
        (* use orig_pstate here to get the right sublevels_up *)
        do newresult <- scanRTEForColumn orig_pstate rte colname location true;
        match newresult with
        | None =>
            scan_varnamespace orig_pstate rest lateral_active use_level' colname
              location result final_rte
        | Some _ =>
            let final_rte := Some rte in
            match result with
            | Some _ =>
                (* same name in both entries: with use_level the earlier
                   entry of the list takes precedence *)
                if use_level' then Ok (result, final_rte)
                else Error (err_ambiguous_column colname)
            | None =>
                if p_lateral_only nsitem && negb (p_lateral_ok nsitem)
                then Error (err_invalid_lateral_reference (aliasname (eref rte)))
                else scan_varnamespace orig_pstate rest lateral_active use_level'
                       colname location newresult final_rte
            end
        end
  end.

Fixpoint colNameToVar_walk (orig_pstate pstate : ParseState) (colname : string)
    (localonly : bool) (location : Z) (final_rte : option RangeTblEntry)
    : res (option Node * option RangeTblEntry) :=
  do '(result, final_rte) <-
    scan_varnamespace orig_pstate (p_varnamespace pstate) (p_lateral_active pstate)
      (use_level pstate) colname location None final_rte;
  match result with
  | Some _ => Ok (result, final_rte)
  | None =>
      if localonly then Ok (result, final_rte)
      else
        match parentParseState pstate with
        | Some parent =>
            colNameToVar_walk orig_pstate parent colname localonly location final_rte
        | None => Ok (result, final_rte)
        end
  end.

Definition colNameToVar (pstate : ParseState) (colname : string) (localonly : bool)
    (location : Z) : res (option Node * option RangeTblEntry) :=
  colNameToVar_walk pstate pstate colname localonly location None.

(** *** The candidates of a lookup, as the specification words them *)

Section OneScope.

Variable orig_pstate : ParseState.
Variable lateral_active : bool.
Variable colname : string.
Variable location : Z.

(** A visible candidate for the column: an entry of the namespace that is
    not passed over and in which the column is found. *)
Definition column_candidate (nsitem : ParseNamespaceItem) : Prop :=
  ignored nsitem lateral_active = false
  /\ exists v, scanRTEForColumn orig_pstate (p_rte nsitem) colname location true = Ok (Some v).

(** The errors the scan of one scope can raise. *)
Definition column_lookup_error (items : list ParseNamespaceItem) (e : ErrorData)
    : Prop :=
  e = err_ambiguous_column colname
  \/ (exists nsitem, In nsitem items
        /\ p_lateral_only nsitem = true /\ p_lateral_ok nsitem = false
        /\ e = err_invalid_lateral_reference (aliasname (eref (p_rte nsitem))))
  \/ (exists nsitem, In nsitem items
        /\ scanRTEForColumn orig_pstate (p_rte nsitem) colname location true = Error e).

End OneScope.

End NameLookup.

(** A visible candidate for the table name. *)
Definition table_candidate (lateral_active : bool) (refname : string)
    (nsitem : ParseNamespaceItem) : Prop :=
  ignored nsitem lateral_active = false
  /\ aliasname (eref (p_rte nsitem)) = refname.

End Rel.

(** * parse_target.cpp : assignment coercion *)

Module Target.

(** The expression nodes that [transformAssignedExpr] tells apart. *)
Inductive Expr : Type :=
| SetToDefault (typeId typeMod collation : Z)
| Param (paramid paramtype : Z)
| Const (consttype consttypmod constcollid constlen constvalue : Z)
        (constisnull constbyval : bool)
| Var (varno varattno : Z)
| OtherExpr (tag : Z) (args : list Expr).

Inductive IndirectionItem : Type :=
| A_Indices
| FieldName (name : string).

Inductive CoercionForm : Type := COERCE_EXPLICIT_CAST | COERCE_IMPLICIT_CAST.
Inductive TdTruncCastStatus : Type :=
| UNINVOLVED_QUERY | NOT_CAST_BECAUSEOF_GUC | TRUNC_CAST_QUERY.

Inductive ParseExprKind : Type :=
| EXPR_KIND_NONE | EXPR_KIND_INSERT_TARGET | EXPR_KIND_UPDATE_TARGET | EXPR_KIND_OTHER.

Record Form_pg_attribute : Type := mkAttribute {
  atttypmod : Z;
  attcollation : Z;
  attlen : Z;
  attbyval : bool
}.

Record RelationData : Type := mkRelation {
  rd_id : Z;
  rd_isblockchain : bool;
  rd_att : list Form_pg_attribute
}.

Record ParseState : Type := mkParseState {
  p_expr_kind : ParseExprKind;
  p_is_insert : bool;
  p_is_td_compatible_truncation : bool;
  tdTruncCastStatus : TdTruncCastStatus;
  p_has_ignore : bool
}.

Definition set_p_expr_kind (pstate : ParseState) (k : ParseExprKind) : ParseState :=
  mkParseState k (p_is_insert pstate) (p_is_td_compatible_truncation pstate)
    (tdTruncCastStatus pstate) (p_has_ignore pstate).

Definition set_tdTruncCastStatus (pstate : ParseState) (s : TdTruncCastStatus)
    : ParseState :=
  mkParseState (p_expr_kind pstate) (p_is_insert pstate)
    (p_is_td_compatible_truncation pstate) s (p_has_ignore pstate).

(** Modelled from the spec: constants, macros and node constructors of the
    headers and of makefuncs.cpp, which are not among the sources. *)
Definition PG_INVALID_ENCODING : Z := -1.
Definition OidIsValid (oid : Z) : bool := negb (oid =? 0).

Definition makeConst (consttype consttypmod constcollid constlen constvalue : Z)
    (constisnull constbyval : bool) : Expr :=
  Const consttype consttypmod constcollid constlen constvalue constisnull constbyval.

Definition type_mismatch_format : string :=
  String.append "column "
    (String.append dq
       (String.append "%s"
          (String.append dq " is of type %s but expression is of type %s"))).

Definition err_system_column (colname : string) : ErrorData :=
  ereportf ERRCODE_FEATURE_NOT_SUPPORTED
    (String.append "cannot assign to system column "
       (String.append dq (String.append "%s" dq))) [colname].
Definition err_array_element_default : ErrorData :=
  ereport ERRCODE_FEATURE_NOT_SUPPORTED "cannot set an array element to DEFAULT".
Definition err_subfield_default : ErrorData :=
  ereport ERRCODE_FEATURE_NOT_SUPPORTED "cannot set a subfield to DEFAULT".
Definition err_invalid_encrypted_column (colname attrtype type_id : string) : ErrorData :=
  ereportf ERRCODE_INVALID_ENCRYPTED_COLUMN_DATA type_mismatch_format
    [colname; attrtype; type_id].
Definition err_datatype_mismatch (colname attrtype type_id : string) : ErrorData :=
  ereportf ERRCODE_DATATYPE_MISMATCH type_mismatch_format [colname; attrtype; type_id].
(** The WARNING of the ignore mode; it is reported and analysis goes on. *)
Definition warn_data_truncated (colname attrtype type_id : string) : ErrorData :=
  ereportf ERRCODE_DATATYPE_MISMATCH
    (String.append type_mismatch_format ". Data truncated automatically.")
    [colname; attrtype; type_id].

Section TransformAssignedExpr.

(** Type identifiers of the catalog headers. *)
Variable BPCHAROID VARCHAROID : Z.
Variable BYTEAWITHOUTORDERWITHEQUALCOLOID BYTEAWITHOUTORDERCOLOID : Z.
(** Session and build settings. *)
Variable DB_IS_CMPT_B_FORMAT : bool.
Variable ENABLE_MULTIPLE_NODES : bool.
(** Catalog and node services. *)
Variable attnumTypeId : RelationData -> Z -> res Z.
Variable get_valid_charset_by_collation : Z -> Z.
Variable exprType : option Expr -> Z.
Variable exprTypmod : option Expr -> Z.
Variable format_type_be : Z -> string.
Variable type_is_set : Z -> bool.
Variable IsClientLogicType : Z -> bool.
Variable GetTypeZeroValue : Form_pg_attribute -> Z.
Variable makeNullConst : Z -> Z -> Z -> Expr.
Variable make_var : ParseState -> RangeTblEntry -> Z -> Z -> res Expr.
(** The coercion service: [None] is the NULL it returns when no assignment
    coercion exists. *)
Variable coerce_to_settype :
  ParseState -> option Expr -> Z -> Z -> Z -> CoercionForm -> Z -> Z -> res (option Expr).
Variable coerce_to_target_type :
  ParseState -> option Expr -> Z -> Z -> Z -> CoercionForm -> Z -> res (option Expr).
Variable transformAssignmentIndirection :
  ParseState -> Expr -> string -> bool -> Z -> Z -> Z -> list IndirectionItem ->
  option Expr -> Z -> res (option Expr).
Variable assign_expr_collations : ParseState -> option Expr -> res (option Expr).
Variable coerce_to_target_charset : option Expr -> Z -> Z -> Z -> Z -> res (option Expr).
(** [pstate->p_create_proc_insert_hook], NULL when not creating a procedure. *)
Variable p_create_proc_insert_hook : option (Z -> Z -> Z -> string -> res unit).

Definition is_Param (e : option Expr) : option Z :=
  match e with Some (Param paramid _) => Some paramid | _ => None end.

(** Lines 478-493: the first attempt at assignment coercion. *)
Definition coerce_assigned_expr (pstate : ParseState) (orig_expr : option Expr)
    (type_id type_mod attrtype attrtypmod attrcollation : Z)
    : res (option Expr * ParseState) :=
  let is_all_satisfied :=
    p_is_td_compatible_truncation pstate
    && ((attrtype =? BPCHAROID) || (attrtype =? VARCHAROID))
    && (((type_mod >? 0) && (attrtypmod <? type_mod)) || (type_mod <? 0)) in
  if type_is_set attrtype then
    do expr <- coerce_to_settype pstate orig_expr type_id attrtype attrtypmod
                 COERCE_IMPLICIT_CAST (-1) attrcollation;
    Ok (expr, pstate)
  else if is_all_satisfied then
    do expr <- coerce_to_target_type pstate orig_expr type_id attrtype attrtypmod
                 COERCE_EXPLICIT_CAST (-1);
    Ok (expr, set_tdTruncCastStatus pstate TRUNC_CAST_QUERY)
  else
    do expr <- coerce_to_target_type pstate orig_expr type_id attrtype attrtypmod
                 COERCE_IMPLICIT_CAST (-1);
    Ok (expr, pstate).

(** Lines 494-503: inside CREATE PROCEDURE the type of an input parameter
    bound to a client-logic column is changed and the coercion is retried.
    The pair is the expression and [type_id]. *)
Definition retry_client_logic_param (pstate : ParseState) (rd : RelationData)
    (colname : string) (orig_expr : option Expr)
    (type_id attrtype attrtypmod : Z) : res (option Expr * Z) :=
  match is_Param orig_expr, p_create_proc_insert_hook with
  | Some paramid, Some hook =>
      if IsClientLogicType attrtype then
        let param_no := paramid - 1 in
        do _ <- hook param_no attrtype (rd_id rd) colname;
        let type_id := attrtype in
        do expr <- coerce_to_target_type pstate orig_expr type_id attrtype attrtypmod
                     COERCE_IMPLICIT_CAST (-1);
        Ok (expr, type_id)
      else Ok (None, type_id)
  | _, _ => Ok (None, type_id)
  end.

(** Lines 504-533: no coercion was found.  The pair is the substituted
    expression and the warnings reported. *)
Definition reject_or_substitute (pstate : ParseState) (colname : string)
    (attr : Form_pg_attribute) (orig_expr : option Expr)
    (type_id attrtype attrtypmod attrcollation : Z)
    : res (option Expr * list ErrorData) :=
  do invalid_encrypted_column <-
    (if (attrtype =? BYTEAWITHOUTORDERWITHEQUALCOLOID)
        || (attrtype =? BYTEAWITHOUTORDERCOLOID)
     then
       do e <- coerce_to_target_type pstate orig_expr type_id attrtypmod (-1)
                 COERCE_IMPLICIT_CAST (-1);
       Ok (match e with Some _ => true | None => false end)
     else Ok false);
  if invalid_encrypted_column then
    Error (err_invalid_encrypted_column colname (format_type_be attrtype)
             (format_type_be type_id))
  else if negb (p_has_ignore pstate) then
    Error (err_datatype_mismatch colname (format_type_be attrtype)
             (format_type_be type_id))
  else
    Ok (Some (makeConst attrtype attrtypmod attrcollation (attlen attr)
                (GetTypeZeroValue attr) false (attbyval attr)),
        [warn_data_truncated colname (format_type_be attrtype)
           (format_type_be type_id)]).

(** Lines 535-540: conversion to the character set of the column. *)
Definition coerce_to_column_charset (pstate : ParseState) (expr : option Expr)
    (attrcharset attrtype attrtypmod attrcollation : Z) : res (option Expr) :=
  if negb ENABLE_MULTIPLE_NODES && negb (attrcharset =? PG_INVALID_ENCODING) then
    do expr <- assign_expr_collations pstate expr;
    coerce_to_target_charset expr attrcharset attrtype attrtypmod attrcollation
  else Ok expr.

(** A DEFAULT placeholder takes the type, typmod and collation of the column
    and cannot be assigned to a subfield or an array element. *)
Definition type_default_placeholder (expr : option Expr)
    (indirection : list IndirectionItem) (attrtype attrtypmod attrcollation : Z)
    : res (option Expr) :=
  match expr with
  | Some (SetToDefault _ _ _) =>
      match indirection with
      | [] => Ok (Some (SetToDefault attrtype attrtypmod attrcollation))
      | A_Indices :: _ => Error err_array_element_default
      | _ :: _ => Error err_subfield_default
      end
  | _ => Ok expr
  end.

Definition column_charset (attrcollation : Z) : Z :=
  if DB_IS_CMPT_B_FORMAT && OidIsValid attrcollation
  then get_valid_charset_by_collation attrcollation
  else PG_INVALID_ENCODING.

Definition transformAssignedExpr (pstate : ParseState) (expr : option Expr)
    (exprKind : ParseExprKind) (colname : string) (attrno : Z)
    (indirection : list IndirectionItem) (location : Z)
    (rd : option RelationData) (rte : RangeTblEntry)
    : res (option Expr * ParseState * list ErrorData) :=
  let sv_expr_kind := p_expr_kind pstate in
  let pstate := set_p_expr_kind pstate exprKind in
  match rd with
  | None => Error (ereport ERRCODE_ASSERT_FAILED "")
  | Some rd =>
      let is_system_column :=
        (attrno <=? 0) || (rd_isblockchain rd && String.eqb colname "hash") in
      if is_system_column then Error (err_system_column colname)
      else
        do attrtype <- attnumTypeId rd attrno;
        match nth_error (rd_att rd) (Z.to_nat (attrno - 1)) with
        | None => Error (ereport ERRCODE_INTERNAL_ERROR "invalid attribute number")
        | Some attr =>
            let attrtypmod := atttypmod attr in
            let attrcollation := attcollation attr in
            let attrcharset := column_charset attrcollation in
            do expr <- type_default_placeholder expr indirection attrtype attrtypmod
                         attrcollation;
            let type_id := exprType expr in
            let type_mod := exprTypmod expr in
            do '(expr, pstate, warnings) <-
              match indirection with
              | _ :: _ =>
                  do colVar <-
                    (if p_is_insert pstate
                     then Ok (makeNullConst attrtype attrtypmod attrcollation)
                     else make_var pstate rte attrno location);
                  do expr <- transformAssignmentIndirection pstate colVar colname false
                               attrtype attrtypmod attrcollation indirection expr
                               location;
                  Ok (expr, pstate, [])
              | [] =>
                  (* a plain target column: type checking and coercion *)
                  let orig_expr := expr in
                  do '(expr, pstate) <-
                    coerce_assigned_expr pstate orig_expr type_id type_mod attrtype
                      attrtypmod attrcollation;
                  do '(expr, type_id) <-
                    match expr with
                    | Some _ => Ok (expr, type_id)
                    | None =>
                        retry_client_logic_param pstate rd colname orig_expr type_id
                          attrtype attrtypmod
                    end;
                  match expr with
                  | Some _ => Ok (expr, pstate, [])
                  | None =>
                      do '(expr, warnings) <-
                        reject_or_substitute pstate colname attr orig_expr type_id
                          attrtype attrtypmod attrcollation;
                      Ok (expr, pstate, warnings)
                  end
              end;
            do expr <- coerce_to_column_charset pstate expr attrcharset attrtype
                         attrtypmod attrcollation;
            Ok (expr, set_p_expr_kind pstate sv_expr_kind, warnings)
        end
  end.

(** *** The cases of a failed coercion, as the specification words them *)

(** The column is an encrypted column and the expression coerces to the
    type the column encrypts (kept in its typmod). *)
Definition invalid_encrypted_column (pstate : ParseState) (orig_expr : option Expr)
    (type_id attrtype attrtypmod : Z) : Prop :=
  ((attrtype =? BYTEAWITHOUTORDERWITHEQUALCOLOID)
   || (attrtype =? BYTEAWITHOUTORDERCOLOID) = true)
  /\ exists e, coerce_to_target_type pstate orig_expr type_id attrtypmod (-1)
                 COERCE_IMPLICIT_CAST (-1) = Ok (Some e).

Definition not_encrypted_column (pstate : ParseState) (orig_expr : option Expr)
    (type_id attrtype attrtypmod : Z) : Prop :=
  ((attrtype =? BYTEAWITHOUTORDERWITHEQUALCOLOID)
   || (attrtype =? BYTEAWITHOUTORDERCOLOID) = false)
  \/ coerce_to_target_type pstate orig_expr type_id attrtypmod (-1)
       COERCE_IMPLICIT_CAST (-1) = Ok None.

(** The constant that the ignore mode puts in place of the value. *)
Definition zero_value_const (attr : Form_pg_attribute) (attrtype : Z) : Expr :=
  makeConst attrtype (atttypmod attr) (attcollation attr) (attlen attr)
    (GetTypeZeroValue attr) false (attbyval attr).

End TransformAssignedExpr.

End Target.

(** * parse_startwith.cpp : START WITH / CONNECT BY rewriting *)

Module StartWith.

(** ** Raw parse trees

    The statement as the grammar leaves it, one constructor per node tag.
    [copyObject] is the identity on these values, and a routine that updates a
    node in place returns the node it leaves behind.  The trees are taken
    without sharing between siblings (the source copies where it expects
    sharing). *)

Inductive A_Expr_Kind : Type :=
| AEXPR_OP | AEXPR_AND | AEXPR_OR | AEXPR_NOT | AEXPR_OP_ANY | AEXPR_OP_ALL
| AEXPR_DISTINCT | AEXPR_NULLIF | AEXPR_OF | AEXPR_IN.

(** The [Value] held by an [A_Const], by its tag. *)
Inductive Value : Type :=
| T_Integer (ival : Z)
| T_Float (str : string)
| T_String (str : string)
| T_BitString (str : string)
| T_Null.

(** [makeNode] zeroes a node, which leaves [JOIN_INNER] and [SETOP_NONE]. *)
Inductive JoinType : Type :=
| JOIN_INNER | JOIN_LEFT | JOIN_FULL | JOIN_RIGHT | JOIN_SEMI | JOIN_ANTI.

Inductive SetOperation : Type :=
| SETOP_NONE | SETOP_UNION | SETOP_INTERSECT | SETOP_EXCEPT.

(** The kinds that this file assigns or switches on; [CONNECT_BY_OTHER]
    stands for any other value of the enumeration. *)
Inductive StartWithConnectByType : Type :=
| CONNECT_BY_PRIOR | CONNECT_BY_LEVEL | CONNECT_BY_ROWNUM | CONNECT_BY_MIXED_LEVEL
| CONNECT_BY_OTHER (tag : Z).

(** The fields of a [ColumnRef] are its name parts; [OtherNode] stands for a
    node kind without sub-expressions that the file has no case for. *)
Inductive Node : Type :=
| ColumnRef (fields : list string) (prior : bool) (location : Z)
| A_Const (val : Value) (location : Z)
| A_Expr (kind : A_Expr_Kind) (name : list string) (lexpr rexpr : option Node)
    (location : Z)
| NullTest (arg : option Node)
| SubLink (testexpr subselect : option Node)
| CoalesceExpr (args : list Node)
| CollateClause (arg : option Node)
| TypeCast (arg : option Node) (typeName : string)
| List_ (elements : list Node)
| A_ArrayExpr (elements : list Node)
| FuncCall (funcname : list string) (args : list Node)
| A_Indirection (arg : option Node) (indirection : list Node)
| ParamRef (number : Z)
| Rownum
| RangeVar (schemaname : option string) (relname : string) (alias : option string)
    (location : Z)
| RangeSubselect (subquery : option Node) (alias : option string)
| RangeTimeCapsule
| RangeTableSample
| JoinExpr (jointype : JoinType) (isNatural : bool) (larg rarg : option Node)
    (usingClause : list string) (quals : option Node)
| ResTarget (name : option string) (val : option Node) (location : Z)
| SelectStmt (targetList fromClause : list Node)
    (whereClause withClause startWithClause : option Node)
    (op : SetOperation) (all : bool) (larg rarg : option Node)
| WithClause (ctes : list Node) (recursive : bool)
| CommonTableExpr (ctename : string) (ctequery swoptions : option Node)
| StartWithOptions (siblings_orderby_clause : list Node)
    (connect_by_type : StartWithConnectByType)
    (connect_by_level_quals : option Agg.Node)
    (connect_by_other_quals : option Node) (nocycle : bool)
| StartWithClause (startWithExpr connectByExpr : option Node)
    (siblingsOrderBy : list Node) (nocycle : bool)
| OtherNode (tag : Z).

(** Modelled from the spec: [makeRangeVar(schemaname, relname, location)] and
    [makeA_Expr(kind, name, lexpr, rexpr, location)] are defined in
    makefuncs.cpp, which is not among the sources; they fill a new node with
    their arguments. *)
Definition makeRangeVar (schemaname : option string) (relname : string)
    (location : Z) : Node :=
  RangeVar schemaname relname None location.

Definition makeA_Expr (kind : A_Expr_Kind) (name : list string)
    (lexpr rexpr : option Node) (location : Z) : Node :=
  A_Expr kind name lexpr rexpr location.

Definition makeIntConst (val : Z) (location : Z) : Node :=
  A_Const (T_Integer val) location.

(** Modelled from the spec: the macro [strVal] of value.h, which is not among
    the sources, read on a [Value] whose string may be NULL; the source hands a
    NULL name on only for targets that [AddStartWithTargetRelInfo] never
    builds. *)
Definition strVal (s : option string) : string :=
  match s with Some s => s | None => "" end.

Definition strlen (s : string) : Z := Z.of_nat (String.length s).

(** [strstr(haystack, needle) != NULL] *)
Fixpoint strstr (haystack needle : string) : bool :=
  if String.prefix needle haystack then true
  else match haystack with
       | EmptyString => false
       | String _ rest => strstr rest needle
       end.

(** Modelled from the spec: [NameListToString] is defined in namespace.cpp,
    which is not among the sources; it joins the name parts by dots. *)
Definition NameListToString (names : list string) : string :=
  String.concat "." names.

(** *** Tree walking *)

(** A walker is applied to the nodes of a list in turn, and to a node that is
    there. *)
Definition walk_nodes {C : Type} (walker : Node -> C -> C)
    : list Node -> C -> C :=
  fix go (l : list Node) (c : C) : C :=
    match l with
    | [] => c
    | n :: rest => go rest (walker n c)
    end.

Definition walk_node {C : Type} (walker : Node -> C -> C)
    (node : option Node) (c : C) : C :=
  match node with
  | Some n => walker n c
  | None => c
  end.

(** Modelled from the spec: [raw_expression_tree_walker] is defined in
    nodeFuncs.cpp, which is not among the sources; the spec calls it a
    recursive tree-walk helper.  [raw_expression_tree_walker(node, walker,
    context)] applies the walker to each child of the node, in field order, and
    not to the node itself: [walker_to_exclude_non_join_quals] and
    [count_columnref_walker] hand it the very node they are at in order to
    reach its operands.  A list-valued field reaches the walker as a [List]
    node; the walkers that use this form pass a [List] on to its elements, so
    the elements are walked here.  Of a sub-SELECT the clauses modelled here
    are walked. *)
Definition raw_expression_tree_walker {C : Type} (walker : Node -> C -> C)
    (node : Node) (c : C) : C :=
  match node with
  | ColumnRef _ _ _ | A_Const _ _ | ParamRef _ | Rownum | RangeVar _ _ _ _
  | RangeTimeCapsule | RangeTableSample | StartWithOptions _ _ _ _ _
  | StartWithClause _ _ _ _ | OtherNode _ => c
  | A_Expr _ _ lexpr rexpr _ => walk_node walker rexpr (walk_node walker lexpr c)
  | NullTest arg => walk_node walker arg c
  | SubLink testexpr subselect =>
      walk_node walker subselect (walk_node walker testexpr c)
  | CoalesceExpr args => walk_nodes walker args c
  | CollateClause arg => walk_node walker arg c
  | TypeCast arg _ => walk_node walker arg c
  | List_ elements => walk_nodes walker elements c
  | A_ArrayExpr elements => walk_nodes walker elements c
  | FuncCall _ args => walk_nodes walker args c
  | A_Indirection arg indirection =>
      walk_nodes walker indirection (walk_node walker arg c)
  | RangeSubselect subquery _ => walk_node walker subquery c
  | JoinExpr _ _ larg rarg _ quals =>
      walk_node walker quals (walk_node walker rarg (walk_node walker larg c))
  | ResTarget _ val _ => walk_node walker val c
  | SelectStmt targetList fromClause whereClause withClause _ _ _ larg rarg =>
      walk_node walker rarg
        (walk_node walker larg
           (walk_node walker withClause
              (walk_node walker whereClause
                 (walk_nodes walker fromClause
                    (walk_nodes walker targetList c)))))
  | WithClause ctes _ => walk_nodes walker ctes c
  | CommonTableExpr _ ctequery _ => walk_node walker ctequery c
  end.

(** Modelled from the spec: the same traversal of [raw_expression_tree_walker]
    for a walker that updates the nodes it visits in place: every child is
    replaced by what the walker leaves at its address. *)
Definition raw_expression_tree_update (walker : Node -> Node) (node : Node) : Node :=
  match node with
  | ColumnRef _ _ _ | A_Const _ _ | ParamRef _ | Rownum | RangeVar _ _ _ _
  | RangeTimeCapsule | RangeTableSample | StartWithOptions _ _ _ _ _
  | StartWithClause _ _ _ _ | OtherNode _ => node
  | A_Expr kind name lexpr rexpr location =>
      A_Expr kind name (option_map walker lexpr) (option_map walker rexpr) location
  | NullTest arg => NullTest (option_map walker arg)
  | SubLink testexpr subselect =>
      SubLink (option_map walker testexpr) (option_map walker subselect)
  | CoalesceExpr args => CoalesceExpr (map walker args)
  | CollateClause arg => CollateClause (option_map walker arg)
  | TypeCast arg typeName => TypeCast (option_map walker arg) typeName
  | List_ elements => List_ (map walker elements)
  | A_ArrayExpr elements => A_ArrayExpr (map walker elements)
  | FuncCall funcname args => FuncCall funcname (map walker args)
  | A_Indirection arg indirection =>
      A_Indirection (option_map walker arg) (map walker indirection)
  | RangeSubselect subquery alias => RangeSubselect (option_map walker subquery) alias
  | JoinExpr jointype isNatural larg rarg usingClause quals =>
      JoinExpr jointype isNatural (option_map walker larg) (option_map walker rarg)
        usingClause (option_map walker quals)
  | ResTarget name val location => ResTarget name (option_map walker val) location
  | SelectStmt targetList fromClause whereClause withClause startWithClause op all
      larg rarg =>
      SelectStmt (map walker targetList) (map walker fromClause)
        (option_map walker whereClause) (option_map walker withClause)
        startWithClause op all (option_map walker larg) (option_map walker rarg)
  | WithClause ctes recursive => WithClause (map walker ctes) recursive
  | CommonTableExpr ctename ctequery swoptions =>
      CommonTableExpr ctename (option_map walker ctequery) swoptions
  end.

(** ** The rewriting state *)

Record StartWithTargetRelInfo : Type := mkStartWithTargetRelInfo {
  relname : option string;
  aliasname : option string;
  rte : RangeTblEntry;
  rtekind : RTEKind;
  tblstmt : Node;
  columns : list string
}.

(** The parse state fields that the rewriting reads and writes.  The column
    reference hooks stand for [p_pre_columnref_hook] and
    [p_post_columnref_hook] applied to the state. *)
Record ParseState : Type := mkParseState {
  p_start_info : list StartWithTargetRelInfo;
  p_pre_columnref_hook : option (Node -> option Agg.Node);
  p_post_columnref_hook : option (Node -> option Agg.Node -> option Agg.Node);
  origin_with : option Node;
  p_ctenamespace : list Node;
  p_hasStartWith : bool;
  p_sw_selectstmt : Node;
  p_hasModifyingCTE : bool
}.

Definition set_p_ctenamespace (pstate : ParseState)
    (v : list Node) : ParseState :=
  mkParseState
    (p_start_info pstate) (p_pre_columnref_hook pstate)
    (p_post_columnref_hook pstate) (origin_with pstate) v
    (p_hasStartWith pstate) (p_sw_selectstmt pstate) (p_hasModifyingCTE pstate).
Definition set_p_hasStartWith (pstate : ParseState)
    (v : bool) : ParseState :=
  mkParseState
    (p_start_info pstate) (p_pre_columnref_hook pstate)
    (p_post_columnref_hook pstate) (origin_with pstate) (p_ctenamespace pstate)
    v (p_sw_selectstmt pstate) (p_hasModifyingCTE pstate).
Definition set_p_sw_selectstmt (pstate : ParseState)
    (v : Node) : ParseState :=
  mkParseState
    (p_start_info pstate) (p_pre_columnref_hook pstate)
    (p_post_columnref_hook pstate) (origin_with pstate) (p_ctenamespace pstate)
    (p_hasStartWith pstate) v (p_hasModifyingCTE pstate).

Record StartWithTransformContext : Type := mkStartWithTransformContext {
  pstate : ParseState;
  relInfoList : list StartWithTargetRelInfo;
  where_infos : list StartWithTargetRelInfo;
  connectby_prior_name : list string;
  startWithExpr : option Node;
  connectByExpr : option Node;
  whereClause : option Node;
  siblingsOrderBy : list Node;
  rownum_or_level_list : list Node;
  normal_list : list Node;
  is_where : bool;
  connect_by_type : StartWithConnectByType;
  fromClause : list Node;
  connectByLevelExpr : option Node;
  connectByOtherExpr : option Node;
  nocycle : bool
}.

Definition set_relInfoList (context : StartWithTransformContext)
    (v : list StartWithTargetRelInfo) : StartWithTransformContext :=
  mkStartWithTransformContext
    (pstate context) v (where_infos context) (connectby_prior_name context)
    (startWithExpr context) (connectByExpr context) (whereClause context)
    (siblingsOrderBy context) (rownum_or_level_list context)
    (normal_list context) (is_where context) (connect_by_type context)
    (fromClause context) (connectByLevelExpr context)
    (connectByOtherExpr context) (nocycle context).
Definition set_where_infos (context : StartWithTransformContext)
    (v : list StartWithTargetRelInfo) : StartWithTransformContext :=
  mkStartWithTransformContext
    (pstate context) (relInfoList context) v (connectby_prior_name context)
    (startWithExpr context) (connectByExpr context) (whereClause context)
    (siblingsOrderBy context) (rownum_or_level_list context)
    (normal_list context) (is_where context) (connect_by_type context)
    (fromClause context) (connectByLevelExpr context)
    (connectByOtherExpr context) (nocycle context).
Definition set_connectby_prior_name (context : StartWithTransformContext)
    (v : list string) : StartWithTransformContext :=
  mkStartWithTransformContext
    (pstate context) (relInfoList context) (where_infos context) v
    (startWithExpr context) (connectByExpr context) (whereClause context)
    (siblingsOrderBy context) (rownum_or_level_list context)
    (normal_list context) (is_where context) (connect_by_type context)
    (fromClause context) (connectByLevelExpr context)
    (connectByOtherExpr context) (nocycle context).
Definition set_startWithExpr (context : StartWithTransformContext)
    (v : option Node) : StartWithTransformContext :=
  mkStartWithTransformContext
    (pstate context) (relInfoList context) (where_infos context)
    (connectby_prior_name context) v (connectByExpr context)
    (whereClause context) (siblingsOrderBy context)
    (rownum_or_level_list context) (normal_list context) (is_where context)
    (connect_by_type context) (fromClause context) (connectByLevelExpr context)
    (connectByOtherExpr context) (nocycle context).
Definition set_connectByExpr (context : StartWithTransformContext)
    (v : option Node) : StartWithTransformContext :=
  mkStartWithTransformContext
    (pstate context) (relInfoList context) (where_infos context)
    (connectby_prior_name context) (startWithExpr context) v
    (whereClause context) (siblingsOrderBy context)
    (rownum_or_level_list context) (normal_list context) (is_where context)
    (connect_by_type context) (fromClause context) (connectByLevelExpr context)
    (connectByOtherExpr context) (nocycle context).
Definition set_whereClause (context : StartWithTransformContext)
    (v : option Node) : StartWithTransformContext :=
  mkStartWithTransformContext
    (pstate context) (relInfoList context) (where_infos context)
    (connectby_prior_name context) (startWithExpr context)
    (connectByExpr context) v (siblingsOrderBy context)
    (rownum_or_level_list context) (normal_list context) (is_where context)
    (connect_by_type context) (fromClause context) (connectByLevelExpr context)
    (connectByOtherExpr context) (nocycle context).
Definition set_siblingsOrderBy (context : StartWithTransformContext)
    (v : list Node) : StartWithTransformContext :=
  mkStartWithTransformContext
    (pstate context) (relInfoList context) (where_infos context)
    (connectby_prior_name context) (startWithExpr context)
    (connectByExpr context) (whereClause context) v
    (rownum_or_level_list context) (normal_list context) (is_where context)
    (connect_by_type context) (fromClause context) (connectByLevelExpr context)
    (connectByOtherExpr context) (nocycle context).
Definition set_rownum_or_level_list (context : StartWithTransformContext)
    (v : list Node) : StartWithTransformContext :=
  mkStartWithTransformContext
    (pstate context) (relInfoList context) (where_infos context)
    (connectby_prior_name context) (startWithExpr context)
    (connectByExpr context) (whereClause context) (siblingsOrderBy context) v
    (normal_list context) (is_where context) (connect_by_type context)
    (fromClause context) (connectByLevelExpr context)
    (connectByOtherExpr context) (nocycle context).
Definition set_normal_list (context : StartWithTransformContext)
    (v : list Node) : StartWithTransformContext :=
  mkStartWithTransformContext
    (pstate context) (relInfoList context) (where_infos context)
    (connectby_prior_name context) (startWithExpr context)
    (connectByExpr context) (whereClause context) (siblingsOrderBy context)
    (rownum_or_level_list context) v (is_where context)
    (connect_by_type context) (fromClause context) (connectByLevelExpr context)
    (connectByOtherExpr context) (nocycle context).
Definition set_connect_by_type (context : StartWithTransformContext)
    (v : StartWithConnectByType) : StartWithTransformContext :=
  mkStartWithTransformContext
    (pstate context) (relInfoList context) (where_infos context)
    (connectby_prior_name context) (startWithExpr context)
    (connectByExpr context) (whereClause context) (siblingsOrderBy context)
    (rownum_or_level_list context) (normal_list context) (is_where context) v
    (fromClause context) (connectByLevelExpr context)
    (connectByOtherExpr context) (nocycle context).
Definition set_fromClause (context : StartWithTransformContext)
    (v : list Node) : StartWithTransformContext :=
  mkStartWithTransformContext
    (pstate context) (relInfoList context) (where_infos context)
    (connectby_prior_name context) (startWithExpr context)
    (connectByExpr context) (whereClause context) (siblingsOrderBy context)
    (rownum_or_level_list context) (normal_list context) (is_where context)
    (connect_by_type context) v (connectByLevelExpr context)
    (connectByOtherExpr context) (nocycle context).
Definition set_connectByLevelExpr (context : StartWithTransformContext)
    (v : option Node) : StartWithTransformContext :=
  mkStartWithTransformContext
    (pstate context) (relInfoList context) (where_infos context)
    (connectby_prior_name context) (startWithExpr context)
    (connectByExpr context) (whereClause context) (siblingsOrderBy context)
    (rownum_or_level_list context) (normal_list context) (is_where context)
    (connect_by_type context) (fromClause context) v
    (connectByOtherExpr context) (nocycle context).
Definition set_nocycle (context : StartWithTransformContext)
    (v : bool) : StartWithTransformContext :=
  mkStartWithTransformContext
    (pstate context) (relInfoList context) (where_infos context)
    (connectby_prior_name context) (startWithExpr context)
    (connectByExpr context) (whereClause context) (siblingsOrderBy context)
    (rownum_or_level_list context) (normal_list context) (is_where context)
    (connect_by_type context) (fromClause context) (connectByLevelExpr context)
    (connectByOtherExpr context) v.

(** ** Errors *)

Definition err_no_start_info : ErrorData :=
  ereport ERRCODE_FEATURE_NOT_SUPPORTED
    "在fromclause中找不到可以由start with/connect by重写的正确元素。".

(** The numeric arguments of a message are left out of [errargs]. *)
Definition err_dummy_colname_too_long (alias column : string) : ErrorData :=
  ereportf ERRCODE_UNRECOGNIZED_NODE_TYPE
    "Exceed maximum StartWithDummayColname length %d, relname %s, column %s."
    [alias; column].

Definition err_ambiguous_column (colname : string) : ErrorData :=
  ereportf ERRCODE_AMBIGUOUS_COLUMN
    (String.append "column reference "
       (String.append dq (String.append "%s" (String.append dq " is ambiguous."))))
    [colname].

Definition err_invalid_column_reference : ErrorData :=
  ereport ERRCODE_FEATURE_NOT_SUPPORTED
    "在START WITH / CONNECT BY子句中存在无效的列引用。".

Definition err_column_length : ErrorData :=
  ereport ERRCODE_FEATURE_NOT_SUPPORTED "在HandleSWCBColumnRef中不支持 %d 列长度".

Definition err_unsupported_in_rowNumOrLevelWalker : ErrorData :=
  ereport ERRCODE_FEATURE_NOT_SUPPORTED
    "在 START WITH / CONNECT BY 子句中发现不支持的表达式在 rowNumOrLevelWalker 中。".

Definition err_prior_with_rownum_or_level : ErrorData :=
  ereport ERRCODE_FEATURE_NOT_SUPPORTED "由 prior 指定的列不能与 ROWNUM/LEVEL 重合。".

Definition err_unsupported_expression : ErrorData :=
  ereport ERRCODE_FEATURE_NOT_SUPPORTED
    "在 START WITH / CONNECT BY 子句中发现不支持的表达式.".

Definition err_forbidden_clause : ErrorData :=
  ereport ERRCODE_FEATURE_NOT_SUPPORTED
    "不能在 TABLESAMPLE 或 TIMECAPSULE 中使用 START WITH 或 CONNECT BY。".

Definition err_invalid_connect_by : ErrorData :=
  ereport ERRCODE_FEATURE_NOT_SUPPORTED "CONNECT BY 子句中发现不支持的表达式。".

Definition err_no_prior_key : ErrorData :=
  ereport ERRCODE_FEATURE_NOT_SUPPORTED
    "START WITH CONNECT BY 子句必须具有至少一个 prior 键。".

(** [elog(ERROR, ...)] *)
Definition err_unrecognized_connect_by_type : ErrorData :=
  ereport ERRCODE_INTERNAL_ERROR "未识别的 connect by 类型 %d".

(** The source reads a field through a cast that it does not check; where the
    node is of another kind the behaviour is undefined, which is reported as
    this failure. *)
Definition err_bad_cast : ErrorData :=
  ereport ERRCODE_INTERNAL_ERROR "unexpected node type".

Section Rewrite.

(** Constants of the headers. *)
Variable NAMEDATALEN : Z.
Variable CONNECT_BY_ROWNUM_FAKEVALUE CONNECT_BY_LEVEL_FAKEVALUE : Z.
(** Node services defined outside this file. *)
Variable GetStartWithFakeConstValue : Value -> Z.
Variable makeBoolAConst : bool -> Z -> Node.
Variable equal : Node -> Node -> bool.
Variable equal_info : StartWithTargetRelInfo -> StartWithTargetRelInfo -> bool.
(** The analyser. *)
Variable transformColumnRef : ParseState -> Node -> res (option Agg.Node).
Variable transformWhereClause : ParseState -> option Node -> res (option Agg.Node).
Variable assign_expr_collations : ParseState -> option Agg.Node -> option Agg.Node.
Variable transformWithClause : ParseState -> Node -> res (list Node * ParseState).

(** Modelled from the spec: [list_concat_unique] is defined in list.cpp, which
    is not among the sources.  [list_concat_unique(list1, list2)] appends to
    [list1] the members of [list2] that are not yet in the result. *)
Definition list_concat_unique {A : Type} (eq : A -> A -> bool)
    (list1 list2 : list A) : list A :=
  fold_left (fun acc x => if existsb (eq x) acc then acc else acc ++ [x]) list2 list1.

Definition makeStartWithDummayColname (alias column : string) : res string :=
  let total := strlen alias + strlen column + strlen "@" in
  if total >=? NAMEDATALEN then Error (err_dummy_colname_too_long alias column)
  else Ok (String.append alias (String.append "@" column)).

Definition preSkipPLSQLParams (pstate : ParseState) (cref : Node) : bool :=
  match
    match p_pre_columnref_hook pstate with
    | Some hook => hook cref
    | None => None
    end
  with
  | Some _ => true
  | None =>
      match p_post_columnref_hook pstate with
      | Some hook =>
          match hook cref None with
          | Some _ => true
          | None => false
          end
      | None => false
      end
  end.

(** *** ExtractColumnRefStartInfo

    The loop over [p_start_info] carries the relation name, the column name,
    the fields of the column and the targets found.  The WARNING logged when
    nothing matches changes no state and is left out. *)
Definition column_exists (start_info : StartWithTargetRelInfo)
    (relname' : option string) (colname : string) : bool :=
  match relname' with
  | None => existsb (String.eqb colname) (columns start_info)
  | Some r =>
      match aliasname start_info with
      | Some a => if String.eqb a r then true
                  else match relname start_info with
                       | Some n => String.eqb n r
                       | None => false
                       end
      | None => match relname start_info with
                | Some n => String.eqb n r
                | None => false
                end
      end
  end.

Definition extract_step
    (st : option string * string * list string * list StartWithTargetRelInfo)
    (start_info : StartWithTargetRelInfo)
    : option string * string * list string * list StartWithTargetRelInfo :=
  let '(relname', colname, fields, extract_infos) := st in
  let column_exist := column_exists start_info relname' colname in
  let '(column_exist, colname) :=
    if swSubExist (rte start_info) then
      match find (fun val => strstr val colname) (columns start_info) with
      | Some val => (true, val)
      | None => (column_exist, colname)
      end
    else (column_exist, colname) in
  if column_exist then
    let relname' :=
      match rtekind start_info with
      | RTE_RELATION | RTE_CTE =>
          match aliasname start_info with
          | Some a => Some a
          | None => relname start_info
          end
      | RTE_SUBQUERY => aliasname start_info
      | _ => relname'
      end in
    (relname', colname, [strVal relname'; colname], extract_infos ++ [start_info])
  else (relname', colname, fields, extract_infos).

Definition ExtractColumnRefStartInfo (pstate : ParseState) (fields : list string)
    (relname' : option string) (colname : string)
    : res (list StartWithTargetRelInfo * list string) :=
  let '(_, colname, fields, extract_infos) :=
    fold_left extract_step (p_start_info pstate) (relname', colname, fields, []) in
  if list_length extract_infos >? 1 then Error (err_ambiguous_column colname)
  else Ok (extract_infos, fields).

(** *** HandleSWCBColumnRef

    Returns the context and the fields that the column is left with.  A
    [ColumnRef] has at least one field. *)
Definition lsecond (l : list string) : string := nth 1 l "".

Definition HandleSWCBColumnRef (context : StartWithTransformContext)
    (fields : list string) (prior : bool) (location : Z)
    : res (StartWithTransformContext * Node) :=
  let column := ColumnRef fields prior location in
  let initname := hd "" fields in
  if pg_strcasecmp_eq initname "tmp_reuslt" then Ok (context, column)
  else if preSkipPLSQLParams (pstate context) column && negb prior
  then Ok (context, column)
  else
    do preResult <- transformColumnRef (pstate context) column;
    match preResult with
    | None => Ok (context, column)
    | Some _ =>
        let len := list_length fields in
        do '(result, fields, context) <-
          (if len =? 1 then
             let colname := hd "" fields in
             do '(result, fields) <-
               ExtractColumnRefStartInfo (pstate context) fields None colname;
             if negb prior then Ok (result, fields, context)
             else if list_length fields <=? 1 then Error err_invalid_column_reference
             else
               do dummy <- makeStartWithDummayColname (hd "" fields) (lsecond fields);
               Ok (result, ["tmp_reuslt"; dummy],
                   set_connectby_prior_name context
                     (connectby_prior_name context ++ [dummy]))
           else if len =? 2 then
             let relname' := hd "" fields in
             let colname := lsecond fields in
             do '(result, fields) <-
               ExtractColumnRefStartInfo (pstate context) fields (Some relname')
                 colname;
             if prior then
               do dummy <- makeStartWithDummayColname (hd "" fields) (lsecond fields);
               Ok (result, ["tmp_reuslt"; dummy],
                   set_connectby_prior_name context
                     (connectby_prior_name context ++ [dummy]))
             else Ok (result, fields, context)
           else Error err_column_length);
        let context :=
          if is_where context
          then set_where_infos context
                 (list_concat_unique equal_info (where_infos context) result)
          else set_relInfoList context
                 (list_concat_unique equal_info (relInfoList context) result) in
        Ok (context, ColumnRef fields prior location)
    end.

(** *** Pseudo columns *)

Definition is_cref_by_name (expr : Node) (col_name : string) : bool :=
  match expr with
  | ColumnRef fields _ _ => pg_strcasecmp_eq (NameListToString fields) col_name
  | _ => false
  end.

Definition any_level (expr : option Node) : bool :=
  match expr with
  | Some e => is_cref_by_name e "level"
  | None => false
  end.

(** [tryReplaceFakeValue] returns its argument or a new node; [None] is the
    argument itself (the callers compare the two pointers). *)
Fixpoint tryReplaceFakeValue (node : Node) : option Node :=
  match node with
  | Rownum => Some (makeIntConst CONNECT_BY_ROWNUM_FAKEVALUE (-1))
  | ColumnRef _ _ _ =>
      if is_cref_by_name node "level"
      then Some (makeIntConst CONNECT_BY_LEVEL_FAKEVALUE (-1))
      else None
  | List_ elements =>
      let '(newArgs, replaced) :=
        (fix replaceListFakeValue (lst : list Node) : list Node * bool :=
           match lst with
           | [] => ([], false)
           | n :: rest =>
               let '(newArgs, replaced) := replaceListFakeValue rest in
               match tryReplaceFakeValue n with
               | Some newNode => (newNode :: newArgs, true)
               | None => (n :: newArgs, replaced)
               end
           end) elements in
      if replaced then Some (List_ newArgs) else None
  | _ => None
  end.

(** Whether a parent of this kind stores the replacement of a child. *)
Definition takes_replacement (context_parent_node : Node) : bool :=
  match context_parent_node with
  | A_Expr _ _ _ _ _ | TypeCast _ _ | NullTest _ | FuncCall _ _ => true
  | _ => false
  end.

(** [pseudo_level_rownum_walker(node, context_parent_node)]: what the parent
    holds in the place of [node] after the call.  The parent stores the
    replacement of a pseudo column only if it is of one of the four kinds
    above.  A replaced list shares the elements that were kept with the old
    list, whose elements are then visited with the old list as their parent:
    a pseudo column directly in a list is replaced exactly when the list is,
    and the other elements are walked in place either way. *)
Fixpoint pseudo_level_rownum_walker (parent_takes : bool) (node : Node) : Node :=
  match node with
  | Rownum =>
      if parent_takes then makeIntConst CONNECT_BY_ROWNUM_FAKEVALUE (-1) else node
  | ColumnRef _ _ _ =>
      if parent_takes && is_cref_by_name node "level"
      then makeIntConst CONNECT_BY_LEVEL_FAKEVALUE (-1)
      else node
  | List_ elements => List_ (map (pseudo_level_rownum_walker parent_takes) elements)
  | _ =>
      raw_expression_tree_update
        (pseudo_level_rownum_walker (takes_replacement node)) node
  end.

(** [raw_expression_tree_walker(expr, pseudo_level_rownum_walker, expr)] *)
Definition replace_pseudo_columns (expr : Node) : Node :=
  raw_expression_tree_update (pseudo_level_rownum_walker (takes_replacement expr)) expr.

Definition checkConnectByExprValidity (connectByExpr : option Node) : res unit :=
  match connectByExpr with
  | None => Ok tt
  | Some expr =>
      match tryReplaceFakeValue expr with
      | Some _ => Error err_invalid_connect_by
      | None => Ok tt
      end
  end.

(** *** rowNumOrLevelWalker

    The two flags are passed by reference; the walk of a node stops at once
    when both are already set. *)
Fixpoint rowNumOrLevelWalker (expr : Node) (flags : bool * bool) : res (bool * bool) :=
  let '(hasRownumOrLevel, hasPrior) := flags in
  if hasRownumOrLevel && hasPrior then Ok flags
  else
    let walk_arg (arg : option Node) :=
      match arg with
      | Some a => rowNumOrLevelWalker a flags
      | None => Ok flags
      end in
    let walk_args :=
      fix go (l : list Node) (flags : bool * bool) : res (bool * bool) :=
        match l with
        | [] => Ok flags
        | n :: rest => do flags <- rowNumOrLevelWalker n flags; go rest flags
        end in
    match expr with
    | ColumnRef _ prior _ =>
        Ok (is_cref_by_name expr "level" || hasRownumOrLevel, prior || hasPrior)
    | Rownum => Ok (true, hasPrior)
    | NullTest arg => walk_arg arg
    | SubLink testexpr _ => walk_arg testexpr
    | CoalesceExpr args => walk_args args flags
    | CollateClause arg => walk_arg arg
    | TypeCast arg _ => walk_arg arg
    | List_ elements => walk_args elements flags
    | FuncCall _ args => walk_args args flags
    | A_Indirection arg _ => walk_arg arg
    | A_Expr kind _ left_expr right_expr _ =>
        match kind with
        | AEXPR_OP | AEXPR_AND | AEXPR_OR | AEXPR_IN =>
            do flags <- walk_arg left_expr;
            match right_expr with
            | Some r => rowNumOrLevelWalker r flags
            | None => Ok flags
            end
        | AEXPR_NOT => walk_arg right_expr
        | _ => Error err_unsupported_in_rowNumOrLevelWalker
        end
    | A_Const (T_Integer val) _ =>
        if (val =? CONNECT_BY_ROWNUM_FAKEVALUE) || (val =? CONNECT_BY_LEVEL_FAKEVALUE)
        then Ok (true, hasPrior)
        else Ok flags
    | A_Const _ _ => Ok flags
    | A_ArrayExpr _ | ParamRef _ => Ok flags
    | _ => Error err_unsupported_in_rowNumOrLevelWalker
    end.

(** *** flattenConnectByExpr *)
Fixpoint flattenConnectByExpr (context : StartWithTransformContext) (expr : Node)
    : res StartWithTransformContext :=
  let classify :=
    do '(hasRownumOrLevel, hasPrior) <- rowNumOrLevelWalker expr (false, false);
    if hasRownumOrLevel && hasPrior then Error err_prior_with_rownum_or_level
    else if hasRownumOrLevel
    then Ok (set_rownum_or_level_list context (rownum_or_level_list context ++ [expr]))
    else Ok (set_normal_list context (normal_list context ++ [expr])) in
  match expr with
  | A_Expr AEXPR_AND _ lexpr rexpr _ =>
      do context <- match lexpr with
                    | Some l => flattenConnectByExpr context l
                    | None => Ok context
                    end;
      match rexpr with
      | Some r => flattenConnectByExpr context r
      | None => Ok context
      end
  | _ => classify
  end.

(** [buildExprUsingAnd(list_head(l))] *)
Fixpoint buildExprUsingAnd (l : list Node) : option Node :=
  match l with
  | [] => None
  | nowExpr :: rest =>
      match buildExprUsingAnd rest with
      | Some nextExpr => Some (makeA_Expr AEXPR_AND [] (Some nowExpr) (Some nextExpr) (-1))
      | None => Some nowExpr
      end
  end.

(** *** StartWithWalker

    Returns the context and the expression as the walk leaves it. *)

(** An operand is handled at once when it is a column reference, and walked
    otherwise. *)
Definition walk_operand
    (walker : StartWithTransformContext -> Node
              -> res (StartWithTransformContext * Node))
    (context : StartWithTransformContext) (arg : option Node)
    : res (StartWithTransformContext * option Node) :=
  match arg with
  | Some (ColumnRef fields prior location) =>
      do '(context, a) <- HandleSWCBColumnRef context fields prior location;
      Ok (context, Some a)
  | Some a => do '(context, a) <- walker context a; Ok (context, Some a)
  | None => Ok (context, None)
  end.

Definition walk_operands
    (walker : StartWithTransformContext -> Node
              -> res (StartWithTransformContext * Node))
    : StartWithTransformContext -> list Node
      -> res (StartWithTransformContext * list Node) :=
  fix go (context : StartWithTransformContext) (l : list Node) :=
    match l with
    | [] => Ok (context, [])
    | n :: rest =>
        do '(context, n) <- walker context n;
        do '(context, rest) <- go context rest;
        Ok (context, n :: rest)
    end.

Fixpoint StartWithWalker (context : StartWithTransformContext) (expr : Node)
    : res (StartWithTransformContext * Node) :=
  match expr with
  | ColumnRef fields prior location => HandleSWCBColumnRef context fields prior location
  | NullTest arg =>
      do '(context, arg) <- walk_operand StartWithWalker context arg;
      Ok (context, NullTest arg)
  | SubLink testexpr subselect =>
      do '(context, testexpr) <- walk_operand StartWithWalker context testexpr;
      Ok (context, SubLink testexpr subselect)
  | CoalesceExpr args =>
      do '(context, args) <- walk_operands StartWithWalker context args;
      Ok (context, CoalesceExpr args)
  | CollateClause arg =>
      do '(context, arg) <- walk_operand StartWithWalker context arg;
      Ok (context, CollateClause arg)
  | TypeCast arg typeName =>
      do '(context, arg) <- walk_operand StartWithWalker context arg;
      Ok (context, TypeCast arg typeName)
  | List_ elements =>
      do '(context, elements) <- walk_operands StartWithWalker context elements;
      Ok (context, List_ elements)
  | A_ArrayExpr _ => Ok (context, expr)
  | FuncCall funcname args =>
      do '(context, args) <- walk_operands StartWithWalker context args;
      Ok (context, FuncCall funcname args)
  | A_Indirection arg indirection =>
      do '(context, arg) <- walk_operand StartWithWalker context arg;
      Ok (context, A_Indirection arg indirection)
  | A_Expr kind name left_expr right_expr location =>
      match kind with
      | AEXPR_OP =>
          match left_expr with
          | Some Rownum =>
              Ok (set_connect_by_type context CONNECT_BY_MIXED_LEVEL,
                  A_Expr kind name
                    (Some (A_Const (T_Integer CONNECT_BY_ROWNUM_FAKEVALUE) (-1)))
                    right_expr location)
          | _ =>
              if any_level left_expr
              then
                Ok (set_connect_by_type context CONNECT_BY_MIXED_LEVEL,
                    A_Expr kind name
                      (Some (A_Const (T_Integer CONNECT_BY_LEVEL_FAKEVALUE) (-1)))
                      right_expr location)
              else
                do '(context, left_expr) <-
                  walk_operand StartWithWalker context left_expr;
                do '(context, right_expr) <-
                  walk_operand StartWithWalker context right_expr;
                Ok (context, A_Expr kind name left_expr right_expr location)
          end
      | AEXPR_AND | AEXPR_OR | AEXPR_IN =>
          do '(context, left_expr) <- walk_operand StartWithWalker context left_expr;
          do '(context, right_expr) <- walk_operand StartWithWalker context right_expr;
          Ok (context, A_Expr kind name left_expr right_expr location)
      | AEXPR_NOT =>
          do '(context, right_expr) <- walk_operand StartWithWalker context right_expr;
          Ok (context, A_Expr kind name left_expr right_expr location)
      | _ => Error err_unsupported_expression
      end
  | A_Const val _ =>
      let val := GetStartWithFakeConstValue val in
      if val =? CONNECT_BY_LEVEL_FAKEVALUE
      then Ok (set_connect_by_type context CONNECT_BY_LEVEL, expr)
      else if val =? CONNECT_BY_ROWNUM_FAKEVALUE
      then Ok (set_connect_by_type context CONNECT_BY_ROWNUM, expr)
      else Ok (context, expr)
  | ParamRef _ => Ok (context, expr)
  | _ => Error err_unsupported_expression
  end.

Definition StartWithWalker_opt (context : StartWithTransformContext)
    (expr : option Node) : res (StartWithTransformContext * option Node) :=
  match expr with
  | None => Ok (context, None)
  | Some e => do '(context, e) <- StartWithWalker context e; Ok (context, Some e)
  end.

(** *** transformStartWithClause *)

Definition isForbiddenClausesPresent (fromClause : list Node) : bool :=
  existsb (fun n => match n with
                    | RangeTimeCapsule | RangeTableSample => true
                    | _ => false
                    end) fromClause.

Definition isSome {A : Type} (o : option A) : bool :=
  match o with Some _ => true | None => false end.

Definition isNil {A : Type} (l : list A) : bool :=
  match l with [] => true | _ => false end.

(** The body of [transformStartWithClause] from the reading of the clause to
    the copy of the WHERE clause, that is, all of it but the last check. *)
Definition transform_clause_exprs (context : StartWithTransformContext)
    (whereClause' startWithExpr' connectByExpr' : option Node)
    (siblingsOrderBy' : list Node) (nocycle' : bool)
    : res StartWithTransformContext :=
  let context := set_connectByExpr context connectByExpr' in
  let context := set_startWithExpr context startWithExpr' in
  let context := set_connect_by_type context CONNECT_BY_PRIOR in
  let context := set_nocycle context nocycle' in
  let context := set_siblingsOrderBy context siblingsOrderBy' in
  let connectByExpr' := option_map replace_pseudo_columns connectByExpr' in
  do _ <- checkConnectByExprValidity connectByExpr';
  let context := set_relInfoList context (p_start_info (pstate context)) in
  do context <- match connectByExpr' with
                | Some e => flattenConnectByExpr context e
                | None => Ok context
                end;
  let context :=
    set_connectByLevelExpr context (buildExprUsingAnd (rownum_or_level_list context)) in
  let context := set_connectByExpr context (buildExprUsingAnd (normal_list context)) in
  do '(context, startWithExpr') <- StartWithWalker_opt context startWithExpr';
  let context := set_startWithExpr context startWithExpr' in
  do '(context, connectByLevelExpr') <-
    StartWithWalker_opt context (connectByLevelExpr context);
  let context := set_connectByLevelExpr context connectByLevelExpr' in
  do '(context, connectByExpr') <- StartWithWalker_opt context (connectByExpr context);
  let context := set_connectByExpr context connectByExpr' in
  let lens := list_length (p_start_info (pstate context)) in
  Ok (if negb (lens =? 1) then set_whereClause context whereClause' else context).

(** The statement passed by [transformStartWith] is a [SelectStmt] that holds
    a [StartWithClause]; the source casts without a check. *)
Definition transformStartWithClause (context : StartWithTransformContext)
    (stmt : option Node) : res StartWithTransformContext :=
  match stmt with
  | None => Ok context
  | Some (SelectStmt _ fromClause' whereClause' _
            (Some (StartWithClause startWithExpr' connectByExpr' siblingsOrderBy'
                     nocycle'))
            _ _ _ _) =>
      if isForbiddenClausesPresent fromClause' then Error err_forbidden_clause
      else
        do context <-
          transform_clause_exprs context whereClause' startWithExpr' connectByExpr'
            siblingsOrderBy' nocycle';
        if isSome startWithExpr' && isNil (connectby_prior_name context)
        then Error err_no_prior_key
        else Ok context
  | Some _ => Error err_bad_cast
  end.

(** ** The two branches and the recursive CTE *)

(** *** AddWithClauseToBranch

    Returns the parse state and the WITH clause that the branch is given, if
    any. *)
Definition cte_name (cte : Node) : string :=
  match cte with
  | CommonTableExpr ctename _ _ => ctename
  | _ => ""
  end.

Definition with_ctes (clause : Node) : list Node :=
  match clause with
  | WithClause ctes _ => ctes
  | _ => []
  end.

Definition with_recursive (clause : Node) : bool :=
  match clause with
  | WithClause _ recursive => recursive
  | _ => false
  end.

(** [list_delete] of the first member of that name. *)
Fixpoint delete_cte (name : string) (l : list Node) : list Node :=
  match l with
  | [] => []
  | cte :: rest =>
      if pg_strcasecmp_eq (cte_name cte) name then rest
      else cte :: delete_cte name rest
  end.

Definition AddWithClauseToBranch (pstate : ParseState)
    (relInfoList : list StartWithTargetRelInfo) : ParseState * option Node :=
  match origin_with pstate with
  | None => (pstate, None)
  | Some clause =>
      let '(pstate, ctes) :=
        fold_left
          (fun (st : ParseState * list Node) (info : StartWithTargetRelInfo) =>
             let '(pstate, ctes) := st in
             match rtekind info with
             | RTE_CTE =>
                 (set_p_ctenamespace pstate
                    (delete_cte (strVal (relname info)) (p_ctenamespace pstate)),
                  ctes ++ with_ctes clause)
             | _ => st
             end)
          relInfoList (pstate, []) in
      match ctes with
      | [] => (pstate, None)
      | _ => (pstate, Some (WithClause ctes (with_recursive clause)))
      end
  end.

(** *** expandAllTargetList *)
Definition expandAllTargetList (targetRelInfoList : list StartWithTargetRelInfo)
    : res (list Node) :=
  fold_left
    (fun (acc : res (list Node)) (info : StartWithTargetRelInfo) =>
       do targetlist <- acc;
       let relname' :=
         match rtekind info with
         | RTE_SUBQUERY => aliasname info
         | RTE_RELATION | RTE_CTE =>
             match aliasname info with
             | Some a => Some a
             | None => relname info
             end
         | _ => None
         end in
       fold_left
         (fun (acc : res (list Node)) (colname : string) =>
            do targetlist <- acc;
            if strlen colname =? 0 then Ok targetlist
            else
              do name <- makeStartWithDummayColname (strVal relname') colname;
              Ok (targetlist
                    ++ [ResTarget (Some name)
                          (Some (ColumnRef [strVal relname'; colname] false (-1)))
                          (-1)]))
         (colnames (eref (rte info))) (Ok targetlist))
    targetRelInfoList (Ok []).

(** *** The walkers that keep the join quals of a pushed-down WHERE *)
Fixpoint count_columnref_walker (node : Node) (columnref_count : Z) : Z :=
  match node with
  | ColumnRef _ _ _ => columnref_count + 1
  | _ => raw_expression_tree_walker count_columnref_walker node columnref_count
  end.

Fixpoint walker_to_exclude_non_join_quals (node : Node) : Node :=
  match node with
  | A_Expr AEXPR_OP name _ _ location =>
      let columnref_count := raw_expression_tree_walker count_columnref_walker node 0 in
      if columnref_count <=? 1
      then A_Expr AEXPR_OR name (Some (makeBoolAConst true (-1)))
             (Some (makeBoolAConst true (-1))) location
      else node
  | _ => raw_expression_tree_update walker_to_exclude_non_join_quals node
  end.

(** *** CreateStartWithCTEInnerBranch *)
Definition join_quals (join : Node) : res (option Node) :=
  match join with
  | JoinExpr _ _ _ _ _ quals => Ok quals
  | _ => Error err_bad_cast
  end.

Definition set_join_quals (join : Node) (quals : option Node) : Node :=
  match join with
  | JoinExpr jointype isNatural larg rarg usingClause _ =>
      JoinExpr jointype isNatural larg rarg usingClause quals
  | _ => join
  end.

(** The table that the working table is joined with, [origin_table] in
    [CreateStartWithCTEInnerBranch]: the single target, or the FROM items
    joined from left to right, with the join quals of the WHERE clause pushed
    into the last join. *)
Definition origin_table_of (context : StartWithTransformContext)
    (relInfoList : list StartWithTargetRelInfo) (whereClause : option Node)
    : res (option Node) :=
  match relInfoList with
  | [info] => Ok (Some (tblstmt info))
  | _ =>
      let origin_table :=
        fold_left
          (fun (origin_table : option Node) (node : Node) =>
             match origin_table with
             | None => Some node
             | Some _ =>
                 Some (JoinExpr JOIN_INNER false origin_table (Some node) []
                         (Some (makeBoolAConst true (-1))))
             end)
          (fromClause context) None in
      match whereClause with
      | None => Ok origin_table
      | Some whereCopy =>
          let whereCopy :=
            raw_expression_tree_update walker_to_exclude_non_join_quals whereCopy in
          match origin_table with
          | None => Error err_bad_cast
          | Some final_join =>
              do quals <- join_quals final_join;
              match quals with
              | None => Ok (Some (set_join_quals final_join (Some whereCopy)))
              | Some _ =>
                  Ok (Some (set_join_quals final_join
                              (Some (makeA_Expr AEXPR_AND [] (Some whereCopy) quals
                                       (-1)))))
              end
          end
      end
  end.

Definition CreateStartWithCTEInnerBranch (pstate : ParseState)
    (context : StartWithTransformContext)
    (relInfoList : list StartWithTargetRelInfo)
    (connectByExpr whereClause : option Node) : res (ParseState * Node) :=
  let work_table := makeRangeVar None "tmp_reuslt" (-1) in
  let '(pstate, withClause) := AddWithClauseToBranch pstate relInfoList in
  do origin_table <- origin_table_of context relInfoList whereClause;
  match connect_by_type context with
  | CONNECT_BY_PRIOR | CONNECT_BY_ROWNUM | CONNECT_BY_LEVEL | CONNECT_BY_MIXED_LEVEL =>
      let join :=
        JoinExpr JOIN_INNER false (Some work_table) origin_table [] connectByExpr in
      do targetList <- expandAllTargetList relInfoList;
      Ok (pstate,
          SelectStmt targetList [join] None withClause None SETOP_NONE false None None)
  | CONNECT_BY_OTHER _ => Error err_unrecognized_connect_by_type
  end.

(** *** CreateStartWithCTEOuterBranch *)
Definition CreateStartWithCTEOuterBranch (pstate : ParseState)
    (context : StartWithTransformContext)
    (relInfoList : list StartWithTargetRelInfo)
    (startWithExpr whereClause : option Node) : res (ParseState * Node) :=
  let '(pstate, withClause) := AddWithClauseToBranch pstate relInfoList in
  do targetlist <- expandAllTargetList relInfoList;
  let tblist :=
    match fromClause context with
    | [] => map tblstmt relInfoList
    | _ => fromClause context
    end in
  let whereClauseCopy :=
    option_map (raw_expression_tree_update walker_to_exclude_non_join_quals)
      whereClause in
  let quals :=
    match startWithExpr with
    | None => whereClauseCopy
    | Some _ =>
        match whereClause with
        | Some _ => Some (makeA_Expr AEXPR_AND [] whereClauseCopy startWithExpr (-1))
        | None => startWithExpr
        end
    end in
  Ok (pstate,
      SelectStmt targetlist tblist quals withClause None SETOP_NONE false None None).

(** *** CreateStartWithCTE *)
Record Query : Type := mkQuery {
  hasRecursive : bool;
  cteList : list Node;
  hasModifyingCTE : bool
}.

Definition select_whereClause (stmt : Node) : option Node :=
  match stmt with
  | SelectStmt _ _ whereClause _ _ _ _ _ _ => whereClause
  | _ => None
  end.

Definition set_withClause (stmt : Node) (clause : option Node) : Node :=
  match stmt with
  | SelectStmt targetList fromClause whereClause _ startWithClause op all larg rarg =>
      SelectStmt targetList fromClause whereClause clause startWithClause op all
        larg rarg
  | _ => stmt
  end.

Definition set_startWithClause (stmt : Node) (clause : option Node) : Node :=
  match stmt with
  | SelectStmt targetList fromClause whereClause withClause _ op all larg rarg =>
      SelectStmt targetList fromClause whereClause withClause clause op all larg rarg
  | _ => stmt
  end.

Definition CreateStartWithCTE (pstate : ParseState) (qry : Query)
    (initpart workpart : Node) (context : StartWithTransformContext)
    : res (ParseState * Query) :=
  let setop :=
    SelectStmt [] [] None None None SETOP_UNION true (Some initpart) (Some workpart) in
  let pstate := set_p_hasStartWith pstate false in
  do connect_by_level_quals <-
    transformWhereClause pstate (connectByLevelExpr context);
  let connect_by_level_quals := assign_expr_collations pstate connect_by_level_quals in
  let pstate := set_p_hasStartWith pstate true in
  let swoptions :=
    StartWithOptions (siblingsOrderBy context) (connect_by_type context)
      connect_by_level_quals (connectByOtherExpr context) (nocycle context) in
  let common_expr := CommonTableExpr "tmp_reuslt" (Some setop) (Some swoptions) in
  let with_clause := WithClause [common_expr] true in
  let pstate :=
    set_p_sw_selectstmt pstate
      (set_startWithClause (set_withClause (p_sw_selectstmt pstate) (Some with_clause))
         None) in
  let p_ctenamespace' := p_ctenamespace pstate in
  let pstate := set_p_ctenamespace pstate [] in
  do '(ctes, pstate) <- transformWithClause pstate with_clause;
  let qry := mkQuery (with_recursive with_clause) ctes (p_hasModifyingCTE pstate) in
  let pstate :=
    set_p_ctenamespace pstate
      (list_concat_unique equal (p_ctenamespace pstate) p_ctenamespace') in
  Ok (pstate, qry).

End Rewrite.

(** The context that [transformStartWith] starts from: zeroed, then given the
    parse state. *)
Definition initial_context (pstate : ParseState) : StartWithTransformContext :=
  mkStartWithTransformContext pstate [] [] [] None None None [] [] [] false
    CONNECT_BY_PRIOR [] None None false.

(** ** What the statements below are about *)

(** The nodes directly below a node. *)
Definition opt_list (o : option Node) : list Node :=
  match o with Some n => [n] | None => [] end.

Definition children (node : Node) : list Node :=
  match node with
  | ColumnRef _ _ _ | A_Const _ _ | ParamRef _ | Rownum | RangeVar _ _ _ _
  | RangeTimeCapsule | RangeTableSample | OtherNode _ => []
  | A_Expr _ _ lexpr rexpr _ => opt_list lexpr ++ opt_list rexpr
  | NullTest arg => opt_list arg
  | SubLink testexpr subselect => opt_list testexpr ++ opt_list subselect
  | CoalesceExpr args => args
  | CollateClause arg => opt_list arg
  | TypeCast arg _ => opt_list arg
  | List_ elements => elements
  | A_ArrayExpr elements => elements
  | FuncCall _ args => args
  | A_Indirection arg indirection => opt_list arg ++ indirection
  | RangeSubselect subquery _ => opt_list subquery
  | JoinExpr _ _ larg rarg _ quals => opt_list larg ++ opt_list rarg ++ opt_list quals
  | ResTarget _ val _ => opt_list val
  | SelectStmt targetList fromClause whereClause withClause startWithClause _ _
      larg rarg =>
      targetList ++ fromClause ++ opt_list whereClause ++ opt_list withClause
        ++ opt_list startWithClause ++ opt_list larg ++ opt_list rarg
  | WithClause ctes _ => ctes
  | CommonTableExpr _ ctequery swoptions => opt_list ctequery ++ opt_list swoptions
  | StartWithOptions siblings_orderby_clause _ _ connect_by_other_quals _ =>
      siblings_orderby_clause ++ opt_list connect_by_other_quals
  | StartWithClause startWithExpr connectByExpr siblingsOrderBy _ =>
      opt_list startWithExpr ++ opt_list connectByExpr ++ siblingsOrderBy
  end.

Definition any_node (f : Node -> bool) (o : option Node) : bool :=
  match o with Some n => f n | None => false end.

(** Whether [f] holds of a node directly below the node. *)
Definition any_child (f : Node -> bool) (node : Node) : bool :=
  match node with
  | ColumnRef _ _ _ | A_Const _ _ | ParamRef _ | Rownum | RangeVar _ _ _ _
  | RangeTimeCapsule | RangeTableSample | OtherNode _ => false
  | A_Expr _ _ lexpr rexpr _ => any_node f lexpr || any_node f rexpr
  | NullTest arg => any_node f arg
  | SubLink testexpr subselect => any_node f testexpr || any_node f subselect
  | CoalesceExpr args => existsb f args
  | CollateClause arg => any_node f arg
  | TypeCast arg _ => any_node f arg
  | List_ elements => existsb f elements
  | A_ArrayExpr elements => existsb f elements
  | FuncCall _ args => existsb f args
  | A_Indirection arg indirection => any_node f arg || existsb f indirection
  | RangeSubselect subquery _ => any_node f subquery
  | JoinExpr _ _ larg rarg _ quals =>
      any_node f larg || any_node f rarg || any_node f quals
  | ResTarget _ val _ => any_node f val
  | SelectStmt targetList fromClause whereClause withClause startWithClause _ _
      larg rarg =>
      existsb f targetList || existsb f fromClause || any_node f whereClause
      || any_node f withClause || any_node f startWithClause || any_node f larg
      || any_node f rarg
  | WithClause ctes _ => existsb f ctes
  | CommonTableExpr _ ctequery swoptions => any_node f ctequery || any_node f swoptions
  | StartWithOptions siblings_orderby_clause _ _ connect_by_other_quals _ =>
      existsb f siblings_orderby_clause || any_node f connect_by_other_quals
  | StartWithClause startWithExpr connectByExpr siblingsOrderBy _ =>
      any_node f startWithExpr || any_node f connectByExpr || existsb f siblingsOrderBy
  end.

(** A PRIOR-marked column reference appears in the expression. *)
Fixpoint has_prior (node : Node) : bool :=
  match node with
  | ColumnRef _ prior _ => prior
  | _ => any_child has_prior node
  end.

(** The tree holds a reference to the table of that name: the table as a
    FROM item, or a column reference that begins with the name, which is how
    [HandleSWCBColumnRef] tells a column of the working table. *)
Fixpoint mentions_table (name : string) (node : Node) : bool :=
  match node with
  | RangeVar _ relname _ _ => String.eqb relname name
  | ColumnRef fields _ _ => String.eqb (hd "" fields) name
  | _ => any_child (mentions_table name) node
  end.

(** The target goes by that name: it is its alias or its relation name. *)
Definition named (name : string) (info : StartWithTargetRelInfo) : bool :=
  String.eqb (strVal (aliasname info)) name || String.eqb (strVal (relname info)) name.

Definition prior_free (l : list Node) : Prop := Forall (fun n => has_prior n = false) l.

(** A walk of a node of which [Q] is false takes a context to one that [R]
    relates to it. *)
Definition keeps (R : StartWithTransformContext -> StartWithTransformContext -> Prop)
    (Q : Node -> bool)
    (walker : StartWithTransformContext -> Node
              -> res (StartWithTransformContext * Node))
    (node : Node) : Prop :=
  Q node = false ->
  forall context context' node',
    walker context node = Ok (context', node') -> R context context'.

Definition same_clause (c c' : StartWithTransformContext) : Prop :=
  connectByLevelExpr c' = connectByLevelExpr c /\ connectByExpr c' = connectByExpr c.

Definition same_prior_names (c c' : StartWithTransformContext) : Prop :=
  connectby_prior_name c' = connectby_prior_name c.

(** The table reference that stands for the working table. *)
Definition work_table : Node := RangeVar None "tmp_reuslt" None (-1).

(** The statement of a branch: a plain SELECT of the expanded targets. *)
Definition branch (targetList fromClause : list Node) (whereClause withClause : option Node)
    : Node :=
  SelectStmt targetList fromClause whereClause withClause None SETOP_NONE false None None.

(** The recursive WITH clause built around the two branches. *)
Definition recursive_with (seed step : Node) (swoptions : Node) : Node :=
  WithClause
    [CommonTableExpr "tmp_reuslt"
       (Some (SelectStmt [] [] None None None SETOP_UNION true (Some seed) (Some step)))
       (Some swoptions)]
    true.

End StartWith.

(** * Worked examples *)

(** ** Grouping *)
Module GroupingExamples.
Import Agg Grouping.

(** Table [t(a, b)] as the only range table entry, grouped by [a], with no
    constraint that would make [b] functionally dependent. *)
Definition example_t : RangeTblEntry :=
  mkRangeTblEntry RTE_RELATION 16384 RELKIND_RELATION None (makeAlias "t" ["a"; "b"])
    "" false false false false.
Definition example_attname (rte : RangeTblEntry) (attno : Z) : string :=
  nth (Z.to_nat (attno - 1)) (colnames (eref rte)) "".
Definition example_check (node : Node) : res check_ungrouped_columns_context :=
  check_ungrouped_columns (fun _ _ _ => false) (fun _ _ _ => []) example_attname
    (Some node) [example_t] [] [mkGroupTle (Var 1 1 0 30) 1] [Var 1 1 0 30] false [].

End GroupingExamples.

(** ** Name lookup *)
Module RelExamples.
Import Agg Rel.

(** Two tables [t1(a)] and [t2(a)] in one scope. *)
Definition example_t1 : RangeTblEntry :=
  mkRangeTblEntry RTE_RELATION 1 RELKIND_RELATION None (makeAlias "t1" ["a"])
    "" false false false false.
Definition example_t2 : RangeTblEntry :=
  mkRangeTblEntry RTE_RELATION 2 RELKIND_RELATION None (makeAlias "t2" ["a"; "b"])
    "" false false false false.
Definition example_t1_again : RangeTblEntry :=
  mkRangeTblEntry RTE_SUBQUERY 0 RELKIND_OTHER (Some (makeAlias "t1" []))
    (makeAlias "t1" ["c"]) "" false false false false.
Definition example_scope (use_level' : bool) : ParseState :=
  let ns := [makeNamespaceItem example_t1 false true;
             makeNamespaceItem example_t2 false true] in
  mkParseState [example_t1; example_t2] ns ns false use_level' false EXPR_KIND_OTHER
    None.
Definition example_make_var (pstate : ParseState) (rte : RangeTblEntry)
    (attnum location : Z) : res Node :=
  Ok (Var (relid rte) attnum 0 location).
Definition example_colNameToVar (pstate : ParseState) (colname : string) :=
  colNameToVar example_make_var (fun _ _ _ _ => Ok None) "ts_pseudo_distcol"
    (fun _ => 0) (fun _ _ => false) (fun _ => RELKIND_RELATION)
    pstate colname false 5.

End RelExamples.

(** ** Assignment *)
Module TargetExamples.
Import Target.

(** A session outside B-format compatibility, with a coercion service that
    knows no cast to the column types 23 and 4403 but accepts every other
    target type.  Column 1 is an integer column, column 2 an encrypted column
    that encrypts an integer (its typmod holds the encrypted type). *)
Definition example_relation : RelationData :=
  mkRelation 16384 false [mkAttribute (-1) 0 4 true; mkAttribute 20 0 (-1) false].
Definition example_coerce (pstate : ParseState) (e : option Expr)
    (type_id targettype targettypmod : Z) (f : CoercionForm) (location : Z)
    : res (option Expr) :=
  if (targettype =? 23) || (targettype =? 4403) then Ok None else Ok e.
Definition example_attnumTypeId (rd : RelationData) (attrno : Z) : res Z :=
  Ok (if attrno =? 1 then 23 else 4403).
Definition example_format_type (t : Z) : string :=
  if t =? 23 then "integer" else if t =? 705 then "unknown" else "other".
Definition example_makeNullConst (t m c : Z) : Expr := Const t m c 0 0 true false.
Definition example_make_target_var (pstate : ParseState) (rte : RangeTblEntry)
    (attrno location : Z) : res Expr := Ok (Var 1 attrno).
Definition example_coerce_to_settype (pstate : ParseState) (e : option Expr)
    (type_id targettype targettypmod : Z) (f : CoercionForm) (location collation : Z)
    : res (option Expr) := Ok None.
Definition example_indirection (pstate : ParseState) (basenode : Expr)
    (targetName : string) (targetIsArray : bool) (targetTypeId targetTypMod
    targetCollation : Z) (indirection : list IndirectionItem) (rhs : option Expr)
    (location : Z) : res (option Expr) := Ok rhs.
Definition example_pstate (has_ignore : bool) : ParseState :=
  mkParseState EXPR_KIND_NONE true false UNINVOLVED_QUERY has_ignore.
Definition example_target_rte : RangeTblEntry :=
  mkRangeTblEntry RTE_RELATION 16384 RELKIND_RELATION None (makeAlias "t" ["c"; "d"])
    "" false false false false.
Definition example_assign (has_ignore : bool) (attrno : Z)
    : res (option Expr * ParseState * list ErrorData) :=
  transformAssignedExpr 1042 1043 4402 4403 false false
    example_attnumTypeId (fun _ => 0) (fun _ => 705) (fun _ => -1)
    example_format_type (fun _ => false) (fun _ => false) (fun _ => 0)
    example_makeNullConst example_make_target_var example_coerce_to_settype
    example_coerce example_indirection (fun _ e => Ok e) (fun e _ _ _ _ => Ok e) None
    (example_pstate has_ignore) (Some (OtherExpr 7 [])) EXPR_KIND_INSERT_TARGET "c"
    attrno [] 3 (Some example_relation) example_target_rte.

End TargetExamples.

(** ** A hierarchical query, worked through

    [SELECT * FROM t START WITH id = 1 CONNECT BY PRIOR id = parent_id], the
    same statement without PRIOR, and [SELECT * FROM t CONNECT BY level < 3],
    under an analyser that resolves every column. *)
Module StartWithExamples.
Import StartWith.

Definition example_table : Node := RangeVar None "t" None 14.

Definition example_info : StartWithTargetRelInfo :=
  mkStartWithTargetRelInfo (Some "t") None
    (mkRangeTblEntry RTE_RELATION 16384 RELKIND_RELATION None
       (makeAlias "t" ["id"; "parent_id"]) "" false false false false)
    RTE_RELATION example_table ["id"; "parent_id"].

Definition example_equals (lexpr rexpr : Node) : Node :=
  A_Expr AEXPR_OP ["="] (Some lexpr) (Some rexpr) 0.

Definition example_start_with : Node :=
  example_equals (ColumnRef ["id"] false 27) (A_Const (T_Integer 1) 32).

Definition example_connect_by (prior : bool) : Node :=
  example_equals (ColumnRef ["id"] prior 45) (ColumnRef ["parent_id"] false 50).

Definition example_level_below_3 : Node :=
  A_Expr AEXPR_OP ["<"] (Some (ColumnRef ["level"] false 27))
    (Some (A_Const (T_Integer 3) 35)) 33.

Definition example_select (startWithExpr connectByExpr : option Node) : Node :=
  SelectStmt [ResTarget None (Some (ColumnRef ["*"] false 7)) 7] [example_table] None
    None (Some (StartWithClause startWithExpr connectByExpr [] false))
    SETOP_NONE false None None.

Definition example_pstate (stmt : Node) : ParseState :=
  mkParseState [example_info] None None None [] false stmt false.

Definition example_GetStartWithFakeConstValue (val : Value) : Z :=
  match val with
  | T_Integer ival => ival
  | _ => 0
  end.

Definition example_makeBoolAConst (state : bool) (location : Z) : Node :=
  TypeCast (Some (A_Const (T_String (if state then "t" else "f")) location)) "bool".

Definition example_transformColumnRef (pstate : ParseState) (cref : Node)
    : res (option Agg.Node) :=
  Ok (Some (Agg.Var 1 1 0 (-1))).

Definition example_transformStartWithClause
    : StartWithTransformContext -> option Node -> res StartWithTransformContext :=
  transformStartWithClause 64 (-2) (-1) example_GetStartWithFakeConstValue
    (fun _ _ => true) example_transformColumnRef.

(** The context that the analysis of the first statement leaves. *)
Definition example_context : StartWithTransformContext :=
  let stmt := example_select (Some example_start_with) (Some (example_connect_by true)) in
  match example_transformStartWithClause (initial_context (example_pstate stmt))
          (Some stmt) with
  | Ok context => context
  | Error _ => initial_context (example_pstate stmt)
  end.

Definition example_targets : list Node :=
  [ResTarget (Some "t@id") (Some (ColumnRef ["t"; "id"] false (-1))) (-1);
   ResTarget (Some "t@parent_id") (Some (ColumnRef ["t"; "parent_id"] false (-1))) (-1)].

(** [SELECT * FROM t1, t2 WHERE t1.a = 1 START WITH t1.id = 1
    CONNECT BY PRIOR t1.id = t1.parent_id], as [transformFromList] finds it. *)
Definition example_from_item (name : string) : Node := RangeVar None name None 14.

Definition example_target (name : string) : StartWithTargetRelInfo :=
  mkStartWithTargetRelInfo (Some name) None
    (mkRangeTblEntry RTE_RELATION 16384 RELKIND_RELATION None
       (makeAlias name ["id"; "parent_id"; "a"]) "" false false false false)
    RTE_RELATION (example_from_item name) ["id"; "parent_id"; "a"].

Definition example_filter : Node :=
  example_equals (ColumnRef ["t1"; "a"] false 30) (A_Const (T_Integer 1) 37).

Definition example_two_tables : StartWithTransformContext :=
  let targets := [example_target "t1"; example_target "t2"] in
  mkStartWithTransformContext
    (mkParseState targets None None None [] true (OtherNode 0) false)
    targets [] ["t1@id"]
    (Some (example_equals (ColumnRef ["t1"; "id"] false 50) (A_Const (T_Integer 1) 58)))
    (Some (example_equals (ColumnRef ["tmp_reuslt"; "t1@id"] true 80)
             (ColumnRef ["t1"; "parent_id"] false 90)))
    (Some example_filter) [] [] [] false CONNECT_BY_PRIOR
    [example_from_item "t1"; example_from_item "t2"] None None false.

End StartWithExamples.

(** * Further parts of the analysis *)

(** * parse_relation.cpp : range table positions and CTE scopes *)

Module Cte.

(** The fields of a range table entry that the position and CTE lookups
    read. *)
Record RangeTblEntry : Type := mkRangeTblEntry {
  rtekind : RTEKind;
  ctename : string;
  ctelevelsup : Z
}.

(** The fields of [ParseState] that the lookups read.  A common table
    expression is the [CommonTableExpr] node of the raw tree. *)
Inductive ParseState : Type := mkParseState {
  p_rtable : list RangeTblEntry;
  p_ctenamespace : list StartWith.Node;
  p_future_ctes : list StartWith.Node;
  parentParseState : option ParseState
}.

Definition err_rte_not_found : ErrorData :=
  ereport ERRCODE_SYNTAX_ERROR "RTE not found (internal error)".
Definition err_bad_levelsup (ctename : string) : ErrorData :=
  ereportf ERRCODE_OPTIMIZER_INCONSISTENT_STATE
    (String.append "bad levelsup for CTE "
       (String.append dq (String.append "%s" dq)))
    [ctename].
Definition err_could_not_find_cte (ctename : string) : ErrorData :=
  ereportf ERRCODE_NO_DATA_FOUND
    (String.append "could not find CTE "
       (String.append dq (String.append "%s" dq)))
    [ctename].

(** The [foreach] over one namespace: the first CTE of that name. *)
Definition find_cte (refname : string) (ctes : list StartWith.Node)
    : option StartWith.Node :=
  find (fun cte => String.eqb (StartWith.cte_name cte) refname) ctes.

(** [scanNameSpaceForCTE]: the CTE and [*ctelevelsup], or [None] for NULL.
    [levelsup] is an [Index]. *)
Fixpoint scan_cte_scopes (pstate : ParseState) (refname : string) (levelsup : Z)
    : option (StartWith.Node * Z) :=
  match find_cte refname (p_ctenamespace pstate) with
  | Some cte => Some (cte, levelsup)
  | None =>
      match parentParseState pstate with
      | Some parent => scan_cte_scopes parent refname (uint32_wrap (levelsup + 1))
      | None => None
      end
  end.

Definition scanNameSpaceForCTE (pstate : ParseState) (refname : string)
    : option (StartWith.Node * Z) :=
  scan_cte_scopes pstate refname 0.

Fixpoint isFutureCTE (pstate : ParseState) (refname : string) : bool :=
  match find_cte refname (p_future_ctes pstate) with
  | Some _ => true
  | None =>
      match parentParseState pstate with
      | Some parent => isFutureCTE parent refname
      | None => false
      end
  end.

(** The number of scopes from this one outwards. *)
Fixpoint depth (pstate : ParseState) : Z :=
  1 + match parentParseState pstate with
      | Some parent => depth parent
      | None => 0
      end.

Section Positions.

(** The comparison of two entry pointers, [rte == lfirst(l)]. *)
Variable same_rte : RangeTblEntry -> RangeTblEntry -> bool.

(** The [foreach] of [RTERangeTablePosn] over one range table. *)
Fixpoint rtable_posn (rte : RangeTblEntry) (rtable : list RangeTblEntry) (index : Z)
    : option Z :=
  match rtable with
  | [] => None
  | x :: rest =>
      if same_rte rte x then Some index else rtable_posn rte rest (index + 1)
  end.

(** The [while] loop of [RTERangeTablePosn]; [sublevels_up] is [None] for a
    NULL pointer, and then only the current level is searched. *)
Fixpoint posn_walk (pstate : ParseState) (rte : RangeTblEntry)
    (sublevels_up : option Z) : res (Z * option Z) :=
  match rtable_posn rte (p_rtable pstate) 1 with
  | Some index => Ok (index, sublevels_up)
  | None =>
      match sublevels_up with
      | Some n =>
          match parentParseState pstate with
          | Some parent => posn_walk parent rte (Some (n + 1))
          | None => Error err_rte_not_found
          end
      | None => Error err_rte_not_found
      end
  end.

Definition RTERangeTablePosn (pstate : ParseState) (rte : RangeTblEntry)
    (want_sublevels_up : bool) : res (Z * option Z) :=
  posn_walk pstate rte (if want_sublevels_up then Some 0 else None).

(** The [while (sublevels_up-- > 0)] loop of [GetRTEByRangeTablePosn]. *)
Fixpoint levels_up (pstate : ParseState) (sublevels_up : Z) : res ParseState :=
  if sublevels_up >? 0 then
    match parentParseState pstate with
    | Some parent => levels_up parent (sublevels_up - 1)
    | None => Error (ereport ERRCODE_ASSERT_FAILED "")
    end
  else Ok pstate.

Definition GetRTEByRangeTablePosn (pstate : ParseState) (varno sublevels_up : Z)
    : res RangeTblEntry :=
  do pstate <- levels_up pstate sublevels_up;
  do _ <- AssertEreport ((varno >? 0) && (varno <=? list_length (p_rtable pstate))) "";
  match rt_fetch varno (p_rtable pstate) with
  | Some rte => Ok rte
  | None => Error (ereport ERRCODE_ASSERT_FAILED "")
  end.

(** The [while (levelsup-- > 0)] loop of [GetCTEForRTE]. *)
Fixpoint cte_scope (pstate : ParseState) (levelsup : Z) (name : string)
    : res ParseState :=
  if levelsup >? 0 then
    match parentParseState pstate with
    | Some parent => cte_scope parent (levelsup - 1) name
    | None => Error (err_bad_levelsup name)
    end
  else Ok pstate.

(** [levelsup] is an [Index]: the sum is taken in unsigned arithmetic. *)
Definition GetCTEForRTE (pstate : ParseState) (rte : RangeTblEntry) (rtelevelsup : Z)
    : res StartWith.Node :=
  do rtelevelsup <-
    (if rtelevelsup <? 0 then
       do '(_, sublevels_up) <- RTERangeTablePosn pstate rte true;
       Ok (match sublevels_up with Some n => n | None => rtelevelsup end)
     else Ok rtelevelsup);
  do _ <- AssertEreport (RTEKind_eqb (rtekind rte) RTE_CTE) "";
  let levelsup := uint32_wrap (ctelevelsup rte + rtelevelsup) in
  do pstate <- cte_scope pstate levelsup (ctename rte);
  match find_cte (ctename rte) (p_ctenamespace pstate) with
  | Some cte => Ok cte
  | None => Error (err_could_not_find_cte (ctename rte))
  end.

End Positions.

(** The nesting depth that [RTERangeTablePosn] reports: 0 when the caller
    passes no [sublevels_up]. *)
Definition reported_level (sublevels_up : option Z) : Z :=
  match sublevels_up with Some n => n | None => 0 end.

End Cte.

Module CteExamples.
Import Cte.

(** [WITH w AS (...) SELECT ... FROM t, (SELECT ... FROM t, w WHERE (SELECT ...))]:
    three nested scopes; the reference to [w] is in the range table of the
    middle one. *)
Definition example_cte : StartWith.Node := StartWith.CommonTableExpr "w" None None.
Definition example_rte_t : RangeTblEntry := mkRangeTblEntry RTE_RELATION "" 0.
Definition example_rte_w : RangeTblEntry := mkRangeTblEntry RTE_CTE "w" 1.
Definition example_same_rte (a b : RangeTblEntry) : bool :=
  RTEKind_eqb (rtekind a) (rtekind b) && String.eqb (ctename a) (ctename b)
  && (ctelevelsup a =? ctelevelsup b).
Definition example_outer : ParseState := mkParseState [example_rte_t] [example_cte] [] None.
Definition example_middle : ParseState :=
  mkParseState [example_rte_t; example_rte_w] [] [] (Some example_outer).
Definition example_inner : ParseState := mkParseState [] [] [] (Some example_middle).

End CteExamples.

(** * parse_relation.cpp : conflicts between two name spaces *)

Module NameSpace.
Import Rel.

Definition err_duplicate_alias (aliasname1 : string) : ErrorData :=
  ereportf ERRCODE_DUPLICATE_ALIAS
    (String.append "table name "
       (String.append dq
          (String.append "%s" (String.append dq " specified more than once"))))
    [aliasname1].

Definition is_unaliased_relation (rte : RangeTblEntry) : bool :=
  RTEKind_eqb (rtekind rte) RTE_RELATION
  && match alias rte with None => true | Some _ => false end.

(** The inner [foreach] of [checkNameSpaceConflicts], over [namespace2]. *)
Fixpoint check_against (rte1 : RangeTblEntry) (namespace2 : list ParseNamespaceItem)
    : res unit :=
  match namespace2 with
  | [] => Ok tt
  | nsitem2 :: rest =>
      let rte2 := p_rte nsitem2 in
      let aliasname1 := aliasname (eref rte1) in
      if negb (String.eqb (aliasname (eref rte2)) aliasname1)
      then check_against rte1 rest (* definitely no conflict *)
      else if is_unaliased_relation rte1 && is_unaliased_relation rte2
              && negb (relid rte1 =? relid rte2)
      then check_against rte1 rest (* no conflict per SQL92 rule *)
      else Error (err_duplicate_alias aliasname1)
  end.

Fixpoint checkNameSpaceConflicts (namespace1 namespace2 : list ParseNamespaceItem)
    : res unit :=
  match namespace1 with
  | [] => Ok tt
  | nsitem1 :: rest =>
      do _ <- check_against (p_rte nsitem1) namespace2;
      checkNameSpaceConflicts rest namespace2
  end.

(** Two entries that cannot stand in one name space: the same name, unless
    both are plain relations without an alias and of different OIDs. *)
Definition conflict (rte1 rte2 : RangeTblEntry) : bool :=
  String.eqb (aliasname (eref rte1)) (aliasname (eref rte2))
  && negb (is_unaliased_relation rte1 && is_unaliased_relation rte2
           && negb (relid rte1 =? relid rte2)).

End NameSpace.

(** * Attribute numbers and the column list of INSERT

    [attnameAttNum] and [attnumAttName] of parse_relation.cpp, and
    [checkInsertTargets] of parse_target.cpp, which calls the former. *)

Module Insert.

Record Form_pg_attribute : Type := mkAttribute {
  attname : string;
  attisdropped : bool
}.

(** The fields of the relation descriptor that are read.  [rd_rel->relnatts]
    and [rd_att->natts] both count the entries of the attribute array
    [rd_att->attrs], which is the list here. *)
Record RelationData : Type := mkRelation {
  relname : string;
  relhasoids : bool;
  rd_isblockchain : bool;
  attrs : list Form_pg_attribute
}.

Definition relnatts (rd : RelationData) : Z := list_length (attrs rd).

Definition InvalidAttrNumber : Z := 0.

(** A column of the INSERT list: its name and what is appended to it. *)
Record ResTarget : Type := mkResTarget {
  name : string;
  indirection : list Target.IndirectionItem;
  location : Z
}.

Definition err_invalid_attribute_number : ErrorData :=
  ereport ERRCODE_INVALID_ATTRIBUTE "无效的属性编号 %d".
Definition err_targetrel_is_null : ErrorData :=
  ereport ERRCODE_NULL_VALUE_NOT_ALLOWED "targetrel is NULL unexpectedly".
Definition err_column_does_not_exist (name relname : string) : ErrorData :=
  ereportf ERRCODE_UNDEFINED_COLUMN
    (String.append "column "
       (String.append dq
          (String.append "%s"
             (String.append dq
                (String.append " of relation "
                   (String.append dq
                      (String.append "%s" (String.append dq " does not exist"))))))))
    [name; relname].
Definition err_column_specified_twice (name : string) : ErrorData :=
  ereportf ERRCODE_DUPLICATE_COLUMN
    (String.append "column "
       (String.append dq
          (String.append "%s" (String.append dq " specified more than once"))))
    [name].
(** The explicit list is checked against a relation that the source
    dereferences without a check; a NULL relation is undefined behaviour there,
    which is reported as this failure. *)
Definition err_null_relation : ErrorData :=
  ereport ERRCODE_INTERNAL_ERROR "unexpected null relation".

(** Modelled from the spec: [bms_is_member] and [bms_add_member] are defined
    in bitmapset.cpp, which is not among the sources.  The spec has the column
    list checked for duplicates; the set of the attribute numbers seen so far
    is a list here. *)
Definition Bitmapset : Type := list Z.
Definition bms_is_member (x : Z) (a : Bitmapset) : bool := existsb (Z.eqb x) a.
Definition bms_add_member (a : Bitmapset) (x : Z) : Bitmapset := x :: a.

Section AttributeNumbers.

(** Name comparison and the system attributes, which live in the catalog
    code, and the constants and macros of the headers. *)
Variable namestrcmp : string -> string -> Z.
Variable specialAttNum : string -> Z.
Variable SystemAttributeDefinition : Z -> bool -> bool -> bool -> res Form_pg_attribute.
Variable ObjectIdAttributeNumber BucketIdAttributeNumber UidAttributeNumber : Z.
Variable RELATION_HAS_BUCKET RELATION_HAS_UIDS : RelationData -> bool.
Variable TsRelWithImplDistColumn : list Form_pg_attribute -> Z -> bool.
Variable RelationIsTsStore : RelationData -> bool.

(** The [for] loop of [attnameAttNum] from index [i] on. *)
Fixpoint attname_scan (attname' : string) (rest : list Form_pg_attribute) (i : Z)
    : option Z :=
  match rest with
  | [] => None
  | att :: rest' =>
      if (namestrcmp (attname att) attname' =? 0) && negb (attisdropped att)
      then Some (i + 1)
      else attname_scan attname' rest' (i + 1)
  end.

Definition attnameAttNum (rd : RelationData) (attname' : string) (sysColOK : bool) : Z :=
  match attname_scan attname' (attrs rd) 0 with
  | Some n => n
  | None =>
      if sysColOK then
        let i := specialAttNum attname' in
        if negb (i =? InvalidAttrNumber)
           && ((negb (i =? ObjectIdAttributeNumber) || relhasoids rd)
               && (negb (i =? BucketIdAttributeNumber) || RELATION_HAS_BUCKET rd)
               && (negb (i =? UidAttributeNumber) || RELATION_HAS_UIDS rd))
        then i
        else InvalidAttrNumber (* on failure *)
      else InvalidAttrNumber
  end.

Definition attnumAttName (rd : RelationData) (attid : Z) : res string :=
  if attid <=? 0 then
    do sysatt <- SystemAttributeDefinition attid (relhasoids rd)
                   (RELATION_HAS_BUCKET rd) (RELATION_HAS_UIDS rd);
    Ok (attname sysatt)
  else if attid >? relnatts rd then Error err_invalid_attribute_number
  else
    match nth_error (attrs rd) (Z.to_nat (attid - 1)) with
    | Some att => Ok (attname att)
    | None => Error err_invalid_attribute_number
    end.

(** *** checkInsertTargets *)

(** Whether the default column list takes the attribute at index [i]. *)
Definition default_column (targetrel : RelationData) (i : Z) (att : Form_pg_attribute)
    : bool :=
  if attisdropped att then false
  else if TsRelWithImplDistColumn (attrs targetrel) i && RelationIsTsStore targetrel
  then false (* a hidden column of a time series relation *)
  else if rd_isblockchain targetrel && String.eqb (attname att) "hash" then false
  else true.

(** The [for] loop that generates the default column list, from index [i]
    on. *)
Fixpoint default_columns (targetrel : RelationData) (rest : list Form_pg_attribute)
    (i : Z) (cols : list ResTarget) (attrnos : list Z) : list ResTarget * list Z :=
  match rest with
  | [] => (cols, attrnos)
  | att :: rest' =>
      if default_column targetrel i att
      then default_columns targetrel rest' (i + 1)
             (cols ++ [mkResTarget (attname att) [] (-1)]) (attrnos ++ [i + 1])
      else default_columns targetrel rest' (i + 1) cols attrnos
  end.

(** The [foreach] that validates a column list given by the user. *)
Fixpoint check_columns (targetrel : RelationData) (cols : list ResTarget)
    (wholecols partialcols : Bitmapset) (attrnos : list Z) : res (list Z) :=
  match cols with
  | [] => Ok attrnos
  | col :: rest =>
      (* look up the column name, failing if it is not there *)
      let attrno := attnameAttNum targetrel (name col) false in
      if attrno =? InvalidAttrNumber
      then Error (err_column_does_not_exist (name col) (relname targetrel))
      else
        match indirection col with
        | [] =>
            (* whole column; must not have any other assignment *)
            if bms_is_member attrno wholecols || bms_is_member attrno partialcols
            then Error (err_column_specified_twice (name col))
            else check_columns targetrel rest (bms_add_member wholecols attrno)
                   partialcols (attrnos ++ [attrno])
        | _ =>
            (* partial column; must not have any whole assignment *)
            if bms_is_member attrno wholecols
            then Error (err_column_specified_twice (name col))
            else check_columns targetrel rest wholecols
                   (bms_add_member partialcols attrno) (attrnos ++ [attrno])
        end
  end.

(** Returns the column list and [*attrnos]. *)
Definition checkInsertTargets (targetrel : option RelationData) (cols : list ResTarget)
    : res (list ResTarget * list Z) :=
  match cols with
  | [] =>
      match targetrel with
      | None => Error err_targetrel_is_null
      | Some targetrel => Ok (default_columns targetrel (attrs targetrel) 0 [] [])
      end
  | _ =>
      match targetrel with
      | None => Error err_null_relation
      | Some targetrel =>
          do attrnos <- check_columns targetrel cols [] [] [];
          Ok (cols, attrnos)
      end
  end.

(** Two columns of an INSERT list that may stand together: they name
    different attributes, or both assign to a part of the attribute. *)
Definition assigned_apart (targetrel : RelationData) (ci cj : ResTarget) : Prop :=
  attnameAttNum targetrel (name ci) false = attnameAttNum targetrel (name cj) false ->
  indirection ci <> [] /\ indirection cj <> [].

(** The live attributes of the relation bear pairwise different names. *)
Definition live_names_differ (rd : RelationData) : Prop :=
  forall i j ai aj,
    nth_error (attrs rd) i = Some ai -> nth_error (attrs rd) j = Some aj ->
    attisdropped ai = false -> attisdropped aj = false ->
    (namestrcmp (attname ai) (attname aj) = 0 <-> i = j).

End AttributeNumbers.

End Insert.

Module InsertExamples.
Import Insert.

(** A table [t (id, <dropped>, name)]. *)
Definition example_relation : RelationData :=
  mkRelation "t" false false
    [mkAttribute "id" false; mkAttribute "........pg.dropped.2........" true;
     mkAttribute "name" false].

Definition example_namestrcmp (a b : string) : Z := if String.eqb a b then 0 else 1.
Definition example_specialAttNum (attname' : string) : Z :=
  if String.eqb attname' "ctid" then -1 else 0.
End InsertExamples.

(** * parse_target.cpp : the name of an output column *)

Module Colname.

Inductive SubLinkType : Type :=
| EXISTS_SUBLINK | ALL_SUBLINK | ANY_SUBLINK | ROWCOMPARE_SUBLINK | EXPR_SUBLINK
| ARRAY_SUBLINK | CTE_SUBLINK.

Inductive MinMaxOp : Type := IS_GREATEST | IS_LEAST.

Inductive XmlExprOp : Type :=
| IS_XMLCONCAT | IS_XMLELEMENT | IS_XMLFOREST | IS_XMLPARSE | IS_XMLPI | IS_XMLROOT
| IS_XMLSERIALIZE | IS_DOCUMENT.

(** A member of the field list of a column reference or of an indirection
    list. *)
Inductive Field : Type :=
| String_ (str : string)
| A_Star
| A_Indices.

(** The subselect of a sublink: the raw statement or, once it has been
    analysed in place, a [Query]; of a [Query] the [resname] of the first
    entry of the target list is kept, which is all that is read. *)
Inductive SubSelect : Type :=
| RawSelect
| Query (linitial_resname : option string).

(** The raw expression nodes that [FigureColnameInternal] tells apart, with
    the fields it reads.  The name lists of a function call and of a type name
    are never empty. *)
Inductive Node : Type :=
| ColumnRef (fields : list Field)
| A_Indirection (arg : option Node) (indirection : list Field)
| FuncCall (funcname : list string) (colname : option string)
| A_Expr (kind : StartWith.A_Expr_Kind)
| PredictByFunction (model_name : string)
| TypeCast (arg : option Node) (typname : option (list string))
| CollateClause (arg : option Node)
| GroupingFunc
| Rownum
| SubLink (subLinkType : SubLinkType) (subselect : SubSelect)
| CaseExpr (defresult : option Node)
| A_ArrayExpr
| RowExpr
| CoalesceExpr (isnvl : bool)
| MinMaxExpr (op : MinMaxOp)
| XmlExpr (op : XmlExprOp)
| XmlSerialize
| UserVar (name : string)
| OtherNode (tag : Z).

(** [strVal(llast(names))] *)
Definition last_name (names : list string) : string := last names "".

Definition find_last_field_name (field : list Field) : option string :=
  fold_left (fun fname i => match i with String_ s => Some s | _ => fname end)
    field None.

(** [FigureColnameInternal(node, name)]: the strength returned and what
    [*name] holds afterwards, given what it held before. *)
Fixpoint FigureColnameInternal (node : Node) (name : option string)
    : Z * option string :=
  let strength := 0 in
  match node with
  | ColumnRef fields =>
      match find_last_field_name fields with
      | Some fname => (2, Some fname)
      | None => (strength, name)
      end
  | A_Indirection arg indirection =>
      match find_last_field_name indirection with
      | Some fname => (2, Some fname)
      | None =>
          match arg with
          | Some a => FigureColnameInternal a name
          | None => (strength, name)
          end
      end
  | FuncCall funcname colname =>
      match colname with
      | Some c => (2, Some c)
      | None => (2, Some (last_name funcname))
      end
  | A_Expr kind =>
      (* make nullif() act like a regular function *)
      match kind with
      | StartWith.AEXPR_NULLIF => (2, Some "nullif")
      | _ => (strength, name)
      end
  | PredictByFunction model_name => (1, Some (String.append model_name "_pred"))
  | TypeCast arg typname =>
      let '(strength, name) :=
        match arg with
        | Some a => FigureColnameInternal a name
        | None => (strength, name)
        end in
      if strength <=? 1 then
        match typname with
        | Some names => (1, Some (last_name names))
        | None => (strength, name)
        end
      else (strength, name)
  | CollateClause arg =>
      match arg with
      | Some a => FigureColnameInternal a name
      | None => (strength, name)
      end
  | GroupingFunc => (2, Some "grouping")
  | Rownum => (2, Some "rownum")
  | SubLink subLinkType subselect =>
      match subLinkType with
      | EXISTS_SUBLINK => (2, Some "exists")
      | ARRAY_SUBLINK => (2, Some "array")
      | EXPR_SUBLINK =>
          (* get column name of the subquery's single target *)
          match subselect with
          | Query (Some resname) => (2, Some resname)
          | _ => (strength, name)
          end
      | _ => (strength, name)
      end
  | CaseExpr defresult =>
      let '(strength, name) :=
        match defresult with
        | Some d => FigureColnameInternal d name
        | None => (strength, name)
        end in
      if strength <=? 1 then (1, Some "case") else (strength, name)
  | A_ArrayExpr => (2, Some "array")
  | RowExpr => (2, Some "row")
  | CoalesceExpr isnvl => if isnvl then (2, Some "nvl") else (2, Some "coalesce")
  | MinMaxExpr op =>
      match op with
      | IS_GREATEST => (2, Some "greatest")
      | IS_LEAST => (2, Some "least")
      end
  | XmlExpr op =>
      match op with
      | IS_XMLCONCAT => (2, Some "xmlconcat")
      | IS_XMLELEMENT => (2, Some "xmlelement")
      | IS_XMLFOREST => (2, Some "xmlforest")
      | IS_XMLPARSE => (2, Some "xmlparse")
      | IS_XMLPI => (2, Some "xmlpi")
      | IS_XMLROOT => (2, Some "xmlroot")
      | IS_XMLSERIALIZE => (2, Some "xmlserialize")
      | IS_DOCUMENT => (strength, name)
      end
  | XmlSerialize => (2, Some "xmlserialize")
  | UserVar name' => (1, Some (String.append "@" name'))
  | OtherNode _ => (strength, name)
  end.

(** A NULL node gives no information. *)
Definition figure (node : option Node) : Z * option string :=
  match node with
  | Some n => FigureColnameInternal n None
  | None => (0, None)
  end.

Definition FigureColname (node : option Node) : string :=
  match snd (figure node) with
  | Some name => name
  | None => "?column?" (* default result if we can't guess anything *)
  end.

Definition FigureIndexColname (node : option Node) : option string :=
  snd (figure node).

(** What a call leaves behind when [*name] held [name] before it: strength 0
    and the name untouched, or strength 1 or 2 and a name chosen. *)
Definition chosen_or_untouched (name : option string) (r : Z * option string) : Prop :=
  (fst r = 0 /\ snd r = name)
  \/ ((fst r = 1 \/ fst r = 2) /\ exists n, snd r = Some n).

(** [wraps inner outer]: [outer] is [inner] under any number of casts,
    COLLATE clauses, subscripts without a field name, and CASE expressions of
    which it is the ELSE result. *)
Inductive wraps (inner : Node) : Node -> Prop :=
| wraps_refl : wraps inner inner
| wraps_cast outer typname :
    wraps inner outer -> wraps inner (TypeCast (Some outer) typname)
| wraps_collate outer :
    wraps inner outer -> wraps inner (CollateClause (Some outer))
| wraps_subscript outer indirection :
    find_last_field_name indirection = None ->
    wraps inner outer -> wraps inner (A_Indirection (Some outer) indirection)
| wraps_case_default outer :
    wraps inner outer -> wraps inner (CaseExpr (Some outer)).

End Colname.

(** * parse_agg.cpp : the argument types of an aggregate call *)

Module AggArgs.
Import Agg.

(** An entry of the argument list of an [Aggref], a target list: the
    expression and whether it is a sort column only. *)
Record TargetEntry : Type := mkTargetEntry {
  expr : Node;
  resjunk : bool
}.

Definition err_too_many_arguments : ErrorData :=
  ereport ERRCODE_PROGRAM_LIMIT_EXCEEDED "函数最多可以有 %d 个参数".

Section GetAggregateArgtypes.

Variable exprType : Node -> Z.

(** The first [foreach], over the direct arguments.  [inputTypes] holds the
    entries of the array written so far, [narg] of them. *)
Fixpoint direct_argtypes (func_max_args : Z) (aggdirectargs : list Node)
    (inputTypes : list Z) (narg : Z) : res (list Z * Z) :=
  match aggdirectargs with
  | [] => Ok (inputTypes, narg)
  | a :: rest =>
      let inputTypes := inputTypes ++ [exprType a] in
      let narg := narg + 1 in
      if narg >=? func_max_args then Error err_too_many_arguments
      else direct_argtypes func_max_args rest inputTypes narg
  end.

(** The second [foreach], over the aggregated arguments. *)
Fixpoint aggregated_argtypes (func_max_args : Z) (args : list TargetEntry)
    (inputTypes : list Z) (narg : Z) : res (list Z * Z) :=
  match args with
  | [] => Ok (inputTypes, narg)
  | tle :: rest =>
      (* ignore ordering columns of a plain aggregate *)
      if resjunk tle then aggregated_argtypes func_max_args rest inputTypes narg
      else
        let inputTypes := inputTypes ++ [exprType (expr tle)] in
        let narg := narg + 1 in
        if narg >=? func_max_args then Error err_too_many_arguments
        else aggregated_argtypes func_max_args rest inputTypes narg
  end.

(** Returns the entries written to [inputTypes] and the number of them. *)
Definition get_aggregate_argtypes (aggdirectargs : list Node) (args : list TargetEntry)
    (func_max_args : Z) : res (list Z * Z) :=
  do '(inputTypes, narg) <- direct_argtypes func_max_args aggdirectargs [] 0;
  aggregated_argtypes func_max_args args inputTypes narg.

(** The types of the arguments that are passed to the aggregate: the direct
    ones, then the aggregated ones that are no sort columns. *)
Definition passed_argtypes (aggdirectargs : list Node) (args : list TargetEntry)
    : list Z :=
  map exprType aggdirectargs
  ++ map (fun tle => exprType (expr tle)) (filter (fun tle => negb (resjunk tle)) args).

End GetAggregateArgtypes.

End AggArgs.

(** * parse_agg.cpp : window function calls *)

Module Window.
Import Agg.

(** A window definition of the raw tree: the clauses and the frame offsets are
    raw nodes, which this routine only compares. *)
Record WindowDef : Type := mkWindowDef {
  name : option string;
  refname : option string;
  partitionClause : list StartWith.Node;
  orderClause : list StartWith.Node;
  frameOptions : Z;
  startOffset : option StartWith.Node;
  endOffset : option StartWith.Node;
  location : Z
}.

Record ParseState : Type := mkParseState {
  p_hasWindowFuncs : bool;
  p_windowdefs : list WindowDef
}.

Definition err_nested_window_function : ErrorData :=
  ereport ERRCODE_WINDOWING_ERROR "窗口函数调用不能嵌套".
Definition err_window_does_not_exist (name : string) : ErrorData :=
  ereportf ERRCODE_UNDEFINED_OBJECT
    (String.append "窗口 "
       (String.append dq (String.append "%s" (String.append dq " 不存在"))))
    [name].

Section TransformWindowFuncCall.

(** Services of other files, and a constant of the headers. *)
Variable checkExprHasWindowFuncs : list Node -> bool.
Variable equal : StartWith.Node -> StartWith.Node -> bool.
Variable FRAMEOPTION_DEFAULTS : Z.

(** Modelled from the spec: [equal] is defined in equalfuncs.cpp, which is not
    among the sources.  Applied to two pointers that may be NULL, it holds of
    two NULL pointers and of two equal nodes; applied to two lists, it holds
    when they have the same length and equal members. *)
Definition equal_opt (a b : option StartWith.Node) : bool :=
  match a, b with
  | None, None => true
  | Some x, Some y => equal x y
  | _, _ => false
  end.

Fixpoint equal_list (a b : list StartWith.Node) : bool :=
  match a, b with
  | [], [] => true
  | x :: a', y :: b' => equal x y && equal_list a' b'
  | _, _ => false
  end.

Definition is_null {A : Type} (o : option A) : bool :=
  match o with None => true | Some _ => false end.

(** Whether an entry of [p_windowdefs] bears that name. *)
Definition named (refwin : WindowDef) (name' : string) : bool :=
  match name refwin with
  | Some n => String.eqb n name'
  | None => false
  end.

(** The [foreach] of the branch for an OVER clause that is a bare window
    name.  [winref] counts the entries; a list is shorter than the range of
    [Index]. *)
Fixpoint find_named (windefs : list WindowDef) (name' : string) (winref : Z)
    : option Z :=
  match windefs with
  | [] => None
  | refwin :: rest =>
      let winref := winref + 1 in
      if named refwin name' then Some winref else find_named rest name' winref
  end.

(** Whether an entry of [p_windowdefs] is a duplicate of the specification. *)
Definition same_window (refwin windef : WindowDef) : bool :=
  match refname refwin, refname windef with
  | Some r, Some w =>
      if String.eqb r w (* matched on refname *)
      then equal_list (partitionClause refwin) (partitionClause windef)
           && equal_list (orderClause refwin) (orderClause windef)
           && (frameOptions refwin =? frameOptions windef)
           && equal_opt (startOffset refwin) (startOffset windef)
           && equal_opt (endOffset refwin) (endOffset windef)
      else false
  | None, None => (* matched, no refname *)
      equal_list (partitionClause refwin) (partitionClause windef)
      && equal_list (orderClause refwin) (orderClause windef)
      && (frameOptions refwin =? frameOptions windef)
      && equal_opt (startOffset refwin) (startOffset windef)
      && equal_opt (endOffset refwin) (endOffset windef)
  | _, _ => false
  end.

Fixpoint find_same (windefs : list WindowDef) (windef : WindowDef) (winref : Z)
    : option Z :=
  match windefs with
  | [] => None
  | refwin :: rest =>
      let winref := winref + 1 in
      if same_window refwin windef then Some winref else find_same rest windef winref
  end.

(** [transformWindowFuncCall(pstate, wfunc, windef)]: the parse state and the
    [winref] that the call is given; [args] are the arguments of the call. *)
Definition transformWindowFuncCall (pstate : ParseState) (args : list Node)
    (windef : WindowDef) : res (ParseState * Z) :=
  if p_hasWindowFuncs pstate && checkExprHasWindowFuncs args
  then Error err_nested_window_function
  else
    do '(pstate, winref) <-
      match name windef with
      | Some name' =>
          do _ <- AssertEreport
                    (is_null (refname windef)
                     && StartWith.isNil (partitionClause windef)
                     && StartWith.isNil (orderClause windef)
                     && (frameOptions windef =? FRAMEOPTION_DEFAULTS)) "";
          match find_named (p_windowdefs pstate) name' 0 with
          | Some winref => Ok (pstate, winref)
          | None => Error (err_window_does_not_exist name')
          end
      | None =>
          match find_same (p_windowdefs pstate) windef 0 with
          | Some winref => Ok (pstate, winref)
          | None =>
              let windefs := p_windowdefs pstate ++ [windef] in
              Ok (mkParseState (p_hasWindowFuncs pstate) windefs, list_length windefs)
          end
      end;
    Ok (mkParseState true (p_windowdefs pstate), winref).

End TransformWindowFuncCall.

End Window.

Module WindowExamples.
Import Window.

(** [OVER (PARTITION BY <node 1>)] *)
Definition example_windef : WindowDef :=
  mkWindowDef None None [StartWith.ColumnRef ["a"] false 7] [] 0 None None 3.

(** Node equality for the example: two column references are equal when they
    bear the same names; the example holds no other nodes. *)
Definition example_equal (a b : StartWith.Node) : bool :=
  match a, b with
  | StartWith.ColumnRef f1 _ _, StartWith.ColumnRef f2 _ _ =>
      if list_eq_dec string_dec f1 f2 then true else false
  | StartWith.ColumnRef _ _ _, _ | _, StartWith.ColumnRef _ _ _ => false
  | _, _ => true
  end.

End WindowExamples.

(** * parse_agg.cpp : the level of an aggregate and the clause it is in *)

Module AggLevel.
Import Agg.

Inductive ParseExprKind : Type :=
| EXPR_KIND_NONE
| EXPR_KIND_OTHER
| EXPR_KIND_JOIN_ON
| EXPR_KIND_JOIN_USING
| EXPR_KIND_FROM_SUBSELECT
| EXPR_KIND_FROM_FUNCTION
| EXPR_KIND_WHERE
| EXPR_KIND_POLICY
| EXPR_KIND_HAVING
| EXPR_KIND_FILTER
| EXPR_KIND_WINDOW_PARTITION
| EXPR_KIND_WINDOW_ORDER
| EXPR_KIND_WINDOW_FRAME_RANGE
| EXPR_KIND_WINDOW_FRAME_ROWS
| EXPR_KIND_WINDOW_FRAME_GROUPS
| EXPR_KIND_SELECT_TARGET
| EXPR_KIND_INSERT_TARGET
| EXPR_KIND_UPDATE_SOURCE
| EXPR_KIND_UPDATE_TARGET
| EXPR_KIND_MERGE_WHEN
| EXPR_KIND_GROUP_BY
| EXPR_KIND_ORDER_BY
| EXPR_KIND_DISTINCT_ON
| EXPR_KIND_LIMIT
| EXPR_KIND_OFFSET
| EXPR_KIND_RETURNING
| EXPR_KIND_VALUES
| EXPR_KIND_VALUES_SINGLE
| EXPR_KIND_CHECK_CONSTRAINT
| EXPR_KIND_DOMAIN_CHECK
| EXPR_KIND_COLUMN_DEFAULT
| EXPR_KIND_FUNCTION_DEFAULT
| EXPR_KIND_INDEX_EXPRESSION
| EXPR_KIND_INDEX_PREDICATE
| EXPR_KIND_STATS_EXPRESSION
| EXPR_KIND_ALTER_COL_TRANSFORM
| EXPR_KIND_EXECUTE_PARAMETER
| EXPR_KIND_TRIGGER_WHEN
| EXPR_KIND_PARTITION_BOUND
| EXPR_KIND_PARTITION_EXPRESSION
| EXPR_KIND_GENERATED_COLUMN
| EXPR_KIND_CALL_ARGUMENT
| EXPR_KIND_COPY_WHERE
| EXPR_KIND_CYCLE_MARK.


(** The fields of [ParseState] that the check reads and writes; the parent
    link makes the chain of query levels. *)
Inductive ParseState : Type := mkParseState {
  p_expr_kind : ParseExprKind;
  p_hasAggs : bool;
  parentParseState : option ParseState
}.

(** The level that a scope chain is short of is reached through a NULL
    pointer, and a node of another kind is read through a cast that is not
    checked; both are undefined behaviour, reported as these failures. *)
Definition err_null_scope : ErrorData :=
  ereport ERRCODE_INTERNAL_ERROR "unexpected null parse state".
Definition err_bad_cast : ErrorData :=
  ereport ERRCODE_INTERNAL_ERROR "unexpected node type".

(** The [switch] on the expression kind: what [err] and [errkind] are set
    to. *)
Definition constraint_of (kind : ParseExprKind) (isAgg : bool) : option string * bool :=
  match kind with
  | EXPR_KIND_NONE =>
      (None, false)
  | EXPR_KIND_OTHER =>
      (None, false)
  | EXPR_KIND_JOIN_ON | EXPR_KIND_JOIN_USING =>
      (Some (if isAgg then "聚合函数不允许出现在JOIN条件中"
             else "分组操作不允许出现在JOIN条件中"), false)
  | EXPR_KIND_FROM_SUBSELECT =>
      (Some (if isAgg then "聚合函数不允许出现在其自己查询级别的FROM子句中"
             else "分组操作不允许出现在其自己查询级别的FROM子句中"), false)
  | EXPR_KIND_FROM_FUNCTION =>
      (Some (if isAgg then "聚合函数不允许出现在FROM子句中的函数中"
             else "分组操作不允许出现在FROM子句中的函数中"), false)
  | EXPR_KIND_WHERE =>
      (None, true)
  | EXPR_KIND_POLICY =>
      (Some (if isAgg then "聚合函数不允许出现在策略表达式中"
             else "分组操作不允许出现在策略表达式中"), false)
  | EXPR_KIND_HAVING =>
      (None, false)
  | EXPR_KIND_FILTER =>
      (None, true)
  | EXPR_KIND_WINDOW_PARTITION =>
      (None, false)
  | EXPR_KIND_WINDOW_ORDER =>
      (None, false)
  | EXPR_KIND_WINDOW_FRAME_RANGE =>
      (Some (if isAgg then "聚合函数不允许出现在窗口RANGE中"
             else "分组操作不允许出现在窗口RANGE中"), false)
  | EXPR_KIND_WINDOW_FRAME_ROWS =>
      (Some (if isAgg then "聚合函数不允许出现在窗口ROWS中"
             else "分组操作不允许出现在窗口ROWS中"), false)
  | EXPR_KIND_WINDOW_FRAME_GROUPS =>
      (Some (if isAgg then "聚合函数不允许出现在窗口GROUPS中"
             else "分组操作不允许出现在窗口GROUPS中"), false)
  | EXPR_KIND_SELECT_TARGET =>
      (None, false)
  | EXPR_KIND_INSERT_TARGET | EXPR_KIND_UPDATE_SOURCE | EXPR_KIND_UPDATE_TARGET =>
      (None, true)
  | EXPR_KIND_MERGE_WHEN =>
      (Some (if isAgg then "聚合函数不允许出现在MERGE WHEN条件中"
             else "分组操作不允许出现在MERGE WHEN条件中"), false)
  | EXPR_KIND_GROUP_BY =>
      (None, true)
  | EXPR_KIND_ORDER_BY =>
      (None, false)
  | EXPR_KIND_DISTINCT_ON =>
      (None, false)
  | EXPR_KIND_LIMIT | EXPR_KIND_OFFSET =>
      (None, true)
  | EXPR_KIND_RETURNING =>
      (None, true)
  | EXPR_KIND_VALUES | EXPR_KIND_VALUES_SINGLE =>
      (None, true)
  | EXPR_KIND_CHECK_CONSTRAINT | EXPR_KIND_DOMAIN_CHECK =>
      (Some (if isAgg then "聚合函数不允许出现在检查约束中"
             else "分组操作不允许出现在检查约束中"), false)
  | EXPR_KIND_COLUMN_DEFAULT | EXPR_KIND_FUNCTION_DEFAULT =>
      (Some (if isAgg then "聚合函数不允许出现在DEFAULT表达式中"
             else "分组操作不允许出现在DEFAULT表达式中"), false)
  | EXPR_KIND_INDEX_EXPRESSION =>
      (Some (if isAgg then "聚合函数不允许出现在索引表达式中"
             else "分组操作不允许出现在索引表达式中"), false)
  | EXPR_KIND_INDEX_PREDICATE =>
      (Some (if isAgg then "聚合函数不允许出现在索引谓词中"
             else "分组操作不允许出现在索引谓词中"), false)
  | EXPR_KIND_STATS_EXPRESSION =>
      (Some (if isAgg then "聚合函数不允许出现在统计表达式中"
             else "分组操作不允许出现在统计表达式中"), false)
  | EXPR_KIND_ALTER_COL_TRANSFORM =>
      (Some (if isAgg then "聚合函数不允许出现在变换表达式中"
             else "分组操作不允许出现在变换表达式中"), false)
  | EXPR_KIND_EXECUTE_PARAMETER =>
      (Some (if isAgg then "聚合函数不允许出现在EXECUTE参数中"
             else "分组操作不允许出现在EXECUTE参数中"), false)
  | EXPR_KIND_TRIGGER_WHEN =>
      (Some (if isAgg then "聚合函数不允许出现在触发器WHEN条件中"
             else "分组操作不允许出现在触发器WHEN条件中"), false)
  | EXPR_KIND_PARTITION_BOUND =>
      (Some (if isAgg then "聚合函数不允许出现在分区边界中"
             else "分组操作不允许出现在分区边界中"), false)
  | EXPR_KIND_PARTITION_EXPRESSION =>
      (Some (if isAgg then "聚合函数不允许出现在分区键表达式中"
             else "分组操作不允许出现在分区键表达式中"), false)
  | EXPR_KIND_GENERATED_COLUMN =>
      (Some (if isAgg then "聚合函数不允许出现在生成列表达式中"
             else "分组操作不允许出现在生成列表达式中"), false)
  | EXPR_KIND_CALL_ARGUMENT =>
      (Some (if isAgg then "聚合函数不允许出现在CALL参数中"
             else "分组操作不允许出现在CALL参数中"), false)
  | EXPR_KIND_COPY_WHERE =>
      (Some (if isAgg then "聚合函数不允许出现在COPY FROM WHERE条件中"
             else "分组操作不允许出现在COPY FROM WHERE条件中"), false)
  | EXPR_KIND_CYCLE_MARK =>
      (None, true)
  end.

(** The [while (min_varlevel-- > 0)] loop and the assignment to [p_hasAggs]
    of the level that it reaches: the chain as the assignment leaves it, and
    the expression kind of that level. *)
Fixpoint mark_hasAggs (pstate : ParseState) (min_varlevel : Z)
    : res (ParseState * ParseExprKind) :=
  if min_varlevel >? 0 then
    match parentParseState pstate with
    | Some parent =>
        do '(parent, kind) <- mark_hasAggs parent (min_varlevel - 1);
        Ok (mkParseState (p_expr_kind pstate) (p_hasAggs pstate) (Some parent), kind)
    | None => Error err_null_scope
    end
  else
    Ok (mkParseState (p_expr_kind pstate) true (parentParseState pstate),
        p_expr_kind pstate).

Section CheckAggLevels.

(** The name of a clause, from parse_expr. *)
Variable ParseExprKindName : ParseExprKind -> string.

(** Returns the parse state and the call with its level set.  The filter that
    is handed to [check_agg_arguments] is never assigned, so it is NULL. *)
Definition check_agglevels_and_constraints (pstate : ParseState) (expr : Node)
    : res (ParseState * Node) :=
  do '(isAgg, directargs, args) <-
    match expr with
    | Aggref _ directargs args _ => Ok (true, directargs, args)
    | GroupingFunc _ args _ => Ok (false, [], args)
    | _ => Error err_bad_cast
    end;
  (* check the arguments to compute the level and detect improper nesting *)
  do min_varlevel <- check_agg_arguments directargs args None;
  let expr :=
    match expr with
    | Aggref _ directargs args location => Aggref min_varlevel directargs args location
    | GroupingFunc _ args location => GroupingFunc min_varlevel args location
    | _ => expr
    end in
  (* mark the correct pstate level as having aggregates *)
  do '(pstate, kind) <- mark_hasAggs pstate min_varlevel;
  let '(err, errkind) := constraint_of kind isAgg in
  match err with
  | Some msg => Error (ereport ERRCODE_GROUPING_ERROR msg)
  | None =>
      if errkind then
        Error (ereportf ERRCODE_GROUPING_ERROR
                 (if isAgg then "聚合函数不允许出现在%s中" else "分组操作不允许出现在%s中")
                 [ParseExprKindName kind])
      else Ok (pstate, expr)
  end.

End CheckAggLevels.

(** The query levels from this one outwards: the clause being analysed and
    whether the level is marked as having aggregates. *)
Fixpoint scopes (pstate : ParseState) : list (ParseExprKind * bool) :=
  (p_expr_kind pstate, p_hasAggs pstate)
  :: match parentParseState pstate with
     | Some parent => scopes parent
     | None => []
     end.

(** The clauses in which an aggregate or a grouping operation of the level
    may stand. *)
Definition allows_aggregates (kind : ParseExprKind) : bool :=
  match kind with
  | EXPR_KIND_NONE | EXPR_KIND_OTHER | EXPR_KIND_HAVING | EXPR_KIND_WINDOW_PARTITION
  | EXPR_KIND_WINDOW_ORDER | EXPR_KIND_SELECT_TARGET | EXPR_KIND_ORDER_BY
  | EXPR_KIND_DISTINCT_ON => true
  | _ => false
  end.

(** The call with another level. *)
Definition with_level (expr : Node) (level : Z) : Node :=
  match expr with
  | Aggref _ directargs args location => Aggref level directargs args location
  | GroupingFunc _ args location => GroupingFunc level args location
  | _ => expr
  end.

(** The arguments of the call that set its level. *)
Definition level_of_call (expr : Node) : res Z :=
  match expr with
  | Aggref _ directargs args _ => check_agg_arguments directargs args None
  | GroupingFunc _ args _ => check_agg_arguments [] args None
  | _ => Error err_bad_cast
  end.

End AggLevel.

Module AggLevelExamples.
Import Agg AggLevel.

(** [SELECT ... FROM t HAVING EXISTS (SELECT 1 FROM u WHERE sum(t.x) > u.y)]:
    the aggregate is written in the WHERE clause of the subquery and belongs
    to the outer query, which is analysing its HAVING clause. *)
Definition example_outer : ParseState := mkParseState EXPR_KIND_HAVING false None.
Definition example_inner : ParseState :=
  mkParseState EXPR_KIND_WHERE false (Some example_outer).
Definition example_sum : Node :=
  Aggref 0 [] [TargetEntry (Var 1 1 1 10) 0] 5.

End AggLevelExamples.

(** * The columns of the working table of a START WITH rewrite

    [ReplaceSWCTEOutSrting] of parse_relation.cpp undoes, when the entry of the
    working table is expanded, the naming of [makeStartWithDummayColname] of
    parse_startwith.cpp. *)

Module SwColumns.

(** The separator of the dummy column names, ['@']. *)
Definition at_sign : Ascii.ascii :=
  Ascii.Ascii false false false false false false true false.

(** [list_nth] beyond the range table, and the alias of a subquery entry that
    has none, are read without a check; the undefined behaviour is reported as
    this failure. *)
Definition err_bad_origin_index : ErrorData :=
  ereport ERRCODE_INTERNAL_ERROR "unexpected origin index".

(** An entry that the loop can read its relation name from. *)
Definition has_relname (old_rte : RangeTblEntry) : bool :=
  match rtekind old_rte, alias old_rte with
  | RTE_SUBQUERY, None => false
  | _, _ => true
  end.

(** [ReplaceSWCTEOutSrting(pstate, rte, label)], given [pstate->p_rtable] and
    [rte->origin_index].  The relation name that the loop reads is not
    used. *)
Fixpoint ReplaceSWCTEOutSrting (p_rtable : list RangeTblEntry) (origin_index : list Z)
    (label : string) : res string :=
  match origin_index with
  | [] => Ok label
  | index :: rest =>
      match rt_fetch index p_rtable with
      | None => Error err_bad_origin_index
      | Some old_rte =>
          if has_relname old_rte then
            (* keep what follows the last '@' of the label *)
            let label :=
              match after_last at_sign label with
              | Some tail => tail
              | None => label
              end in
            ReplaceSWCTEOutSrting p_rtable rest label
          else Error err_bad_origin_index
      end
  end.

Import StartWith.

(** *** The targets of the two branches, as a list comprehension *)

(** The name that stands for the target in the names of its columns. *)
Definition target_relname (info : StartWithTargetRelInfo) : string :=
  strVal
    match rtekind info with
    | RTE_SUBQUERY => aliasname info
    | RTE_RELATION | RTE_CTE =>
        match aliasname info with
        | Some a => Some a
        | None => relname info
        end
    | _ => None
    end.

(** The columns that are not dropped. *)
Definition live_columns (info : StartWithTargetRelInfo) : list string :=
  filter (fun colname => negb (strlen colname =? 0)) (colnames (eref (rte info))).

Definition expanded_target (info : StartWithTargetRelInfo) (colname : string) : Node :=
  ResTarget (Some (String.append (target_relname info) (String.append "@" colname)))
    (Some (ColumnRef [target_relname info; colname] false (-1))) (-1).

Definition name_fits (NAMEDATALEN : Z) (info : StartWithTargetRelInfo)
    (colname : string) : Prop :=
  strlen (target_relname info) + strlen colname + 1 < NAMEDATALEN.

(** *** The conjuncts of a CONNECT BY condition *)

(** The operands of the nested ANDs of an expression, from left to right. *)
Fixpoint conjuncts (expr : Node) : list Node :=
  match expr with
  | A_Expr AEXPR_AND _ lexpr rexpr _ =>
      match lexpr with Some l => conjuncts l | None => [] end
      ++ match rexpr with Some r => conjuncts r | None => [] end
  | _ => [expr]
  end.

Definition conjuncts_opt (expr : option Node) : list Node :=
  match expr with Some e => conjuncts e | None => [] end.

Definition is_and (expr : Node) : bool :=
  match expr with A_Expr AEXPR_AND _ _ _ _ => true | _ => false end.

Section Conjuncts.

Variable CONNECT_BY_ROWNUM_FAKEVALUE CONNECT_BY_LEVEL_FAKEVALUE : Z.

(** What [rowNumOrLevelWalker] finds in a conjunct. *)
Definition found_in (expr : Node) : res (bool * bool) :=
  rowNumOrLevelWalker CONNECT_BY_ROWNUM_FAKEVALUE CONNECT_BY_LEVEL_FAKEVALUE expr
    (false, false).

(** The conjunct holds LEVEL or ROWNUM. *)
Definition on_level (expr : Node) : bool :=
  match found_in expr with
  | Ok (hasRownumOrLevel, _) => hasRownumOrLevel
  | Error _ => false
  end.

(** The walk of the conjunct succeeds and does not find PRIOR together with
    LEVEL or ROWNUM. *)
Definition classified (expr : Node) : Prop :=
  exists hasRownumOrLevel hasPrior,
    found_in expr = Ok (hasRownumOrLevel, hasPrior)
    /\ hasRownumOrLevel && hasPrior = false.

End Conjuncts.

(** The kinds of CONNECT BY that the rewriting knows. *)
Definition known_type (t : StartWithConnectByType) : Prop :=
  t = CONNECT_BY_PRIOR \/ t = CONNECT_BY_LEVEL \/ t = CONNECT_BY_ROWNUM
  \/ t = CONNECT_BY_MIXED_LEVEL.

(** A dummy column name: a relation name and a column name around ['@'],
    shorter than a name may be. *)
Definition dummy_name (NAMEDATALEN : Z) (name : string) : Prop :=
  strlen name < NAMEDATALEN
  /\ exists alias column, name = String.append alias (String.append "@" column).

End SwColumns.

Module SwColumnsExamples.

(** The range table of a query on [t]: the table, and the working table that
    stands for it. *)
Definition example_rtable : list RangeTblEntry :=
  [mkRangeTblEntry RTE_RELATION 16384 RELKIND_RELATION None (makeAlias "t" ["id"; "pid"])
     "" false true false false;
   mkRangeTblEntry RTE_CTE 0 RELKIND_OTHER (Some (makeAlias "tmp_reuslt" []))
     (makeAlias "tmp_reuslt" ["t@id"; "t@pid"]) "tmp_reuslt" false false true false].

End SwColumnsExamples.

Module SwClauseExamples.
Import StartWith.

(** [PRIOR id = parent_id AND level < 3] *)
Definition example_condition : Node :=
  A_Expr AEXPR_AND [] (Some (StartWithExamples.example_connect_by true))
    (Some StartWithExamples.example_level_below_3) 60.

Definition example_statement : Node :=
  StartWithExamples.example_select (Some StartWithExamples.example_start_with)
    (Some (StartWithExamples.example_connect_by true)).

Definition example_unflattened : StartWithTransformContext :=
  initial_context (StartWithExamples.example_pstate example_statement).

(** The context that the flattening of the condition leaves. *)
Definition example_flattened : StartWithTransformContext :=
  match flattenConnectByExpr (-2) (-1) example_unflattened example_condition with
  | Ok context => context
  | Error _ => example_unflattened
  end.

End SwClauseExamples.

(** * parse_startwith.cpp : the entry of the rewriting *)

Module SwEntry.

(** [rte->swAborted = true] *)
Definition abort_rte (r : RangeTblEntry) : RangeTblEntry :=
  mkRangeTblEntry (rtekind r) (relid r) (relkind r) (alias r) (eref r) (ctename r)
    (isexcluded r) true (swConverted r) (swSubExist r).

Import StartWith.

Definition err_no_rewritable_element : ErrorData :=
  ereport ERRCODE_FEATURE_NOT_SUPPORTED
    "在fromclause中找不到可以由start with/connect by重写的正确元素。".

Inductive StartWithRewrite : Type := SW_NONE | SW_SINGLE | SW_FROMLIST | SW_JOINEXP.

Definition ChooseSWCBStrategy (context : StartWithTransformContext) : StartWithRewrite :=
  let info_lens := list_length (relInfoList context) in
  if info_lens =? 1 then SW_SINGLE else SW_FROMLIST.

(** [info->rte->swAborted = true] *)
Definition mark_swAborted (info : StartWithTargetRelInfo) : StartWithTargetRelInfo :=
  mkStartWithTargetRelInfo (relname info) (aliasname info) (abort_rte (rte info))
    (rtekind info) (tblstmt info) (columns info).

(** The context that [transformStartWith] hands to the rewriting, from the
    one that [transformStartWithClause] leaves: for other than one target,
    the targets and the FROM items are those of the parse state
    ([sw_fromClause] is its field of that name, which nothing else reads);
    the range table entry of every target is marked as replaced. *)
Definition rewrite_context (pstate : ParseState) (sw_fromClause : list Node)
    (context : StartWithTransformContext) : StartWithTransformContext :=
  let lens := list_length (p_start_info pstate) in
  let context :=
    if negb (lens =? 1)
    then set_fromClause (set_relInfoList context (p_start_info pstate)) sw_fromClause
    else context in
  set_relInfoList context (map mark_swAborted (relInfoList context)).

(** The marked targets as the parse state sees them.  The targets of the
    context are shared with [p_start_info]: the list of the context starts as
    [p_start_info] and is only appended to, with members of [p_start_info]. *)
Definition abort_targets (pstate : ParseState) : ParseState :=
  mkParseState (map mark_swAborted (p_start_info pstate)) (p_pre_columnref_hook pstate)
    (p_post_columnref_hook pstate) (origin_with pstate) (p_ctenamespace pstate)
    (p_hasStartWith pstate) (p_sw_selectstmt pstate) (p_hasModifyingCTE pstate).

Section Entry.

Variable NAMEDATALEN : Z.
Variable CONNECT_BY_ROWNUM_FAKEVALUE CONNECT_BY_LEVEL_FAKEVALUE : Z.
Variable GetStartWithFakeConstValue : Value -> Z.
Variable makeBoolAConst : bool -> Z -> Node.
Variable equal : Node -> Node -> bool.
Variable equal_info : StartWithTargetRelInfo -> StartWithTargetRelInfo -> bool.
Variable transformColumnRef : ParseState -> Node -> res (option Agg.Node).
Variable transformWhereClause : ParseState -> option Node -> res (option Agg.Node).
Variable assign_expr_collations : ParseState -> option Agg.Node -> option Agg.Node.
Variable transformWithClause : ParseState -> Node -> res (list Node * ParseState).

(** *** transformSingleRTE and transformFromList

    Both build the two branches and the CTE, and return the parse state and
    the query as [CreateStartWithCTE] leaves them.  What the two functions do
    after that, the replacement of the targets by the entry of the CTE in
    [p_joinlist], [p_varnamespace], [p_relnamespace] and [p_rtable], is in
    fields of the parse state that are not modelled, and is left out. *)
Definition transformSingleRTE (pstate : ParseState) (qry : Query)
    (context : StartWithTransformContext) : res (ParseState * Query) :=
  let connectByExpr' := connectByExpr context in
  let startWithExpr' := startWithExpr context in
  let startWithRelInfoList := relInfoList context in
  do '(pstate, outerBranch) <-
    CreateStartWithCTEOuterBranch NAMEDATALEN makeBoolAConst pstate context
      startWithRelInfoList startWithExpr' None;
  do '(pstate, innerBranch) <-
    CreateStartWithCTEInnerBranch NAMEDATALEN makeBoolAConst pstate context
      startWithRelInfoList connectByExpr' None;
  CreateStartWithCTE equal transformWhereClause assign_expr_collations
    transformWithClause pstate qry outerBranch innerBranch context.

Definition transformFromList (pstate : ParseState) (qry : Query)
    (context : StartWithTransformContext) : res (ParseState * Query) :=
  let startWithExpr' := startWithExpr context in
  let connectByExpr' := connectByExpr context in
  let relInfoList' := relInfoList context in
  let whereClause' := whereClause context in
  do '(pstate, outerBranch) <-
    CreateStartWithCTEOuterBranch NAMEDATALEN makeBoolAConst pstate context
      relInfoList' startWithExpr' whereClause';
  do '(pstate, innerBranch) <-
    CreateStartWithCTEInnerBranch NAMEDATALEN makeBoolAConst pstate context
      relInfoList' connectByExpr' whereClause';
  CreateStartWithCTE equal transformWhereClause assign_expr_collations
    transformWithClause pstate qry outerBranch innerBranch context.

(** *** transformStartWith *)
Definition transformStartWith (pstate : ParseState) (sw_fromClause : list Node)
    (stmt : Node) (qry : Query) : res (ParseState * Query) :=
  if isNil (p_start_info pstate) then Error err_no_rewritable_element
  else
    do context <-
      transformStartWithClause NAMEDATALEN CONNECT_BY_ROWNUM_FAKEVALUE
        CONNECT_BY_LEVEL_FAKEVALUE GetStartWithFakeConstValue equal_info
        transformColumnRef (initial_context pstate) (Some stmt);
    let pstate := set_p_hasStartWith pstate true in
    let context := rewrite_context pstate sw_fromClause context in
    let pstate := abort_targets pstate in
    match ChooseSWCBStrategy context with
    | SW_SINGLE => transformSingleRTE pstate qry context
    | _ => transformFromList pstate qry context
    end.

(** *** What the statements below are about *)

(** The WHERE clause that [CreateStartWithCTEOuterBranch] gives the seed: the
    START WITH expression, and with it the WHERE clause pushed down. *)
Definition seed_quals (startWithExpr whereClause : option Node) : option Node :=
  let whereClauseCopy :=
    option_map (raw_expression_tree_update (walker_to_exclude_non_join_quals makeBoolAConst))
      whereClause in
  match startWithExpr with
  | None => whereClauseCopy
  | Some _ =>
      match whereClause with
      | Some _ => Some (makeA_Expr AEXPR_AND [] whereClauseCopy startWithExpr (-1))
      | None => startWithExpr
      end
  end.

(** The "other" quals of the CONNECT BY expression: its conjuncts, after the
    replacement of the pseudo columns, in which [rowNumOrLevelWalker] finds
    neither LEVEL nor ROWNUM. *)
Definition other_quals (connectByExpr : option Node) : list Node :=
  filter
    (fun e =>
       negb (SwColumns.on_level CONNECT_BY_ROWNUM_FAKEVALUE CONNECT_BY_LEVEL_FAKEVALUE e))
    (SwColumns.conjuncts_opt
       (option_map
          (replace_pseudo_columns CONNECT_BY_ROWNUM_FAKEVALUE CONNECT_BY_LEVEL_FAKEVALUE)
          connectByExpr)).

End Entry.

(** The START WITH and the CONNECT BY expression of a statement. *)
Definition start_with_of (stmt : Node) : option Node :=
  match stmt with
  | SelectStmt _ _ _ _ (Some (StartWithClause startWithExpr _ _ _)) _ _ _ _ =>
      startWithExpr
  | _ => None
  end.

Definition connect_by_of (stmt : Node) : option Node :=
  match stmt with
  | SelectStmt _ _ _ _ (Some (StartWithClause _ connectByExpr _ _)) _ _ _ _ =>
      connectByExpr
  | _ => None
  end.

(** The statement uses the name itself: a target goes by it, or a FROM item,
    the WITH clause, the WHERE clause or the START WITH expression mentions
    it. *)
Definition uses_name (name : string) (pstate : ParseState) (sw_fromClause : list Node)
    (stmt : Node) : bool :=
  existsb (named name) (p_start_info pstate)
  || existsb (mentions_table name) (map tblstmt (p_start_info pstate))
  || existsb (mentions_table name) sw_fromClause
  || any_node (mentions_table name) (origin_with pstate)
  || any_node (mentions_table name) (select_whereClause stmt)
  || any_node (mentions_table name) (start_with_of stmt).

(** The FROM items of the seed. *)
Definition seed_from (context : StartWithTransformContext) : list Node :=
  match fromClause context with
  | [] => map tblstmt (relInfoList context)
  | _ => fromClause context
  end.

(** What a walk does to the targets of the context: targets of the parse
    state are appended; the parse state, the FROM items, the WHERE clause and
    the START WITH expression are as before. *)
Definition targets_grow (c c' : StartWithTransformContext) : Prop :=
  pstate c' = pstate c
  /\ fromClause c' = fromClause c
  /\ whereClause c' = whereClause c
  /\ startWithExpr c' = startWithExpr c
  /\ exists l, relInfoList c' = relInfoList c ++ l
               /\ Forall (fun info => In info (p_start_info (pstate c))) l.

End SwEntry.

Module SwEntryExamples.
Import StartWith StartWithExamples SwEntry.

Definition example_transformStartWith
    : ParseState -> list Node -> Node -> Query -> res (ParseState * Query) :=
  transformStartWith 64 (-2) (-1) example_GetStartWithFakeConstValue
    example_makeBoolAConst (fun _ _ => false) (fun _ _ => true)
    example_transformColumnRef (fun _ _ => Ok None) (fun _ quals => quals)
    (fun ps clause => Ok (with_ctes clause, ps)).

(** [SELECT * FROM t START WITH id = 1 CONNECT BY PRIOR id = parent_id] *)
Definition example_hierarchy : Node :=
  example_select (Some example_start_with) (Some (example_connect_by true)).

(** [SELECT * FROM t START WITH PRIOR id = 1 CONNECT BY id = parent_id] *)
Definition example_prior_start : Node :=
  example_select
    (Some (example_equals (ColumnRef ["id"] true 27) (A_Const (T_Integer 1) 32)))
    (Some (example_connect_by false)).

(** The rewriting of the first statement, and what it returns. *)
Definition example_rewrite : res (ParseState * Query) :=
  example_transformStartWith (example_pstate example_hierarchy) [] example_hierarchy
    (mkQuery false [] false).

Definition example_rewritten : ParseState * Query :=
  match example_rewrite with
  | Ok r => r
  | Error _ => (example_pstate example_hierarchy, mkQuery false [] false)
  end.

(** The two branches of the single CTE of a rewritten query. *)
Definition seed_of (r : res (ParseState * Query)) : option Node :=
  match r with
  | Ok (_, qry) =>
      match cteList qry with
      | [CommonTableExpr _ (Some (SelectStmt _ _ _ _ _ _ _ larg _)) _] => larg
      | _ => None
      end
  | Error _ => None
  end.

Definition step_of (r : res (ParseState * Query)) : option Node :=
  match r with
  | Ok (_, qry) =>
      match cteList qry with
      | [CommonTableExpr _ (Some (SelectStmt _ _ _ _ _ _ _ _ rarg)) _] => rarg
      | _ => None
      end
  | Error _ => None
  end.

End SwEntryExamples.

(** * Facts *)

(** ** Grouping sets *)

Section GroupingSetFacts.
Import Agg.

Lemma rollup_current_simple (cs : list (list Z)) :
  forall (i : nat) (cur : list Z),
    (0 < i <= length cs)%nat ->
    rollup_current (map GROUPING_SET_SIMPLE cs) (Z.of_nat i) cur
    = Ok (cur ++ concat (firstn i cs)).
Proof.
  induction cs as [|c cs IH]; intros i cur Hi; simpl in *.
  - lia.
  - destruct i as [|i]; [lia|].
    replace (Z.of_nat (S i) - 1) with (Z.of_nat i) by lia.
    destruct (Z.eqb_spec (Z.of_nat i) 0) as [E|E].
    + assert (i = O) by lia. subst i. simpl. now rewrite app_nil_r.
    + rewrite IH by lia. simpl. now rewrite app_assoc.
Qed.

Lemma rollup_loop_simple (cs : list (list Z)) :
  forall (n : nat) (result : list (list Z)),
    (n <= length cs)%nat ->
    rollup_loop (map GROUPING_SET_SIMPLE cs) n result
    = Ok (result ++ map (fun k => concat (firstn k cs)) (rev (seq 1 n))).
Proof.
  induction n as [|n IH]; intros result Hn.
  - simpl. now rewrite app_nil_r.
  - cbn [rollup_loop].
    rewrite (rollup_current_simple cs (S n) []) by lia.
    cbn [bind app]. rewrite IH by lia.
    rewrite seq_S, rev_app_distr. simpl. now rewrite <- app_assoc.
Qed.

Lemma mask_bits_S (from : Z) (n : nat) (i : Z) :
  mask_bits from (S n) i = Z.testbit i from :: mask_bits (from + 1) n i.
Proof.
  unfold mask_bits. simpl. rewrite Z.add_0_r. f_equal.
  rewrite <- seq_shift, map_map. apply map_ext. intros j. f_equal. lia.
Qed.

Lemma land_pow2_testbit (j i : Z) :
  0 <= j -> (Z.land (2 ^ j) i =? 0) = negb (Z.testbit i j).
Proof.
  intros Hj. destruct (Z.testbit i j) eqn:E; simpl.
  - assert (H : Z.land (2 ^ j) i = 2 ^ j).
    { apply Z.bits_inj'. intros n Hn.
      rewrite Z.land_spec, Z.pow2_bits_eqb by lia.
      destruct (Z.eqb_spec j n); subst; simpl; auto. }
    rewrite H. apply Z.eqb_neq. apply Z.pow_nonzero; lia.
  - assert (H : Z.land (2 ^ j) i = 0).
    { apply Z.bits_inj'. intros n Hn.
      rewrite Z.land_spec, Z.pow2_bits_eqb, Z.bits_0 by lia.
      destruct (Z.eqb_spec j n); subst; simpl; auto. }
    now rewrite H.
Qed.

Lemma shift_mask (j : Z) :
  0 <= j < 31 -> uint32_wrap (Z.shiftl (2 ^ j) 1) = 2 ^ (j + 1).
Proof.
  intros Hj. unfold uint32_wrap.
  rewrite Z.shiftl_mul_pow2 by lia. rewrite <- Z.pow_add_r by lia.
  apply Z.mod_small. split; [apply Z.pow_nonneg; lia|].
  apply Z.pow_lt_mono_r; lia.
Qed.

Lemma cube_current_simple (cs : list (list Z)) :
  forall (j i : Z) (cur : list Z),
    0 <= j -> j + Z.of_nat (length cs) <= 31 ->
    cube_current (map GROUPING_SET_SIMPLE cs) (2 ^ j) i cur
    = Ok (cur ++ cube_subset (mask_bits j (length cs) i) cs).
Proof.
  induction cs as [|c cs IH]; intros j i cur Hj Hlen.
  - simpl. now rewrite app_nil_r.
  - cbn [map cube_current length]. rewrite mask_bits_S.
    rewrite land_pow2_testbit by lia. rewrite negb_involutive.
    rewrite shift_mask by (simpl length in Hlen; lia).
    rewrite IH by (simpl length in Hlen; lia).
    cbn [cube_subset]. destruct (Z.testbit i j).
    + now rewrite <- !app_assoc.
    + simpl. reflexivity.
Qed.

Lemma cube_loop_simple (cs : list (list Z)) :
  (Z.of_nat (length cs) < 31) ->
  forall (todo : nat) (i : nat) (result : list (list Z)),
    Z.of_nat (i + todo) <= 2 ^ 31 ->
    cube_loop (map GROUPING_SET_SIMPLE cs) todo (Z.of_nat i) result
    = Ok (result ++ map (fun k => cube_subset (mask_bits 0 (length cs) (Z.of_nat k)) cs)
                        (seq i todo)).
Proof.
  intros HN. induction todo as [|todo IH]; intros i result Hi.
  - simpl. now rewrite app_nil_r.
  - cbn [cube_loop].
    pose proof (cube_current_simple cs 0 (Z.of_nat i) []) as Hc.
    change (2 ^ 0) with 1 in Hc. rewrite Hc by lia. cbn [bind app].
    replace (uint32_wrap (Z.of_nat i + 1)) with (Z.of_nat (S i)).
    2:{ unfold uint32_wrap. rewrite Z.mod_small; lia. }
    rewrite IH by lia. simpl. now rewrite <- app_assoc.
Qed.

Lemma Z_of_bits_range (sel : list bool) :
  0 <= Z_of_bits sel < 2 ^ Z.of_nat (length sel).
Proof.
  induction sel as [|b sel IH].
  - simpl. lia.
  - cbn [Z_of_bits length].
    rewrite Nat2Z.inj_succ, Z.pow_succ_r by lia.
    destruct b; cbn [Z.b2z]; lia.
Qed.

Lemma mask_bits_shift (n : nat) :
  forall (from a : Z) (b : bool), 0 <= from ->
    mask_bits (from + 1) n (2 * a + Z.b2z b) = mask_bits from n a.
Proof.
  intros from a b Hf. unfold mask_bits. apply map_ext. intros j.
  replace (from + 1 + Z.of_nat j) with (Z.succ (from + Z.of_nat j)) by lia.
  apply Z.testbit_succ_r. lia.
Qed.

Lemma mask_bits_of_bits (sel : list bool) :
  mask_bits 0 (length sel) (Z_of_bits sel) = sel.
Proof.
  induction sel as [|b sel IH]; [reflexivity|].
  cbn [length Z_of_bits]. rewrite mask_bits_S.
  rewrite Z.testbit_0_r. f_equal.
  rewrite mask_bits_shift by lia. exact IH.
Qed.

Lemma insert_sorted_perm (cmp : list Z -> list Z -> Z) (x : list Z) (l : list (list Z)) :
  Permutation (x :: l) (insert_sorted cmp x l).
Proof.
  induction l as [|y l IH]; simpl; auto.
  destruct (cmp x y <=? 0); auto.
  rewrite perm_swap. now constructor.
Qed.

Lemma insertion_qsort_perm (cmp : list Z -> list Z -> Z) (l : list (list Z)) :
  Permutation l (insertion_qsort cmp l).
Proof.
  induction l as [|x l IH]; simpl; auto.
  rewrite <- insert_sorted_perm. now constructor.
Qed.

Lemma cmp_list_len_asc_le (a b : list Z) :
  cmp_list_len_asc a b <= 0 <-> (length a <= length b)%nat.
Proof.
  unfold cmp_list_len_asc, list_length.
  destruct (Z.gtb_spec (Z.of_nat (length a)) (Z.of_nat (length b)));
    destruct (Z.eqb_spec (Z.of_nat (length a)) (Z.of_nat (length b))); lia.
Qed.

Lemma insert_sorted_sorted (x : list Z) (l : list (list Z)) :
  Sorted (fun a b => cmp_list_len_asc a b <= 0) l ->
  Sorted (fun a b => cmp_list_len_asc a b <= 0) (insert_sorted cmp_list_len_asc x l).
Proof.
  induction l as [|y l IH]; intros Hs; simpl.
  - repeat constructor.
  - destruct (Z.leb_spec (cmp_list_len_asc x y) 0) as [Hxy|Hxy].
    + constructor; auto.
    + inversion Hs as [|? ? Hl Hhd]; subst. constructor; auto.
      assert (Hyx : cmp_list_len_asc y x <= 0).
      { rewrite cmp_list_len_asc_le.
        assert (~ (length x <= length y)%nat) by (rewrite <- cmp_list_len_asc_le; lia).
        lia. }
      destruct l as [|z l]; simpl.
      * now constructor.
      * destruct (cmp_list_len_asc x z <=? 0); constructor; auto.
        now inversion Hhd.
Qed.

Lemma insertion_qsort_sorted (l : list (list Z)) :
  Sorted (fun a b => cmp_list_len_asc a b <= 0) (insertion_qsort cmp_list_len_asc l).
Proof.
  induction l as [|x l IH]; simpl.
  - constructor.
  - now apply insert_sorted_sorted.
Qed.

Lemma sorted_by_length (l : list (list Z)) :
  Sorted (fun a b => cmp_list_len_asc a b <= 0) l ->
  StronglySorted (fun a b => (length a <= length b)%nat) l.
Proof.
  intros Hs. apply Sorted_StronglySorted.
  - intros a b c; lia.
  - induction Hs as [|a l Hl IH Hhd]; constructor; auto.
    destruct Hhd; constructor. now apply cmp_list_len_asc_le.
Qed.

(** C6.  A ROLLUP node over [N] SIMPLE grouping sets expands to exactly
    [N + 1] lists: the concatenation of the first [N] member sets, then of the
    first [N - 1], and so on down to the first one, followed by the empty
    list. *)
Theorem rollup_expands_to_prefixes (cs : list (list Z)) :
  exists result : list (list Z),
    expand_groupingset_node (GROUPING_SET_ROLLUP (map GROUPING_SET_SIMPLE cs))
    = Ok result
    /\ length result = S (length cs)
    /\ result = map (fun k => concat (firstn k cs)) (rev (seq 1 (length cs))) ++ [[]]
    /\ (forall k : nat, (k < length cs)%nat ->
          nth k result [] = concat (firstn (length cs - k) cs))
    /\ nth (length cs) result [0] = [].
Proof.
  eexists. cbn [expand_groupingset_node].
  rewrite length_map, rollup_loop_simple by lia. cbn [bind app].
  split; [reflexivity|].
  assert (Hlen : length (map (fun k => concat (firstn k cs)) (rev (seq 1 (length cs))))
                 = length cs)
    by now rewrite length_map, length_rev, length_seq.
  split; [rewrite length_app, Hlen; simpl; lia|].
  split; [reflexivity|]. split.
  - intros k Hk. rewrite app_nth1 by lia.
    rewrite (nth_indep _ [] (concat (firstn 0 cs))) by lia.
    rewrite (map_nth (fun k => concat (firstn k cs))).
    rewrite rev_nth by (rewrite length_seq; lia).
    rewrite length_seq, seq_nth by lia. f_equal. f_equal. lia.
  - rewrite app_nth2 by lia. rewrite Hlen, Nat.sub_diag. reflexivity.
Qed.

Example rollup_a_b_c :
  expand_groupingset_node
    (GROUPING_SET_ROLLUP
       [GROUPING_SET_SIMPLE [1]; GROUPING_SET_SIMPLE [2]; GROUPING_SET_SIMPLE [3]])
  = Ok [[1; 2; 3]; [1; 2]; [1]; []].
Proof. reflexivity. Qed.

Lemma cube_expansion (cs : list (list Z)) :
  Z.of_nat (length cs) < 31 ->
  expand_groupingset_node (GROUPING_SET_CUBE (map GROUPING_SET_SIMPLE cs))
  = Ok (map (fun k => cube_subset (mask_bits 0 (length cs) (Z.of_nat k)) cs)
            (seq 0 (2 ^ length cs))).
Proof.
  intros HN. cbn [expand_groupingset_node].
  unfold list_length. rewrite length_map.
  destruct (Z.ltb_spec (Z.of_nat (length cs)) 31) as [_|]; [|lia].
  cbn [AssertEreport bind].
  assert (Hpow : uint32_wrap (Z.shiftl 1 (Z.of_nat (length cs)))
                 = Z.of_nat (2 ^ length cs)).
  { unfold uint32_wrap. rewrite Z.shiftl_1_l.
    rewrite Z.mod_small.
    - rewrite Nat2Z.inj_pow. reflexivity.
    - split; [apply Z.pow_nonneg; lia|apply Z.pow_lt_mono_r; lia]. }
  rewrite Hpow, Nat2Z.id.
  change 0 with (Z.of_nat 0) at 1.
  rewrite cube_loop_simple; auto.
  simpl Nat.add. rewrite Nat2Z.inj_pow. simpl Z.of_nat.
  apply Z.pow_le_mono_r; lia.
Qed.

Lemma expand_grouping_sets_sorted
    (qsort : (list Z -> list Z -> Z) -> list (list Z) -> list (list Z))
    (qsort_sorted : forall l,
        Sorted (fun a b => cmp_list_len_asc a b <= 0) (qsort cmp_list_len_asc l))
    (groupingSets : list GroupingSet) (limit : Z) (result : list (list Z)) :
  expand_grouping_sets qsort groupingSets limit = Ok result ->
  StronglySorted (fun a b => (length a <= length b)%nat) result.
Proof.
  unfold expand_grouping_sets.
  destruct groupingSets as [|g gs]; [intros [= <-]; constructor|].
  destruct (expand_all (g :: gs) limit 1 []) as [[expanded|]|e]; cbn [bind];
    try discriminate.
  - set (r := fold_left cross_product _ _).
    destruct (Z.gtb_spec (list_length r) 1) as [Hgt|Hle]; intros [= <-].
    + now apply sorted_by_length.
    + unfold list_length in Hle.
      destruct r as [|a [|b r]]; simpl length in Hle; try lia; repeat constructor.
  - intros [= <-]. constructor.
Qed.

(** C5 (as amended).  For every CUBE node over [N < 31] SIMPLE grouping sets,
    [expand_groupingset_node] returns exactly [2^N] lists, the [i]-th being
    the concatenation of the member sets selected by the bits of [i], so that
    every subset of the members has its list; and for any [qsort] that sorts
    by the comparator, the list returned by [expand_grouping_sets] is sorted
    ascending by cardinality and is determined by the input. *)
Theorem cube_expands_to_subsets_sorted
    (qsort : (list Z -> list Z -> Z) -> list (list Z) -> list (list Z))
    (qsort_sorted : forall l,
        Sorted (fun a b => cmp_list_len_asc a b <= 0) (qsort cmp_list_len_asc l))
    (cs : list (list Z)) (HN : Z.of_nat (length cs) < 31) :
  (exists result : list (list Z),
      expand_groupingset_node (GROUPING_SET_CUBE (map GROUPING_SET_SIMPLE cs))
      = Ok result
      /\ length result = (2 ^ length cs)%nat
      /\ (forall i : nat, (i < 2 ^ length cs)%nat ->
            nth i result [] = cube_subset (mask_bits 0 (length cs) (Z.of_nat i)) cs)
      /\ (forall sel : list bool, length sel = length cs ->
            (Z.to_nat (Z_of_bits sel) < 2 ^ length cs)%nat
            /\ nth (Z.to_nat (Z_of_bits sel)) result [] = cube_subset sel cs))
  /\ (forall groupingSets limit result,
        expand_grouping_sets qsort groupingSets limit = Ok result ->
        StronglySorted (fun a b => (length a <= length b)%nat) result)
  /\ (forall groupingSets limit r1 r2,
        expand_grouping_sets qsort groupingSets limit = Ok r1 ->
        expand_grouping_sets qsort groupingSets limit = Ok r2 -> r1 = r2).
Proof.
  split; [|split].
  - eexists. split; [now apply cube_expansion|].
    assert (Hnth : forall i : nat, (i < 2 ^ length cs)%nat ->
      nth i (map (fun k => cube_subset (mask_bits 0 (length cs) (Z.of_nat k)) cs)
                 (seq 0 (2 ^ length cs))) []
      = cube_subset (mask_bits 0 (length cs) (Z.of_nat i)) cs).
    { intros i Hi.
      rewrite (nth_indep _ [] (cube_subset (mask_bits 0 (length cs) (Z.of_nat 0)) cs))
        by (rewrite length_map, length_seq; lia).
      rewrite (map_nth (fun k => cube_subset (mask_bits 0 (length cs) (Z.of_nat k)) cs)).
      now rewrite seq_nth by lia. }
    split; [now rewrite length_map, length_seq|]. split; [exact Hnth|].
    intros sel Hsel. pose proof (Z_of_bits_range sel) as Hr.
    rewrite Hsel in Hr.
    assert (Hlt : (Z.to_nat (Z_of_bits sel) < 2 ^ length cs)%nat).
    { apply Nat2Z.inj_lt. rewrite Z2Nat.id, Nat2Z.inj_pow by lia. simpl Z.of_nat. lia. }
    split; [exact Hlt|]. rewrite Hnth by exact Hlt.
    rewrite Z2Nat.id by lia. rewrite <- Hsel. now rewrite mask_bits_of_bits.
  - intros gsets limit result. now apply expand_grouping_sets_sorted.
  - intros gsets limit r1 r2 H1 H2. congruence.
Qed.

(** The spec's example: CUBE(a, b) expands to four sets, and the final list
    comes out as [{}, {a}, {b}, {a, b}]. *)
Example cube_a_b :
  expand_groupingset_node
    (GROUPING_SET_CUBE [GROUPING_SET_SIMPLE [1]; GROUPING_SET_SIMPLE [2]])
  = Ok [[]; [1]; [2]; [1; 2]]
  /\ expand_grouping_sets insertion_qsort
       [GROUPING_SET_CUBE [GROUPING_SET_SIMPLE [1]; GROUPING_SET_SIMPLE [2]]] (-1)
     = Ok [[]; [1]; [2]; [1; 2]].
Proof. split; reflexivity. Qed.

Lemma cube_expands_to_subsets_sorted_witness :
  (exists result : list (list Z),
      expand_groupingset_node
        (GROUPING_SET_CUBE (map GROUPING_SET_SIMPLE [[1]; [2]])) = Ok result
      /\ length result = (2 ^ 2)%nat
      /\ (forall i : nat, (i < 2 ^ 2)%nat ->
            nth i result [] = cube_subset (mask_bits 0 2 (Z.of_nat i)) [[1]; [2]])
      /\ (forall sel : list bool, length sel = 2%nat ->
            (Z.to_nat (Z_of_bits sel) < 2 ^ 2)%nat
            /\ nth (Z.to_nat (Z_of_bits sel)) result [] = cube_subset sel [[1]; [2]]))
  /\ (forall groupingSets limit result,
        expand_grouping_sets insertion_qsort groupingSets limit = Ok result ->
        StronglySorted (fun a b => (length a <= length b)%nat) result)
  /\ (forall groupingSets limit r1 r2,
        expand_grouping_sets insertion_qsort groupingSets limit = Ok r1 ->
        expand_grouping_sets insertion_qsort groupingSets limit = Ok r2 -> r1 = r2).
Proof.
  apply (cube_expands_to_subsets_sorted insertion_qsort insertion_qsort_sorted
           [[1]; [2]]).
  simpl. lia.
Defined.

(** C5, the claim as stated fails at [N = 31]: the assertion on the number of
    members raises, and no list is returned. *)
Lemma cube_of_31_sets_raises :
  expand_groupingset_node
    (GROUPING_SET_CUBE (repeat (GROUPING_SET_SIMPLE [1]) 31))
  = Error (ereport ERRCODE_ASSERT_FAILED "parser should cap this much lower")
  /\ ~ (exists result : list (list Z),
          expand_groupingset_node
            (GROUPING_SET_CUBE (map GROUPING_SET_SIMPLE (repeat [1] 31))) = Ok result
          /\ length result = (2 ^ 31)%nat).
Proof.
  split; [reflexivity|].
  intros [result [H _]]. vm_compute in H. discriminate.
Qed.

End GroupingSetFacts.

(** ** Aggregate levels *)

Section AggLevelFacts.
Import Agg.

Lemma scanned_nil (context : check_agg_arguments_context) :
  scanned context [] [] = context.
Proof. now destruct context. Qed.

Lemma scanned_app (context : check_agg_arguments_context) (v1 v2 a1 a2 : list Z) :
  scanned (scanned context v1 a1) v2 a2 = scanned context (v1 ++ v2) (a1 ++ a2).
Proof.
  unfold scanned, merge_levels. simpl. now rewrite !fold_left_app.
Qed.

Lemma note_varlevel_scanned (context : check_agg_arguments_context) (lvl : Z) :
  note_varlevel context (int_of_Index lvl - sublevels_up context)
  = scanned context (contribution lvl (sublevels_up context)) [].
Proof.
  unfold note_varlevel, contribution, scanned, merge_levels, merge_level.
  destruct context as [mv ma s]; simpl.
  destruct (int_of_Index lvl - s >=? 0); simpl; auto.
  destruct ((mv <? 0) || (mv >? int_of_Index lvl - s)); auto.
Qed.

Lemma note_agglevel_scanned (context : check_agg_arguments_context) (lvl : Z) :
  note_agglevel context (int_of_Index lvl - sublevels_up context)
  = scanned context [] (contribution lvl (sublevels_up context)).
Proof.
  unfold note_agglevel, contribution, scanned, merge_levels, merge_level.
  destruct context as [mv ma s]; simpl.
  destruct (int_of_Index lvl - s >=? 0); simpl; auto.
  destruct ((ma <? 0) || (ma >? int_of_Index lvl - s)); auto.
Qed.

Lemma walk_list_scan (walker : Node -> check_agg_arguments_context -> res check_agg_arguments_context)
    (l : list Node) (s : Z) :
  Forall (fun n => forall context, sublevels_up context = s ->
            walker n context
            = scan_result context (scan_error s n) (var_levels s n) (agg_levels s n)) l ->
  forall context, sublevels_up context = s ->
    walk_list walker l context
    = scan_result context (first_error (map (scan_error s) l))
        (flat_map (var_levels s) l) (flat_map (agg_levels s) l).
Proof.
  induction 1 as [|n l Hn Hl IH]; intros context Hs; simpl.
  - now rewrite scanned_nil.
  - rewrite Hn by exact Hs. destruct (scan_error s n) as [e|]; simpl; auto.
    rewrite IH by exact Hs.
    destruct (first_error (map (scan_error s) l)); simpl; auto.
    now rewrite scanned_app.
Qed.

Lemma check_agg_arguments_walker_scan (node : Node) :
  forall (s : Z) (context : check_agg_arguments_context),
    sublevels_up context = s ->
    check_agg_arguments_walker node context
    = scan_result context (scan_error s node) (var_levels s node) (agg_levels s node).
Proof.
  induction node using Node_induction; intros s context Hs; subst s;
    cbn [check_agg_arguments_walker scan_error var_levels agg_levels
         expression_tree_walker scan_result query_tree_walker].
  - now rewrite note_varlevel_scanned.
  - now rewrite scanned_nil.
  - now rewrite scanned_nil.
  - now rewrite note_agglevel_scanned.
  - rewrite note_agglevel_scanned.
    rewrite (walk_list_scan _ args (sublevels_up context)); auto.
    + destruct (first_error _); simpl; auto. now rewrite scanned_app.
    + eapply Forall_impl; [|exact H]. intros n Hn c Hc. now apply Hn.
  - destruct (sublevels_up context =? 0); auto.
    rewrite (walk_list_scan _ args (sublevels_up context)); auto.
    eapply Forall_impl; [|exact H]. intros n Hn c Hc. now apply Hn.
  - destruct ((sublevels_up context =? 0) && retset); auto.
    rewrite (walk_list_scan _ args (sublevels_up context)); auto.
    eapply Forall_impl; [|exact H]. intros n Hn c Hc. now apply Hn.
  - destruct ((sublevels_up context =? 0) && retset); auto.
    rewrite (walk_list_scan _ args (sublevels_up context)); auto.
    eapply Forall_impl; [|exact H]. intros n Hn c Hc. now apply Hn.
  - now rewrite scanned_nil.
  - now apply IHnode.
  - destruct testexpr as [t|]; simpl.
    + rewrite (H t eq_refl (sublevels_up context)) by reflexivity.
      destruct (scan_error (sublevels_up context) t); simpl; auto.
      rewrite (IHnode (sublevels_up context)) by reflexivity.
      destruct (scan_error (sublevels_up context) node); simpl; auto.
      now rewrite scanned_app.
    + rewrite (IHnode (sublevels_up context)) by reflexivity.
      destruct (scan_error (sublevels_up context) node); simpl; auto.
  - rewrite (walk_list_scan _ clauses (sublevels_up context + 1)).
    + destruct (first_error _); simpl; auto.
      unfold with_sublevels, scanned. simpl. do 2 f_equal. lia.
    + eapply Forall_impl; [|exact H]. intros n Hn c Hc. now apply Hn.
    + reflexivity.
  - rewrite (walk_list_scan _ elements (sublevels_up context)); auto.
    eapply Forall_impl; [|exact H]. intros n Hn c Hc. now apply Hn.
Qed.

Lemma contribution_nonneg (lvl s : Z) : Forall (fun v => 0 <= v) (contribution lvl s).
Proof.
  unfold contribution. destruct (Z.geb_spec (int_of_Index lvl - s) 0); auto.
Qed.

Lemma Forall_flat_map_nonneg (f : Node -> list Z) (l : list Node) :
  Forall (fun n => Forall (fun v => 0 <= v) (f n)) l ->
  Forall (fun v => 0 <= v) (flat_map f l).
Proof.
  induction 1; simpl; auto. apply Forall_app; auto.
Qed.

Lemma var_levels_nonneg (node : Node) :
  forall s, Forall (fun v => 0 <= v) (var_levels s node).
Proof.
  induction node using Node_induction; intros s; cbn [var_levels]; auto;
    try apply contribution_nonneg;
    try (apply Forall_flat_map_nonneg; eapply Forall_impl; [|eassumption];
         intros n Hn; apply Hn).
  apply Forall_app; split; auto. destruct testexpr; auto.
Qed.

Lemma agg_levels_nonneg (node : Node) :
  forall s, Forall (fun v => 0 <= v) (agg_levels s node).
Proof.
  induction node using Node_induction; intros s; cbn [agg_levels]; auto;
    try apply contribution_nonneg;
    try (apply Forall_flat_map_nonneg; eapply Forall_impl; [|eassumption];
         intros n Hn; apply Hn).
  - apply Forall_app; split; [apply contribution_nonneg|].
    apply Forall_flat_map_nonneg. eapply Forall_impl; [|eassumption].
    intros n Hn; apply Hn.
  - apply Forall_app; split; auto. destruct testexpr; auto.
Qed.

Lemma list_min_nonneg (l : list Z) :
  Forall (fun v => 0 <= v) l ->
  match list_min l with Some m => 0 <= m | None => True end.
Proof.
  induction 1 as [|x l Hx Hl IH]; simpl; auto.
  destruct (list_min l); lia.
Qed.

Lemma merge_levels_some (l : list Z) :
  Forall (fun v => 0 <= v) l ->
  forall m, 0 <= m ->
    merge_levels m l = match list_min l with Some x => Z.min m x | None => m end.
Proof.
  unfold merge_levels.
  induction 1 as [|x l Hx Hl IH]; intros m Hm; simpl; auto.
  assert (Hmx : merge_level m x = Z.min m x).
  { unfold merge_level. destruct (Z.ltb_spec m 0); [lia|].
    destruct (Z.gtb_spec m x); simpl; lia. }
  rewrite Hmx, IH by lia. pose proof (list_min_nonneg l Hl).
  destruct (list_min l); lia.
Qed.

Lemma merge_levels_none (l : list Z) :
  Forall (fun v => 0 <= v) l ->
  merge_levels (-1) l = match list_min l with Some x => x | None => -1 end.
Proof.
  intros Hl. destruct Hl as [|x l Hx Hl]; [reflexivity|].
  unfold merge_levels. simpl fold_left.
  change (merge_level (-1) x) with x.
  fold (merge_levels x l). rewrite merge_levels_some by auto.
  simpl. destruct (list_min l); lia.
Qed.

Lemma list_min_app (l1 l2 : list Z) :
  list_min (l1 ++ l2)
  = match list_min l1, list_min l2 with
    | Some a, Some b => Some (Z.min a b)
    | Some a, None => Some a
    | None, o => o
    end.
Proof.
  induction l1 as [|x l1 IH]; simpl.
  - now destruct (list_min l2).
  - rewrite IH. destruct (list_min l1), (list_min l2); f_equal; lia.
Qed.

Lemma walk_args_filter (args : list Node) (filter : option Node)
    (context : check_agg_arguments_context) :
  sublevels_up context = 0 ->
  (do c <- walk_list check_agg_arguments_walker args context;
   walk_opt check_agg_arguments_walker filter c)
  = let nodes := args ++ match filter with Some f => [f] | None => [] end in
    scan_result context (first_error (map (scan_error 0) nodes))
      (flat_map (var_levels 0) nodes) (flat_map (agg_levels 0) nodes).
Proof.
  intros Hs. cbv zeta.
  rewrite (walk_list_scan _ args 0); auto.
  2:{ apply Forall_forall. intros n _ c Hc. now apply check_agg_arguments_walker_scan. }
  rewrite map_app, !flat_map_app.
  assert (Hfe : forall l1 l2, first_error (l1 ++ l2)
                 = match first_error l1 with Some e => Some e | None => first_error l2 end).
  { induction l1 as [|[e|] l1 IH]; simpl; auto. }
  rewrite Hfe. destruct (first_error (map (scan_error 0) args)); simpl; auto.
  destruct filter as [f|]; simpl.
  - rewrite (check_agg_arguments_walker_scan f 0) by exact Hs.
    destruct (scan_error 0 f); simpl; auto.
    rewrite scanned_app, !app_nil_r. reflexivity.
  - now rewrite !app_nil_r.
Qed.

Lemma check_agg_arguments_refines (directargs args : list Node) (filter : option Node) :
  check_agg_arguments directargs args filter
  = check_agg_arguments_spec directargs args filter.
Proof.
  unfold check_agg_arguments, check_agg_arguments_spec.
  pose proof (walk_args_filter args filter (mk_agg_context (-1) (-1) 0) eq_refl) as Hw.
  cbv zeta in Hw.
  unfold args_scan_error, semantic_level, min_nested_agg_level.
  set (nodes := args ++ match filter with Some f => [f] | None => [] end) in *.
  destruct (walk_list check_agg_arguments_walker args (mk_agg_context (-1) (-1) 0))
    as [c1|e1] eqn:E1; cbn [bind] in Hw |- *.
  2:{ destruct (first_error (map (scan_error 0) nodes)); simpl in Hw;
      [now inversion Hw|discriminate]. }
  rewrite Hw. destruct (first_error (map (scan_error 0) nodes)) as [e|]; simpl; auto.
  assert (Hv : Forall (fun v => 0 <= v) (flat_map (var_levels 0) nodes)).
  { apply Forall_flat_map_nonneg, Forall_forall. intros n _. apply var_levels_nonneg. }
  assert (Ha : Forall (fun v => 0 <= v) (flat_map (agg_levels 0) nodes)).
  { apply Forall_flat_map_nonneg, Forall_forall. intros n _. apply agg_levels_nonneg. }
  rewrite !merge_levels_none by auto. rewrite list_min_app.
  pose proof (list_min_nonneg _ Hv) as Hv0. pose proof (list_min_nonneg _ Ha) as Ha0.
  set (level := if _ <? 0 then _ else _).
  assert (Hlevel : level = match list_min (flat_map (var_levels 0) nodes),
                                 list_min (flat_map (agg_levels 0) nodes) with
                           | Some a, Some b => Z.min a b
                           | Some a, None => a
                           | None, Some b => b
                           | None, None => 0
                           end).
  { subst level.
    destruct (list_min (flat_map (var_levels 0) nodes)) as [a|],
             (list_min (flat_map (agg_levels 0) nodes)) as [b|]; simpl.
    - destruct (Z.ltb_spec a 0); [lia|]. destruct (Z.ltb_spec b 0); [lia|].
      unfold Min. destruct (Z.ltb_spec a b); lia.
    - destruct (Z.ltb_spec a 0); [lia|]. reflexivity.
    - destruct (Z.ltb_spec b 0); [lia|]. reflexivity.
    - reflexivity. }
  clearbody level. subst level.
  assert (Hdirect : forall level,
    match directargs with
    | [] => Ok level
    | _ :: _ =>
        do context <- walk_list check_agg_arguments_walker directargs
                        (mk_agg_context (-1) (-1) 0);
        if (min_varlevel context >=? 0) && (min_varlevel context <? level)
        then Error err_lower_var_in_direct_args
        else if (min_agglevel context >=? 0) && (min_agglevel context <=? level)
        then Error err_nested_agg else Ok level
    end = direct_args_spec level directargs).
  { intros level. unfold direct_args_spec. destruct directargs as [|d ds]; auto.
    rewrite (walk_list_scan _ (d :: ds) 0); auto.
    2:{ apply Forall_forall. intros n _ c Hc. now apply check_agg_arguments_walker_scan. }
    destruct (first_error (map (scan_error 0) (d :: ds))); cbn [scan_result bind]; auto.
    cbn [scanned min_varlevel min_agglevel].
    assert (Hdv : Forall (fun v => 0 <= v) (flat_map (var_levels 0) (d :: ds))).
    { apply Forall_flat_map_nonneg, Forall_forall. intros n _. apply var_levels_nonneg. }
    assert (Hda : Forall (fun v => 0 <= v) (flat_map (agg_levels 0) (d :: ds))).
    { apply Forall_flat_map_nonneg, Forall_forall. intros n _. apply agg_levels_nonneg. }
    rewrite !merge_levels_none by auto.
    pose proof (list_min_nonneg _ Hdv) as Hdv0. pose proof (list_min_nonneg _ Hda) as Hda0.
    destruct (list_min (flat_map (var_levels 0) (d :: ds))) as [a|],
             (list_min (flat_map (agg_levels 0) (d :: ds))) as [b|]; cbn [below];
      repeat match goal with
             | |- context [?x >=? 0] => destruct (Z.geb_spec x 0); try lia
             end; cbn [andb]; reflexivity. }
  cbn [sublevels_up scanned]. rewrite Hdirect.
  destruct (list_min (flat_map (var_levels 0) nodes)) as [a|],
           (list_min (flat_map (agg_levels 0) nodes)) as [b|]; cbn [min_agglevel];
    try rewrite (Z.eqb_sym _ b); try reflexivity.
  destruct (Z.eqb_spec a (-1)); [lia|reflexivity].
Qed.

Lemma first_error_in (l : list (option ErrorData)) (e : ErrorData) :
  first_error l = Some e -> In (Some e) l.
Proof.
  induction l as [|[x|] l IH]; simpl; intros H; try discriminate.
  - left. exact H.
  - right. now apply IH.
Qed.

Lemma scan_error_kind (node : Node) :
  forall s e, scan_error s node = Some e ->
    e = err_srf_in_agg \/ e = err_window_in_agg.
Proof.
  assert (Hlist : forall l s e,
    Forall (fun n => forall s e, scan_error s n = Some e ->
                       e = err_srf_in_agg \/ e = err_window_in_agg) l ->
    first_error (map (scan_error s) l) = Some e ->
    e = err_srf_in_agg \/ e = err_window_in_agg).
  { intros l s e Hall He. apply first_error_in, in_map_iff in He.
    destruct He as [n [Hn Hin]]. rewrite Forall_forall in Hall. eauto. }
  induction node using Node_induction; intros s e; cbn [scan_error];
    try discriminate; eauto.
  - destruct (s =? 0); [intros [= <-]; auto|eauto].
  - destruct ((s =? 0) && retset); [intros [= <-]; auto|eauto].
  - destruct ((s =? 0) && retset); [intros [= <-]; auto|eauto].
  - simpl. destruct testexpr as [t|].
    + destruct (scan_error s t) eqn:Et; [intros [= <-]; eauto|].
      destruct (scan_error s node) eqn:En; [intros [= <-]; eauto|discriminate].
    + destruct (scan_error s node) eqn:En; [intros [= <-]; eauto|discriminate].
Qed.

Lemma args_scan_error_kind (l : list Node) (e : ErrorData) :
  first_error (map (scan_error 0) l) = Some e -> e <> err_nested_agg.
Proof.
  intros He. apply first_error_in, in_map_iff in He.
  destruct He as [n [Hn _]]. apply scan_error_kind in Hn.
  destruct Hn; subst e; discriminate.
Qed.

(** C2 (as amended).  [check_agg_arguments] computes what the specification
    words: when the scan of the aggregated arguments and the filter raises
    nothing and the call is accepted, the level it returns is the minimum
    contribution, or 0 when there is none.  It raises the nested-aggregate
    error exactly when that level equals the minimum nested-aggregate level of
    the aggregated arguments and filter, or when the direct arguments of an
    ordered-set aggregate hold no lower variable but an aggregate at or below
    the level.  Without direct arguments the second case never arises. *)
Theorem check_agg_arguments_level_and_nesting
    (directargs args : list Node) (filter : option Node) :
  check_agg_arguments directargs args filter
  = check_agg_arguments_spec directargs args filter
  /\ (forall lvl, check_agg_arguments directargs args filter = Ok lvl ->
        lvl = semantic_level args filter)
  /\ (check_agg_arguments directargs args filter = Error err_nested_agg <->
      args_scan_error args filter = None
      /\ (min_nested_agg_level args filter = Some (semantic_level args filter)
          \/ (directargs <> []
              /\ first_error (map (scan_error 0) directargs) = None
              /\ below (semantic_level args filter) true
                   (list_min (flat_map (var_levels 0) directargs)) = false
              /\ below (semantic_level args filter) false
                   (list_min (flat_map (agg_levels 0) directargs)) = true)))
  /\ (check_agg_arguments [] args filter = Error err_nested_agg <->
      args_scan_error args filter = None
      /\ min_nested_agg_level args filter = Some (semantic_level args filter))
  /\ (args_scan_error args filter = None ->
      min_nested_agg_level args filter <> Some (semantic_level args filter) ->
      check_agg_arguments [] args filter = Ok (semantic_level args filter)).
Proof.
  split; [apply check_agg_arguments_refines|].
  rewrite !check_agg_arguments_refines. unfold check_agg_arguments_spec.
  pose proof (args_scan_error_kind
                (args ++ match filter with Some f => [f] | None => [] end)) as Hkind.
  fold (args_scan_error args filter) in Hkind.
  set (level := semantic_level args filter).
  destruct (args_scan_error args filter) as [e|] eqn:Escan.
  { assert (Hne : e <> err_nested_agg) by now apply Hkind.
    split; [discriminate|]. split; [|split].
    - split; [intros [= H]; contradiction|intros [H _]; discriminate].
    - split; [intros [= H]; contradiction|intros [H _]; discriminate].
    - discriminate. }
  assert (Hdirect : forall lvl, direct_args_spec level directargs = Ok lvl -> lvl = level).
  { unfold direct_args_spec. intros lvl. destruct directargs; [congruence|].
    destruct (first_error _); [discriminate|].
    destruct (below level true _); [discriminate|].
    destruct (below level false _); [discriminate|congruence]. }
  assert (Hdnest : direct_args_spec level directargs = Error err_nested_agg <->
            directargs <> []
            /\ first_error (map (scan_error 0) directargs) = None
            /\ below level true (list_min (flat_map (var_levels 0) directargs)) = false
            /\ below level false (list_min (flat_map (agg_levels 0) directargs)) = true).
  { unfold direct_args_spec. destruct directargs as [|d ds].
    - split; [discriminate|intros [H _]; congruence].
    - destruct (first_error (map (scan_error 0) (d :: ds))) as [e|] eqn:Ed.
      + split; [intros [= ->]; now elim (args_scan_error_kind _ _ Ed)
               |intros (_ & H & _); discriminate].
      + destruct (below level true _).
        * split; [discriminate|intros (_ & _ & H & _); discriminate].
        * destruct (below level false _).
          -- split; auto. repeat split; auto. discriminate.
          -- split; [discriminate|intros (_ & _ & _ & H); discriminate]. }
  destruct (min_nested_agg_level args filter) as [m|] eqn:Emin.
  - destruct (Z.eqb_spec m level) as [->|Hne].
    + repeat split; try discriminate; auto. congruence.
    + split; [exact Hdirect|]. split; [|split].
      * rewrite Hdnest. split; [intros H; split; auto|].
        intros [_ [H|H]]; [congruence|exact H].
      * cbn [direct_args_spec]. split; [discriminate|]. intros [_ H]. congruence.
      * reflexivity.
  - split; [exact Hdirect|]. split; [|split].
    + rewrite Hdnest. split; [intros H; split; auto|].
      intros [_ [H|H]]; [discriminate|exact H].
    + cbn [direct_args_spec]. split; [discriminate|]. intros [_ H]. discriminate.
    + reflexivity.
Qed.

(** C2, the claim as stated fails for an ordered-set aggregate: with a
    variable of level 1 in the aggregated argument and an aggregate of level 0
    in the direct argument, the computed level is 1, no nested aggregate of
    the aggregated arguments has that level, and the nested-aggregate error is
    raised all the same. *)
Lemma nested_error_from_direct_args :
  let directargs := [Aggref 0 [] [Var 1 2 0 5] 4] in
  let args := [TargetEntry (Var 1 1 1 9) 0] in
  check_agg_arguments directargs args None = Error err_nested_agg
  /\ semantic_level args None = 1
  /\ min_nested_agg_level args None = None
  /\ min_nested_agg_level (directargs ++ args) None = Some 0.
Proof. repeat split. Qed.

Example sum_of_sum_is_rejected :
  check_agg_arguments [] [TargetEntry (Aggref 0 [] [TargetEntry (Var 1 1 0 7) 0] 3) 0] None
  = Error err_nested_agg.
Proof. reflexivity. Qed.

Example sum_of_subquery_sum_is_accepted :
  check_agg_arguments []
    [TargetEntry
       (SubLink None
          (Query [TargetEntry (Aggref 0 [] [TargetEntry (Var 1 1 0 7) 0] 3) 0])) 0]
    None
  = Ok 0.
Proof. reflexivity. Qed.

(** C10.  [transformGroupingFunc] rejects every argument list of more than
    31 elements with the too-many-arguments error, lets every list of at most
    31 elements past the length check, and words the bound as 32 in the
    message. *)
Theorem grouping_rejects_more_than_31_arguments
    (RawNode : Type)
    (transformExpr : GroupingParseState -> RawNode -> res (GroupingParseState * Node))
    (check_agglevels_and_constraints :
       GroupingParseState -> Node -> res (GroupingParseState * Node))
    (pstate : GroupingParseState) (args : list RawNode) (location : Z) :
  ((31 < length args)%nat ->
     transformGroupingFunc RawNode transformExpr check_agglevels_and_constraints
       pstate args location
     = Error err_too_many_grouping_args)
  /\ ((length args <= 31)%nat ->
       transformGroupingFunc RawNode transformExpr check_agglevels_and_constraints
         pstate args location
       = transformGroupingFunc_checked RawNode transformExpr
           check_agglevels_and_constraints pstate args location)
  /\ errcode err_too_many_grouping_args = ERRCODE_TOO_MANY_ARGUMENTS
  /\ errmsg err_too_many_grouping_args
     = String.append "GROUPING 参数数量不能超过 " "32".
Proof.
  unfold transformGroupingFunc, list_length.
  repeat split; intros; try reflexivity;
    destruct (Z.gtb_spec (Z.of_nat (length args)) 31); auto; lia.
Qed.

Lemma grouping_rejects_more_than_31_arguments_witness :
  let transformExpr := fun (p : GroupingParseState) (_ : unit) => Ok (p, Const 0) in
  let check := fun (p : GroupingParseState) (n : Node) => Ok (p, n) in
  let pstate := mk_grouping_pstate true true false in
  transformGroupingFunc unit transformExpr check pstate (repeat tt 32) 0
  = Error err_too_many_grouping_args
  /\ transformGroupingFunc unit transformExpr check pstate (repeat tt 31) 0
     = Ok (mk_grouping_pstate true true true, GroupingFunc 0 (repeat (Const 0) 31) 0).
Proof.
  cbv zeta. split.
  - apply (grouping_rejects_more_than_31_arguments unit
             (fun p _ => Ok (p, Const 0)) (fun p n => Ok (p, n))
             (mk_grouping_pstate true true false) (repeat tt 32) 0).
    simpl. lia.
  - etransitivity.
    + apply (grouping_rejects_more_than_31_arguments unit
               (fun p _ => Ok (p, Const 0)) (fun p n => Ok (p, n))
               (mk_grouping_pstate true true false) (repeat tt 31) 0).
      simpl. lia.
    + reflexivity.
Defined.

End AggLevelFacts.

(** ** Ungrouped columns *)

Section UngroupedFacts.
Import Agg Grouping.

Variable functionally_grouped : Z -> Z -> list Node -> bool.
Variable grouping_constraints : Z -> Z -> list Node -> list Z.
Variable get_rte_attribute_name : RangeTblEntry -> Z -> string.

#[local] Abbreviation walker :=
  (check_ungrouped_columns_walker functionally_grouped grouping_constraints
     get_rte_attribute_name).
#[local] Abbreviation reached c :=
  (reached_vars (have_non_var_grouping c) (groupClauses c)).
#[local] Abbreviation grows := (grows functionally_grouped grouping_constraints).
#[local] Abbreviation accepted := accepted.
#[local] Abbreviation rejected :=
  (rejected functionally_grouped get_rte_attribute_name).
#[local] Abbreviation outcome :=
  (outcome functionally_grouped grouping_constraints get_rte_attribute_name).

Lemma grows_refl (c : check_ungrouped_columns_context) : grows c c.
Proof.
  repeat split; auto. exists []. simpl. rewrite !app_nil_r.
  repeat split; auto. constructor.
Qed.

Lemma grows_trans (c1 c2 c3 : check_ungrouped_columns_context) :
  grows c1 c2 -> grows c2 c3 -> grows c1 c3.
Proof.
  intros (Hr1 & Hg1 & Hv1 & Hh1 & new1 & Hf1 & Hd1 & Hall1 & Hnd1)
         (Hr2 & Hg2 & Hv2 & Hh2 & new2 & Hf2 & Hd2 & Hall2 & Hnd2).
  repeat split; try congruence.
  exists (new1 ++ new2). rewrite Hr1, Hv1, Hf1 in *.
  rewrite Hf2, Hd2, Hd1, flat_map_app, !app_assoc. repeat split; auto.
  - apply Forall_app; split; auto.
    eapply Forall_impl; [|exact Hall2]. intros v [Hn Hdep]. split; auto.
    intros Hin. apply Hn, in_or_app. now left.
  - apply NoDup_app; auto.
    intros v Hin1 Hin2. rewrite Forall_forall in Hall2.
    destruct (Hall2 v Hin2) as [Hn _]. apply Hn, in_or_app. now right.
Qed.

Lemma accepted_grows (c c' : check_ungrouped_columns_context) (v : Z * Z * Z) :
  grows c c' -> accepted c v -> accepted c' v.
Proof.
  intros (_ & Hg & _ & Hh & new & Hf & _) [H|H]; unfold accepted.
  - left. now rewrite Hg, Hh.
  - right. rewrite Hf. apply in_or_app. now left.
Qed.

Lemma rejected_grows (c c' : check_ungrouped_columns_context) (v : Z * Z * Z)
    (e : ErrorData) :
  grows c c' -> rejected c' v e -> rejected c v e.
Proof.
  intros (Hr & Hg & Hv & Hh & new & Hf & _) (H1 & H2 & H3 & H4).
  unfold rejected. rewrite Hr, Hg, Hv, Hh in *. repeat split; auto.
  intros Hin. apply H2. rewrite Hf. apply in_or_app. now left.
Qed.

Lemma outcome_error_app (c : check_ungrouped_columns_context)
    (vars1 vars2 : list (Z * Z * Z)) (e : ErrorData) :
  outcome c vars1 (Error e) -> outcome c (vars1 ++ vars2) (Error e).
Proof.
  intros [H|[v [Hin Hrej]]]; [now left|right].
  exists v. split; auto. apply in_or_app. now left.
Qed.

Lemma outcome_seq (c c1 : check_ungrouped_columns_context)
    (vars1 vars2 : list (Z * Z * Z)) (r : res check_ungrouped_columns_context) :
  outcome c vars1 (Ok c1) -> outcome c1 vars2 r -> outcome c (vars1 ++ vars2) r.
Proof.
  intros (Hg1 & Hs1 & Hi1 & Ha1) H2. destruct r as [c2|e]; simpl in *.
  - destruct H2 as (Hg2 & Hs2 & Hi2 & Ha2).
    split; [eapply grows_trans; eauto|]. split; [congruence|]. split; [congruence|].
    apply Forall_app; split; auto.
    eapply Forall_impl; [|exact Ha1]. intros v. now apply (accepted_grows c1 c2).
  - destruct H2 as [H|[v [Hin Hrej]]]; [now left|right].
    exists v. split; [apply in_or_app; now right|].
    eapply rejected_grows; eauto.
Qed.

Lemma walk_list_outcome (l : list Node) :
  Forall (fun n => forall c, outcome c (reached c (sublevels_up c) n) (walker n c)) l ->
  forall c, outcome c (flat_map (reached c (sublevels_up c)) l) (walk_list walker l c).
Proof.
  induction 1 as [|n l Hn Hl IH]; intros c; simpl.
  - split; [apply grows_refl|]. auto.
  - specialize (Hn c). destruct (walker n c) as [c1|e] eqn:E; cbn [bind].
    + eapply outcome_seq; [exact Hn|].
      destruct Hn as ((_ & Hg & _ & Hh & _) & Hs & _).
      rewrite <- Hg, <- Hh, <- Hs. apply IH.
    + now apply outcome_error_app.
Qed.

Lemma outcome_transport (c0 c : check_ungrouped_columns_context)
    (vars : list (Z * Z * Z)) (r : res check_ungrouped_columns_context)
    (f : check_ungrouped_columns_context -> check_ungrouped_columns_context) :
  same_tables c0 c ->
  (forall c', sublevels_up c' = sublevels_up c0 ->
              in_agg_direct_args c' = in_agg_direct_args c0 ->
              same_tables (f c') c'
              /\ sublevels_up (f c') = sublevels_up c
              /\ in_agg_direct_args (f c') = in_agg_direct_args c) ->
  outcome c0 vars r ->
  outcome c vars (do c' <- r; Ok (f c')).
Proof.
  intros (Hr & Hg & Hv & Hh & Hf & Hd) Hfc Hout.
  destruct r as [c'|e]; cbn [bind outcome] in *.
  - destruct Hout as ((Gr & Gg & Gv & Gh & new & Gf & Gd & Gall & Gnd) & Gs & Gi & Hacc).
    destruct (Hfc c' Gs Gi) as ((Hr' & Hg' & Hv' & Hh' & Hf' & Hd') & Hs' & Hi').
    split; [|split; [exact Hs'|split; [exact Hi'|]]].
    + unfold Grouping.grows. rewrite Hr', Hg', Hv', Hh', Hf', Hd'.
      rewrite <- Hr, <- Hg, <- Hv, <- Hh, <- Hf, <- Hd.
      repeat split; auto. exists new. repeat split; auto.
    + eapply Forall_impl; [|exact Hacc]. intros v.
      unfold Grouping.accepted. now rewrite Hg', Hh', Hf'.
  - destruct Hout as [H|[v [Hin (H1 & H2 & H3 & H4)]]]; [now left|right].
    exists v. split; auto. unfold Grouping.rejected.
    rewrite <- Hr, <- Hg, <- Hv, <- Hh, <- Hf. repeat split; auto.
Qed.

Lemma list_member_int_In (l : list Z) (x : Z) :
  list_member_int l x = true <-> In x l.
Proof.
  unfold list_member_int. rewrite existsb_exists. split.
  - intros [y [Hin Hy]]. apply Z.eqb_eq in Hy. now subst.
  - intros Hin. exists x. split; auto. apply Z.eqb_refl.
Qed.

Lemma equal_Var_location (varno varattno varlevelsup loc1 loc2 : Z) (b : Node) :
  equal (Var varno varattno varlevelsup loc1) b
  = equal (Var varno varattno varlevelsup loc2) b.
Proof. destruct b; reflexivity. Qed.

Lemma group_expr_match_Var (hnv : bool) (gcs : list GroupTle)
    (s varno varattno varlevelsup loc1 loc2 : Z) :
  group_expr_match hnv gcs s (Var varno varattno varlevelsup loc1)
  = group_expr_match hnv gcs s (Var varno varattno varlevelsup loc2).
Proof.
  reflexivity.
Qed.

Lemma check_ungrouped_var_outcome (c : check_ungrouped_columns_context)
    (varno varattno varlevelsup location : Z) :
  matches_group_expr c (Var varno varattno varlevelsup location) = false ->
  outcome c (if varlevelsup =? uint32_wrap (sublevels_up c)
             then [(varno, varattno, sublevels_up c)] else [])
    (check_ungrouped_var functionally_grouped grouping_constraints
       get_rte_attribute_name c varno varattno varlevelsup).
Proof.
  intros Hexpr. unfold check_ungrouped_var.
  destruct (Z.eqb_spec varlevelsup (uint32_wrap (sublevels_up c))) as [->|Hne];
    cbn [negb].
  2:{ split; [apply grows_refl|]. auto. }
  destruct (matches_group_var c varno varattno) eqn:Ev.
  { split; [apply grows_refl|]. repeat split; auto. constructor; auto.
    left. unfold var_grouped. unfold matches_group_var in Ev. rewrite Ev.
    apply orb_true_r. }
  destruct (list_member_int (func_grouped_rels c) varno) eqn:Em.
  { split; [apply grows_refl|]. repeat split; auto. constructor; auto.
    right. now apply list_member_int_In. }
  assert (Hnotin : ~ In varno (func_grouped_rels c)).
  { intros Hin. apply list_member_int_In in Hin. congruence. }
  destruct ((varno >? 0) && (varno <=? list_length (p_rtable c)));
    cbn [AssertEreport bind]; [|left; right; right; reflexivity].
  destruct (rt_fetch varno (p_rtable c)) as [rte|] eqn:Efetch;
    [|left; right; right; reflexivity].
  assert (Hng : var_grouped (have_non_var_grouping c) (groupClauses c)
                  (varno, varattno, sublevels_up c) = false).
  { unfold var_grouped. unfold matches_group_var in Ev. rewrite Ev, orb_false_r.
    unfold matches_group_expr in Hexpr. exact Hexpr. }
  unfold check_functional_grouping.
  destruct (RTEKind_eqb (rtekind rte) RTE_RELATION) eqn:Ekind.
  - destruct (functionally_grouped (relid rte) varno (groupClauseCommonVars c)) eqn:Efg.
    + cbn [outcome]. split; [|repeat split; auto].
      * unfold Grouping.grows. cbn. repeat split; auto.
        exists [varno]. cbn. unfold constraints_of. rewrite Efetch, app_nil_r.
        repeat split; auto.
        -- constructor; auto. split; auto. exists rte. repeat split; auto.
           destruct (rtekind rte); try discriminate; reflexivity.
        -- constructor; [simpl; tauto|constructor].
      * constructor; auto. right. cbn. apply in_or_app. right. now left.
    + assert (Hrej : rejected c (varno, varattno, sublevels_up c)
                (if sublevels_up c =? 0
                 then err_ungrouped_column (aliasname (eref rte))
                        (ungrouped_attname get_rte_attribute_name rte varattno)
                 else err_ungrouped_outer_column (aliasname (eref rte))
                        (ungrouped_attname get_rte_attribute_name rte varattno))).
      { unfold Grouping.rejected. cbn [fst]. repeat split; auto.
        - intros [rte' (Hf' & _ & Hfg')]. congruence.
        - cbn. exists rte. split; auto. }
      destruct (sublevels_up c =? 0); right;
        exists (varno, varattno, sublevels_up c); (split; [now left|exact Hrej]).
  - assert (Hrej : rejected c (varno, varattno, sublevels_up c)
              (if sublevels_up c =? 0
               then err_ungrouped_column (aliasname (eref rte))
                      (ungrouped_attname get_rte_attribute_name rte varattno)
               else err_ungrouped_outer_column (aliasname (eref rte))
                      (ungrouped_attname get_rte_attribute_name rte varattno))).
    { unfold Grouping.rejected. cbn [fst]. repeat split; auto.
      - intros [rte' (Hf' & Hk' & _)]. rewrite Efetch in Hf'. inversion Hf'; subst.
        rewrite Hk' in Ekind. discriminate.
      - cbn. exists rte. split; auto. }
    destruct (sublevels_up c =? 0); right;
      exists (varno, varattno, sublevels_up c); (split; [now left|exact Hrej]).
Qed.

Lemma outcome_accept_nil (c : check_ungrouped_columns_context) : outcome c [] (Ok c).
Proof. split; [apply grows_refl|]. auto. Qed.

(** The walk over the children of a node at a changed depth or flag. *)
Lemma walk_children_outcome (l : list Node) (c c0 : check_ungrouped_columns_context)
    (f : check_ungrouped_columns_context -> check_ungrouped_columns_context) :
  Forall (fun n => forall c, outcome c (reached c (sublevels_up c) n) (walker n c)) l ->
  same_tables c0 c ->
  (forall c', sublevels_up c' = sublevels_up c0 ->
              in_agg_direct_args c' = in_agg_direct_args c0 ->
              same_tables (f c') c'
              /\ sublevels_up (f c') = sublevels_up c
              /\ in_agg_direct_args (f c') = in_agg_direct_args c) ->
  outcome c (flat_map (reached c (sublevels_up c0)) l)
    (do c' <- walk_list walker l c0; Ok (f c')).
Proof.
  intros Hall Hsame Hf. apply (outcome_transport c0); auto.
  destruct Hsame as (_ & Hg & _ & Hh & _). rewrite <- Hg, <- Hh.
  now apply walk_list_outcome.
Qed.

Lemma bind_ret {A : Type} (r : res A) : (do x <- r; Ok x) = r.
Proof. now destruct r. Qed.

Lemma check_ungrouped_columns_walker_outcome (node : Node) :
  forall c, outcome c (reached c (sublevels_up c) node) (walker node c).
Proof.
  induction node using Node_induction; intros c;
    cbn [check_ungrouped_columns_walker reached_vars];
    try apply outcome_accept_nil.
  - (* Var *)
    change (group_expr_match (have_non_var_grouping c) (groupClauses c)
              (sublevels_up c) (Var varno varattno varlevelsup location))
      with (matches_group_expr c (Var varno varattno varlevelsup location)).
    destruct (matches_group_expr c (Var varno varattno varlevelsup location)) eqn:Em.
    + split; [apply grows_refl|]. repeat split; auto.
      destruct (varlevelsup =? uint32_wrap (sublevels_up c)) eqn:El; auto.
      constructor; auto. left. unfold var_grouped.
      apply Z.eqb_eq in El. subst varlevelsup.
      unfold matches_group_expr in Em.
      apply orb_true_iff. left. exact Em.
    + cbn [is_Rownum andb bind].
      exact (check_ungrouped_var_outcome c varno varattno varlevelsup location Em).
  - (* Aggref *)
    destruct (int_of_Index lvl =? sublevels_up c).
    + destruct (in_agg_direct_args c) eqn:Ei; [left; now left|].
      apply (walk_children_outcome dargs c (set_in_agg_direct_args c true)
               (fun c' => set_in_agg_direct_args c' false)); auto.
      * repeat split.
      * intros c' Hs' Hi'. repeat split; auto.
    + destruct (int_of_Index lvl >? sublevels_up c); [apply outcome_accept_nil|].
      change (group_expr_match (have_non_var_grouping c) (groupClauses c)
                (sublevels_up c) (Aggref lvl dargs args location))
        with (matches_group_expr c (Aggref lvl dargs args location)).
      destruct (matches_group_expr c (Aggref lvl dargs args location));
        [apply outcome_accept_nil|].
      cbn [is_Rownum andb bind expression_tree_walker].
      pose proof (walk_list_outcome dargs H c) as Hd.
      destruct (walk_list walker dargs c) as [c1|e]; cbn [bind].
      * eapply outcome_seq; [exact Hd|].
        destruct Hd as ((_ & Hg & _ & Hh & _) & Hs & _).
        rewrite <- Hg, <- Hh, <- Hs. now apply walk_list_outcome.
      * now apply outcome_error_app.
  - (* GroupingFunc *)
    destruct (int_of_Index lvl >=? sublevels_up c); [apply outcome_accept_nil|].
    change (group_expr_match (have_non_var_grouping c) (groupClauses c)
              (sublevels_up c) (GroupingFunc lvl args location))
      with (matches_group_expr c (GroupingFunc lvl args location)).
    destruct (matches_group_expr c (GroupingFunc lvl args location));
      [apply outcome_accept_nil|].
    cbn [is_Rownum andb bind expression_tree_walker].
    now apply walk_list_outcome.
  - (* WindowFunc *)
    change (group_expr_match (have_non_var_grouping c) (groupClauses c)
              (sublevels_up c) (WindowFunc args location))
      with (matches_group_expr c (WindowFunc args location)).
    destruct (matches_group_expr c (WindowFunc args location));
      [apply outcome_accept_nil|].
    cbn [is_Rownum andb bind expression_tree_walker].
    now apply walk_list_outcome.
  - (* FuncExpr *)
    change (group_expr_match (have_non_var_grouping c) (groupClauses c)
              (sublevels_up c) (FuncExpr funcid retset args location))
      with (matches_group_expr c (FuncExpr funcid retset args location)).
    destruct (matches_group_expr c (FuncExpr funcid retset args location));
      [apply outcome_accept_nil|].
    cbn [is_Rownum andb bind expression_tree_walker].
    now apply walk_list_outcome.
  - (* OpExpr *)
    change (group_expr_match (have_non_var_grouping c) (groupClauses c)
              (sublevels_up c) (OpExpr opno retset args location))
      with (matches_group_expr c (OpExpr opno retset args location)).
    destruct (matches_group_expr c (OpExpr opno retset args location));
      [apply outcome_accept_nil|].
    cbn [is_Rownum andb bind expression_tree_walker].
    now apply walk_list_outcome.
  - (* Rownum *)
    destruct (matches_group_expr c (Rownum location)); [apply outcome_accept_nil|].
    cbn [is_Rownum andb]. unfold find_rownum_in_groupby_clauses.
    destruct (sublevels_up c =? 0); cbn [bind expression_tree_walker];
      [|apply outcome_accept_nil].
    destruct (negb (have_non_var_grouping c)); cbn [bind];
      [|apply outcome_accept_nil].
    destruct (negb (existsb _ _)); cbn [bind]; [|apply outcome_accept_nil].
    left. right. now left.
  - (* TargetEntry *)
    change (group_expr_match (have_non_var_grouping c) (groupClauses c)
              (sublevels_up c) (TargetEntry node ref))
      with (matches_group_expr c (TargetEntry node ref)).
    destruct (matches_group_expr c (TargetEntry node ref));
      [apply outcome_accept_nil|].
    cbn [is_Rownum andb bind expression_tree_walker]. apply IHnode.
  - (* SubLink *)
    change (group_expr_match (have_non_var_grouping c) (groupClauses c)
              (sublevels_up c) (SubLink testexpr node))
      with (matches_group_expr c (SubLink testexpr node)).
    destruct (matches_group_expr c (SubLink testexpr node));
      [apply outcome_accept_nil|].
    cbn [is_Rownum andb bind expression_tree_walker].
    destruct testexpr as [t|].
    + pose proof (H t eq_refl c) as Ht.
      destruct (walker t c) as [c1|e]; cbn [bind].
      * eapply outcome_seq; [exact Ht|].
        destruct Ht as ((_ & Hg & _ & Hh & _) & Hs & _).
        rewrite <- Hg, <- Hh, <- Hs. apply IHnode.
      * now apply outcome_error_app.
    + cbn [bind app]. apply IHnode.
  - (* Query *)
    change (group_expr_match (have_non_var_grouping c) (groupClauses c)
              (sublevels_up c) (Query clauses))
      with (matches_group_expr c (Query clauses)).
    destruct (matches_group_expr c (Query clauses)); [apply outcome_accept_nil|].
    cbn [is_Rownum andb bind]. unfold query_tree_walker.
    pose proof (walk_list_outcome clauses H (set_sublevels_up c (sublevels_up c + 1)))
      as Hq.
    destruct (walk_list walker clauses (set_sublevels_up c (sublevels_up c + 1)))
      as [c1|e]; cbn [bind outcome] in Hq |- *.
    + destruct Hq as ((Gr & Gg & Gv & Gh & new & Gf & Gd & Gall & Gnd) & Hs & Hi & Hacc).
      cbn in Gr, Gg, Gv, Gh, Gf, Gd, Gall, Hs, Hi, Hacc.
      split; [|split; [cbn; lia|split; [exact Hi|]]].
      * unfold Grouping.grows. cbn. repeat split; auto. exists new. repeat split; auto.
      * exact Hacc.
    + destruct Hq as [Ho|[v [Hin (H1 & H2 & H3 & H4)]]]; [now left|right].
      exists v. split; [exact Hin|]. split; [exact H1|]. split; [exact H2|].
      split; [exact H3|exact H4].
  - (* List *)
    change (group_expr_match (have_non_var_grouping c) (groupClauses c)
              (sublevels_up c) (List_ elements))
      with (matches_group_expr c (List_ elements)).
    destruct (matches_group_expr c (List_ elements)); [apply outcome_accept_nil|].
    cbn [is_Rownum andb bind expression_tree_walker].
    now apply walk_list_outcome.
Qed.

(** *** Which error is raised *)

Lemma ungrouped_error_not_other (p_rtable : list RangeTblEntry) (v : Z * Z * Z)
    (e : ErrorData) :
  ungrouped_error get_rte_attribute_name p_rtable v e -> ~ other_error e.
Proof.
  destruct v as [[varno varattno] s]. intros [rte [_ ->]] [H|[H|H]];
    destruct (s =? 0); try discriminate H; inversion H.
Qed.

Lemma rt_fetch_in_range (p_rtable : list RangeTblEntry) (varno : Z) :
  0 < varno <= list_length p_rtable -> exists rte, rt_fetch varno p_rtable = Some rte.
Proof.
  unfold rt_fetch, list_length. intros [Hlo Hhi].
  destruct (Z.gtb_spec varno 0) as [_|Hn]; [|lia].
  destruct (nth_error p_rtable (Z.to_nat (varno - 1))) as [rte|] eqn:E; [now exists rte|].
  apply nth_error_None in E. lia.
Qed.

Lemma check_ungrouped_var_error (c : check_ungrouped_columns_context)
    (varno varattno varlevelsup : Z) (e : ErrorData) :
  (varlevelsup = uint32_wrap (sublevels_up c) ->
   in_range_table (p_rtable c) (varno, varattno, sublevels_up c)) ->
  check_ungrouped_var functionally_grouped grouping_constraints
    get_rte_attribute_name c varno varattno varlevelsup = Error e ->
  ~ other_error e.
Proof.
  unfold check_ungrouped_var, in_range_table. cbn [fst]. intros Hrange H.
  destruct (Z.eqb_spec varlevelsup (uint32_wrap (sublevels_up c))) as [Heq|Hne];
    cbn [negb] in H; [|discriminate].
  specialize (Hrange Heq).
  destruct (matches_group_var c varno varattno); [discriminate|].
  destruct (list_member_int (func_grouped_rels c) varno); [discriminate|].
  assert (Hin : (varno >? 0) && (varno <=? list_length (p_rtable c)) = true).
  { apply andb_true_iff. split; [apply Z.gtb_lt|apply Z.leb_le]; lia. }
  rewrite Hin in H. cbn [AssertEreport bind] in H.
  destruct (rt_fetch_in_range (p_rtable c) varno Hrange) as [rte Hfetch].
  rewrite Hfetch in H.
  destruct (if RTEKind_eqb (rtekind rte) RTE_RELATION
            then check_functional_grouping functionally_grouped grouping_constraints
                   (relid rte) varno 0 (groupClauseCommonVars c) (constraintDeps c)
            else (false, constraintDeps c)) as [grouped deps].
  destruct grouped; [discriminate|].
  apply (ungrouped_error_not_other (p_rtable c) (varno, varattno, sublevels_up c)).
  exists rte. split; [exact Hfetch|].
  destruct (sublevels_up c =? 0); now inversion H.
Qed.

(** The conditions under which only an ungrouped variable can stop the walk
    of a node. *)
#[local] Abbreviation calm c node :=
  (in_agg_direct_args c = false
   /\ stops_early (rownum_grouped (have_non_var_grouping c) (groupClauses c)) node = false
   /\ Forall (in_range_table (p_rtable c)) (reached c (sublevels_up c) node)).

Lemma walk_list_error_not_other (l : list Node) :
  Forall (fun n => forall c e, calm c n -> walker n c = Error e -> ~ other_error e) l ->
  forall c e,
    in_agg_direct_args c = false ->
    existsb (stops_early (rownum_grouped (have_non_var_grouping c) (groupClauses c))) l
    = false ->
    Forall (in_range_table (p_rtable c)) (flat_map (reached c (sublevels_up c)) l) ->
    walk_list walker l c = Error e -> ~ other_error e.
Proof.
  induction 1 as [|n l Hn _ IH]; intros c e Hflag Hstop Hrange Hw; cbn in Hw, Hstop, Hrange.
  - discriminate.
  - apply orb_false_iff in Hstop. destruct Hstop as [Hs1 Hs2].
    apply Forall_app in Hrange. destruct Hrange as [Hr1 Hr2].
    pose proof (check_ungrouped_columns_walker_outcome n c) as Hout.
    destruct (walker n c) as [c1|e1] eqn:E; cbn [bind] in Hw.
    + destruct Hout as ((Gr & Gg & _ & Gh & _) & Gs & Gi & _).
      apply (IH c1 e);
        [congruence | now rewrite Gh, Gg | now rewrite Gr, Gh, Gg, Gs | exact Hw].
    + inversion Hw; subst e1. apply (Hn c e); auto.
Qed.

Lemma walker_error_not_other (node : Node) :
  forall c e, calm c node -> walker node c = Error e -> ~ other_error e.
Proof.
  induction node using Node_induction; intros c e (Hflag & Hstop & Hrange) Hw;
    cbn [check_ungrouped_columns_walker stops_early reached_vars] in Hw, Hstop, Hrange;
    try discriminate.
  - (* Var *)
    destruct (matches_group_expr c (Var varno varattno varlevelsup location));
      [discriminate|].
    cbn [is_Rownum andb bind] in Hw.
    apply (check_ungrouped_var_error c varno varattno varlevelsup e); [|exact Hw].
    intros Heq. rewrite Heq, Z.eqb_refl in Hrange. now inversion Hrange.
  - (* Aggref *)
    destruct dargs as [|d dargs]; [|discriminate].
    destruct (int_of_Index lvl =? sublevels_up c).
    + rewrite Hflag in Hw. discriminate.
    + destruct (int_of_Index lvl >? sublevels_up c); [discriminate|].
      change (if group_expr_match (have_non_var_grouping c) (groupClauses c)
                   (sublevels_up c) (Aggref lvl [] args location)
              then @nil (Z * Z * Z)
              else flat_map (reached c (sublevels_up c)) [] ++
                   flat_map (reached c (sublevels_up c)) args)
        with (if matches_group_expr c (Aggref lvl [] args location)
              then @nil (Z * Z * Z)
              else flat_map (reached c (sublevels_up c)) args) in Hrange.
      destruct (matches_group_expr c (Aggref lvl [] args location)); [discriminate|].
      cbn [is_Rownum andb bind expression_tree_walker walk_list] in Hw.
      exact (walk_list_error_not_other args H0 c e Hflag Hstop Hrange Hw).
  - (* GroupingFunc *)
    destruct (int_of_Index lvl >=? sublevels_up c); [discriminate|].
    change (group_expr_match (have_non_var_grouping c) (groupClauses c)
              (sublevels_up c) (GroupingFunc lvl args location))
      with (matches_group_expr c (GroupingFunc lvl args location)) in Hrange.
    destruct (matches_group_expr c (GroupingFunc lvl args location)); [discriminate|].
    cbn [is_Rownum andb bind expression_tree_walker] in Hw.
    exact (walk_list_error_not_other args H c e Hflag Hstop Hrange Hw).
  - (* WindowFunc *)
    change (group_expr_match (have_non_var_grouping c) (groupClauses c)
              (sublevels_up c) (WindowFunc args location))
      with (matches_group_expr c (WindowFunc args location)) in Hrange.
    destruct (matches_group_expr c (WindowFunc args location)); [discriminate|].
    cbn [is_Rownum andb bind expression_tree_walker] in Hw.
    exact (walk_list_error_not_other args H c e Hflag Hstop Hrange Hw).
  - (* FuncExpr *)
    change (group_expr_match (have_non_var_grouping c) (groupClauses c)
              (sublevels_up c) (FuncExpr funcid retset args location))
      with (matches_group_expr c (FuncExpr funcid retset args location)) in Hrange.
    destruct (matches_group_expr c (FuncExpr funcid retset args location));
      [discriminate|].
    cbn [is_Rownum andb bind expression_tree_walker] in Hw.
    exact (walk_list_error_not_other args H c e Hflag Hstop Hrange Hw).
  - (* OpExpr *)
    change (group_expr_match (have_non_var_grouping c) (groupClauses c)
              (sublevels_up c) (OpExpr opno retset args location))
      with (matches_group_expr c (OpExpr opno retset args location)) in Hrange.
    destruct (matches_group_expr c (OpExpr opno retset args location)); [discriminate|].
    cbn [is_Rownum andb bind expression_tree_walker] in Hw.
    exact (walk_list_error_not_other args H c e Hflag Hstop Hrange Hw).
  - (* Rownum *)
    destruct (matches_group_expr c (Rownum location)); [discriminate|].
    apply negb_false_iff in Hstop. unfold rownum_grouped in Hstop.
    cbn [is_Rownum andb] in Hw. unfold find_rownum_in_groupby_clauses in Hw.
    destruct (sublevels_up c =? 0); cbn [bind expression_tree_walker] in Hw;
      [|discriminate].
    destruct (have_non_var_grouping c); cbn [negb orb bind] in Hw, Hstop;
      [discriminate|].
    rewrite Hstop in Hw. discriminate.
  - (* TargetEntry *)
    change (group_expr_match (have_non_var_grouping c) (groupClauses c)
              (sublevels_up c) (TargetEntry node ref))
      with (matches_group_expr c (TargetEntry node ref)) in Hrange.
    destruct (matches_group_expr c (TargetEntry node ref)); [discriminate|].
    cbn [is_Rownum andb bind expression_tree_walker] in Hw.
    apply (IHnode c e); auto.
  - (* SubLink *)
    change (group_expr_match (have_non_var_grouping c) (groupClauses c)
              (sublevels_up c) (SubLink testexpr node))
      with (matches_group_expr c (SubLink testexpr node)) in Hrange.
    destruct (matches_group_expr c (SubLink testexpr node)); [discriminate|].
    cbn [is_Rownum andb bind expression_tree_walker] in Hw.
    apply orb_false_iff in Hstop. destruct Hstop as [Hs1 Hs2].
    apply Forall_app in Hrange. destruct Hrange as [Hr1 Hr2].
    destruct testexpr as [t|].
    + pose proof (check_ungrouped_columns_walker_outcome t c) as Hout.
      destruct (walker t c) as [c1|e1] eqn:E; cbn [bind] in Hw.
      * destruct Hout as ((Gr & Gg & _ & Gh & _) & Gs & Gi & _).
        apply (IHnode c1 e); auto. split; [congruence|]. split.
        -- now rewrite Gh, Gg.
        -- now rewrite Gr, Gh, Gg, Gs.
      * inversion Hw; subst e1. apply (H t eq_refl c e); auto.
    + cbn [bind] in Hw. apply (IHnode c e); auto.
  - (* Query *)
    change (group_expr_match (have_non_var_grouping c) (groupClauses c)
              (sublevels_up c) (Query clauses))
      with (matches_group_expr c (Query clauses)) in Hrange.
    destruct (matches_group_expr c (Query clauses)); [discriminate|].
    cbn [is_Rownum andb bind] in Hw. unfold query_tree_walker in Hw.
    destruct (walk_list walker clauses (set_sublevels_up c (sublevels_up c + 1)))
      as [c1|e1] eqn:E; cbn [bind] in Hw; [discriminate|].
    inversion Hw; subst e1.
    exact (walk_list_error_not_other clauses H
             (set_sublevels_up c (sublevels_up c + 1)) e Hflag Hstop Hrange E).
  - (* List *)
    change (group_expr_match (have_non_var_grouping c) (groupClauses c)
              (sublevels_up c) (List_ elements))
      with (matches_group_expr c (List_ elements)) in Hrange.
    destruct (matches_group_expr c (List_ elements)); [discriminate|].
    cbn [is_Rownum andb bind expression_tree_walker] in Hw.
    exact (walk_list_error_not_other elements H c e Hflag Hstop Hrange Hw).
Qed.


End UngroupedFacts.

Section UngroupedExamples.
Import Agg Grouping GroupingExamples.

(** [SELECT a, b FROM t GROUP BY a] is rejected, naming column [b]. *)
Example select_a_b_group_by_a :
  example_check (List_ [TargetEntry (Var 1 1 0 7) 1; TargetEntry (Var 1 2 0 10) 0])
  = Error (err_ungrouped_column "t" "b").
Proof. reflexivity. Qed.



End UngroupedExamples.

(** ** Unqualified name lookup *)

Section NameLookupFacts.
Import Agg Rel.

Variable LookupNamespaceNoError : string -> option Z.
Variable get_relname_relid_extend : string -> Z -> option Z.
Variable make_var : ParseState -> RangeTblEntry -> Z -> Z -> res Node.
Variable ts_make_var : ParseState -> RangeTblEntry -> Z -> Z -> res (option Node).
Variable TS_PSEUDO_DIST_COLUMN : string.
Variable specialAttNum : string -> Z.
Variable SearchSysCacheExists2_ATTNUM : Z -> Z -> bool.
Variable get_rel_relkind : Z -> RelKind.

#[local] Abbreviation scanRTE :=
  (scanRTEForColumn make_var ts_make_var TS_PSEUDO_DIST_COLUMN specialAttNum
     SearchSysCacheExists2_ATTNUM get_rel_relkind).
#[local] Abbreviation scan_vars :=
  (scan_varnamespace make_var ts_make_var TS_PSEUDO_DIST_COLUMN specialAttNum
     SearchSysCacheExists2_ATTNUM get_rel_relkind).

Section OneScope.

Variable orig_pstate : ParseState.
Variable lateral_active : bool.
Variable colname : string.
Variable location : Z.

#[local] Abbreviation column_candidate :=
  (Rel.column_candidate make_var ts_make_var TS_PSEUDO_DIST_COLUMN specialAttNum
     SearchSysCacheExists2_ATTNUM get_rel_relkind orig_pstate lateral_active colname
     location).
#[local] Abbreviation column_lookup_error :=
  (Rel.column_lookup_error make_var ts_make_var TS_PSEUDO_DIST_COLUMN specialAttNum
     SearchSysCacheExists2_ATTNUM get_rel_relkind orig_pstate colname location).

Lemma column_lookup_error_cons (x : ParseNamespaceItem)
    (items : list ParseNamespaceItem) (e : ErrorData) :
  column_lookup_error items e -> column_lookup_error (x :: items) e.
Proof.
  intros [H|[[n (Hin & H)]|[n (Hin & H)]]]; [now left|right; left|right; right];
    exists n; (split; [now right|exact H]).
Qed.

Lemma scan_varnamespace_after_match (items : list ParseNamespaceItem) :
  forall (r : Node) (final_rte : option RangeTblEntry),
    (exists nsitem, In nsitem items /\ column_candidate nsitem) ->
    exists e, scan_vars orig_pstate items lateral_active false colname location
                (Some r) final_rte = Error e
              /\ column_lookup_error items e.
Proof.
  induction items as [|x items IH]; intros r final_rte [n [Hin Hn]].
  - contradiction.
  - cbn [scan_varnamespace]. destruct Hin as [->|Hin].
    + destruct Hn as [Hvis [v Hv]]. rewrite Hvis, Hv. cbn [bind].
      exists (err_ambiguous_column colname). split; [reflexivity|now left].
    + destruct (ignored x lateral_active).
      * destruct (IH r final_rte) as [e [He Hk]]; [now exists n|].
        exists e. split; auto. now apply column_lookup_error_cons.
      * destruct (scanRTE orig_pstate (p_rte x) colname location true)
          as [[v|]|e] eqn:Ex; cbn [bind].
        -- exists (err_ambiguous_column colname). split; [reflexivity|now left].
        -- destruct (IH r final_rte) as [e [He Hk]]; [now exists n|].
           exists e. split; auto. now apply column_lookup_error_cons.
        -- exists e. split; auto. right; right. exists x. split; [now left|exact Ex].
Qed.

Lemma scan_varnamespace_two_candidates (l1 l2 l3 : list ParseNamespaceItem)
    (a b : ParseNamespaceItem) (final_rte : option RangeTblEntry) :
  column_candidate a -> column_candidate b ->
  exists e, scan_vars orig_pstate (l1 ++ a :: l2 ++ b :: l3) lateral_active false
              colname location None final_rte = Error e
            /\ column_lookup_error (l1 ++ a :: l2 ++ b :: l3) e.
Proof.
  intros Ha Hb. revert final_rte.
  assert (Hrest : forall l, exists nsitem,
             In nsitem (l ++ b :: l3) /\ column_candidate nsitem).
  { intros l. exists b. split; auto. apply in_or_app. right. now left. }
  induction l1 as [|x l1 IH]; intros final_rte; cbn [app scan_varnamespace].
  - destruct Ha as [Hvis [v Hv]]. rewrite Hvis, Hv. cbn [bind].
    destruct (p_lateral_only a && negb (p_lateral_ok a)) eqn:El.
    + eexists. split; [reflexivity|]. right; left. exists a.
      apply andb_prop in El. destruct El as [E1 E2]. apply negb_true_iff in E2.
      repeat split; auto. now left.
    + destruct (scan_varnamespace_after_match (l2 ++ b :: l3) v (Some (p_rte a)))
        as [e [He Hk]]; [apply Hrest|].
      exists e. split; auto. now apply column_lookup_error_cons.
  - destruct (ignored x lateral_active).
    + destruct (IH final_rte) as [e [He Hk]].
      exists e. split; auto. now apply column_lookup_error_cons.
    + destruct (scanRTE orig_pstate (p_rte x) colname location true)
        as [[v|]|e] eqn:Ex; cbn [bind].
      * destruct (p_lateral_only x && negb (p_lateral_ok x)) eqn:El.
        -- eexists. split; [reflexivity|]. right; left. exists x.
           apply andb_prop in El. destruct El as [E1 E2]. apply negb_true_iff in E2.
           repeat split; auto. now left.
        -- destruct (scan_varnamespace_after_match (l1 ++ a :: l2 ++ b :: l3) v
                       (Some (p_rte x))) as [e [He Hk]].
           { exists a. split; auto. apply in_or_app. right. now left. }
           exists e. split; auto. now apply column_lookup_error_cons.
      * destruct (IH final_rte) as [e [He Hk]].
        exists e. split; auto. now apply column_lookup_error_cons.
      * exists e. split; auto. right; right. exists x. split; [now left|exact Ex].
Qed.

(** Under [use_level] a column that was found is kept to the end of the
    scan: a later entry cannot replace it, only the scan of one can raise. *)
Lemma scan_varnamespace_use_level_kept (items : list ParseNamespaceItem) :
  forall (v : Node) (final_rte : option RangeTblEntry),
    match scan_vars orig_pstate items lateral_active true colname location
            (Some v) final_rte with
    | Ok (result, _) => result = Some v
    | Error e =>
        exists n, In n items /\ ignored n lateral_active = false
                  /\ scanRTE orig_pstate (p_rte n) colname location true = Error e
    end.
Proof.
  induction items as [|x items IH]; intros v final_rte; cbn [scan_varnamespace].
  - reflexivity.
  - assert (Hlift : forall final,
      match scan_vars orig_pstate items lateral_active true colname location
              (Some v) final with
      | Ok (result, _) => result = Some v
      | Error e =>
          exists n, In n (x :: items) /\ ignored n lateral_active = false
                    /\ scanRTE orig_pstate (p_rte n) colname location true = Error e
      end).
    { intros final. specialize (IH v final).
      destruct (scan_vars orig_pstate items lateral_active true colname location
                  (Some v) final) as [[r f]|e]; [exact IH|].
      destruct IH as [n (Hin & Hn)]. exists n. split; [now right|exact Hn]. }
    destruct (ignored x lateral_active) eqn:Ei; [apply Hlift|].
    destruct (scanRTE orig_pstate (p_rte x) colname location true) as [[w|]|e] eqn:Ex;
      cbn [bind].
    + reflexivity.
    + apply Hlift.
    + exists x. split; [now left|]. split; [exact Ei|exact Ex].
Qed.

(** Under [use_level] the scan returns the column of the first entry in which
    the column is found, whatever follows that entry. *)
Lemma scan_varnamespace_use_level_first (l1 rest : list ParseNamespaceItem)
    (a : ParseNamespaceItem) (va : Node) :
  Forall (fun n => ignored n lateral_active = true
                   \/ scanRTE orig_pstate (p_rte n) colname location true = Ok None) l1 ->
  ignored a lateral_active = false ->
  scanRTE orig_pstate (p_rte a) colname location true = Ok (Some va) ->
  p_lateral_only a && negb (p_lateral_ok a) = false ->
  forall final_rte : option RangeTblEntry,
    match scan_vars orig_pstate (l1 ++ a :: rest) lateral_active true colname location
            None final_rte with
    | Ok (result, _) => result = Some va
    | Error e =>
        exists n, In n rest /\ ignored n lateral_active = false
                  /\ scanRTE orig_pstate (p_rte n) colname location true = Error e
    end.
Proof.
  intros Hl1 Hia Ha Hla.
  induction Hl1 as [|x l1 Hx _ IH]; intros final_rte; cbn [app scan_varnamespace].
  - rewrite Hia, Ha. cbn [bind]. rewrite Hla.
    apply scan_varnamespace_use_level_kept.
  - destruct Hx as [Hx|Hx]; rewrite Hx; [apply IH|].
    destruct (ignored x lateral_active); [apply IH|]. cbn [bind]. apply IH.
Qed.

End OneScope.

#[local] Abbreviation column_candidate :=
  (Rel.column_candidate make_var ts_make_var TS_PSEUDO_DIST_COLUMN specialAttNum
     SearchSysCacheExists2_ATTNUM get_rel_relkind).
#[local] Abbreviation column_lookup_error :=
  (Rel.column_lookup_error make_var ts_make_var TS_PSEUDO_DIST_COLUMN specialAttNum
     SearchSysCacheExists2_ATTNUM get_rel_relkind).

Lemma scan_relnamespace_after_match (lateral_active : bool) (refname : string)
    (items : list ParseNamespaceItem) :
  forall r : RangeTblEntry,
    (exists nsitem, In nsitem items /\ table_candidate lateral_active refname nsitem) ->
    scan_relnamespace items lateral_active refname (Some r)
    = Error (err_ambiguous_table refname).
Proof.
  induction items as [|x items IH]; intros r [n [Hin Hn]].
  - contradiction.
  - cbn [scan_relnamespace]. destruct Hin as [->|Hin].
    + destruct Hn as [Hvis <-]. rewrite Hvis, String.eqb_refl. reflexivity.
    + destruct (ignored x lateral_active); [apply IH; now exists n|].
      destruct (String.eqb _ _); [reflexivity|apply IH; now exists n].
Qed.

Lemma scan_relnamespace_two_candidates (lateral_active : bool) (refname : string)
    (l1 l2 l3 : list ParseNamespaceItem) (a b : ParseNamespaceItem) :
  table_candidate lateral_active refname a ->
  table_candidate lateral_active refname b ->
  exists e, scan_relnamespace (l1 ++ a :: l2 ++ b :: l3) lateral_active refname None
            = Error e
            /\ (e = err_ambiguous_table refname
                \/ (e = err_invalid_lateral_reference refname
                    /\ exists nsitem, In nsitem (l1 ++ [a])
                         /\ p_lateral_only nsitem = true /\ p_lateral_ok nsitem = false)).
Proof.
  intros Ha Hb.
  assert (Hrest : forall l, exists nsitem,
             In nsitem (l ++ b :: l3) /\ table_candidate lateral_active refname nsitem).
  { intros l. exists b. split; auto. apply in_or_app. right. now left. }
  induction l1 as [|x l1 IH]; cbn [app scan_relnamespace].
  - destruct Ha as [Hvis Hal]. rewrite Hvis, Hal, String.eqb_refl.
    destruct (p_lateral_only a && negb (p_lateral_ok a)) eqn:El.
    + eexists. split; [reflexivity|]. right. split; auto. exists a.
      apply andb_prop in El. destruct El as [E1 E2]. apply negb_true_iff in E2.
      repeat split; auto. now left.
    + rewrite scan_relnamespace_after_match by apply Hrest.
      eexists. split; [reflexivity|now left].
  - assert (Hlift : forall e,
      (e = err_ambiguous_table refname
       \/ (e = err_invalid_lateral_reference refname
           /\ exists nsitem, In nsitem (l1 ++ [a])
                /\ p_lateral_only nsitem = true /\ p_lateral_ok nsitem = false)) ->
      (e = err_ambiguous_table refname
       \/ (e = err_invalid_lateral_reference refname
           /\ exists nsitem, In nsitem (x :: l1 ++ [a])
                /\ p_lateral_only nsitem = true /\ p_lateral_ok nsitem = false))).
    { intros e [H|[H [n (Hin & Hn)]]]; [now left|right].
      split; auto. exists n. split; auto. now right. }
    destruct (ignored x lateral_active).
    + destruct IH as [e [He Hk]]. exists e. split; auto.
    + destruct (String.eqb (aliasname (eref (p_rte x))) refname) eqn:Ex.
      * destruct (p_lateral_only x && negb (p_lateral_ok x)) eqn:El.
        -- eexists. split; [reflexivity|]. right. split; auto. exists x.
           apply andb_prop in El. destruct El as [E1 E2]. apply negb_true_iff in E2.
           repeat split; auto. now left.
        -- rewrite scan_relnamespace_after_match.
           ++ eexists. split; [reflexivity|now left].
           ++ exists a. split; auto. apply in_or_app. right. now left.
      * destruct IH as [e [He Hk]]. exists e. split; auto.
Qed.

#[local] Abbreviation colNameToVar_walk' :=
  (colNameToVar_walk make_var ts_make_var TS_PSEUDO_DIST_COLUMN specialAttNum
     SearchSysCacheExists2_ATTNUM get_rel_relkind).
#[local] Abbreviation colNameToVar' :=
  (colNameToVar make_var ts_make_var TS_PSEUDO_DIST_COLUMN specialAttNum
     SearchSysCacheExists2_ATTNUM get_rel_relkind).

(** C1 (as amended).  In a scope whose [use_level] flag is off, two visible
    candidates for an unqualified column make [colNameToVar] raise and return
    nothing: the ambiguity error, unless a LATERAL-only entry closed to the
    reference matched first or the scan of one entry raised on its own; when
    no entry is LATERAL-only and no scan raises, it is the ambiguity error.
    Two visible candidates for an unqualified table name make
    [scanNameSpaceForRefname], and with it [refnameRangeTblEntry], raise the
    ambiguity error or, when the first match is a LATERAL-only entry closed
    to the reference, the invalid-reference error.  With [use_level] on,
    [colNameToVar] returns the column of the first entry of the scope in which
    the column is found, whatever candidates follow that entry, unless the
    entry is LATERAL-only and closed to the reference; it raises only where
    the scan of a later entry raises on its own. *)
Theorem ambiguous_reference_is_rejected :
  (forall (orig_pstate pstate : ParseState) (colname : string) (localonly : bool)
          (location : Z) (final_rte : option RangeTblEntry)
          (l1 l2 l3 : list ParseNamespaceItem) (a b : ParseNamespaceItem),
      use_level pstate = false ->
      p_varnamespace pstate = l1 ++ a :: l2 ++ b :: l3 ->
      column_candidate orig_pstate (p_lateral_active pstate) colname location a ->
      column_candidate orig_pstate (p_lateral_active pstate) colname location b ->
      exists e,
        colNameToVar_walk' orig_pstate pstate colname localonly location final_rte
        = Error e
        /\ column_lookup_error orig_pstate colname location (p_varnamespace pstate) e
        /\ ((forall n, In n (p_varnamespace pstate) -> p_lateral_only n = false) ->
            (forall n, In n (p_varnamespace pstate) ->
               is_ok (scanRTE orig_pstate (p_rte n) colname location true) = true) ->
            e = err_ambiguous_column colname))
  /\ (forall (pstate : ParseState) (refname : string)
             (location : Z) (want_sublevels_up : bool)
             (l1 l2 l3 : list ParseNamespaceItem) (a b : ParseNamespaceItem),
        p_relnamespace pstate = l1 ++ a :: l2 ++ b :: l3 ->
        table_candidate (p_lateral_active pstate) refname a ->
        table_candidate (p_lateral_active pstate) refname b ->
        exists e,
          scanNameSpaceForRefname pstate refname location = Error e
          /\ refnameRangeTblEntry LookupNamespaceNoError get_relname_relid_extend
               pstate None refname location want_sublevels_up = Error e
          /\ (e = err_ambiguous_table refname
              \/ (e = err_invalid_lateral_reference refname
                  /\ exists n, In n (l1 ++ [a])
                       /\ p_lateral_only n = true /\ p_lateral_ok n = false)))
  /\ (forall (orig_pstate pstate : ParseState) (colname : string) (localonly : bool)
             (location : Z) (final_rte : option RangeTblEntry)
             (l1 rest : list ParseNamespaceItem) (a : ParseNamespaceItem) (va : Node),
        use_level pstate = true ->
        p_varnamespace pstate = l1 ++ a :: rest ->
        Forall (fun n => ignored n (p_lateral_active pstate) = true
                         \/ scanRTE orig_pstate (p_rte n) colname location true = Ok None)
          l1 ->
        ignored a (p_lateral_active pstate) = false ->
        scanRTE orig_pstate (p_rte a) colname location true = Ok (Some va) ->
        p_lateral_only a && negb (p_lateral_ok a) = false ->
        match colNameToVar_walk' orig_pstate pstate colname localonly location
                final_rte with
        | Ok (result, _) => result = Some va
        | Error e =>
            exists n, In n rest /\ ignored n (p_lateral_active pstate) = false
                      /\ scanRTE orig_pstate (p_rte n) colname location true = Error e
        end).
Proof.
  split; [|split].
  - intros orig_pstate pstate colname localonly location final_rte l1 l2 l3 a b
           Hul Hns Ha Hb.
    destruct (scan_varnamespace_two_candidates orig_pstate (p_lateral_active pstate)
                colname location l1 l2 l3 a b final_rte Ha Hb) as [e [He Hk]].
    exists e. rewrite Hns.
    destruct pstate as [rt rns vns la ul sw ek parent]. cbn in *. subst ul vns.
    rewrite He. cbn [bind]. split; [reflexivity|]. split; [exact Hk|].
    intros Hlat Hscan. destruct Hk as [H|[[n (Hin & Hlo & _)]|[n (Hin & Herr)]]]; auto.
    + rewrite (Hlat n Hin) in Hlo. discriminate.
    + specialize (Hscan n Hin). rewrite Herr in Hscan. discriminate.
  - intros pstate refname location want l1 l2 l3 a b Hns Ha Hb.
    destruct (scan_relnamespace_two_candidates (p_lateral_active pstate) refname
                l1 l2 l3 a b Ha Hb) as [e [He Hk]].
    exists e.
    assert (Hscan : scanNameSpaceForRefname pstate refname location = Error e).
    { unfold scanNameSpaceForRefname. rewrite Hns, He. reflexivity. }
    split; [exact Hscan|]. split; [|exact Hk].
    unfold refnameRangeTblEntry.
    destruct pstate as [rt rns vns la ul sw ek parent].
    cbn [refname_walk]. rewrite Hscan. reflexivity.
  - intros orig_pstate pstate colname localonly location final_rte l1 rest a va
           Hul Hns Hl1 Hia Ha Hla.
    pose proof (scan_varnamespace_use_level_first orig_pstate (p_lateral_active pstate)
                  colname location l1 rest a va Hl1 Hia Ha Hla final_rte) as Hscan.
    destruct pstate as [rt rns vns la ul sw ek parent]. cbn in *. subst ul vns.
    destruct (scan_vars orig_pstate (l1 ++ a :: rest) la true colname location None
                final_rte) as [[result final]|e]; cbn [bind]; [|exact Hscan].
    subst result. reflexivity.
Qed.

End NameLookupFacts.

Section NameLookupExamples.
Import Agg Rel RelExamples.

(** C1, the claim as stated fails when [use_level] is set: the reference
    [a] matches both [t1] and [t2], and the column of [t1] is returned without
    an error. *)
Lemma use_level_returns_first_candidate :
  example_colNameToVar (example_scope true) "a"
  = Ok (Some (Var 1 1 0 5), Some example_t2)
  /\ example_colNameToVar (example_scope false) "a"
     = Error (err_ambiguous_column "a").
Proof. split; reflexivity. Qed.

Lemma ambiguous_reference_is_rejected_witness :
  (exists e,
      colNameToVar_walk example_make_var (fun _ _ _ _ => Ok None) "ts_pseudo_distcol"
        (fun _ => 0) (fun _ _ => false) (fun _ => RELKIND_RELATION)
        (example_scope false) (example_scope false) "a" false 5 None = Error e
      /\ e = err_ambiguous_column "a")
  /\ (exists e,
        scanNameSpaceForRefname
          (mkParseState [example_t1; example_t1_again]
             [makeNamespaceItem example_t1 false true;
              makeNamespaceItem example_t1_again false true] [] false false false
             EXPR_KIND_OTHER None) "t1" 5 = Error e
        /\ e = err_ambiguous_table "t1")
  /\ match colNameToVar_walk example_make_var (fun _ _ _ _ => Ok None)
              "ts_pseudo_distcol" (fun _ => 0) (fun _ _ => false)
              (fun _ => RELKIND_RELATION)
              (example_scope true) (example_scope true) "a" false 5 None with
     | Ok (result, _) => result = Some (Var 1 1 0 5)
     | Error _ => False
     end.
Proof.
  pose proof (ambiguous_reference_is_rejected (fun _ => None) (fun _ _ => None)
                example_make_var (fun _ _ _ _ => Ok None) "ts_pseudo_distcol"
                (fun _ => 0) (fun _ _ => false) (fun _ => RELKIND_RELATION))
    as [Hcol [Htab Hfirst]].
  split; [|split].
  - destruct (Hcol (example_scope false) (example_scope false) "a" false 5 None
                [] [] [] (makeNamespaceItem example_t1 false true)
                (makeNamespaceItem example_t2 false true) eq_refl eq_refl)
      as [e [He [_ Hamb]]].
    + split; [reflexivity|]. eexists. reflexivity.
    + split; [reflexivity|]. eexists. reflexivity.
    + exists e. split; [exact He|]. apply Hamb.
      * intros n [<-|[<-|[]]]; reflexivity.
      * intros n [<-|[<-|[]]]; reflexivity.
  - destruct (Htab (mkParseState [example_t1; example_t1_again]
                      [makeNamespaceItem example_t1 false true;
                       makeNamespaceItem example_t1_again false true] [] false false
                      false EXPR_KIND_OTHER None) "t1" 5 false
                [] [] [] (makeNamespaceItem example_t1 false true)
                (makeNamespaceItem example_t1_again false true) eq_refl)
      as [e [He [_ Hk]]].
    + split; reflexivity.
    + split; reflexivity.
    + exists e. split; [exact He|].
      destruct Hk as [H|[_ [n (Hin & Hlo & _)]]]; [exact H|].
      destruct Hin as [<-|[]]. discriminate.
  - specialize (Hfirst (example_scope true) (example_scope true) "a" false 5 None
                  [] [makeNamespaceItem example_t2 false true]
                  (makeNamespaceItem example_t1 false true) (Var 1 1 0 5)
                  eq_refl eq_refl (Forall_nil _) eq_refl eq_refl eq_refl).
    destruct (colNameToVar_walk _ _ _ _ _ _ _ _ _ _ _ _) as [[result final]|e];
      [exact Hfirst|].
    destruct Hfirst as [n (Hin & _ & Hn)]. destruct Hin as [<-|[]]. discriminate Hn.
Defined.

End NameLookupExamples.

(** ** Assignment coercion *)

Section AssignmentFacts.
Import Target.

Variable BPCHAROID VARCHAROID : Z.
Variable BYTEAWITHOUTORDERWITHEQUALCOLOID BYTEAWITHOUTORDERCOLOID : Z.
Variable DB_IS_CMPT_B_FORMAT : bool.
Variable ENABLE_MULTIPLE_NODES : bool.
Variable attnumTypeId : RelationData -> Z -> res Z.
Variable get_valid_charset_by_collation : Z -> Z.
Variable exprType : option Expr -> Z.
Variable exprTypmod : option Expr -> Z.
Variable format_type_be : Z -> string.
Variable type_is_set : Z -> bool.
Variable IsClientLogicType : Z -> bool.
Variable GetTypeZeroValue : Form_pg_attribute -> Z.
Variable makeNullConst : Z -> Z -> Z -> Expr.
Variable make_var : ParseState -> RangeTblEntry -> Z -> Z -> res Expr.
Variable coerce_to_settype :
  ParseState -> option Expr -> Z -> Z -> Z -> CoercionForm -> Z -> Z -> res (option Expr).
Variable coerce_to_target_type :
  ParseState -> option Expr -> Z -> Z -> Z -> CoercionForm -> Z -> res (option Expr).
Variable transformAssignmentIndirection :
  ParseState -> Expr -> string -> bool -> Z -> Z -> Z -> list IndirectionItem ->
  option Expr -> Z -> res (option Expr).
Variable assign_expr_collations : ParseState -> option Expr -> res (option Expr).
Variable coerce_to_target_charset : option Expr -> Z -> Z -> Z -> Z -> res (option Expr).
Variable p_create_proc_insert_hook : option (Z -> Z -> Z -> string -> res unit).

#[local] Abbreviation coerce_assigned_expr' :=
  (coerce_assigned_expr BPCHAROID VARCHAROID type_is_set coerce_to_settype
     coerce_to_target_type).
#[local] Abbreviation retry_client_logic_param' :=
  (retry_client_logic_param IsClientLogicType coerce_to_target_type
     p_create_proc_insert_hook).
#[local] Abbreviation reject_or_substitute' :=
  (reject_or_substitute BYTEAWITHOUTORDERWITHEQUALCOLOID BYTEAWITHOUTORDERCOLOID
     format_type_be GetTypeZeroValue coerce_to_target_type).
#[local] Abbreviation coerce_to_column_charset' :=
  (coerce_to_column_charset ENABLE_MULTIPLE_NODES assign_expr_collations
     coerce_to_target_charset).
#[local] Abbreviation transformAssignedExpr' :=
  (transformAssignedExpr BPCHAROID VARCHAROID BYTEAWITHOUTORDERWITHEQUALCOLOID
     BYTEAWITHOUTORDERCOLOID DB_IS_CMPT_B_FORMAT ENABLE_MULTIPLE_NODES attnumTypeId
     get_valid_charset_by_collation exprType exprTypmod format_type_be type_is_set
     IsClientLogicType GetTypeZeroValue makeNullConst make_var coerce_to_settype
     coerce_to_target_type transformAssignmentIndirection assign_expr_collations
     coerce_to_target_charset p_create_proc_insert_hook).

Lemma coerce_assigned_expr_has_ignore (pstate pstate' : ParseState)
    (orig_expr expr : option Expr) (type_id type_mod attrtype attrtypmod attrcollation : Z) :
  coerce_assigned_expr' pstate orig_expr type_id type_mod attrtype attrtypmod
    attrcollation = Ok (expr, pstate') ->
  p_has_ignore pstate' = p_has_ignore pstate
  /\ p_expr_kind pstate' = p_expr_kind pstate.
Proof.
  unfold coerce_assigned_expr. destruct (type_is_set attrtype).
  - destruct (coerce_to_settype _ _ _ _ _ _ _ _); cbn [bind]; [|discriminate].
    intros [= _ <-]. auto.
  - destruct (_ && _ && _).
    + destruct (coerce_to_target_type _ _ _ _ _ _ _); cbn [bind]; [|discriminate].
      intros [= _ <-]. auto.
    + destruct (coerce_to_target_type _ _ _ _ _ _ _); cbn [bind]; [|discriminate].
      intros [= _ <-]. auto.
Qed.

#[local] Abbreviation invalid_encrypted_column :=
  (Target.invalid_encrypted_column BYTEAWITHOUTORDERWITHEQUALCOLOID
     BYTEAWITHOUTORDERCOLOID coerce_to_target_type).
#[local] Abbreviation not_encrypted_column :=
  (Target.not_encrypted_column BYTEAWITHOUTORDERWITHEQUALCOLOID
     BYTEAWITHOUTORDERCOLOID coerce_to_target_type).
#[local] Abbreviation zero_value_const := (Target.zero_value_const GetTypeZeroValue).

Lemma reject_or_substitute_cases (pstate : ParseState) (colname : string)
    (attr : Form_pg_attribute) (orig_expr : option Expr)
    (type_id attrtype : Z) :
  (invalid_encrypted_column pstate orig_expr type_id attrtype (atttypmod attr) ->
     reject_or_substitute' pstate colname attr orig_expr type_id attrtype
       (atttypmod attr) (attcollation attr)
     = Error (err_invalid_encrypted_column colname (format_type_be attrtype)
                (format_type_be type_id)))
  /\ (not_encrypted_column pstate orig_expr type_id attrtype (atttypmod attr) ->
       reject_or_substitute' pstate colname attr orig_expr type_id attrtype
         (atttypmod attr) (attcollation attr)
       = if p_has_ignore pstate
         then Ok (Some (zero_value_const attr attrtype),
                  [warn_data_truncated colname (format_type_be attrtype)
                     (format_type_be type_id)])
         else Error (err_datatype_mismatch colname (format_type_be attrtype)
                       (format_type_be type_id))).
Proof.
  unfold reject_or_substitute, Target.invalid_encrypted_column,
    Target.not_encrypted_column.
  split.
  - intros [Henc [e He]]. rewrite Henc, He. reflexivity.
  - intros [Henc|Hnone].
    + rewrite Henc. cbn [bind]. now destruct (p_has_ignore pstate).
    + destruct (_ || _); [rewrite Hnone|]; cbn [bind]; now destruct (p_has_ignore pstate).
Qed.

(** C7 (as amended).  In [transformAssignedExpr], for a plain target column,
    when the coercion service returns NULL and the retry for a procedure
    parameter does not apply or returns NULL again: an encrypted column whose
    encrypted type accepts the expression raises the invalid-encrypted-data
    error whatever the ignore mode; otherwise, with the ignore mode off the
    fatal type-mismatch error is raised, and with the ignore mode on the
    assigned expression is the constant holding the zero value of the column
    type (then passed to the character-set conversion of the column, if it
    has one) and the only report is a warning. *)
Theorem assignment_coercion_failure
    (pstate pstate1 : ParseState) (expr expr' : option Expr) (exprKind : ParseExprKind)
    (colname : string) (attrno location : Z) (rd : RelationData)
    (rte : RangeTblEntry) (attrtype type_id1 : Z) (attr : Form_pg_attribute)
    (Hcolumn : (attrno <=? 0) || (rd_isblockchain rd && String.eqb colname "hash")
               = false)
    (Htype : attnumTypeId rd attrno = Ok attrtype)
    (Hattr : nth_error (rd_att rd) (Z.to_nat (attrno - 1)) = Some attr)
    (Hdefault : type_default_placeholder expr [] attrtype (atttypmod attr)
                  (attcollation attr) = Ok expr')
    (Hnull : coerce_assigned_expr' (set_p_expr_kind pstate exprKind) expr'
               (exprType expr') (exprTypmod expr') attrtype (atttypmod attr)
               (attcollation attr) = Ok (None, pstate1))
    (Hretry : retry_client_logic_param' pstate1 rd colname expr' (exprType expr')
                attrtype (atttypmod attr) = Ok (None, type_id1)) :
  let result := transformAssignedExpr' pstate expr exprKind colname attrno []
                  location (Some rd) rte in
  let mismatch := err_datatype_mismatch colname (format_type_be attrtype)
                    (format_type_be type_id1) in
  let warning := warn_data_truncated colname (format_type_be attrtype)
                   (format_type_be type_id1) in
  let charset := column_charset DB_IS_CMPT_B_FORMAT get_valid_charset_by_collation
                   (attcollation attr) in
  (invalid_encrypted_column pstate1 expr' type_id1 attrtype (atttypmod attr) ->
     result = Error (err_invalid_encrypted_column colname (format_type_be attrtype)
                       (format_type_be type_id1)))
  /\ (not_encrypted_column pstate1 expr' type_id1 attrtype (atttypmod attr) ->
       p_has_ignore pstate = false -> result = Error mismatch)
  /\ (not_encrypted_column pstate1 expr' type_id1 attrtype (atttypmod attr) ->
       p_has_ignore pstate = true ->
       result
       = do e <- coerce_to_column_charset' pstate1
                   (Some (zero_value_const attr attrtype)) charset attrtype
                   (atttypmod attr) (attcollation attr);
         Ok (e, set_p_expr_kind pstate1 (p_expr_kind pstate), [warning]))
  /\ (not_encrypted_column pstate1 expr' type_id1 attrtype (atttypmod attr) ->
       p_has_ignore pstate = true ->
       ENABLE_MULTIPLE_NODES = true \/ charset = PG_INVALID_ENCODING ->
       result = Ok (Some (zero_value_const attr attrtype),
                    set_p_expr_kind pstate1 (p_expr_kind pstate), [warning])).
Proof.
  cbv zeta.
  destruct (coerce_assigned_expr_has_ignore _ _ _ _ _ _ _ _ _ Hnull) as [Hign _].
  cbn [set_p_expr_kind p_has_ignore] in Hign.
  assert (Hunfold :
    transformAssignedExpr' pstate expr exprKind colname attrno [] location (Some rd) rte
    = do '(e, warnings) <- reject_or_substitute' pstate1 colname attr expr' type_id1
                             attrtype (atttypmod attr) (attcollation attr);
      do e <- coerce_to_column_charset' pstate1 e
                (column_charset DB_IS_CMPT_B_FORMAT get_valid_charset_by_collation
                   (attcollation attr)) attrtype (atttypmod attr) (attcollation attr);
      Ok (e, set_p_expr_kind pstate1 (p_expr_kind pstate), warnings)).
  { unfold transformAssignedExpr. rewrite Hcolumn, Htype. cbn [bind].
    rewrite Hattr, Hdefault. cbn [bind]. rewrite Hnull. cbn [bind].
    rewrite Hretry. cbn [bind].
    destruct (reject_or_substitute' pstate1 colname attr expr' type_id1 attrtype
                (atttypmod attr) (attcollation attr)) as [[e w]|err]; reflexivity. }
  rewrite Hunfold.
  destruct (reject_or_substitute_cases pstate1 colname attr expr' type_id1 attrtype)
    as [Henc Hplain].
  split; [|split; [|split]].
  - intros H. rewrite (Henc H). reflexivity.
  - intros H Hoff. rewrite (Hplain H), Hign, Hoff. reflexivity.
  - intros H Hon. rewrite (Hplain H), Hign, Hon. reflexivity.
  - intros H Hon Hcs. rewrite (Hplain H), Hign, Hon. cbn [bind].
    unfold coerce_to_column_charset. destruct Hcs as [Hcs | Hcs]; rewrite Hcs; [reflexivity|].
    rewrite Z.eqb_refl, andb_false_r. reflexivity.
Qed.

End AssignmentFacts.

Section AssignmentExamples.
Import Target TargetExamples.

Example ignore_mode_substitutes_zero :
  example_assign false 1 = Error (err_datatype_mismatch "c" "integer" "unknown")
  /\ example_assign true 1
     = Ok (Some (Const 23 (-1) 0 4 0 false true),
           mkParseState EXPR_KIND_NONE true false UNINVOLVED_QUERY true,
           [warn_data_truncated "c" "integer" "unknown"]).
Proof. split; reflexivity. Qed.

(** C7, the claim as stated fails for an encrypted column: the coercion to
    the column type returns NULL, no retry applies, the ignore mode is on,
    and the outcome is a fatal error instead of the zero value and a
    warning. *)
Lemma ignore_mode_still_rejects_encrypted_column :
  example_assign true 2 = Error (err_invalid_encrypted_column "c" "other" "unknown")
  /\ example_coerce (mkParseState EXPR_KIND_INSERT_TARGET true false UNINVOLVED_QUERY true)
       (Some (OtherExpr 7 [])) 705 4403 20 COERCE_IMPLICIT_CAST (-1) = Ok None.
Proof. split; reflexivity. Qed.

Lemma assignment_coercion_failure_witness :
  example_assign false 1 = Error (err_datatype_mismatch "c" "integer" "unknown")
  /\ example_assign true 1
     = Ok (Some (Const 23 (-1) 0 4 0 false true), example_pstate true,
           [warn_data_truncated "c" "integer" "unknown"]).
Proof.
  pose proof (fun has_ignore =>
    assignment_coercion_failure 1042 1043 4402 4403 false false
      example_attnumTypeId (fun _ => 0) (fun _ => 705) (fun _ => -1)
      example_format_type (fun _ => false) (fun _ => false) (fun _ => 0)
      example_makeNullConst example_make_target_var example_coerce_to_settype
      example_coerce example_indirection (fun _ e => Ok e) (fun e _ _ _ _ => Ok e) None
      (example_pstate has_ignore)
      (mkParseState EXPR_KIND_INSERT_TARGET true false UNINVOLVED_QUERY has_ignore)
      (Some (OtherExpr 7 [])) (Some (OtherExpr 7 [])) EXPR_KIND_INSERT_TARGET "c" 1 3
      example_relation example_target_rte 23 705 (mkAttribute (-1) 0 4 true)
      eq_refl eq_refl eq_refl eq_refl eq_refl eq_refl) as H.
  split.
  - destruct (H false) as (_ & Hoff & _). apply Hoff; [now left|reflexivity].
  - destruct (H true) as (_ & _ & _ & Hon).
    apply Hon; [now left|reflexivity|now right].
Defined.

End AssignmentExamples.

(** ** START WITH / CONNECT BY *)

Section StartWithFacts.
Import StartWith.

Variable NAMEDATALEN : Z.
Variable CONNECT_BY_ROWNUM_FAKEVALUE CONNECT_BY_LEVEL_FAKEVALUE : Z.
Variable GetStartWithFakeConstValue : Value -> Z.
Variable makeBoolAConst : bool -> Z -> Node.
Variable equal : Node -> Node -> bool.
Variable equal_info : StartWithTargetRelInfo -> StartWithTargetRelInfo -> bool.
Variable transformColumnRef : ParseState -> Node -> res (option Agg.Node).
Variable transformWhereClause : ParseState -> option Node -> res (option Agg.Node).
Variable assign_expr_collations : ParseState -> option Agg.Node -> option Agg.Node.
Variable transformWithClause : ParseState -> Node -> res (list Node * ParseState).

#[local] Abbreviation Handle :=
  (HandleSWCBColumnRef NAMEDATALEN equal_info transformColumnRef).
#[local] Abbreviation Walker :=
  (StartWithWalker NAMEDATALEN CONNECT_BY_ROWNUM_FAKEVALUE CONNECT_BY_LEVEL_FAKEVALUE
     GetStartWithFakeConstValue equal_info transformColumnRef).
#[local] Abbreviation pseudo :=
  (pseudo_level_rownum_walker CONNECT_BY_ROWNUM_FAKEVALUE CONNECT_BY_LEVEL_FAKEVALUE).
#[local] Abbreviation flatten :=
  (flattenConnectByExpr CONNECT_BY_ROWNUM_FAKEVALUE CONNECT_BY_LEVEL_FAKEVALUE).
#[local] Abbreviation exclude := (walker_to_exclude_non_join_quals makeBoolAConst).
#[local] Abbreviation Walker_opt :=
  (StartWithWalker_opt NAMEDATALEN CONNECT_BY_ROWNUM_FAKEVALUE CONNECT_BY_LEVEL_FAKEVALUE
     GetStartWithFakeConstValue equal_info transformColumnRef).

(** *** Induction on the nodes below a node *)

Lemma Node_children_ind (P : Node -> Prop) :
  (forall node, Forall P (children node) -> P node) -> forall node, P node.
Proof.
  intros H. fix IH 1. intros node. apply H.
  destruct node; cbn [children];
    repeat match goal with
           | |- Forall _ (_ ++ _) => apply Forall_app; split
           | |- Forall _ (opt_list ?o) =>
               destruct o; cbn [opt_list]; [constructor; [apply IH | constructor] | constructor]
           | |- Forall _ [] => constructor
           | |- Forall _ ?l =>
               is_var l; induction l; constructor; [apply IH | assumption]
           end.
Qed.

Lemma any_node_opt_list (f : Node -> bool) (o : option Node) :
  any_node f o = existsb f (opt_list o).
Proof. destruct o; simpl; now rewrite ?orb_false_r. Qed.

Lemma any_child_children (f : Node -> bool) (node : Node) :
  any_child f node = existsb f (children node).
Proof.
  destruct node; cbn [any_child children];
    rewrite ?existsb_app, ?any_node_opt_list, ?orb_assoc; reflexivity.
Qed.

Lemma existsb_false_Forall {A : Type} (f : A -> bool) (l : list A) :
  existsb f l = false <-> Forall (fun x => f x = false) l.
Proof.
  induction l as [|x l IH]; simpl.
  - split; auto.
  - rewrite orb_false_iff, IH. split.
    + intros [? ?]. now constructor.
    + intros H. inversion H. auto.
Qed.

Lemma existsb_map_false (P : Node -> bool) (f : Node -> Node) (l : list Node) :
  Forall (fun c => P c = false -> P (f c) = false) l ->
  existsb P l = false -> existsb P (map f l) = false.
Proof.
  induction 1 as [|x l Hx Hl IH]; simpl; auto.
  rewrite !orb_false_iff. intros [? ?]. auto.
Qed.

Lemma any_node_map_false (P : Node -> bool) (f : Node -> Node) (o : option Node) :
  Forall (fun c => P c = false -> P (f c) = false) (opt_list o) ->
  any_node P o = false -> any_node P (option_map f o) = false.
Proof.
  destruct o; simpl; auto. intros H. inversion H. auto.
Qed.

Lemma any_child_update (P : Node -> bool) (f : Node -> Node) (node : Node) :
  Forall (fun c => P c = false -> P (f c) = false) (children node) ->
  any_child P node = false ->
  any_child P (raw_expression_tree_update f node) = false.
Proof.
  destruct node; cbn [children raw_expression_tree_update any_child];
    rewrite ?Forall_app, ?orb_false_iff; intros HF H;
    repeat match goal with
           | H : _ /\ _ |- _ => destruct H
           | |- _ /\ _ => split
           end;
    auto using existsb_map_false, any_node_map_false.
Qed.

Lemma has_prior_children (node : Node) :
  has_prior node = false -> Forall (fun c => has_prior c = false) (children node).
Proof.
  intros H. apply existsb_false_Forall. rewrite <- any_child_children.
  destruct node; try exact H. reflexivity.
Qed.

Lemma has_prior_update (f : Node -> Node) (node : Node) :
  Forall (fun c => has_prior c = false -> has_prior (f c) = false) (children node) ->
  has_prior node = false ->
  has_prior (raw_expression_tree_update f node) = false.
Proof.
  intros HF H.
  destruct node; try exact (any_child_update has_prior f _ HF H); exact H.
Qed.

Lemma mentions_table_update (name : string) (f : Node -> Node) (node : Node) :
  Forall (fun c => mentions_table name c = false -> mentions_table name (f c) = false)
    (children node) ->
  mentions_table name node = false ->
  mentions_table name (raw_expression_tree_update f node) = false.
Proof.
  intros HF H.
  destruct node; try exact (any_child_update (mentions_table name) f _ HF H); exact H.
Qed.

(** *** No PRIOR, no prior key *)

Lemma pseudo_level_rownum_walker_has_prior (node : Node) :
  has_prior node = false -> forall parent_takes, has_prior (pseudo parent_takes node) = false.
Proof.
  induction node as [node IH] using Node_children_ind. intros H parent_takes.
  assert (Hup : forall b, has_prior (raw_expression_tree_update (pseudo b) node) = false).
  { intros b. apply has_prior_update; auto.
    eapply Forall_impl; [|exact IH]. cbv beta. auto. }
  destruct node; try exact (Hup _).
  - cbn [pseudo_level_rownum_walker].
    destruct (parent_takes && _); [reflexivity | exact H].
  - cbn [pseudo_level_rownum_walker]. now destruct parent_takes.
Qed.

Lemma replace_pseudo_columns_has_prior (expr : Node) :
  has_prior expr = false ->
  has_prior
    (replace_pseudo_columns CONNECT_BY_ROWNUM_FAKEVALUE CONNECT_BY_LEVEL_FAKEVALUE expr)
  = false.
Proof.
  intros H. unfold replace_pseudo_columns. apply has_prior_update; auto.
  apply Forall_forall. intros c _ Hc.
  now apply pseudo_level_rownum_walker_has_prior.
Qed.

(** What [flattenConnectByExpr] leaves alone, and what it appends. *)
Lemma flattenConnectByExpr_has_prior (expr : Node) :
  has_prior expr = false ->
  forall context context',
    flatten context expr = Ok context' ->
    connectby_prior_name context' = connectby_prior_name context
    /\ (prior_free (rownum_or_level_list context) ->
        prior_free (rownum_or_level_list context'))
    /\ (prior_free (normal_list context) -> prior_free (normal_list context')).
Proof.
  induction expr as [expr IH] using Node_children_ind. intros H context context' Hf.
  assert (Hleaf :
    (do '(hasRownumOrLevel, hasPrior) <-
       rowNumOrLevelWalker CONNECT_BY_ROWNUM_FAKEVALUE CONNECT_BY_LEVEL_FAKEVALUE expr
         (false, false);
     if hasRownumOrLevel && hasPrior then Error err_prior_with_rownum_or_level
     else if hasRownumOrLevel
     then Ok (set_rownum_or_level_list context (rownum_or_level_list context ++ [expr]))
     else Ok (set_normal_list context (normal_list context ++ [expr]))) = Ok context' ->
    connectby_prior_name context' = connectby_prior_name context
    /\ (prior_free (rownum_or_level_list context) ->
        prior_free (rownum_or_level_list context'))
    /\ (prior_free (normal_list context) -> prior_free (normal_list context'))).
  { clear Hf. intros Hf.
    destruct (rowNumOrLevelWalker _ _ expr (false, false)) as [[r p]|]; [|discriminate].
    cbn [bind] in Hf.
    destruct (r && p); [discriminate|].
    destruct r; inversion Hf; subst; cbn; repeat split; auto;
      intros Hl; apply Forall_app; split; auto; constructor; auto. }
  destruct expr; try exact (Hleaf Hf).
  destruct kind; try exact (Hleaf Hf).
  cbn [flattenConnectByExpr] in Hf. cbn [children] in IH.
  apply Forall_app in IH. destruct IH as [IHl IHr].
  cbn [has_prior any_child] in H. apply orb_false_iff in H. destruct H as [Hl Hr].
  destruct lexpr as [l|]; cbn [any_node opt_list] in *.
  - inversion IHl as [|? ? IHl' _]; subst.
    destruct (flatten context l) as [c1|] eqn:E1; [|discriminate]. cbn [bind] in Hf.
    destruct (IHl' Hl _ _ E1) as (P1 & R1 & N1).
    destruct rexpr as [r|]; cbn [any_node opt_list] in *.
    + inversion IHr as [|? ? IHr' _]; subst.
      destruct (IHr' Hr _ _ Hf) as (P2 & R2 & N2).
      repeat split; [congruence | auto | auto].
    + inversion Hf; subst. auto.
  - cbn [bind] in Hf.
    destruct rexpr as [r|]; cbn [any_node opt_list] in *.
    + inversion IHr as [|? ? IHr' _]; subst. exact (IHr' Hr _ _ Hf).
    + inversion Hf; subst. auto.
Qed.

Lemma buildExprUsingAnd_has_prior (l : list Node) :
  prior_free l -> any_node has_prior (buildExprUsingAnd l) = false.
Proof.
  induction 1 as [|x l Hx Hl IH]; cbn [buildExprUsingAnd]; [reflexivity|].
  destruct (buildExprUsingAnd l) as [nextExpr|]; cbn in *; [|exact Hx].
  now rewrite Hx, IH.
Qed.

(** *** What a walk over an expression does to the context

    [R] relates the context before a walk to the context after it; a walk over
    an expression of which [Q] is false keeps [R] as soon as the handling of
    such a column reference and the choice of the connect-by kind do. *)
Section WalkInvariant.

Variable R : StartWithTransformContext -> StartWithTransformContext -> Prop.
Variable Q : Node -> bool.
Hypothesis R_refl : forall c, R c c.
Hypothesis R_trans : forall c1 c2 c3, R c1 c2 -> R c2 c3 -> R c1 c3.
Hypothesis R_connect_by_type : forall c t, R c (set_connect_by_type c t).
Hypothesis Q_children :
  forall node, Q node = false -> Forall (fun c => Q c = false) (children node).
Hypothesis R_Handle :
  forall context fields prior location context' column,
    Q (ColumnRef fields prior location) = false ->
    Handle context fields prior location = Ok (context', column) ->
    R context context'.

Lemma walk_operand_keeps walker (arg : option Node) :
  Forall (keeps R Q walker) (opt_list arg) ->
  Forall (fun c => Q c = false) (opt_list arg) ->
  forall context context' arg',
    walk_operand NAMEDATALEN equal_info transformColumnRef walker context arg
    = Ok (context', arg') ->
    R context context'.
Proof.
  intros HF H context context' arg' Hw.
  destruct arg as [a|]; cbn [opt_list] in *; [|inversion Hw; subst; apply R_refl].
  inversion HF as [|? ? Ha _]; subst. inversion H as [|? ? Hq _]; subst.
  assert (Hgen :
    (do '(context, a) <- walker context a; Ok (context, Some a)) = Ok (context', arg') ->
    R context context').
  { intros Hw'. destruct (walker context a) as [[c1 a1]|] eqn:E; [|discriminate].
    inversion Hw'; subst. exact (Ha Hq _ _ _ E). }
  destruct a; try exact (Hgen Hw).
  cbn [walk_operand] in Hw.
  destruct (Handle context fields prior location) as [[c1 a1]|] eqn:E; [|discriminate].
  inversion Hw; subst. exact (R_Handle _ _ _ _ _ _ Hq E).
Qed.

Lemma walk_operands_keeps walker (l : list Node) :
  Forall (keeps R Q walker) l ->
  Forall (fun c => Q c = false) l ->
  forall context context' l',
    walk_operands walker context l = Ok (context', l') -> R context context'.
Proof.
  induction 1 as [|x l Hx Hl IH]; cbn [walk_operands]; intros H context context' l' Hw.
  - inversion Hw; subst. apply R_refl.
  - inversion H as [|? ? H1 H2]; subst.
    destruct (walker context x) as [[c1 x1]|] eqn:E1; [|discriminate]. cbn [bind] in Hw.
    destruct (walk_operands walker c1 l) as [[c2 l2]|] eqn:E2; [|discriminate].
    inversion Hw; subst.
    exact (R_trans _ _ _ (Hx H1 _ _ _ E1) (IH H2 _ _ _ E2)).
Qed.

Lemma StartWithWalker_keeps (expr : Node) : keeps R Q Walker expr.
Proof.
  induction expr as [expr IH] using Node_children_ind.
  intros H context context' expr' Hw.
  pose proof (walk_operand_keeps Walker) as Harg.
  pose proof (walk_operands_keeps Walker) as Hargs.
  assert (Hone : forall arg c c' arg',
    Forall (keeps R Q Walker) (opt_list arg) ->
    Forall (fun c => Q c = false) (opt_list arg) ->
    forall (k : option Node -> Node),
      (do '(context, arg) <-
         walk_operand NAMEDATALEN equal_info transformColumnRef Walker c arg;
       Ok (context, k arg)) = Ok (c', arg') ->
      R c c').
  { intros arg c c' arg' HF Hp k Hk.
    destruct (walk_operand _ _ _ Walker c arg) as [[c1 a1]|] eqn:E; [|discriminate].
    inversion Hk; subst. exact (Harg _ HF Hp _ _ _ E). }
  assert (Hlist : forall l c c' l',
    Forall (keeps R Q Walker) l ->
    Forall (fun c => Q c = false) l ->
    forall (k : list Node -> Node),
      (do '(context, l) <- walk_operands Walker c l; Ok (context, k l)) = Ok (c', l') ->
      R c c').
  { intros l c c' l' HF Hp k Hk.
    destruct (walk_operands Walker c l) as [[c1 a1]|] eqn:E; [|discriminate].
    inversion Hk; subst. exact (Hargs _ HF Hp _ _ _ E). }
  pose proof (Q_children _ H) as Hq.
  destruct expr; cbn [StartWithWalker] in Hw; try discriminate;
    cbn [children] in IH, Hq;
    try (inversion Hw; subst; now apply R_refl);
    try (eapply Hone; [| |exact Hw]; assumption);
    try (eapply Hlist; [| |exact Hw]; assumption).
  - exact (R_Handle _ _ _ _ _ _ H Hw).
  - destruct (GetStartWithFakeConstValue val =? _);
      [inversion Hw; subst; apply R_connect_by_type|].
    destruct (GetStartWithFakeConstValue val =? _); inversion Hw; subst;
      [apply R_connect_by_type | apply R_refl].
  - apply Forall_app in IH. destruct IH as [IHl IHr].
    apply Forall_app in Hq. destruct Hq as [Hl Hr].
    assert (Hboth :
      (do '(context, left_expr) <-
         walk_operand NAMEDATALEN equal_info transformColumnRef Walker context lexpr;
       do '(context, right_expr) <-
         walk_operand NAMEDATALEN equal_info transformColumnRef Walker context rexpr;
       Ok (context, A_Expr kind name left_expr right_expr location))
      = Ok (context', expr') ->
      R context context').
    { clear Hw. intros Hw.
      destruct (walk_operand _ _ _ Walker context lexpr) as [[c1 l1]|] eqn:E1;
        [|discriminate]. cbn [bind] in Hw.
      apply (R_trans _ c1).
      - exact (Harg _ IHl Hl _ _ _ E1).
      - exact (Hone _ _ _ _ IHr Hr _ Hw). }
    destruct kind; try discriminate; try exact (Hboth Hw).
    + destruct lexpr as [[]|]; try exact (Hboth Hw);
        try (destruct (any_level _);
             [inversion Hw; subst; apply R_connect_by_type | exact (Hboth Hw)]).
      inversion Hw; subst; apply R_connect_by_type.
    + exact (Hone _ _ _ _ IHr Hr _ Hw).
  - apply Forall_app in IH. destruct IH as [IHl IHr].
    apply Forall_app in Hq. destruct Hq as [Hl Hr].
    exact (Hone _ _ _ _ IHl Hl _ Hw).
  - apply Forall_app in IH. destruct IH as [IHl IHr].
    apply Forall_app in Hq. destruct Hq as [Hl Hr].
    exact (Hone _ _ _ _ IHl Hl _ Hw).
Qed.

Lemma StartWithWalker_opt_keeps (expr : option Node) :
  any_node Q expr = false ->
  forall context context' expr',
    Walker_opt context expr = Ok (context', expr') -> R context context'.
Proof.
  intros H context context' expr' Hw. destruct expr as [e|]; cbn in Hw, H.
  - destruct (Walker context e) as [[c1 e1]|] eqn:E; [|discriminate].
    inversion Hw; subst. exact (StartWithWalker_keeps e H _ _ _ E).
  - inversion Hw; subst. apply R_refl.
Qed.

End WalkInvariant.

(** The handling of a column reference touches the targets found and, for a
    PRIOR-marked column, the prior keys; nothing else of the context. *)
Lemma HandleSWCBColumnRef_context
    (context context' : StartWithTransformContext) (fields : list string)
    (prior : bool) (location : Z) (column : Node) :
  Handle context fields prior location = Ok (context', column) ->
  same_clause context context'
  /\ (prior = false -> same_prior_names context context').
Proof.
  unfold HandleSWCBColumnRef, same_clause, same_prior_names. intros H.
  destruct (pg_strcasecmp_eq _ _); [now inversion H|].
  destruct (preSkipPLSQLParams _ _ && negb prior); [now inversion H|].
  destruct (transformColumnRef _ _) as [[preResult|]|]; cbn [bind] in H;
    [|now inversion H|discriminate].
  destruct (list_length fields =? 1).
  - destruct (ExtractColumnRefStartInfo _ _ _ _) as [[result fields']|];
      cbn [bind] in H; [|discriminate].
    destruct prior; cbn [negb] in H.
    + destruct (list_length fields' <=? 1); [discriminate|].
      destruct (makeStartWithDummayColname _ _ _) as [dummy|]; [|discriminate].
      cbn [bind] in H.
      inversion H; subst; clear H; cbn; destruct (is_where context); cbn;
        (split; [split; reflexivity | intros Hp; discriminate Hp]).
    + inversion H; subst; clear H; cbn; destruct (is_where context); cbn;
        (split; [split; reflexivity | reflexivity]).
  - destruct (list_length fields =? 2); [|discriminate].
    destruct (ExtractColumnRefStartInfo _ _ _ _) as [[result fields']|];
      cbn [bind] in H; [|discriminate].
    destruct prior.
    + destruct (makeStartWithDummayColname _ _ _) as [dummy|]; [|discriminate].
      cbn [bind] in H.
      inversion H; subst; clear H; cbn; destruct (is_where context); cbn;
        (split; [split; reflexivity | intros Hp; discriminate Hp]).
    + inversion H; subst; clear H; cbn; destruct (is_where context); cbn;
        (split; [split; reflexivity | reflexivity]).
Qed.

Lemma StartWithWalker_opt_prior_names (expr : option Node) :
  any_node has_prior expr = false ->
  forall context context' expr',
    Walker_opt context expr = Ok (context', expr') -> same_prior_names context context'.
Proof.
  apply (StartWithWalker_opt_keeps same_prior_names has_prior); unfold same_prior_names.
  - reflexivity.
  - intros c1 c2 c3 H1 H2. congruence.
  - reflexivity.
  - exact has_prior_children.
  - intros context fields prior location context' column Hq H.
    exact (proj2 (HandleSWCBColumnRef_context _ _ _ _ _ _ H) Hq).
Qed.

Lemma StartWithWalker_opt_same_clause (expr : option Node) :
  forall context context' expr',
    Walker_opt context expr = Ok (context', expr') -> same_clause context context'.
Proof.
  apply (StartWithWalker_opt_keeps same_clause (fun _ => false)); unfold same_clause.
  - auto.
  - intros c1 c2 c3 [H1 H2] [H3 H4]. split; congruence.
  - auto.
  - intros node _. apply Forall_forall. auto.
  - intros context fields prior location context' column _ H.
    exact (proj1 (HandleSWCBColumnRef_context _ _ _ _ _ _ H)).
  - now destruct expr.
Qed.

#[local] Abbreviation clause_exprs :=
  (transform_clause_exprs NAMEDATALEN CONNECT_BY_ROWNUM_FAKEVALUE
     CONNECT_BY_LEVEL_FAKEVALUE GetStartWithFakeConstValue equal_info transformColumnRef).
#[local] Abbreviation transformClause :=
  (transformStartWithClause NAMEDATALEN CONNECT_BY_ROWNUM_FAKEVALUE
     CONNECT_BY_LEVEL_FAKEVALUE GetStartWithFakeConstValue equal_info transformColumnRef).

(** Without a PRIOR-marked column reference in either expression, the walk of
    the clause records no prior key. *)
Lemma transform_clause_exprs_prior_names
    (context context' : StartWithTransformContext)
    (whereClause' startWithExpr' connectByExpr' : option Node)
    (siblingsOrderBy' : list Node) (nocycle' : bool) :
  any_node has_prior startWithExpr' = false ->
  any_node has_prior connectByExpr' = false ->
  prior_free (rownum_or_level_list context) ->
  prior_free (normal_list context) ->
  clause_exprs context whereClause' startWithExpr' connectByExpr' siblingsOrderBy'
    nocycle' = Ok context' ->
  connectby_prior_name context' = connectby_prior_name context.
Proof.
  intros Hsw Hcb Hrl Hnl. unfold transform_clause_exprs. intros H.
  destruct (checkConnectByExprValidity _ _ _) as [[]|]; [|discriminate]. cbn [bind] in H.
  set (c0 := set_relInfoList _ _) in H.
  assert (Hc0 : connectby_prior_name c0 = connectby_prior_name context) by reflexivity.
  assert (Hrl0 : prior_free (rownum_or_level_list c0)) by exact Hrl.
  assert (Hnl0 : prior_free (normal_list c0)) by exact Hnl.
  clearbody c0.
  destruct (match option_map _ connectByExpr' with
            | Some e => flatten c0 e
            | None => Ok c0
            end) as [c1|] eqn:E1; [|discriminate]. cbn [bind] in H.
  assert (Hc1 : connectby_prior_name c1 = connectby_prior_name context
                /\ prior_free (rownum_or_level_list c1) /\ prior_free (normal_list c1)).
  { destruct connectByExpr' as [cb|]; cbn [option_map any_node] in *.
    - destruct (flattenConnectByExpr_has_prior _
                  (replace_pseudo_columns_has_prior cb Hcb) _ _ E1) as (P & R & N).
      repeat split; [congruence | auto | auto].
    - inversion E1; subst. auto. }
  destruct Hc1 as (Hc1 & Hrl1 & Hnl1).
  set (c2 := set_connectByExpr _ _) in H.
  assert (Hc2 : connectby_prior_name c2 = connectby_prior_name context) by exact Hc1.
  assert (Hlevel : any_node has_prior (connectByLevelExpr c2) = false)
    by exact (buildExprUsingAnd_has_prior _ Hrl1).
  assert (Hother : any_node has_prior (connectByExpr c2) = false)
    by exact (buildExprUsingAnd_has_prior _ Hnl1).
  clearbody c2.
  destruct (Walker_opt c2 startWithExpr') as [[c3 sw3]|] eqn:E3; [|discriminate].
  cbn [bind] in H.
  pose proof (StartWithWalker_opt_prior_names _ Hsw _ _ _ E3) as Hc3.
  destruct (StartWithWalker_opt_same_clause _ _ _ _ E3) as [Hl3 Ho3].
  change (connectByLevelExpr (set_startWithExpr c3 sw3)) with (connectByLevelExpr c3) in H.
  rewrite Hl3 in H.
  destruct (Walker_opt (set_startWithExpr c3 sw3) (connectByLevelExpr c2))
    as [[c4 l4]|] eqn:E4; [|discriminate].
  cbn [bind] in H.
  pose proof (StartWithWalker_opt_prior_names _ Hlevel _ _ _ E4) as Hc4.
  destruct (StartWithWalker_opt_same_clause _ _ _ _ E4) as [Hl4 Ho4].
  change (connectByExpr (set_connectByLevelExpr c4 l4)) with (connectByExpr c4) in H.
  rewrite Ho4 in H.
  change (connectByExpr (set_startWithExpr c3 sw3)) with (connectByExpr c3) in H.
  rewrite Ho3 in H.
  destruct (Walker_opt (set_connectByLevelExpr c4 l4) (connectByExpr c2))
    as [[c5 o5]|] eqn:E5; [|discriminate].
  cbn [bind] in H.
  pose proof (StartWithWalker_opt_prior_names _ Hother _ _ _ E5) as Hc5.
  unfold same_prior_names in *. cbn in Hc4, Hc5.
  inversion H; subst.
  destruct (negb _); cbn; congruence.
Qed.

(** C8 (amended).  When the statement has a START WITH expression and neither
    that expression nor the CONNECT BY expression holds a PRIOR-marked column
    reference, [transformStartWithClause] always raises: the error of a
    forbidden FROM item, an error that the walk of the two expressions raises,
    and otherwise "START WITH CONNECT BY must have at least one prior key". *)
Theorem start_with_without_prior_is_rejected
    (context : StartWithTransformContext) (targetList fromClause' : list Node)
    (whereClause' withClause : option Node) (startWithExpr' : Node)
    (connectByExpr' : option Node) (siblingsOrderBy' : list Node) (nocycle' : bool)
    (op : SetOperation) (all : bool) (larg rarg : option Node) :
  connectby_prior_name context = [] ->
  rownum_or_level_list context = [] ->
  normal_list context = [] ->
  has_prior startWithExpr' = false ->
  any_node has_prior connectByExpr' = false ->
  transformClause context
    (Some (SelectStmt targetList fromClause' whereClause' withClause
             (Some (StartWithClause (Some startWithExpr') connectByExpr'
                      siblingsOrderBy' nocycle'))
             op all larg rarg))
  = if isForbiddenClausesPresent fromClause' then Error err_forbidden_clause
    else match clause_exprs context whereClause' (Some startWithExpr') connectByExpr'
                 siblingsOrderBy' nocycle' with
         | Ok _ => Error err_no_prior_key
         | Error e => Error e
         end.
Proof.
  intros Hnames Hrl Hnl Hsw Hcb. unfold transformStartWithClause.
  destruct (isForbiddenClausesPresent fromClause'); [reflexivity|].
  destruct (clause_exprs _ _ _ _ _ _) as [context'|] eqn:E; [|reflexivity].
  cbn [bind isSome andb].
  assert (Hp : connectby_prior_name context' = connectby_prior_name context).
  { apply (transform_clause_exprs_prior_names context context' whereClause'
             (Some startWithExpr') connectByExpr' siblingsOrderBy' nocycle' Hsw Hcb);
      [rewrite Hrl; constructor | rewrite Hnl; constructor | exact E]. }
  now rewrite Hp, Hnames.
Qed.

(** Without a START WITH expression the last check of
    [transformStartWithClause] never raises. *)
Lemma connect_by_alone_skips_prior_check
    (context : StartWithTransformContext) (targetList fromClause' : list Node)
    (whereClause' withClause connectByExpr' : option Node)
    (siblingsOrderBy' : list Node) (nocycle' : bool)
    (op : SetOperation) (all : bool) (larg rarg : option Node) :
  transformClause context
    (Some (SelectStmt targetList fromClause' whereClause' withClause
             (Some (StartWithClause None connectByExpr' siblingsOrderBy' nocycle'))
             op all larg rarg))
  = if isForbiddenClausesPresent fromClause' then Error err_forbidden_clause
    else clause_exprs context whereClause' None connectByExpr' siblingsOrderBy' nocycle'.
Proof.
  unfold transformStartWithClause.
  destruct (isForbiddenClausesPresent fromClause'); [reflexivity|].
  now destruct (clause_exprs _ _ _ _ _ _).
Qed.

(** *** The join quals of a pushed-down WHERE clause *)

(** On an operator expression that it visits, the walker follows the rule of
    the column count. *)
Lemma walker_to_exclude_non_join_quals_operator
    (name : list string) (lexpr rexpr : option Node) (location : Z) :
  exclude (A_Expr AEXPR_OP name lexpr rexpr location)
  = if raw_expression_tree_walker count_columnref_walker
         (A_Expr AEXPR_OP name lexpr rexpr location) 0 <=? 1
    then A_Expr AEXPR_OR name (Some (makeBoolAConst true (-1)))
           (Some (makeBoolAConst true (-1))) location
    else A_Expr AEXPR_OP name lexpr rexpr location.
Proof. reflexivity. Qed.

(** The WHERE clause is handed to [raw_expression_tree_walker], which visits
    what is below its root: an operator expression at the root stays an
    operator expression. *)
Lemma pushed_where_root_operator
    (name : list string) (lexpr rexpr : option Node) (location : Z) :
  raw_expression_tree_update exclude (A_Expr AEXPR_OP name lexpr rexpr location)
  = A_Expr AEXPR_OP name (option_map exclude lexpr) (option_map exclude rexpr) location.
Proof. reflexivity. Qed.

(** C9 (the code departs from the rule).  A WHERE clause that is one operator
    expression over a single column, [column op constant], holds one column
    reference; the walker would turn it into [TRUE OR TRUE], but the traversal
    that pushes the clause down never visits the root and leaves the filter as
    it is. *)
Theorem where_root_operator_is_pushed_unfiltered
    (name fields : list string) (prior : bool) (location : Z) (val : Value)
    (const_location op_location : Z) :
  let filter :=
    A_Expr AEXPR_OP name (Some (ColumnRef fields prior location))
      (Some (A_Const val const_location)) op_location in
  raw_expression_tree_walker count_columnref_walker filter 0 = 1
  /\ exclude filter
     = A_Expr AEXPR_OR name (Some (makeBoolAConst true (-1)))
         (Some (makeBoolAConst true (-1))) op_location
  /\ raw_expression_tree_update exclude filter = filter.
Proof. repeat split. Qed.

(** Below an AND at the root the same filter is replaced. *)
Lemma where_conjunct_below_root_is_filtered
    (name fields : list string) (prior : bool) (location : Z) (val : Value)
    (const_location op_location and_location : Z) (join_qual : Node) :
  let filter :=
    A_Expr AEXPR_OP name (Some (ColumnRef fields prior location))
      (Some (A_Const val const_location)) op_location in
  raw_expression_tree_update exclude
    (A_Expr AEXPR_AND [] (Some join_qual) (Some filter) and_location)
  = A_Expr AEXPR_AND [] (Some (exclude join_qual))
      (Some (A_Expr AEXPR_OR name (Some (makeBoolAConst true (-1)))
               (Some (makeBoolAConst true (-1))) op_location))
      and_location.
Proof. reflexivity. Qed.

Lemma walker_to_exclude_non_join_quals_mentions (name : string) (node : Node) :
  mentions_table name (makeBoolAConst true (-1)) = false ->
  mentions_table name node = false ->
  mentions_table name (exclude node) = false.
Proof.
  intros Hb. induction node as [node IH] using Node_children_ind. intros H.
  assert (Hup : mentions_table name (raw_expression_tree_update exclude node) = false)
    by (apply mentions_table_update; auto).
  destruct node; try exact Hup.
  destruct kind; try exact Hup.
  cbn [walker_to_exclude_non_join_quals].
  destruct (_ <=? 1); [|exact H].
  cbn. now rewrite Hb.
Qed.

Lemma pushed_where_mentions (name : string) (whereClause : option Node) :
  mentions_table name (makeBoolAConst true (-1)) = false ->
  any_node (mentions_table name) whereClause = false ->
  any_node (mentions_table name)
    (option_map (raw_expression_tree_update exclude) whereClause) = false.
Proof.
  intros Hb H. destruct whereClause as [w|]; cbn in *; [|reflexivity].
  apply mentions_table_update; auto.
  apply Forall_forall. intros c _. now apply walker_to_exclude_non_join_quals_mentions.
Qed.

(** *** The two branches *)

Lemma fold_left_res_invariant {A B : Type} (P : A -> Prop)
    (f : res A -> B -> res A) (l : list B) :
  (forall acc b a', (forall a, acc = Ok a -> P a) -> f acc b = Ok a' -> P a') ->
  forall acc a', (forall a, acc = Ok a -> P a) -> fold_left f l acc = Ok a' -> P a'.
Proof.
  intros Hf. induction l as [|b l IH]; cbn [fold_left]; intros acc a' Hacc H.
  - auto.
  - apply (IH (f acc b)); auto. intros a Ha. exact (Hf _ _ _ Hacc Ha).
Qed.

Lemma fold_left_res_invariant_in {A B : Type} (P : A -> Prop)
    (f : res A -> B -> res A) (l : list B) :
  (forall acc b a', In b l -> (forall a, acc = Ok a -> P a) -> f acc b = Ok a' -> P a') ->
  forall acc a', (forall a, acc = Ok a -> P a) -> fold_left f l acc = Ok a' -> P a'.
Proof.
  induction l as [|b l IH]; cbn [fold_left]; intros Hf acc a' Hacc H.
  - auto.
  - apply (IH (fun acc0 b0 a0 Hin => Hf acc0 b0 a0 (or_intror Hin)) (f acc b)); auto.
    intros a Ha. exact (Hf _ _ _ (or_introl eq_refl) Hacc Ha).
Qed.

Lemma named_names (name : string) (info : StartWithTargetRelInfo) :
  named name info = false ->
  String.eqb (strVal (aliasname info)) name = false
  /\ String.eqb (strVal (relname info)) name = false.
Proof. unfold named. intros H. now apply orb_false_iff in H. Qed.

Lemma expandAllTargetList_mentions (name : string)
    (relInfoList : list StartWithTargetRelInfo) (targets : list Node) :
  String.eqb "" name = false ->
  existsb (named name) relInfoList = false ->
  expandAllTargetList NAMEDATALEN relInfoList = Ok targets ->
  existsb (mentions_table name) targets = false.
Proof.
  intros Hempty Hnames. unfold expandAllTargetList.
  apply (fold_left_res_invariant_in
           (fun tl => existsb (mentions_table name) tl = false)).
  - intros acc info a' Hin Hacc.
    destruct acc as [targetlist|]; cbn [bind]; [|discriminate].
    assert (Hinfo : named name info = false).
    { apply existsb_false_Forall in Hnames. rewrite Forall_forall in Hnames. auto. }
    destruct (named_names _ _ Hinfo) as [Halias Hrel].
    apply (fold_left_res_invariant
             (fun tl => existsb (mentions_table name) tl = false)).
    + intros acc colname a'' Hacc'.
      destruct acc as [tl|]; cbn [bind]; [|discriminate].
      destruct (strlen colname =? 0); [intros H; inversion H; subst; auto|].
      destruct (makeStartWithDummayColname _ _ _); cbn [bind]; [|discriminate].
      intros H; inversion H; subst. rewrite existsb_app, (Hacc' _ eq_refl).
      cbn [existsb mentions_table any_child any_node hd orb].
      rewrite orb_false_r.
      destruct (rtekind info); try exact Hempty; try exact Halias;
        destruct (aliasname info); try exact Halias; exact Hrel.
    + intros a Ha. inversion Ha; subst. auto.
  - intros a Ha. inversion Ha; subst. reflexivity.
Qed.

Lemma AddWithClauseToBranch_mentions (name : string) (pstate : ParseState)
    (relInfoList : list StartWithTargetRelInfo) :
  any_node (mentions_table name) (origin_with pstate) = false ->
  any_node (mentions_table name) (snd (AddWithClauseToBranch pstate relInfoList)) = false.
Proof.
  unfold AddWithClauseToBranch. destruct (origin_with pstate) as [clause|]; [|reflexivity].
  cbn [any_node]. intros H.
  assert (Hctes : existsb (mentions_table name) (with_ctes clause) = false).
  { destruct clause; try reflexivity. exact H. }
  assert (Hfold : forall l st,
    existsb (mentions_table name) (snd st) = false ->
    existsb (mentions_table name)
      (snd (fold_left
              (fun (st : ParseState * list Node) (info : StartWithTargetRelInfo) =>
                 let '(pstate, ctes) := st in
                 match rtekind info with
                 | RTE_CTE =>
                     (set_p_ctenamespace pstate
                        (delete_cte (strVal (relname info)) (p_ctenamespace pstate)),
                      ctes ++ with_ctes clause)
                 | _ => st
                 end) l st)) = false).
  { induction l as [|info l IH]; cbn [fold_left]; intros [ps ctes] Hst; [exact Hst|].
    apply IH. destruct (rtekind info); try exact Hst.
    cbn [snd] in *. now rewrite existsb_app, Hst, Hctes. }
  specialize (Hfold relInfoList (pstate, []) eq_refl).
  destruct (fold_left _ relInfoList (pstate, [])) as [ps ctes]. cbn [snd] in Hfold.
  destruct ctes; [reflexivity|]. exact Hfold.
Qed.

Lemma origin_table_of_single (context : StartWithTransformContext)
    (info : StartWithTargetRelInfo) (whereClause : option Node) :
  origin_table_of makeBoolAConst context [info] whereClause = Ok (Some (tblstmt info)).
Proof. reflexivity. Qed.

End StartWithFacts.

(** *** The worked statement *)

Section StartWithExampleFacts.
Import StartWith StartWithExamples.

(** [SELECT * FROM t START WITH id = 1 CONNECT BY id = parent_id], which has
    no PRIOR, is rejected for the missing prior key. *)
Lemma start_with_without_prior_is_rejected_witness :
  let stmt := example_select (Some example_start_with) (Some (example_connect_by false)) in
  example_transformStartWithClause (initial_context (example_pstate stmt)) (Some stmt)
  = Error err_no_prior_key.
Proof.
  cbv zeta. etransitivity.
  - apply (start_with_without_prior_is_rejected 64 (-2) (-1)
             example_GetStartWithFakeConstValue (fun _ _ => true)
             example_transformColumnRef
             (initial_context
                (example_pstate
                   (example_select (Some example_start_with)
                      (Some (example_connect_by false)))))
             [ResTarget None (Some (ColumnRef ["*"] false 7)) 7] [example_table] None None
             example_start_with (Some (example_connect_by false)) [] false SETOP_NONE
             false None None); reflexivity.
  - vm_compute. reflexivity.
Defined.

(** C8, the claim as stated fails.  No PRIOR-marked column reference appears
    in the CONNECT BY expression of any of these statements, and none is
    rejected for the missing prior key:
    - [SELECT * FROM t CONNECT BY level < 3], which has no START WITH
      expression, is analysed without an error;
    - so is [SELECT * FROM t START WITH PRIOR id = 1 CONNECT BY id = parent_id],
      whose prior key comes from the START WITH expression;
    - [SELECT * FROM t START WITH id = 1 CONNECT BY rownum] is rejected before
      the check, for the pseudo column that stands alone. *)
Lemma connect_by_without_prior_is_not_rejected_for_it :
  (let stmt := example_select None (Some example_level_below_3) in
   has_prior example_level_below_3 = false
   /\ match example_transformStartWithClause (initial_context (example_pstate stmt))
              (Some stmt) with
      | Ok context =>
          connectby_prior_name context = []
          /\ connect_by_type context = CONNECT_BY_LEVEL
      | Error _ => False
      end)
  /\ (let stmt :=
        example_select
          (Some (example_equals (ColumnRef ["id"] true 27) (A_Const (T_Integer 1) 32)))
          (Some (example_connect_by false)) in
      has_prior (example_connect_by false) = false
      /\ match example_transformStartWithClause (initial_context (example_pstate stmt))
                 (Some stmt) with
         | Ok context => connectby_prior_name context = ["t@id"]
         | Error _ => False
         end)
  /\ (let stmt := example_select (Some example_start_with) (Some Rownum) in
      has_prior Rownum = false
      /\ example_transformStartWithClause (initial_context (example_pstate stmt))
           (Some stmt) = Error err_invalid_connect_by).
Proof. vm_compute. repeat split. Qed.

(** In both branches built for [SELECT * FROM t1, t2 WHERE t1.a = 1 START WITH
    t1.id = 1 CONNECT BY PRIOR t1.id = t1.parent_id] the filter [t1.a = 1],
    which holds one column reference, is still there. *)
Lemma single_filter_reaches_both_branches :
  let context := example_two_tables in
  match CreateStartWithCTEOuterBranch 64 example_makeBoolAConst (pstate context) context
          (relInfoList context) (startWithExpr context) (whereClause context) with
  | Ok (_, seed) =>
      select_whereClause seed
      = Some (A_Expr AEXPR_AND [] (Some example_filter) (startWithExpr context) (-1))
  | Error _ => False
  end
  /\ origin_table_of example_makeBoolAConst context (relInfoList context)
       (whereClause context)
     = Ok (Some (JoinExpr JOIN_INNER false (Some (example_from_item "t1"))
                   (Some (example_from_item "t2")) []
                   (Some (A_Expr AEXPR_AND [] (Some example_filter)
                            (Some (example_makeBoolAConst true (-1))) (-1))))).
Proof. vm_compute. split; reflexivity. Qed.

End StartWithExampleFacts.

(** * Facts on the further parts *)

(** ** Range table positions and CTE scopes *)

Section CteFacts.
Import Cte.

Variable same_rte : RangeTblEntry -> RangeTblEntry -> bool.

Lemma ParseState_chain_ind (P : ParseState -> Prop) :
  (forall rtable ctes future, P (mkParseState rtable ctes future None)) ->
  (forall rtable ctes future parent,
      P parent -> P (mkParseState rtable ctes future (Some parent))) ->
  forall pstate, P pstate.
Proof.
  intros Hroot Hstep. fix IH 1.
  intros [rtable ctes future [parent|]]; [apply Hstep, IH | apply Hroot].
Qed.

Lemma depth_pos (pstate : ParseState) : 1 <= depth pstate.
Proof.
  induction pstate using ParseState_chain_ind; cbn [depth parentParseState]; lia.
Qed.

Lemma rtable_posn_nth (rte : RangeTblEntry) (rtable : list RangeTblEntry) :
  forall index0 index,
    rtable_posn same_rte rte rtable index0 = Some index ->
    index0 <= index < index0 + list_length rtable
    /\ exists r, nth_error rtable (Z.to_nat (index - index0)) = Some r
                 /\ same_rte rte r = true.
Proof.
  unfold list_length.
  induction rtable as [|x rest IH]; intros index0 index H; cbn in H.
  - discriminate.
  - destruct (same_rte rte x) eqn:E.
    + inversion H; subst. split; [cbn [length]; lia|].
      exists x. rewrite Z.sub_diag. cbn. auto.
    + apply IH in H. destruct H as [Hr [r [Hn Hs]]].
      split; [cbn [length]; lia|].
      exists r. split; [|exact Hs].
      replace (Z.to_nat (index - index0)) with (S (Z.to_nat (index - (index0 + 1))))
        by lia.
      exact Hn.
Qed.

Lemma levels_up_0 (pstate : ParseState) : levels_up pstate 0 = Ok pstate.
Proof. destruct pstate; reflexivity. Qed.

Lemma levels_up_S (rtable : list RangeTblEntry) (ctes future : list StartWith.Node)
    (parent : ParseState) (k : Z) :
  0 <= k ->
  levels_up (mkParseState rtable ctes future (Some parent)) (k + 1) = levels_up parent k.
Proof.
  intros Hk. cbn [levels_up parentParseState].
  destruct (k + 1 >? 0) eqn:E; [|lia].
  now replace (k + 1 - 1) with k by lia.
Qed.

Lemma posn_walk_levels (rte : RangeTblEntry) (pstate : ParseState) :
  forall n index m,
    posn_walk same_rte pstate rte (Some n) = Ok (index, m) ->
    exists k scope,
      m = Some (n + k) /\ 0 <= k
      /\ levels_up pstate k = Ok scope
      /\ rtable_posn same_rte rte (p_rtable scope) 1 = Some index.
Proof.
  induction pstate as [rtable ctes future|rtable ctes future parent IH]
    using ParseState_chain_ind; intros n index m H; cbn [posn_walk p_rtable] in H.
  - destruct (rtable_posn same_rte rte rtable 1) as [i|] eqn:E.
    + inversion H; subst. exists 0, (mkParseState rtable ctes future None).
      rewrite Z.add_0_r. repeat split; [lia|exact E].
    + cbn in H. discriminate.
  - destruct (rtable_posn same_rte rte rtable 1) as [i|] eqn:E.
    + inversion H; subst. exists 0, (mkParseState rtable ctes future (Some parent)).
      rewrite Z.add_0_r. repeat split; [lia|exact E].
    + cbn [parentParseState] in H. apply IH in H.
      destruct H as (k & scope & Hm & Hk & Hup & Hpos).
      exists (k + 1), scope. rewrite levels_up_S by exact Hk.
      repeat split; [rewrite Hm; f_equal; lia|lia|exact Hup|exact Hpos].
Qed.

(** X1.  GetRTEByRangeTablePosn is the inverse of RTERangeTablePosn: the
    position and nesting depth that RTERangeTablePosn returns for an entry
    lead GetRTEByRangeTablePosn back to that entry (the same pointer), the
    position counts from 1, and the depth is not negative. *)
Theorem position_of_entry_leads_back_to_it
    (pstate : ParseState) (rte : RangeTblEntry) (want_sublevels_up : bool)
    (index : Z) (sublevels_up : option Z) :
  RTERangeTablePosn same_rte pstate rte want_sublevels_up = Ok (index, sublevels_up) ->
  1 <= index /\ 0 <= reported_level sublevels_up
  /\ exists r,
       GetRTEByRangeTablePosn pstate index (reported_level sublevels_up) = Ok r
       /\ same_rte rte r = true.
Proof.
  unfold RTERangeTablePosn. intros H.
  assert (Hfetch : forall scope,
             rtable_posn same_rte rte (p_rtable scope) 1 = Some index ->
             1 <= index
             /\ exists r,
                  (do _ <- AssertEreport
                             ((index >? 0) && (index <=? list_length (p_rtable scope))) "";
                   match rt_fetch index (p_rtable scope) with
                   | Some rte => Ok rte
                   | None => Error (ereport ERRCODE_ASSERT_FAILED "")
                   end) = Ok r
                  /\ same_rte rte r = true).
  { intros scope Hpos. apply rtable_posn_nth in Hpos.
    destruct Hpos as [Hr [r [Hn Hs]]]. split; [lia|]. exists r.
    unfold AssertEreport, rt_fetch.
    replace (index >? 0) with true by lia.
    replace (index <=? list_length (p_rtable scope)) with true by lia.
    cbn [andb bind]. rewrite Hn. auto. }
  destruct want_sublevels_up.
  - apply posn_walk_levels in H. destruct H as (k & scope & Hm & Hk & Hup & Hpos).
    subst sublevels_up. cbn [reported_level]. rewrite Z.add_0_l.
    destruct (Hfetch scope Hpos) as [Hi [r [Hget Hs]]].
    split; [exact Hi|]. split; [exact Hk|]. exists r. split; [|exact Hs].
    unfold GetRTEByRangeTablePosn. rewrite Hup. exact Hget.
  - destruct pstate as [rtable ctes future parent]. cbn [posn_walk p_rtable] in H.
    destruct (rtable_posn same_rte rte rtable 1) as [i|] eqn:E; [|discriminate].
    inversion H; subst. cbn [reported_level].
    destruct (Hfetch (mkParseState rtable ctes future parent) E) as [Hi [r [Hget Hs]]].
    split; [exact Hi|]. split; [lia|]. exists r. split; [|exact Hs].
    unfold GetRTEByRangeTablePosn. rewrite levels_up_0. exact Hget.
Qed.

Lemma find_cte_name (refname : string) (ctes : list StartWith.Node)
    (cte : StartWith.Node) :
  find_cte refname ctes = Some cte -> StartWith.cte_name cte = refname.
Proof.
  unfold find_cte. intros H. apply find_some in H. now apply String.eqb_eq.
Qed.

Lemma cte_scope_0 (pstate : ParseState) (name : string) :
  cte_scope pstate 0 name = Ok pstate.
Proof. destruct pstate; reflexivity. Qed.

Lemma cte_scope_S (rtable : list RangeTblEntry) (ctes future : list StartWith.Node)
    (parent : ParseState) (k : Z) (name : string) :
  0 <= k ->
  cte_scope (mkParseState rtable ctes future (Some parent)) (k + 1) name
  = cte_scope parent k name.
Proof.
  intros Hk. cbn [cte_scope parentParseState].
  destruct (k + 1 >? 0) eqn:E; [|lia].
  now replace (k + 1 - 1) with k by lia.
Qed.

Lemma scan_cte_scopes_levels (refname name : string) (pstate : ParseState) :
  forall n cte lv,
    0 <= n -> n + depth pstate <= 2 ^ 32 ->
    scan_cte_scopes pstate refname n = Some (cte, lv) ->
    exists k scope,
      lv = n + k /\ 0 <= k < depth pstate
      /\ cte_scope pstate k name = Ok scope
      /\ find_cte refname (p_ctenamespace scope) = Some cte.
Proof.
  induction pstate as [rtable ctes future|rtable ctes future parent IH]
    using ParseState_chain_ind; intros n cte lv Hn Hd H;
    cbn [scan_cte_scopes p_ctenamespace parentParseState] in H.
  - destruct (find_cte refname ctes) as [c|] eqn:E; [|discriminate].
    inversion H; subst. exists 0, (mkParseState rtable ctes future None).
    cbn [depth parentParseState]. repeat split; try lia. exact E.
  - pose proof (depth_pos parent) as Hp.
    cbn [depth parentParseState] in Hd |- *.
    destruct (find_cte refname ctes) as [c|] eqn:E.
    + inversion H; subst. exists 0, (mkParseState rtable ctes future (Some parent)).
      repeat split; try lia. exact E.
    + unfold uint32_wrap in H. rewrite Z.mod_small in H by lia.
      apply IH in H; [|lia|lia].
      destruct H as (k & scope & Hlv & Hk & Hup & Hfind).
      exists (k + 1), scope. rewrite cte_scope_S by lia.
      repeat split; try lia; assumption.
Qed.

Lemma levels_up_cte_scope (name : string) (inner : ParseState) :
  forall k j pstate scope,
    0 <= k -> 0 <= j ->
    levels_up inner k = Ok pstate ->
    cte_scope pstate j name = Ok scope ->
    cte_scope inner (k + j) name = Ok scope /\ depth inner = k + depth pstate.
Proof.
  induction inner as [rtable ctes future|rtable ctes future parent IH]
    using ParseState_chain_ind; intros k j pstate scope Hk Hj Hup Hs.
  - cbn [levels_up parentParseState] in Hup.
    destruct (k >? 0) eqn:E; [discriminate|].
    inversion Hup; subst. assert (k = 0) by lia. subst k.
    rewrite Z.add_0_l. auto.
  - destruct (Z.eq_dec k 0) as [->|Hne].
    + rewrite levels_up_0 in Hup. inversion Hup; subst. rewrite Z.add_0_l. auto.
    + replace k with ((k - 1) + 1) in Hup by lia.
      rewrite levels_up_S in Hup by lia.
      destruct (IH (k - 1) j pstate scope ltac:(lia) Hj Hup Hs) as [Hc Hd].
      replace (k + j) with ((k - 1 + j) + 1) by lia.
      rewrite cte_scope_S by lia. split; [exact Hc|].
      cbn [depth parentParseState]. lia.
Qed.

(** X2.  A CTE reference resolves to the CTE it was made for: when
    scanNameSpaceForCTE finds a CTE under a name, with its levels-up count,
    in some scope, then for an entry of kind RTE_CTE that carries that name
    and that count, GetCTEForRTE called from a scope [rtelevelsup] levels
    further in returns that same CTE, whose name is the one looked up.  The
    scope chain is shorter than the range of the unsigned counter. *)
Theorem cte_reference_resolves_to_scanned_cte
    (inner pstate : ParseState) (rtelevelsup : Z) (refname : string)
    (cte : StartWith.Node) (levelsup : Z) (rte : RangeTblEntry) :
  scanNameSpaceForCTE pstate refname = Some (cte, levelsup) ->
  0 <= rtelevelsup ->
  levels_up inner rtelevelsup = Ok pstate ->
  depth inner <= 2 ^ 32 ->
  rtekind rte = RTE_CTE -> ctename rte = refname -> ctelevelsup rte = levelsup ->
  GetCTEForRTE same_rte inner rte rtelevelsup = Ok cte
  /\ StartWith.cte_name cte = refname.
Proof.
  intros Hscan Hk Hup Hd Hkind Hname Hlv.
  unfold scanNameSpaceForCTE in Hscan.
  pose proof (depth_pos pstate) as Hp.
  assert (Hdp : depth pstate <= 2 ^ 32).
  { destruct (levels_up_cte_scope refname inner rtelevelsup 0 pstate pstate Hk
                ltac:(lia) Hup (cte_scope_0 pstate refname)) as [_ Hdi]. lia. }
  apply (scan_cte_scopes_levels refname refname) in Hscan; [|lia|lia].
  destruct Hscan as (k & scope & Hl & Hkr & Hs & Hfind).
  destruct (levels_up_cte_scope refname inner rtelevelsup k pstate scope Hk
              ltac:(lia) Hup Hs) as [Hc Hdi].
  split; [|exact (find_cte_name _ _ _ Hfind)].
  unfold GetCTEForRTE.
  replace (rtelevelsup <? 0) with false by lia. cbn [bind].
  rewrite Hkind. cbn [RTEKind_eqb AssertEreport bind].
  rewrite Hlv, Hl, Z.add_0_l, Hname.
  unfold uint32_wrap. rewrite Z.mod_small by lia.
  rewrite (Z.add_comm k rtelevelsup), Hc. cbn [bind]. now rewrite Hfind.
Qed.

End CteFacts.

Section CteExampleFacts.
Import Cte CteExamples.

Lemma position_of_entry_leads_back_to_it_witness :
  1 <= 2 /\ 0 <= 1
  /\ exists r, GetRTEByRangeTablePosn example_inner 2 1 = Ok r
               /\ example_same_rte example_rte_w r = true.
Proof.
  apply (position_of_entry_leads_back_to_it example_same_rte example_inner
           example_rte_w true 2 (Some 1)).
  vm_compute. reflexivity.
Defined.

Lemma cte_reference_resolves_to_scanned_cte_witness :
  GetCTEForRTE example_same_rte example_inner example_rte_w 1 = Ok example_cte
  /\ StartWith.cte_name example_cte = "w".
Proof.
  apply (cte_reference_resolves_to_scanned_cte example_same_rte example_inner
           example_middle 1 "w" example_cte 1 example_rte_w).
  - vm_compute. reflexivity.
  - lia.
  - vm_compute. reflexivity.
  - vm_compute. intros H. discriminate H.
  - reflexivity.
  - reflexivity.
  - reflexivity.
Defined.

End CteExampleFacts.

(** ** Conflicts between two name spaces *)

Section NameSpaceFacts.
Import Rel NameSpace.

Lemma check_against_outcome (rte1 : RangeTblEntry) (namespace2 : list ParseNamespaceItem) :
  match check_against rte1 namespace2 with
  | Ok _ => forall b, In b namespace2 -> conflict rte1 (p_rte b) = false
  | Error e =>
      e = err_duplicate_alias (aliasname (eref rte1))
      /\ exists b, In b namespace2 /\ conflict rte1 (p_rte b) = true
  end.
Proof.
  induction namespace2 as [|b rest IH]; cbn [check_against].
  - intros b [].
  - unfold conflict at 1 2. rewrite (String.eqb_sym (aliasname (eref (p_rte b)))).
    destruct (String.eqb (aliasname (eref rte1)) (aliasname (eref (p_rte b)))) eqn:En;
      cbn [negb andb].
    + destruct (is_unaliased_relation rte1 && is_unaliased_relation (p_rte b)
                && negb (relid rte1 =? relid (p_rte b))) eqn:Ex.
      * destruct (check_against rte1 rest).
        -- intros b' [<-|Hin]; [|now apply IH].
           unfold conflict. now rewrite En, Ex.
        -- destruct IH as [He [b' [Hin Hc]]]. split; [exact He|].
           exists b'. split; [now right|exact Hc].
      * split; [reflexivity|]. exists b. split; [now left|].
        unfold conflict. now rewrite En, Ex.
    + destruct (check_against rte1 rest).
      * intros b' [<-|Hin]; [|now apply IH].
        unfold conflict. now rewrite En.
      * destruct IH as [He [b' [Hin Hc]]]. split; [exact He|].
        exists b'. split; [now right|exact Hc].
Qed.

Lemma checkNameSpaceConflicts_outcome (namespace1 namespace2 : list ParseNamespaceItem) :
  match checkNameSpaceConflicts namespace1 namespace2 with
  | Ok _ =>
      forall a b, In a namespace1 -> In b namespace2 ->
                  conflict (p_rte a) (p_rte b) = false
  | Error e =>
      exists a b, In a namespace1 /\ In b namespace2
                  /\ conflict (p_rte a) (p_rte b) = true
                  /\ e = err_duplicate_alias (aliasname (eref (p_rte a)))
  end.
Proof.
  induction namespace1 as [|a rest IH]; cbn [checkNameSpaceConflicts].
  - intros a b [].
  - pose proof (check_against_outcome (p_rte a) namespace2) as Ha.
    destruct (check_against (p_rte a) namespace2) as [[]|e]; cbn [bind].
    + destruct (checkNameSpaceConflicts rest namespace2).
      * intros a' b [<-|Hin] Hb; [now apply Ha|now apply IH].
      * destruct IH as (a' & b & Hina & Hinb & Hc & He).
        exists a', b. repeat split; auto. now right.
    + destruct Ha as [He [b [Hin Hc]]]. exists a, b. repeat split; auto. now left.
Qed.

Lemma conflict_sym (rte1 rte2 : RangeTblEntry) :
  conflict rte1 rte2 = conflict rte2 rte1.
Proof.
  unfold conflict. rewrite (String.eqb_sym (aliasname (eref rte1))).
  rewrite (Z.eqb_sym (relid rte1)).
  now rewrite (andb_comm (is_unaliased_relation rte1)).
Qed.

(** X3.  checkNameSpaceConflicts accepts two name spaces exactly when no
    entry of the first and entry of the second carry the same name, except
    for two plain relations without alias and of different OIDs; when it
    raises, the error is the duplicate-alias error naming an entry of the
    first name space that has such a partner in the second. *)
Theorem name_space_conflict_is_a_shared_name
    (namespace1 namespace2 : list ParseNamespaceItem) :
  (checkNameSpaceConflicts namespace1 namespace2 = Ok tt
   <-> forall a b, In a namespace1 -> In b namespace2 ->
                   conflict (p_rte a) (p_rte b) = false)
  /\ (forall e, checkNameSpaceConflicts namespace1 namespace2 = Error e ->
        errcode e = ERRCODE_DUPLICATE_ALIAS
        /\ exists a b, In a namespace1 /\ In b namespace2
             /\ String.eqb (aliasname (eref (p_rte a))) (aliasname (eref (p_rte b))) = true
             /\ errargs e = [aliasname (eref (p_rte a))]).
Proof.
  pose proof (checkNameSpaceConflicts_outcome namespace1 namespace2) as H.
  destruct (checkNameSpaceConflicts namespace1 namespace2) as [[]|e].
  - split; [split; auto|]. intros e He. discriminate.
  - destruct H as (a & b & Ha & Hb & Hc & He). split.
    + split; [discriminate|]. intros Hall. rewrite (Hall a b Ha Hb) in Hc. discriminate.
    + intros e' He'. inversion He'; subst e'. subst e. split; [reflexivity|].
      exists a, b. repeat split; auto.
      unfold conflict in Hc. now apply andb_true_iff in Hc.
Qed.

(** X4.  The conflict check does not depend on the order of its two name
    spaces: it accepts the one pair exactly when it accepts the other. *)
Theorem name_space_conflict_is_symmetric
    (namespace1 namespace2 : list ParseNamespaceItem) :
  is_ok (checkNameSpaceConflicts namespace1 namespace2)
  = is_ok (checkNameSpaceConflicts namespace2 namespace1).
Proof.
  pose proof (checkNameSpaceConflicts_outcome namespace1 namespace2) as H12.
  pose proof (checkNameSpaceConflicts_outcome namespace2 namespace1) as H21.
  destruct (checkNameSpaceConflicts namespace1 namespace2) as [[]|e1];
    destruct (checkNameSpaceConflicts namespace2 namespace1) as [[]|e2];
    cbn [is_ok]; try reflexivity; exfalso.
  - destruct H21 as (a & b & Ha & Hb & Hc & _).
    rewrite conflict_sym, (H12 b a Hb Ha) in Hc. discriminate.
  - destruct H12 as (a & b & Ha & Hb & Hc & _).
    rewrite conflict_sym, (H21 b a Hb Ha) in Hc. discriminate.
Qed.

End NameSpaceFacts.

(** ** Attribute numbers and the column list of INSERT *)

Section InsertFacts.
Import Insert.

Variable namestrcmp : string -> string -> Z.
Variable specialAttNum : string -> Z.
Variable SystemAttributeDefinition : Z -> bool -> bool -> bool -> res Form_pg_attribute.
Variable ObjectIdAttributeNumber BucketIdAttributeNumber UidAttributeNumber : Z.
Variable RELATION_HAS_BUCKET RELATION_HAS_UIDS : RelationData -> bool.
Variable TsRelWithImplDistColumn : list Form_pg_attribute -> Z -> bool.
Variable RelationIsTsStore : RelationData -> bool.

#[local] Abbreviation attname_scan := (attname_scan namestrcmp).
#[local] Abbreviation attnameAttNum :=
  (attnameAttNum namestrcmp specialAttNum ObjectIdAttributeNumber
     BucketIdAttributeNumber UidAttributeNumber RELATION_HAS_BUCKET RELATION_HAS_UIDS).
#[local] Abbreviation attnumAttName :=
  (attnumAttName SystemAttributeDefinition RELATION_HAS_BUCKET RELATION_HAS_UIDS).
#[local] Abbreviation default_column :=
  (default_column TsRelWithImplDistColumn RelationIsTsStore).
#[local] Abbreviation default_columns :=
  (default_columns TsRelWithImplDistColumn RelationIsTsStore).
#[local] Abbreviation check_columns :=
  (check_columns namestrcmp specialAttNum ObjectIdAttributeNumber
     BucketIdAttributeNumber UidAttributeNumber RELATION_HAS_BUCKET RELATION_HAS_UIDS).
#[local] Abbreviation checkInsertTargets :=
  (checkInsertTargets namestrcmp specialAttNum ObjectIdAttributeNumber
     BucketIdAttributeNumber UidAttributeNumber RELATION_HAS_BUCKET RELATION_HAS_UIDS
     TsRelWithImplDistColumn RelationIsTsStore).
#[local] Abbreviation assigned_apart :=
  (assigned_apart namestrcmp specialAttNum ObjectIdAttributeNumber
     BucketIdAttributeNumber UidAttributeNumber RELATION_HAS_BUCKET RELATION_HAS_UIDS).
#[local] Abbreviation live_names_differ := (live_names_differ namestrcmp).

(** A live attribute of that name. *)
#[local] Abbreviation named attname' att :=
  ((namestrcmp (attname att) attname' =? 0) && negb (attisdropped att)).

Lemma attname_scan_spec (attname' : string) (rest : list Form_pg_attribute) :
  forall i,
    match attname_scan attname' rest i with
    | Some n =>
        i < n <= i + list_length rest
        /\ exists att,
             nth_error rest (Z.to_nat (n - i - 1)) = Some att
             /\ named attname' att = true
             /\ forall j att', (j < Z.to_nat (n - i - 1))%nat ->
                  nth_error rest j = Some att' -> named attname' att' = false
    | None => forall att, In att rest -> named attname' att = false
    end.
Proof.
  unfold list_length.
  induction rest as [|a rest IH]; intros i; cbn [Insert.attname_scan].
  - intros att [].
  - destruct (named attname' a) eqn:E.
    + split; [cbn [length]; lia|]. exists a.
      replace (i + 1 - i - 1) with 0 by lia. cbn. split; [reflexivity|].
      split; [exact E|]. intros j att' Hj. lia.
    + specialize (IH (i + 1)).
      destruct (attname_scan attname' rest (i + 1)) as [n|].
      * destruct IH as [Hr (att & Hn & Hna & Hfirst)].
        split; [cbn [length]; lia|]. exists att.
        replace (Z.to_nat (n - i - 1)) with (S (Z.to_nat (n - (i + 1) - 1))) by lia.
        cbn [nth_error]. split; [exact Hn|]. split; [exact Hna|].
        intros [|j] att' Hj Hnth; cbn [nth_error] in Hnth.
        -- inversion Hnth; subst. exact E.
        -- apply (Hfirst j att'); [lia|exact Hnth].
      * intros att [<-|Hin]; [exact E|now apply IH].
Qed.

Lemma named_iff (attname' : string) (att : Form_pg_attribute) :
  named attname' att = true
  <-> namestrcmp (attname att) attname' = 0 /\ attisdropped att = false.
Proof.
  rewrite andb_true_iff, Z.eqb_eq, negb_true_iff. reflexivity.
Qed.

(** X5.  attnameAttNum, asked for a user column, returns InvalidAttrNumber
    exactly when no live attribute bears the name; otherwise it returns the
    number, counted from 1, of the first live attribute of that name, and
    attnumAttName gives the name of that attribute back. *)
Theorem user_column_number_names_the_column (rd : RelationData) (attname' : string) :
  (attnameAttNum rd attname' false = InvalidAttrNumber
   /\ forall att, In att (attrs rd) ->
        namestrcmp (attname att) attname' = 0 -> attisdropped att = true)
  \/ (1 <= attnameAttNum rd attname' false <= relnatts rd
      /\ exists att,
           nth_error (attrs rd) (Z.to_nat (attnameAttNum rd attname' false - 1)) = Some att
           /\ attisdropped att = false
           /\ namestrcmp (attname att) attname' = 0
           /\ attnumAttName rd (attnameAttNum rd attname' false) = Ok (attname att)
           /\ forall j att', (j < Z.to_nat (attnameAttNum rd attname' false - 1))%nat ->
                nth_error (attrs rd) j = Some att' ->
                namestrcmp (attname att') attname' = 0 -> attisdropped att' = true).
Proof.
  unfold Insert.attnameAttNum, relnatts.
  pose proof (attname_scan_spec attname' (attrs rd) 0) as H.
  destruct (attname_scan attname' (attrs rd) 0) as [n|].
  - right. destruct H as [Hr (att & Hn & Hna & Hfirst)].
    rewrite Z.sub_0_r in Hn, Hfirst. apply named_iff in Hna. destruct Hna as [Hc Hd].
    split; [lia|]. exists att. split; [exact Hn|]. split; [exact Hd|].
    split; [exact Hc|]. split.
    + unfold Insert.attnumAttName, relnatts.
      replace (n <=? 0) with false by lia.
      replace (n >? list_length (attrs rd)) with false by lia.
      now rewrite Hn.
    + intros j att' Hj Hnth Hcmp. specialize (Hfirst j att' Hj Hnth).
      destruct (attisdropped att') eqn:Ed; [reflexivity|].
      assert (named attname' att' = true) by (apply named_iff; now rewrite Ed).
      congruence.
  - left. split; [reflexivity|]. intros att Hin Hcmp. specialize (H att Hin).
    destruct (attisdropped att) eqn:Ed; [reflexivity|].
    assert (named attname' att = true) by (apply named_iff; now rewrite Ed).
    congruence.
Qed.

Lemma attnameAttNum_range (rd : RelationData) (attname' : string) :
  attnameAttNum rd attname' false = InvalidAttrNumber
  \/ 1 <= attnameAttNum rd attname' false <= relnatts rd.
Proof.
  unfold Insert.attnameAttNum, relnatts.
  pose proof (attname_scan_spec attname' (attrs rd) 0) as H.
  destruct (attname_scan attname' (attrs rd) 0) as [n|]; [right; lia|now left].
Qed.

Lemma bms_is_member_In (x : Z) (a : Bitmapset) :
  bms_is_member x a = true <-> In x a.
Proof.
  unfold bms_is_member. rewrite existsb_exists. split.
  - intros [y [Hin Hy]]. apply Z.eqb_eq in Hy. now subst.
  - intros Hin. exists x. split; [exact Hin|apply Z.eqb_refl].
Qed.

Lemma bms_not_member (x : Z) (a : Bitmapset) :
  bms_is_member x a = false <-> ~ In x a.
Proof.
  rewrite <- bms_is_member_In. destruct (bms_is_member x a); split; congruence.
Qed.

(** What the sets of attribute numbers seen so far demand of a column. *)
#[local] Abbreviation fresh targetrel wholecols partialcols col :=
  (~ In (attnameAttNum targetrel (name col) false) wholecols
   /\ (indirection col = [] ->
       ~ In (attnameAttNum targetrel (name col) false) partialcols)).

Lemma check_columns_spec (targetrel : RelationData) (cols : list ResTarget) :
  forall wholecols partialcols acc attrnos,
    check_columns targetrel cols wholecols partialcols acc = Ok attrnos ->
    attrnos = acc ++ map (fun col => attnameAttNum targetrel (name col) false) cols
    /\ Forall (fun col => 1 <= attnameAttNum targetrel (name col) false
                          <= relnatts targetrel) cols
    /\ ForallOrdPairs (assigned_apart targetrel) cols
    /\ Forall (fun col => fresh targetrel wholecols partialcols col) cols.
Proof.
  induction cols as [|col rest IH]; intros wholecols partialcols acc attrnos H;
    cbn [Insert.check_columns] in H.
  - inversion H; subst. rewrite app_nil_r. repeat split; constructor.
  - set (attrno := attnameAttNum targetrel (name col) false) in *.
    destruct (attrno =? InvalidAttrNumber) eqn:Ei; [discriminate|].
    assert (Hrange : 1 <= attrno <= relnatts targetrel).
    { destruct (attnameAttNum_range targetrel (name col)) as [H0|Hr]; [|exact Hr].
      fold attrno in H0. apply Z.eqb_neq in Ei. contradiction. }
    destruct (indirection col) as [|ind inds] eqn:Eind.
    + destruct (bms_is_member attrno wholecols || bms_is_member attrno partialcols)
        eqn:Em; [discriminate|].
      apply orb_false_iff in Em. destruct Em as [Hw Hp].
      apply bms_not_member in Hw. apply bms_not_member in Hp.
      apply IH in H. destruct H as (Ha & Hr & Hpairs & Hfresh).
      split; [rewrite Ha, <- app_assoc; reflexivity|].
      split; [constructor; assumption|].
      rewrite Forall_forall in Hfresh.
      split; [constructor; [|exact Hpairs]|].
      * apply Forall_forall. intros c Hin Heq. exfalso.
        destruct (Hfresh c Hin) as [Hnw _]. apply Hnw.
        unfold bms_add_member. left. exact Heq.
      * constructor.
        -- split; [exact Hw|]. intros _. exact Hp.
        -- apply Forall_forall. intros c Hin. destruct (Hfresh c Hin) as [Hnw Hnp].
           split; [|exact Hnp]. intros Hc. apply Hnw. now right.
    + destruct (bms_is_member attrno wholecols) eqn:Em; [discriminate|].
      apply bms_not_member in Em.
      apply IH in H. destruct H as (Ha & Hr & Hpairs & Hfresh).
      split; [rewrite Ha, <- app_assoc; reflexivity|].
      split; [constructor; assumption|].
      rewrite Forall_forall in Hfresh.
      split; [constructor; [|exact Hpairs]|].
      * apply Forall_forall. intros c Hin Heq.
        split; [rewrite Eind; discriminate|]. intros Hc.
        destruct (Hfresh c Hin) as [_ Hnp]. apply (Hnp Hc).
        unfold bms_add_member. left. exact Heq.
      * constructor.
        -- split; [exact Em|]. rewrite Eind. discriminate.
        -- apply Forall_forall. intros c Hin. destruct (Hfresh c Hin) as [Hnw Hnp].
           split; [exact Hnw|]. intros Hc Hp. apply (Hnp Hc). now right.
Qed.

(** X6.  A column list that checkInsertTargets accepts is returned as it is,
    with the attribute number of every column, each a user column of the
    target relation; and no attribute is assigned twice as a whole, nor as a
    whole and through a subfield or subscript: two columns of the list that
    name the same attribute both carry an indirection. *)
Theorem accepted_insert_columns_are_assigned_once
    (targetrel : RelationData) (cols cols' : list ResTarget) (attrnos : list Z) :
  cols <> [] ->
  checkInsertTargets (Some targetrel) cols = Ok (cols', attrnos) ->
  cols' = cols
  /\ attrnos = map (fun col => attnameAttNum targetrel (name col) false) cols
  /\ Forall (fun attrno => 1 <= attrno <= relnatts targetrel) attrnos
  /\ ForallOrdPairs (assigned_apart targetrel) cols.
Proof.
  intros Hne H. unfold Insert.checkInsertTargets in H.
  destruct cols as [|col rest]; [contradiction|].
  destruct (check_columns targetrel (col :: rest) [] [] []) as [nos|e] eqn:E;
    [|discriminate].
  cbn [bind] in H. inversion H; subst cols' attrnos.
  apply check_columns_spec in E. destruct E as (Ha & Hr & Hpairs & _).
  cbn [app] in Ha. repeat split; auto.
  rewrite Ha. apply Forall_map. exact Hr.
Qed.

(** The attributes from index [i] on with their attribute numbers. *)
Lemma default_columns_spec (targetrel : RelationData) (rest : list Form_pg_attribute) :
  forall i cols attrnos,
    exists cols' attrnos',
      default_columns targetrel rest i cols attrnos = (cols ++ cols', attrnos ++ attrnos')
      /\ Forall2 (fun col attrno =>
                    i < attrno <= i + list_length rest
                    /\ indirection col = []
                    /\ exists att,
                         nth_error rest (Z.to_nat (attrno - i - 1)) = Some att
                         /\ name col = attname att
                         /\ attisdropped att = false) cols' attrnos'
      /\ StronglySorted Z.lt attrnos'.
Proof.
  unfold list_length.
  induction rest as [|att rest IH]; intros i cols attrnos; cbn [Insert.default_columns].
  - exists [], []. rewrite !app_nil_r. repeat split; constructor.
  - destruct (default_column targetrel i att) eqn:Ek.
    + destruct (IH (i + 1) (cols ++ [mkResTarget (attname att) [] (-1)])
                  (attrnos ++ [i + 1])) as (cols' & nos' & Heq & Hf & Hs).
      exists (mkResTarget (attname att) [] (-1) :: cols'), ((i + 1) :: nos').
      rewrite Heq, <- !app_assoc. cbn [app]. split; [reflexivity|]. split.
      * constructor.
        -- split; [cbn [length]; lia|]. split; [reflexivity|]. exists att.
           replace (i + 1 - i - 1) with 0 by lia. cbn.
           repeat split. unfold Insert.default_column in Ek.
           destruct (attisdropped att); [discriminate|reflexivity].
        -- eapply Forall2_impl; [|exact Hf]. cbn beta.
           intros col n (Hr & Hi & a & Hn & Hname & Hd).
           split; [cbn [length]; lia|]. split; [exact Hi|]. exists a.
           replace (Z.to_nat (n - i - 1)) with (S (Z.to_nat (n - (i + 1) - 1))) by lia.
           cbn [nth_error]. auto.
      * constructor; [exact Hs|].
        clear - Hf. induction Hf as [|col n cs ns Hcn _ IHf]; constructor; [lia|exact IHf].
    + destruct (IH (i + 1) cols attrnos) as (cols' & nos' & Heq & Hf & Hs).
      exists cols', nos'. split; [exact Heq|]. split; [|exact Hs].
      eapply Forall2_impl; [|exact Hf]. cbn beta.
      intros col n (Hr & Hi & a & Hn & Hname & Hd).
      split; [cbn [length]; lia|]. split; [exact Hi|]. exists a.
      replace (Z.to_nat (n - i - 1)) with (S (Z.to_nat (n - (i + 1) - 1))) by lia.
      cbn [nth_error]. auto.
Qed.

Lemma attnameAttNum_of_live_attribute (rd : RelationData) (n : Z) (att : Form_pg_attribute) :
  live_names_differ rd ->
  1 <= n ->
  nth_error (attrs rd) (Z.to_nat (n - 1)) = Some att ->
  attisdropped att = false ->
  attnameAttNum rd (attname att) false = n.
Proof.
  intros Hnames Hn Hnth Hd.
  assert (Hself : named (attname att) att = true).
  { apply named_iff. split; [|exact Hd].
    apply (proj2 (Hnames _ _ att att Hnth Hnth Hd Hd)). reflexivity. }
  unfold Insert.attnameAttNum.
  pose proof (attname_scan_spec (attname att) (attrs rd) 0) as H.
  destruct (attname_scan (attname att) (attrs rd) 0) as [m|].
  - destruct H as [Hr (att' & Hnth' & Hna & _)].
    rewrite Z.sub_0_r in Hnth'. apply named_iff in Hna. destruct Hna as [Hc Hd'].
    apply (Hnames _ _ att' att Hnth' Hnth Hd' Hd) in Hc. lia.
  - rewrite (H att (nth_error_In _ _ Hnth)) in Hself. discriminate.
Qed.

Lemma check_columns_default (targetrel : RelationData) (cols : list ResTarget) :
  live_names_differ targetrel ->
  forall attrnos wholecols acc,
    Forall2 (fun col attrno =>
               1 <= attrno
               /\ indirection col = []
               /\ exists att,
                    nth_error (attrs targetrel) (Z.to_nat (attrno - 1)) = Some att
                    /\ name col = attname att
                    /\ attisdropped att = false) cols attrnos ->
    StronglySorted Z.lt attrnos ->
    Forall (fun attrno => ~ In attrno wholecols) attrnos ->
    check_columns targetrel cols wholecols [] acc = Ok (acc ++ attrnos).
Proof.
  intros Hnames.
  induction cols as [|col rest IH]; intros attrnos wholecols acc Hf Hs Hw;
    inversion Hf as [|c n cs ns Hcn Hrest]; subst; cbn [Insert.check_columns].
  - now rewrite app_nil_r.
  - destruct Hcn as (Hn & Hind & att & Hnth & Hname & Hd).
    rewrite Hname, (attnameAttNum_of_live_attribute targetrel n att Hnames Hn Hnth Hd).
    unfold InvalidAttrNumber. replace (n =? 0) with false by lia.
    rewrite Hind. inversion Hw as [|? ? Hnw Hws]; subst.
    apply bms_not_member in Hnw. rewrite Hnw. cbn [bms_is_member existsb orb].
    inversion Hs as [|? ? Hs' Hlt]; subst.
    rewrite (IH ns (bms_add_member wholecols n) (acc ++ [n]) Hrest Hs').
    + now rewrite <- app_assoc.
    + rewrite Forall_forall in Hws, Hlt |- *. intros m Hin [Heq|Hin'].
      * specialize (Hlt m Hin). lia.
      * exact (Hws m Hin Hin').
Qed.

(** X7.  The column list that checkInsertTargets generates when the
    statement gives none names live attributes only, in the order of the
    relation, with their attribute numbers, which increase; and when the live
    attributes bear pairwise different names, that list passes the check of a
    list given by the user and receives the same attribute numbers. *)
Theorem default_insert_columns_pass_the_check
    (targetrel : RelationData) (cols : list ResTarget) (attrnos : list Z) :
  live_names_differ targetrel ->
  checkInsertTargets (Some targetrel) [] = Ok (cols, attrnos) ->
  checkInsertTargets (Some targetrel) cols = Ok (cols, attrnos)
  /\ StronglySorted Z.lt attrnos
  /\ Forall2 (fun col attrno =>
                indirection col = []
                /\ exists att,
                     nth_error (attrs targetrel) (Z.to_nat (attrno - 1)) = Some att
                     /\ name col = attname att
                     /\ attisdropped att = false) cols attrnos.
Proof.
  intros Hnames H. cbn [Insert.checkInsertTargets] in H.
  destruct (default_columns_spec targetrel (attrs targetrel) 0 [] [])
    as (cols' & nos' & Heq & Hf & Hs).
  rewrite Heq in H. cbn [app] in H. inversion H; subst cols' nos'. clear H.
  assert (Hf' : Forall2 (fun col attrno =>
               1 <= attrno
               /\ indirection col = []
               /\ exists att,
                    nth_error (attrs targetrel) (Z.to_nat (attrno - 1)) = Some att
                    /\ name col = attname att
                    /\ attisdropped att = false) cols attrnos).
  { eapply Forall2_impl; [|exact Hf]. cbn beta.
    intros col n (Hr & Hi & a & Hn & Hname & Hd).
    split; [lia|]. split; [exact Hi|]. exists a.
    replace (n - 1) with (n - 0 - 1) by lia. auto. }
  split; [|split; [exact Hs|]].
  - destruct cols as [|col rest] eqn:Ecols.
    + inversion Hf'; subst. cbn [Insert.checkInsertTargets]. now rewrite Heq.
    + unfold Insert.checkInsertTargets.
      rewrite (check_columns_default targetrel (col :: rest) Hnames attrnos [] []
                 Hf' Hs).
      * reflexivity.
      * apply Forall_forall. intros m _ [].
  - eapply Forall2_impl; [|exact Hf']. cbn beta. intros col n (_ & Hi & Hex). auto.
Qed.

End InsertFacts.

Section InsertExampleFacts.
Import Insert InsertExamples.

Lemma accepted_insert_columns_are_assigned_once_witness :
  [mkResTarget "name" [] 1; mkResTarget "id" [] 2]
  = [mkResTarget "name" [] 1; mkResTarget "id" [] 2]
  /\ [3; 1]
     = map (fun col =>
              attnameAttNum example_namestrcmp example_specialAttNum 0 0 0
                (fun _ => false) (fun _ => false) example_relation (name col) false)
         [mkResTarget "name" [] 1; mkResTarget "id" [] 2]
  /\ Forall (fun attrno => 1 <= attrno <= relnatts example_relation) [3; 1]
  /\ ForallOrdPairs
       (assigned_apart example_namestrcmp example_specialAttNum 0 0 0
          (fun _ => false) (fun _ => false) example_relation)
       [mkResTarget "name" [] 1; mkResTarget "id" [] 2].
Proof.
  apply (accepted_insert_columns_are_assigned_once example_namestrcmp
           example_specialAttNum 0 0 0 (fun _ => false) (fun _ => false)
           (fun _ _ => false) (fun _ => false) example_relation).
  - discriminate.
  - vm_compute. reflexivity.
Defined.

Lemma example_live_names_differ : live_names_differ example_namestrcmp example_relation.
Proof.
  assert (Hlive : forall i a, nth_error (attrs example_relation) i = Some a ->
                    attisdropped a = false ->
                    (i = 0%nat /\ a = mkAttribute "id" false)
                    \/ (i = 2%nat /\ a = mkAttribute "name" false)).
  { intros [|[|[|i]]] a Hn Hd; cbn in Hn.
    - left. inversion Hn. auto.
    - inversion Hn; subst a. discriminate Hd.
    - right. inversion Hn. auto.
    - destruct i; discriminate Hn. }
  intros i j ai aj Hi Hj Hdi Hdj.
  destruct (Hlive i ai Hi Hdi) as [[-> ->]|[-> ->]];
    destruct (Hlive j aj Hj Hdj) as [[-> ->]|[-> ->]];
    vm_compute; split; intros H; try reflexivity; discriminate H.
Defined.

Lemma default_insert_columns_pass_the_check_witness :
  checkInsertTargets example_namestrcmp example_specialAttNum 0 0 0
    (fun _ => false) (fun _ => false) (fun _ _ => false) (fun _ => false)
    (Some example_relation) [mkResTarget "id" [] (-1); mkResTarget "name" [] (-1)]
  = Ok ([mkResTarget "id" [] (-1); mkResTarget "name" [] (-1)], [1; 3])
  /\ StronglySorted Z.lt [1; 3]
  /\ Forall2 (fun col attrno =>
                indirection col = []
                /\ exists att,
                     nth_error (attrs example_relation) (Z.to_nat (attrno - 1)) = Some att
                     /\ name col = attname att
                     /\ attisdropped att = false)
       [mkResTarget "id" [] (-1); mkResTarget "name" [] (-1)] [1; 3].
Proof.
  apply (default_insert_columns_pass_the_check example_namestrcmp
           example_specialAttNum 0 0 0 (fun _ => false) (fun _ => false)
           (fun _ _ => false) (fun _ => false) example_relation).
  - exact example_live_names_differ.
  - vm_compute. reflexivity.
Defined.

End InsertExampleFacts.

(** ** The name of an output column *)

Section ColnameFacts.
Import Colname.

Lemma FigureColnameInternal_strength (node : Node) :
  forall name, chosen_or_untouched name (FigureColnameInternal node name).
Proof.
  revert node. fix IH 1. intros node name.
  unfold chosen_or_untouched in *.
  destruct node; cbn [FigureColnameInternal];
    try (left; split; reflexivity);
    try (right; split; [auto|eexists; reflexivity]).
  - destruct (find_last_field_name fields); [right|left]; cbn; eauto.
  - destruct (find_last_field_name indirection); [right; cbn; eauto|].
    destruct arg as [a|]; [apply IH|left; auto].
  - destruct colname; right; cbn; eauto.
  - destruct kind; try (left; split; reflexivity). right; cbn; eauto.
  - destruct arg as [a|].
    + pose proof (IH a name) as Ha.
      destruct (FigureColnameInternal a name) as [s n0].
      destruct Ha as [[Hs Hn]|[[Hs|Hs] [n Hn]]]; cbn [fst snd] in Hs, Hn; subst;
        cbn; destruct typname; cbn; eauto.
    + cbn. destruct typname; cbn; eauto.
  - destruct arg as [a|]; [apply IH|left; auto].
  - destruct subLinkType; try (left; split; reflexivity);
      try (right; cbn; solve [eauto]).
    destruct subselect as [|[r|]]; [left|right|left]; cbn; eauto.
  - destruct defresult as [a|].
    + pose proof (IH a name) as Ha.
      destruct (FigureColnameInternal a name) as [s n0].
      destruct Ha as [[Hs Hn]|[[Hs|Hs] [n Hn]]]; cbn [fst snd] in Hs, Hn; subst;
        cbn; eauto.
    + cbn. eauto.
  - destruct isnvl; right; cbn; eauto.
  - destruct op; right; cbn; eauto.
  - destruct op; try (right; cbn; solve [eauto]). left; auto.
Qed.

(** X8.  The strength that FigureColnameInternal returns is 0, 1 or 2, and
    it is 0 exactly when no name was chosen: FigureColname falls back on
    "?column?", and FigureIndexColname returns NULL, for the nodes of
    strength 0 and for no others; for the others both return the chosen
    name. *)
Theorem column_name_is_chosen_unless_strength_is_zero (node : option Node) :
  (fst (figure node) = 0
   /\ FigureIndexColname node = None /\ FigureColname node = "?column?")
  \/ ((fst (figure node) = 1 \/ fst (figure node) = 2)
      /\ exists name, FigureIndexColname node = Some name /\ FigureColname node = name).
Proof.
  unfold FigureColname, FigureIndexColname.
  destruct node as [n|]; cbn [figure]; [|left; auto].
  destruct (FigureColnameInternal_strength n None) as [[Hs Hn]|[Hs [name Hn]]].
  - left. rewrite Hn. auto.
  - right. rewrite Hn. eauto.
Qed.

(** X9.  A good name shows through its wrappers: when an expression has a
    name of strength 2, the same expression under any number of casts, COLLATE
    clauses, subscripts and CASE expressions whose ELSE result it is, is given
    that same name, again with strength 2. *)
Theorem good_column_name_shows_through_wrappers (inner outer : Node) (name : string) :
  wraps inner outer ->
  FigureColnameInternal inner None = (2, Some name) ->
  FigureColnameInternal outer None = (2, Some name)
  /\ FigureColname (Some outer) = name.
Proof.
  intros Hw Hin.
  assert (H : FigureColnameInternal outer None = (2, Some name)).
  { induction Hw as [|outer typname _ IH|outer _ IH|outer indirection Hnone _ IH
                     |outer _ IH]; cbn [FigureColnameInternal].
    - exact Hin.
    - rewrite IH. reflexivity.
    - exact IH.
    - rewrite Hnone. exact IH.
    - rewrite IH. reflexivity. }
  split; [exact H|]. unfold FigureColname. cbn [figure]. now rewrite H.
Qed.

End ColnameFacts.

Section ColnameExampleFacts.
Import Colname.

(** [CAST(t.a[1] AS int4) COLLATE "C"] is named [a]. *)
Lemma good_column_name_shows_through_wrappers_witness :
  FigureColnameInternal
    (CollateClause
       (Some (TypeCast
                (Some (A_Indirection (Some (ColumnRef [String_ "t"; String_ "a"]))
                         [A_Indices]))
                (Some ["pg_catalog"; "int4"])))) None
  = (2, Some "a")
  /\ FigureColname
       (Some (CollateClause
                (Some (TypeCast
                         (Some (A_Indirection
                                  (Some (ColumnRef [String_ "t"; String_ "a"]))
                                  [A_Indices]))
                         (Some ["pg_catalog"; "int4"]))))) = "a".
Proof.
  apply (good_column_name_shows_through_wrappers (ColumnRef [String_ "t"; String_ "a"])).
  - apply wraps_collate, wraps_cast, wraps_subscript; [reflexivity|apply wraps_refl].
  - reflexivity.
Defined.

End ColnameExampleFacts.

(** ** Grouping sets: the number of sets and their members *)

Section GroupingSetCountFacts.
Import Agg.

Variable qsort : (list Z -> list Z -> Z) -> list (list Z) -> list (list Z).

(** The product of the sizes of the expansions. *)
#[local] Abbreviation sets_product exps := (fold_right Z.mul 1 (map list_length exps)).

Lemma sets_product_pos (exps : list (list (list Z))) :
  Forall (fun e => e <> []) exps -> 1 <= fold_right Z.mul 1 (map list_length exps).
Proof.
  induction 1 as [|e exps He _ IH]; cbn [map fold_right]; [lia|].
  assert (1 <= list_length e).
  { unfold list_length. destruct e; [contradiction|cbn [length]; lia]. }
  nia.
Qed.

Lemma expand_all_spec (groupingSets : list GroupingSet) :
  forall exps limit numsets acc,
    Forall2 (fun gs e => expand_groupingset_node gs = Ok e /\ e <> []) groupingSets exps ->
    1 <= numsets ->
    limit < 0 \/ numsets <= limit ->
    expand_all groupingSets limit numsets acc
    = if (limit >=? 0) && (numsets * sets_product exps >? limit)
      then Ok None else Ok (Some (acc ++ exps)).
Proof.
  induction groupingSets as [|gs rest IH]; intros exps limit numsets acc Hf Hn Hl;
    inversion Hf as [|g e gs' es [He Hne] Hrest]; subst; cbn [expand_all map fold_right].
  - rewrite app_nil_r.
    replace ((limit >=? 0) && (numsets * 1 >? limit)) with false; [reflexivity|].
    symmetry. apply andb_false_iff. lia.
  - rewrite He. cbn [bind].
    assert (Hlen : 1 <= list_length e).
    { unfold list_length. destruct e; [contradiction|cbn [length]; lia]. }
    replace (list_length e =? 0) with false by lia. cbn [negb AssertEreport bind].
    assert (Hp : 1 <= sets_product es).
    { apply sets_product_pos. clear - Hrest.
      induction Hrest as [|? ? ? ? [_ H] _ IHr]; constructor; auto. }
    destruct ((limit >=? 0) && (numsets * list_length e >? limit)) eqn:Ec.
    + apply andb_true_iff in Ec. destruct Ec as [E1 E2].
      replace ((limit >=? 0) && (numsets * (list_length e * sets_product es) >? limit))
        with true; [reflexivity|].
      symmetry. apply andb_true_iff. split; [exact E1|]. nia.
    + rewrite (IH es limit (numsets * list_length e) (acc ++ [e]) Hrest).
      * rewrite Z.mul_assoc, <- app_assoc. reflexivity.
      * nia.
      * apply andb_false_iff in Ec. lia.
Qed.

Lemma cross_product_length (result p : list (list Z)) :
  list_length (cross_product result p) = list_length result * list_length p.
Proof.
  unfold cross_product, list_length.
  induction result as [|q rest IH]; cbn [flat_map length]; [lia|].
  rewrite length_app, length_map, Nat2Z.inj_add, IH. cbn [length]. lia.
Qed.

Lemma fold_cross_product_length (ps : list (list (list Z))) :
  forall result,
    list_length (fold_left cross_product ps result)
    = list_length result * sets_product ps.
Proof.
  induction ps as [|p ps IH]; intros result; cbn [fold_left map fold_right]; [lia|].
  rewrite IH, cross_product_length. lia.
Qed.

(** X10.  The number of grouping sets is the product of the sizes of the
    expanded clauses, and the cross product is given up as soon as that
    product exceeds a limit that is not negative: for a non-empty GROUP BY
    list whose clauses each expand to at least one set, expand_grouping_sets
    returns the empty list when the product of the sizes is above the limit,
    and as many sets as that product otherwise. *)
Theorem grouping_sets_multiply_up_to_the_limit
    (groupingSets : list GroupingSet) (exps : list (list (list Z))) (limit : Z) :
  (forall cmp l, length (qsort cmp l) = length l) ->
  groupingSets <> [] ->
  Forall2 (fun gs e => expand_groupingset_node gs = Ok e /\ e <> []) groupingSets exps ->
  exists result,
    expand_grouping_sets qsort groupingSets limit = Ok result
    /\ if (0 <=? limit) && (limit <? fold_right Z.mul 1 (map list_length exps))
       then result = []
       else list_length result = fold_right Z.mul 1 (map list_length exps).
Proof.
  intros Hq Hne Hf. unfold expand_grouping_sets.
  destruct groupingSets as [|gs rest]; [contradiction|].
  inversion Hf as [|g e gs' es [He Hnil] Hrest]; subst.
  cbn [expand_all]. rewrite He. cbn [bind].
  assert (Hlen : 1 <= list_length e).
  { unfold list_length. destruct e; [contradiction|cbn [length]; lia]. }
  replace (list_length e =? 0) with false by lia. cbn [negb AssertEreport bind].
  assert (Hp : 1 <= sets_product es).
  { apply sets_product_pos. clear - Hrest.
    induction Hrest as [|? ? ? ? [_ H] _ IHr]; constructor; auto. }
  cbn [map fold_right]. rewrite Z.mul_1_l.
  destruct ((limit >=? 0) && (list_length e >? limit)) eqn:Ec.
  - cbn [bind]. exists []. split; [reflexivity|].
    apply andb_true_iff in Ec.
    replace ((0 <=? limit) && (limit <? list_length e * sets_product es)) with true;
      [reflexivity|].
    symmetry. apply andb_true_iff. split; [lia|]. apply Z.ltb_lt. nia.
  - rewrite (expand_all_spec rest es limit (list_length e) ([] ++ [e]) Hrest Hlen).
    2:{ apply andb_false_iff in Ec. lia. }
    destruct ((limit >=? 0) && (list_length e * sets_product es >? limit)) eqn:Et.
    + cbn [bind]. exists []. split; [reflexivity|].
      apply andb_true_iff in Et.
      replace ((0 <=? limit) && (limit <? list_length e * sets_product es)) with true;
        [reflexivity|].
      symmetry. apply andb_true_iff. lia.
    + cbn [bind app hd tl].
      replace ((0 <=? limit) && (limit <? list_length e * sets_product es)) with false.
      2:{ symmetry. apply andb_false_iff. apply andb_false_iff in Et. lia. }
      set (r := fold_left cross_product es (map (list_union_int []) e)).
      assert (Hr : list_length r = list_length e * sets_product es).
      { unfold r. rewrite fold_cross_product_length. unfold list_length at 1.
        rewrite length_map. reflexivity. }
      destruct (list_length r >? 1).
      * eexists. split; [reflexivity|]. unfold list_length at 1.
        rewrite Hq. exact Hr.
      * eexists. split; [reflexivity|]. exact Hr.
Qed.

Lemma list_union_int_NoDup (list2 : list Z) :
  forall list1, NoDup list1 -> NoDup (list_union_int list1 list2).
Proof.
  induction list2 as [|x rest IH]; intros list1 Hnd; cbn [list_union_int]; [exact Hnd|].
  destruct (list_member_int list1 x) eqn:E; [now apply IH|].
  apply IH. apply NoDup_app; [exact Hnd|repeat constructor; intros []|].
  intros y Hy [<-|[]].
  apply list_member_int_In in Hy. congruence.
Qed.

Lemma cross_product_NoDup (result p : list (list Z)) :
  Forall (@NoDup Z) result -> Forall (@NoDup Z) (cross_product result p).
Proof.
  unfold cross_product. intros Hr. apply Forall_forall. intros s Hin.
  apply in_flat_map in Hin. destruct Hin as [q [Hq Hin]].
  apply in_map_iff in Hin. destruct Hin as [t [<- _]].
  apply list_union_int_NoDup. rewrite Forall_forall in Hr. now apply Hr.
Qed.

(** X11.  The cross product removes the duplicate members of every grouping
    set: no set of the list that expand_grouping_sets returns holds a
    sort-group reference twice, whatever the clauses are. *)
Theorem grouping_sets_hold_no_duplicates
    (groupingSets : list GroupingSet) (limit : Z) (result : list (list Z)) :
  (forall cmp l x, In x (qsort cmp l) -> In x l) ->
  expand_grouping_sets qsort groupingSets limit = Ok result ->
  Forall (@NoDup Z) result.
Proof.
  intros Hq. unfold expand_grouping_sets.
  destruct groupingSets as [|g gs]; [intros [= <-]; constructor|].
  destruct (expand_all (g :: gs) limit 1 []) as [[expanded|]|e]; cbn [bind];
    try discriminate; [|intros [= <-]; constructor].
  set (r := fold_left cross_product _ _).
  assert (Hr : Forall (@NoDup Z) r).
  { unfold r. generalize (tl expanded).
    assert (H0 : Forall (@NoDup Z) (map (list_union_int []) (hd [] expanded))).
    { apply Forall_forall. intros s Hin. apply in_map_iff in Hin.
      destruct Hin as [t [<- _]]. apply list_union_int_NoDup. constructor. }
    revert H0. generalize (map (list_union_int []) (hd [] expanded)).
    intros r0 H0 ps. revert r0 H0.
    induction ps as [|p ps IH]; intros r0 H0; cbn [fold_left]; [exact H0|].
    apply IH. now apply cross_product_NoDup. }
  destruct (list_length r >? 1); intros [= <-]; [|exact Hr].
  apply Forall_forall. intros s Hin. apply Hq in Hin.
  rewrite Forall_forall in Hr. now apply Hr.
Qed.

End GroupingSetCountFacts.

Section GroupingSetCountExamples.
Import Agg.

Lemma insertion_qsort_length (cmp : list Z -> list Z -> Z) (l : list (list Z)) :
  length (insertion_qsort cmp l) = length l.
Proof.
  apply Permutation_length, Permutation_sym, insertion_qsort_perm.
Defined.

(** [GROUP BY ROLLUP (a, b), CUBE (c, d)] under the limit of 4096: 3 * 4
    sets. *)
Lemma grouping_sets_multiply_up_to_the_limit_witness :
  exists result,
    expand_grouping_sets insertion_qsort
      [GROUPING_SET_ROLLUP [GROUPING_SET_SIMPLE [1]; GROUPING_SET_SIMPLE [2]];
       GROUPING_SET_CUBE [GROUPING_SET_SIMPLE [3]; GROUPING_SET_SIMPLE [4]]] 4096
    = Ok result
    /\ list_length result = 12.
Proof.
  apply (grouping_sets_multiply_up_to_the_limit insertion_qsort
           [GROUPING_SET_ROLLUP [GROUPING_SET_SIMPLE [1]; GROUPING_SET_SIMPLE [2]];
            GROUPING_SET_CUBE [GROUPING_SET_SIMPLE [3]; GROUPING_SET_SIMPLE [4]]]
           [[[1; 2]; [1]; []]; [[]; [3]; [4]; [3; 4]]] 4096).
  - exact insertion_qsort_length.
  - discriminate.
  - repeat constructor; discriminate.
Defined.

(** [GROUP BY ROLLUP (a), CUBE ((a, a), (b, a))] without a limit. *)
Lemma grouping_sets_hold_no_duplicates_witness :
  Forall (@NoDup Z) [[]; [1]; [1]; [1]; [1; 2]; [1; 2]; [2; 1]; [1; 2]].
Proof.
  apply (grouping_sets_hold_no_duplicates insertion_qsort
           [GROUPING_SET_ROLLUP [GROUPING_SET_SIMPLE [1]];
            GROUPING_SET_CUBE [GROUPING_SET_SIMPLE [1; 1]; GROUPING_SET_SIMPLE [2; 1]]]
           (-1)).
  - intros cmp l x Hin.
    apply (Permutation_in x (Permutation_sym (insertion_qsort_perm cmp l)) Hin).
  - vm_compute. reflexivity.
Defined.

End GroupingSetCountExamples.

(** ** The argument types of an aggregate call *)

Section AggArgsFacts.
Import Agg AggArgs.

Variable exprType : Node -> Z.

(** Decides a comparison of list lengths that is the value of a test. *)
#[local] Ltac length_test :=
  unfold list_length;
  match goal with
  | |- _ = (?x =? ?y) => destruct (Z.eqb_spec x y)
  | |- _ = (?x <? ?y) => destruct (Z.ltb_spec x y)
  | |- _ = (?x >=? ?y) => rewrite (Z.geb_leb x y); destruct (Z.leb_spec y x)
  end; first [reflexivity | lia].

Lemma direct_argtypes_spec (func_max_args : Z) (aggdirectargs : list Node) :
  forall inputTypes,
    direct_argtypes exprType func_max_args aggdirectargs inputTypes
      (list_length inputTypes)
    = if (list_length aggdirectargs =? 0)
         || (list_length (inputTypes ++ map exprType aggdirectargs) <? func_max_args)
      then Ok (inputTypes ++ map exprType aggdirectargs,
               list_length (inputTypes ++ map exprType aggdirectargs))
      else Error err_too_many_arguments.
Proof.
  unfold list_length.
  induction aggdirectargs as [|a rest IH]; intros inputTypes;
    cbn [direct_argtypes map length].
  - rewrite app_nil_r. reflexivity.
  - replace (Z.of_nat (length inputTypes) + 1)
      with (Z.of_nat (length (inputTypes ++ [exprType a])))
      by (rewrite length_app; cbn [length]; lia).
    replace (inputTypes ++ exprType a :: map exprType rest)
      with ((inputTypes ++ [exprType a]) ++ map exprType rest)
      by (rewrite <- app_assoc; reflexivity).
    cbn [orb]. replace (Z.of_nat (S (length rest)) =? 0) with false by length_test.
    cbn [orb].
    destruct (Z.of_nat (length (inputTypes ++ [exprType a])) >=? func_max_args) eqn:E;
      [|rewrite Z.geb_leb in E; apply Z.leb_gt in E].
    + replace (Z.of_nat (length ((inputTypes ++ [exprType a]) ++ map exprType rest))
               <? func_max_args) with false; [reflexivity|].
      rewrite Z.geb_leb in E. apply Z.leb_le in E.
      symmetry. apply Z.ltb_ge. rewrite length_app. lia.
    + rewrite IH. destruct rest as [|b rest']; cbn [length map orb Z.of_nat Z.eqb].
      * rewrite app_nil_r.
        replace (Z.of_nat (length (inputTypes ++ [exprType a])) <? func_max_args)
          with true by length_test.
        reflexivity.
      * replace (Z.of_nat (S (length rest')) =? 0) with false by length_test. reflexivity.
Qed.

Lemma aggregated_argtypes_spec (func_max_args : Z) (args : list TargetEntry) :
  forall inputTypes,
    let passed :=
      map (fun tle => exprType (expr tle)) (filter (fun tle => negb (resjunk tle)) args) in
    aggregated_argtypes exprType func_max_args args inputTypes (list_length inputTypes)
    = if (list_length passed =? 0)
         || (list_length (inputTypes ++ passed) <? func_max_args)
      then Ok (inputTypes ++ passed, list_length (inputTypes ++ passed))
      else Error err_too_many_arguments.
Proof.
  unfold list_length.
  induction args as [|tle rest IH]; intros inputTypes;
    cbn [aggregated_argtypes filter map length].
  - rewrite app_nil_r. reflexivity.
  - destruct (resjunk tle); cbn [negb]; [apply IH|].
    cbn [map length].
    replace (Z.of_nat (length inputTypes) + 1)
      with (Z.of_nat (length (inputTypes ++ [exprType (expr tle)])))
      by (rewrite length_app; cbn [length]; lia).
    set (passed := map (fun tle => exprType (expr tle))
                     (filter (fun tle => negb (resjunk tle)) rest)).
    replace (inputTypes ++ exprType (expr tle) :: passed)
      with ((inputTypes ++ [exprType (expr tle)]) ++ passed)
      by (rewrite <- app_assoc; reflexivity).
    replace (Z.of_nat (S (length passed)) =? 0) with false by length_test. cbn [orb].
    destruct (Z.of_nat (length (inputTypes ++ [exprType (expr tle)])) >=? func_max_args)
      eqn:E; [|rewrite Z.geb_leb in E; apply Z.leb_gt in E].
    + replace (Z.of_nat (length ((inputTypes ++ [exprType (expr tle)]) ++ passed))
               <? func_max_args) with false; [reflexivity|].
      rewrite Z.geb_leb in E. apply Z.leb_le in E.
      symmetry. apply Z.ltb_ge. rewrite length_app. lia.
    + specialize (IH (inputTypes ++ [exprType (expr tle)])). cbn zeta in IH.
      fold passed in IH. rewrite IH.
      destruct passed as [|b passed']; cbn [length orb Z.of_nat Z.eqb].
      * rewrite app_nil_r.
        replace (Z.of_nat (length (inputTypes ++ [exprType (expr tle)])) <? func_max_args)
          with true by length_test.
        reflexivity.
      * replace (Z.of_nat (S (length passed')) =? 0) with false by length_test. reflexivity.
Qed.

(** X12.  get_aggregate_argtypes returns the types of the direct arguments
    followed by those of the aggregated arguments that are no sort columns,
    and their number, provided there are fewer than func_max_args of them (or
    none at all); a call that passes func_max_args arguments or more raises
    the program-limit error. *)
Theorem aggregate_argtypes_stay_below_the_maximum
    (aggdirectargs : list Node) (args : list TargetEntry) (func_max_args : Z) :
  get_aggregate_argtypes exprType aggdirectargs args func_max_args
  = if (list_length (passed_argtypes exprType aggdirectargs args) =? 0)
       || (list_length (passed_argtypes exprType aggdirectargs args) <? func_max_args)
    then Ok (passed_argtypes exprType aggdirectargs args,
             list_length (passed_argtypes exprType aggdirectargs args))
    else Error err_too_many_arguments.
Proof.
  unfold get_aggregate_argtypes, passed_argtypes.
  pose proof (direct_argtypes_spec func_max_args aggdirectargs []) as Hd.
  cbn [app] in Hd. change (list_length (@nil Z)) with 0 in Hd. rewrite Hd. clear Hd.
  set (direct := map exprType aggdirectargs).
  set (passed := map (fun tle => exprType (expr tle))
                   (filter (fun tle => negb (resjunk tle)) args)).
  assert (Hlen : list_length (direct ++ passed) = list_length direct + list_length passed).
  { unfold list_length. rewrite length_app. lia. }
  assert (Hd0 : list_length aggdirectargs = list_length direct).
  { unfold direct, list_length. now rewrite length_map. }
  assert (Hnn : 0 <= list_length direct /\ 0 <= list_length passed).
  { unfold list_length. lia. }
  rewrite Hd0.
  destruct ((list_length direct =? 0) || (list_length direct <? func_max_args)) eqn:Ed;
    cbn [bind].
  - pose proof (aggregated_argtypes_spec func_max_args args direct) as Ha.
    cbn zeta in Ha. fold passed in Ha. rewrite Ha. clear Ha.
    destruct (Z.eqb_spec (list_length passed) 0) as [Ep|Ep]; cbn [orb].
    + assert (passed = []) as ->.
      { unfold list_length in Ep. destruct passed; [reflexivity|cbn [length] in Ep; lia]. }
      rewrite app_nil_r. apply orb_true_iff in Ed.
      destruct (list_length direct =? 0) eqn:E0; cbn [orb]; [reflexivity|].
      destruct Ed as [Ed|Ed]; [discriminate|]. now rewrite Ed.
    + replace (list_length (direct ++ passed) =? 0) with false
        by (symmetry; apply Z.eqb_neq; lia).
      reflexivity.
  - apply orb_false_iff in Ed. destruct Ed as [E0 E1].
    apply Z.eqb_neq in E0. apply Z.ltb_ge in E1.
    replace (list_length (direct ++ passed) =? 0) with false
      by (symmetry; apply Z.eqb_neq; lia).
    replace (list_length (direct ++ passed) <? func_max_args) with false
      by (symmetry; apply Z.ltb_ge; lia).
    reflexivity.
Qed.

End AggArgsFacts.

(** ** Window function calls *)

Section WindowFacts.
Import Agg Window.

Variable checkExprHasWindowFuncs : list Node -> bool.
Variable equal : StartWith.Node -> StartWith.Node -> bool.
Variable FRAMEOPTION_DEFAULTS : Z.

#[local] Abbreviation same_window := (same_window equal).
#[local] Abbreviation find_same := (find_same equal).
#[local] Abbreviation transformWindowFuncCall :=
  (transformWindowFuncCall checkExprHasWindowFuncs equal FRAMEOPTION_DEFAULTS).

Lemma find_named_spec (name' : string) (windefs : list WindowDef) :
  forall winref0,
    match find_named windefs name' winref0 with
    | Some winref =>
        winref0 < winref <= winref0 + list_length windefs
        /\ exists refwin,
             nth_error windefs (Z.to_nat (winref - winref0 - 1)) = Some refwin
             /\ named refwin name' = true
    | None => forall refwin, In refwin windefs -> named refwin name' = false
    end.
Proof.
  unfold list_length.
  induction windefs as [|w rest IH]; intros winref0; cbn [find_named].
  - intros refwin [].
  - destruct (named w name') eqn:E.
    + split; [cbn [length]; lia|]. exists w.
      replace (winref0 + 1 - winref0 - 1) with 0 by lia. cbn. auto.
    + specialize (IH (winref0 + 1)).
      destruct (find_named rest name' (winref0 + 1)) as [winref|].
      * destruct IH as [Hr (refwin & Hn & Hs)]. split; [cbn [length]; lia|].
        exists refwin. split; [|exact Hs].
        replace (Z.to_nat (winref - winref0 - 1))
          with (S (Z.to_nat (winref - (winref0 + 1) - 1))) by lia.
        exact Hn.
      * intros refwin [<-|Hin]; [exact E|now apply IH].
Qed.

Lemma find_same_spec (windef : WindowDef) (windefs : list WindowDef) :
  forall winref0,
    match find_same windefs windef winref0 with
    | Some winref =>
        winref0 < winref <= winref0 + list_length windefs
        /\ exists refwin,
             nth_error windefs (Z.to_nat (winref - winref0 - 1)) = Some refwin
             /\ same_window refwin windef = true
    | None => forall refwin, In refwin windefs -> same_window refwin windef = false
    end.
Proof.
  unfold list_length.
  induction windefs as [|w rest IH]; intros winref0; cbn [Window.find_same].
  - intros refwin [].
  - destruct (same_window w windef) eqn:E.
    + split; [cbn [length]; lia|]. exists w.
      replace (winref0 + 1 - winref0 - 1) with 0 by lia. cbn. auto.
    + specialize (IH (winref0 + 1)).
      destruct (find_same rest windef (winref0 + 1)) as [winref|].
      * destruct IH as [Hr (refwin & Hn & Hs)]. split; [cbn [length]; lia|].
        exists refwin. split; [|exact Hs].
        replace (Z.to_nat (winref - winref0 - 1))
          with (S (Z.to_nat (winref - (winref0 + 1) - 1))) by lia.
        exact Hn.
      * intros refwin [<-|Hin]; [exact E|now apply IH].
Qed.

(** X13.  The window reference that transformWindowFuncCall gives a call
    points, counting from 1, at an entry of the window list of the resulting
    parse state, which is marked as having window functions.  For an OVER
    clause that is a window name the list is unchanged and the entry bears
    that name; otherwise the entry is an earlier duplicate of the
    specification in the unchanged list or, when there is none, the
    specification itself, appended at the end. *)
Theorem window_reference_points_at_its_definition
    (pstate pstate' : ParseState) (args : list Node) (windef : WindowDef) (winref : Z) :
  transformWindowFuncCall pstate args windef = Ok (pstate', winref) ->
  p_hasWindowFuncs pstate' = true
  /\ 1 <= winref
  /\ exists refwin,
       nth_error (p_windowdefs pstate') (Z.to_nat (winref - 1)) = Some refwin
       /\ match name windef with
          | Some name' =>
              p_windowdefs pstate' = p_windowdefs pstate /\ name refwin = Some name'
          | None =>
              (p_windowdefs pstate' = p_windowdefs pstate
               /\ same_window refwin windef = true)
              \/ (p_windowdefs pstate' = p_windowdefs pstate ++ [windef]
                  /\ refwin = windef
                  /\ winref = list_length (p_windowdefs pstate) + 1
                  /\ forall w, In w (p_windowdefs pstate) -> same_window w windef = false)
          end.
Proof.
  unfold Window.transformWindowFuncCall. intros H.
  destruct (p_hasWindowFuncs pstate && checkExprHasWindowFuncs args); [discriminate|].
  destruct (name windef) as [name'|].
  - destruct (AssertEreport _ _) as [[]|e]; cbn [bind] in H; [|discriminate].
    pose proof (find_named_spec name' (p_windowdefs pstate) 0) as Hf.
    destruct (find_named (p_windowdefs pstate) name' 0) as [w|]; cbn [bind] in H;
      [|discriminate].
    inversion H; subst pstate' winref. cbn [p_hasWindowFuncs p_windowdefs].
    destruct Hf as [Hr (refwin & Hn & Hs)]. rewrite Z.sub_0_r in Hn.
    split; [reflexivity|]. split; [lia|]. exists refwin. split; [exact Hn|].
    split; [reflexivity|]. unfold named in Hs.
    destruct (name refwin) as [n|]; [|discriminate].
    apply String.eqb_eq in Hs. now subst.
  - pose proof (find_same_spec windef (p_windowdefs pstate) 0) as Hf.
    destruct (find_same (p_windowdefs pstate) windef 0) as [w|]; cbn [bind] in H;
      inversion H; subst pstate' winref; cbn [p_hasWindowFuncs p_windowdefs].
    + destruct Hf as [Hr (refwin & Hn & Hs)]. rewrite Z.sub_0_r in Hn.
      split; [reflexivity|]. split; [lia|]. exists refwin. split; [exact Hn|].
      left. auto.
    + split; [reflexivity|].
      assert (Hlen : list_length (p_windowdefs pstate ++ [windef])
                     = list_length (p_windowdefs pstate) + 1).
      { unfold list_length. rewrite length_app. cbn [length]. lia. }
      split; [unfold list_length in *; lia|]. exists windef. split.
      * rewrite Hlen.
        replace (Z.to_nat (list_length (p_windowdefs pstate) + 1 - 1))
          with (length (p_windowdefs pstate)) by (unfold list_length; lia).
        rewrite nth_error_app2 by lia. now rewrite Nat.sub_diag.
      * right. auto.
Qed.

Lemma equal_list_refl (l : list StartWith.Node) :
  (forall n, equal n n = true) -> equal_list equal l l = true.
Proof.
  intros Hrefl. induction l as [|x l IH]; cbn [equal_list]; [reflexivity|].
  now rewrite Hrefl, IH.
Qed.

Lemma same_window_refl (windef : WindowDef) :
  (forall n, equal n n = true) -> same_window windef windef = true.
Proof.
  intros Hrefl. unfold Window.same_window.
  assert (H : equal_list equal (partitionClause windef) (partitionClause windef)
              && equal_list equal (orderClause windef) (orderClause windef)
              && (frameOptions windef =? frameOptions windef)
              && equal_opt equal (startOffset windef) (startOffset windef)
              && equal_opt equal (endOffset windef) (endOffset windef) = true).
  { rewrite !equal_list_refl, Z.eqb_refl by exact Hrefl. cbn [andb].
    destruct (startOffset windef), (endOffset windef); cbn [equal_opt andb];
      rewrite ?Hrefl; reflexivity. }
  destruct (refname windef) as [r|]; [rewrite String.eqb_refl|]; exact H.
Qed.

Lemma find_same_app (windef : WindowDef) (windefs : list WindowDef) :
  forall winref0,
    (forall w, In w windefs -> same_window w windef = false) ->
    same_window windef windef = true ->
    find_same (windefs ++ [windef]) windef winref0
    = Some (winref0 + list_length windefs + 1).
Proof.
  unfold list_length.
  induction windefs as [|w rest IH]; intros winref0 Hnone Hself;
    cbn [app Window.find_same].
  - rewrite Hself. cbn [length]. f_equal. lia.
  - rewrite (Hnone w (or_introl eq_refl)).
    rewrite IH; [|intros w' Hin; apply Hnone; now right|exact Hself].
    cbn [length]. f_equal. lia.
Qed.

(** X14.  Using the same OVER clause again shares the window: once a call
    with a window specification has been transformed, a second call with the
    same specification, whose arguments hold no window function, is given the
    same window reference and leaves the parse state as it is.  Node equality
    is reflexive. *)
Theorem same_over_clause_shares_the_window
    (pstate pstate' : ParseState) (args args' : list Node) (windef : WindowDef)
    (winref : Z) :
  (forall n, equal n n = true) ->
  transformWindowFuncCall pstate args windef = Ok (pstate', winref) ->
  checkExprHasWindowFuncs args' = false ->
  transformWindowFuncCall pstate' args' windef = Ok (pstate', winref).
Proof.
  intros Hrefl H Hargs. unfold Window.transformWindowFuncCall in *.
  rewrite Hargs, andb_false_r.
  destruct (p_hasWindowFuncs pstate && checkExprHasWindowFuncs args); [discriminate|].
  destruct (name windef) as [name'|].
  - destruct (AssertEreport _ _) as [[]|e]; cbn [bind] in H |- *; [|discriminate].
    destruct (find_named (p_windowdefs pstate) name' 0) as [w|] eqn:Ef;
      cbn [bind] in H; [|discriminate].
    inversion H; subst pstate' winref. cbn [p_windowdefs p_hasWindowFuncs].
    rewrite Ef. reflexivity.
  - pose proof (find_same_spec windef (p_windowdefs pstate) 0) as Hf.
    destruct (find_same (p_windowdefs pstate) windef 0) as [w|] eqn:Ef;
      cbn [bind] in H; inversion H; subst pstate' winref;
      cbn [p_windowdefs p_hasWindowFuncs].
    + rewrite Ef. reflexivity.
    + rewrite (find_same_app windef (p_windowdefs pstate) 0 Hf
                 (same_window_refl windef Hrefl)).
      cbn [bind p_windowdefs]. unfold list_length. rewrite length_app.
      cbn [length]. do 2 f_equal. lia.
Qed.

End WindowFacts.

Section WindowExampleFacts.
Import Agg Window WindowExamples.

Lemma example_equal_refl (n : StartWith.Node) : example_equal n n = true.
Proof.
  destruct n; cbn [example_equal]; try reflexivity.
  destruct (list_eq_dec string_dec fields fields); [reflexivity|contradiction].
Defined.

Lemma window_reference_points_at_its_definition_witness :
  p_hasWindowFuncs (mkParseState true [example_windef]) = true
  /\ 1 <= 1
  /\ exists refwin,
       nth_error (p_windowdefs (mkParseState true [example_windef]))
         (Z.to_nat (1 - 1)) = Some refwin
       /\ ((p_windowdefs (mkParseState true [example_windef])
            = p_windowdefs (mkParseState false [])
            /\ same_window example_equal refwin example_windef = true)
           \/ (p_windowdefs (mkParseState true [example_windef])
               = p_windowdefs (mkParseState false []) ++ [example_windef]
               /\ refwin = example_windef
               /\ 1 = list_length (p_windowdefs (mkParseState false [])) + 1
               /\ forall w, In w (p_windowdefs (mkParseState false [])) ->
                    same_window example_equal w example_windef = false)).
Proof.
  apply (window_reference_points_at_its_definition (fun _ => false) example_equal 0
           (mkParseState false []) (mkParseState true [example_windef]) []
           example_windef 1).
  vm_compute. reflexivity.
Defined.

Lemma same_over_clause_shares_the_window_witness :
  transformWindowFuncCall (fun _ => false) example_equal 0
    (mkParseState true [example_windef]) [] example_windef
  = Ok (mkParseState true [example_windef], 1).
Proof.
  apply (same_over_clause_shares_the_window (fun _ => false) example_equal 0
           (mkParseState false []) (mkParseState true [example_windef]) [] []
           example_windef 1).
  - exact example_equal_refl.
  - vm_compute. reflexivity.
  - reflexivity.
Defined.

End WindowExampleFacts.

(** ** The level of an aggregate and the clause it is in *)

Section AggLevelFacts2.
Import Agg AggLevel.

Variable ParseExprKindName : ParseExprKind -> string.

#[local] Abbreviation check_agglevels_and_constraints :=
  (check_agglevels_and_constraints ParseExprKindName).

Lemma AggLevel_chain_ind (P : ParseState -> Prop) :
  (forall kind marked, P (mkParseState kind marked None)) ->
  (forall kind marked parent, P parent -> P (mkParseState kind marked (Some parent))) ->
  forall pstate, P pstate.
Proof.
  intros Hroot Hstep. fix IH 1.
  intros [kind marked [parent|]]; [apply Hstep, IH | apply Hroot].
Qed.

Lemma mark_hasAggs_spec (pstate : ParseState) :
  forall level kind marked,
    nth_error (scopes pstate) (Z.to_nat level) = Some (kind, marked) ->
    exists pstate',
      mark_hasAggs pstate level = Ok (pstate', kind)
      /\ scopes pstate'
         = firstn (Z.to_nat level) (scopes pstate)
           ++ (kind, true) :: skipn (S (Z.to_nat level)) (scopes pstate).
Proof.
  induction pstate as [k m|k m parent IH] using AggLevel_chain_ind;
    intros level kind marked Hn; cbn [mark_hasAggs parentParseState p_expr_kind p_hasAggs].
  - destruct (Z.gtb_spec level 0) as [Hpos|Hle].
    + replace (Z.to_nat level) with (S (Z.to_nat (level - 1))) in Hn by lia.
      cbn in Hn. destruct (Z.to_nat (level - 1)); discriminate.
    + replace (Z.to_nat level) with 0%nat in * by lia. cbn in Hn.
      inversion Hn; subst. eexists. split; [reflexivity|]. reflexivity.
  - destruct (Z.gtb_spec level 0) as [Hpos|Hle].
    + replace (Z.to_nat level) with (S (Z.to_nat (level - 1))) in * by lia.
      cbn [scopes parentParseState nth_error] in Hn.
      destruct (IH (level - 1) kind marked Hn) as (parent' & Hm & Hs).
      rewrite Hm. cbn [bind]. eexists. split; [reflexivity|].
      cbn [scopes parentParseState p_expr_kind p_hasAggs firstn skipn app].
      now rewrite Hs.
    + replace (Z.to_nat level) with 0%nat in * by lia. cbn in Hn.
      inversion Hn; subst. eexists. split; [reflexivity|]. reflexivity.
Qed.

Lemma constraint_of_allows (kind : ParseExprKind) (isAgg : bool) :
  if allows_aggregates kind then constraint_of kind isAgg = (None, false)
  else (exists msg, constraint_of kind isAgg = (Some msg, false))
       \/ constraint_of kind isAgg = (None, true).
Proof.
  destruct kind; cbn [allows_aggregates constraint_of];
    try reflexivity; try (right; reflexivity); left; eexists; reflexivity.
Qed.

(** X15.  An aggregate or grouping operation is judged by the clause of the
    query level it belongs to, not by the clause it is written in: when the
    arguments put the call [level] query levels up,
    check_agglevels_and_constraints sets that level in the call and marks the
    parse state of that level, and of no other, as having aggregates, and it
    succeeds exactly when the clause which that level is analysing admits
    aggregates; otherwise it raises a grouping error. *)
Theorem aggregate_is_judged_by_the_clause_of_its_level
    (pstate : ParseState) (expr : Node) (level : Z)
    (kind : ParseExprKind) (marked : bool) :
  level_of_call expr = Ok level ->
  nth_error (scopes pstate) (Z.to_nat level) = Some (kind, marked) ->
  if allows_aggregates kind then
    exists pstate',
      check_agglevels_and_constraints pstate expr = Ok (pstate', with_level expr level)
      /\ scopes pstate'
         = firstn (Z.to_nat level) (scopes pstate)
           ++ (kind, true) :: skipn (S (Z.to_nat level)) (scopes pstate)
  else
    exists e,
      check_agglevels_and_constraints pstate expr = Error e
      /\ errcode e = ERRCODE_GROUPING_ERROR.
Proof.
  intros Hlevel Hn.
  destruct (mark_hasAggs_spec pstate level kind marked Hn) as (pstate' & Hm & Hs).
  pose proof (constraint_of_allows kind) as Hc.
  unfold AggLevel.check_agglevels_and_constraints.
  destruct expr; cbn [level_of_call] in Hlevel; try discriminate; cbn [bind];
    rewrite Hlevel; cbn [bind]; rewrite Hm; cbn [bind with_level].
  - specialize (Hc true). destruct (allows_aggregates kind).
    + rewrite Hc. exists pstate'. split; [reflexivity|exact Hs].
    + destruct Hc as [[msg ->]| ->]; eexists; split; reflexivity.
  - specialize (Hc false). destruct (allows_aggregates kind).
    + rewrite Hc. exists pstate'. split; [reflexivity|exact Hs].
    + destruct Hc as [[msg ->]| ->]; eexists; split; reflexivity.
Qed.

End AggLevelFacts2.

Section AggLevelExampleFacts.
Import Agg AggLevel AggLevelExamples.

Lemma aggregate_is_judged_by_the_clause_of_its_level_witness :
  exists pstate',
    check_agglevels_and_constraints (fun _ => "WHERE") example_inner example_sum
    = Ok (pstate', with_level example_sum 1)
    /\ scopes pstate' = [(EXPR_KIND_WHERE, false); (EXPR_KIND_HAVING, true)].
Proof.
  apply (aggregate_is_judged_by_the_clause_of_its_level (fun _ => "WHERE")
           example_inner example_sum 1 EXPR_KIND_HAVING false).
  - vm_compute. reflexivity.
  - reflexivity.
Defined.

End AggLevelExampleFacts.

(** ** The columns of the working table of a START WITH rewrite *)

Section SwColumnsFacts.
Import StartWith SwColumns.

Variable NAMEDATALEN : Z.

Lemma strlen_append (a b : string) :
  strlen (String.append a b) = strlen a + strlen b.
Proof.
  unfold strlen. induction a as [|c a IH]; cbn [String.append String.length]; lia.
Qed.

Lemma after_last_append (c : Ascii.ascii) (alias column : string) :
  after_last c column = None ->
  after_last c (String.append alias (String c column)) = Some column.
Proof.
  intros Hnone. induction alias as [|a alias IH]; cbn [String.append after_last].
  - now rewrite Hnone, Ascii.eqb_refl.
  - now rewrite IH.
Qed.

Lemma ReplaceSWCTEOutSrting_plain (p_rtable : list RangeTblEntry)
    (origin_index : list Z) (label : string) :
  after_last at_sign label = None ->
  Forall (fun index => exists old_rte,
            rt_fetch index p_rtable = Some old_rte /\ has_relname old_rte = true)
    origin_index ->
  ReplaceSWCTEOutSrting p_rtable origin_index label = Ok label.
Proof.
  intros Hnone. induction 1 as [|index rest (old_rte & Hf & Hr) _ IH];
    cbn [ReplaceSWCTEOutSrting]; [reflexivity|].
  now rewrite Hf, Hr, Hnone.
Qed.

(** X16.  The name of a column of the working table leads back to the
    column: a name that makeStartWithDummayColname builds from a relation name
    and a column name is shorter than NAMEDATALEN, and
    ReplaceSWCTEOutSrting, for an entry with at least one origin index,
    recovers the column name from it, provided that the column name holds no
    '@' and the origin indexes point at entries of the range table. *)
Theorem dummy_column_name_leads_back_to_the_column
    (alias column name : string) (p_rtable : list RangeTblEntry) (origin_index : list Z) :
  makeStartWithDummayColname NAMEDATALEN alias column = Ok name ->
  after_last at_sign column = None ->
  origin_index <> [] ->
  Forall (fun index => exists old_rte,
            rt_fetch index p_rtable = Some old_rte /\ has_relname old_rte = true)
    origin_index ->
  strlen name < NAMEDATALEN
  /\ ReplaceSWCTEOutSrting p_rtable origin_index name = Ok column.
Proof.
  unfold makeStartWithDummayColname. intros Hname Hnone Hne Hvalid.
  destruct (Z.geb_spec (strlen alias + strlen column + strlen "@") NAMEDATALEN)
    as [Hge|Hlt]; [discriminate|].
  inversion Hname; subst name. clear Hname. split.
  - rewrite strlen_append. unfold strlen in *.
    cbn [String.append String.length] in *. lia.
  - destruct origin_index as [|index rest]; [contradiction|].
    inversion Hvalid as [|? ? (old_rte & Hf & Hr) Hrest]; subst.
    cbn [ReplaceSWCTEOutSrting]. rewrite Hf, Hr.
    fold at_sign. rewrite (after_last_append at_sign alias column Hnone).
    exact (ReplaceSWCTEOutSrting_plain p_rtable rest column Hnone Hrest).
Qed.

(** *** The targets of the two branches *)

Lemma fold_left_error {A B : Type} (f : res A -> B -> res A) (l : list B) (e : ErrorData) :
  (forall b, f (Error e) b = Error e) -> fold_left f l (Error e) = Error e.
Proof.
  intros Hf. induction l as [|b l IH]; cbn [fold_left]; [reflexivity|].
  now rewrite Hf.
Qed.

Lemma expand_columns_outcome (info : StartWithTargetRelInfo) (cols : list string) :
  forall targetlist,
    match
      fold_left
        (fun (acc : res (list Node)) (colname : string) =>
           do targetlist <- acc;
           if strlen colname =? 0 then Ok targetlist
           else
             do name <- makeStartWithDummayColname NAMEDATALEN (target_relname info)
                          colname;
             Ok (targetlist
                   ++ [ResTarget (Some name)
                         (Some (ColumnRef [target_relname info; colname] false (-1)))
                         (-1)]))
        cols (Ok targetlist)
    with
    | Ok targetlist' =>
        targetlist'
        = targetlist
          ++ map (expanded_target info)
               (filter (fun colname => negb (strlen colname =? 0)) cols)
        /\ Forall (name_fits NAMEDATALEN info)
             (filter (fun colname => negb (strlen colname =? 0)) cols)
    | Error e =>
        exists colname,
          In colname (filter (fun colname => negb (strlen colname =? 0)) cols)
          /\ ~ name_fits NAMEDATALEN info colname
          /\ e = err_dummy_colname_too_long (target_relname info) colname
    end.
Proof.
  induction cols as [|c cols IH]; intros targetlist; cbn [fold_left filter].
  - rewrite app_nil_r. split; [reflexivity|constructor].
  - cbn [bind]. destruct (strlen c =? 0) eqn:E0; cbn [negb]; [apply IH|].
    unfold makeStartWithDummayColname.
    destruct (Z.geb_spec (strlen (target_relname info) + strlen c + strlen "@")
                NAMEDATALEN) as [Hge|Hlt]; cbn [bind].
    + rewrite fold_left_error by reflexivity.
      exists c. split; [now left|]. split; [|reflexivity].
      unfold name_fits. change (strlen "@") with 1 in Hge. lia.
    + specialize (IH (targetlist
                        ++ [ResTarget (Some (String.append (target_relname info)
                                               (String.append "@" c)))
                              (Some (ColumnRef [target_relname info; c] false (-1)))
                              (-1)])).
      destruct (fold_left _ cols _) as [tl'|e].
      * destruct IH as [-> Hfits]. split.
        -- rewrite <- app_assoc. reflexivity.
        -- constructor; [|exact Hfits]. unfold name_fits.
           change (strlen "@") with 1 in Hlt. lia.
      * destruct IH as (colname & Hin & Hnf & He).
        exists colname. split; [now right|auto].
Qed.

(** X17.  The target list of the two branches has one entry for every
    column of every target that is not dropped, in order: the column
    qualified by the name that stands for the target, under the name made of
    the two around '@'.  expandAllTargetList fails exactly when one of these
    names would not be shorter than NAMEDATALEN, with the error that names
    the relation and the column. *)
Theorem branch_targets_are_the_live_columns
    (targetRelInfoList : list StartWithTargetRelInfo) :
  match expandAllTargetList NAMEDATALEN targetRelInfoList with
  | Ok targetlist =>
      targetlist
      = flat_map (fun info => map (expanded_target info) (live_columns info))
          targetRelInfoList
      /\ Forall (fun info => Forall (name_fits NAMEDATALEN info) (live_columns info))
           targetRelInfoList
  | Error e =>
      exists info colname,
        In info targetRelInfoList /\ In colname (live_columns info)
        /\ ~ name_fits NAMEDATALEN info colname
        /\ e = err_dummy_colname_too_long (target_relname info) colname
  end.
Proof.
  unfold expandAllTargetList.
  change (@nil Node) with
    (@nil Node ++ flat_map (fun info => map (expanded_target info) (live_columns info)) [])
    at 1.
  assert (Hgen : forall infos targetlist,
    match
      fold_left
        (fun (acc : res (list Node)) (info : StartWithTargetRelInfo) =>
           do targetlist <- acc;
           fold_left
             (fun (acc : res (list Node)) (colname : string) =>
                do targetlist <- acc;
                if strlen colname =? 0 then Ok targetlist
                else
                  do name <- makeStartWithDummayColname NAMEDATALEN
                               (target_relname info) colname;
                  Ok (targetlist
                        ++ [ResTarget (Some name)
                              (Some (ColumnRef [target_relname info; colname] false
                                       (-1)))
                              (-1)]))
             (colnames (eref (rte info))) (Ok targetlist))
        infos (Ok targetlist)
    with
    | Ok targetlist' =>
        targetlist'
        = targetlist
          ++ flat_map (fun info => map (expanded_target info) (live_columns info)) infos
        /\ Forall (fun info => Forall (name_fits NAMEDATALEN info) (live_columns info))
             infos
    | Error e =>
        exists info colname,
          In info infos /\ In colname (live_columns info)
          /\ ~ name_fits NAMEDATALEN info colname
          /\ e = err_dummy_colname_too_long (target_relname info) colname
    end).
  { induction infos as [|info infos IH]; intros targetlist; cbn [fold_left flat_map].
    - rewrite app_nil_r. split; [reflexivity|constructor].
    - cbn [bind].
      pose proof (expand_columns_outcome info (colnames (eref (rte info))) targetlist)
        as Hcols.
      destruct (fold_left _ (colnames (eref (rte info))) (Ok targetlist)) as [tl1|e].
      + destruct Hcols as [-> Hfits]. specialize (IH (targetlist
            ++ map (expanded_target info)
                 (filter (fun colname => negb (strlen colname =? 0))
                    (colnames (eref (rte info)))))).
        destruct (fold_left _ infos _) as [tl2|e].
        * destruct IH as [-> Hrest]. split.
          -- rewrite <- app_assoc. reflexivity.
          -- constructor; assumption.
        * destruct IH as (i & c & Hi & Hc & Hnf & He).
          exists i, c. split; [now right|auto].
      + rewrite fold_left_error by reflexivity.
        destruct Hcols as (c & Hc & Hnf & He).
        exists info, c. split; [now left|auto]. }
  exact (Hgen targetRelInfoList []).
Qed.

End SwColumnsFacts.

Section SwColumnsExampleFacts.
Import StartWith SwColumns SwColumnsExamples.

Lemma dummy_column_name_leads_back_to_the_column_witness :
  strlen "t@pid" < 64
  /\ ReplaceSWCTEOutSrting example_rtable [1] "t@pid" = Ok "pid".
Proof.
  apply (dummy_column_name_leads_back_to_the_column 64 "t" "pid" "t@pid"
           example_rtable [1]).
  - reflexivity.
  - reflexivity.
  - discriminate.
  - constructor; [|constructor]. eexists. split; reflexivity.
Defined.

End SwColumnsExampleFacts.

(** ** The conjuncts of CONNECT BY, the kind of the clause and the prior keys *)

Section SwClauseFacts.
Import StartWith SwColumns.

Variable NAMEDATALEN : Z.
Variable CONNECT_BY_ROWNUM_FAKEVALUE CONNECT_BY_LEVEL_FAKEVALUE : Z.
Variable GetStartWithFakeConstValue : Value -> Z.
Variable makeBoolAConst : bool -> Z -> Node.
Variable equal_info : StartWithTargetRelInfo -> StartWithTargetRelInfo -> bool.
Variable transformColumnRef : ParseState -> Node -> res (option Agg.Node).

#[local] Abbreviation Handle :=
  (HandleSWCBColumnRef NAMEDATALEN equal_info transformColumnRef).
#[local] Abbreviation Walker :=
  (StartWithWalker NAMEDATALEN CONNECT_BY_ROWNUM_FAKEVALUE CONNECT_BY_LEVEL_FAKEVALUE
     GetStartWithFakeConstValue equal_info transformColumnRef).
#[local] Abbreviation Walker_opt :=
  (StartWithWalker_opt NAMEDATALEN CONNECT_BY_ROWNUM_FAKEVALUE CONNECT_BY_LEVEL_FAKEVALUE
     GetStartWithFakeConstValue equal_info transformColumnRef).
#[local] Abbreviation flatten :=
  (flattenConnectByExpr CONNECT_BY_ROWNUM_FAKEVALUE CONNECT_BY_LEVEL_FAKEVALUE).
#[local] Abbreviation found_in :=
  (found_in CONNECT_BY_ROWNUM_FAKEVALUE CONNECT_BY_LEVEL_FAKEVALUE).
#[local] Abbreviation on_level :=
  (on_level CONNECT_BY_ROWNUM_FAKEVALUE CONNECT_BY_LEVEL_FAKEVALUE).
#[local] Abbreviation classified :=
  (classified CONNECT_BY_ROWNUM_FAKEVALUE CONNECT_BY_LEVEL_FAKEVALUE).
#[local] Abbreviation clause_exprs :=
  (transform_clause_exprs NAMEDATALEN CONNECT_BY_ROWNUM_FAKEVALUE
     CONNECT_BY_LEVEL_FAKEVALUE GetStartWithFakeConstValue equal_info transformColumnRef).
#[local] Abbreviation transformClause :=
  (transformStartWithClause NAMEDATALEN CONNECT_BY_ROWNUM_FAKEVALUE
     CONNECT_BY_LEVEL_FAKEVALUE GetStartWithFakeConstValue equal_info transformColumnRef).

(** *** The split of the CONNECT BY condition *)

Lemma flatten_conjunct (context : StartWithTransformContext) (expr : Node) :
  is_and expr = false ->
  flatten context expr
  = do '(hasRownumOrLevel, hasPrior) <- found_in expr;
    if hasRownumOrLevel && hasPrior then Error err_prior_with_rownum_or_level
    else if hasRownumOrLevel
    then Ok (set_rownum_or_level_list context (rownum_or_level_list context ++ [expr]))
    else Ok (set_normal_list context (normal_list context ++ [expr])).
Proof.
  intros Hand. destruct expr; try reflexivity.
  destruct kind; try reflexivity. discriminate.
Qed.

Lemma conjuncts_conjunct (expr : Node) : is_and expr = false -> conjuncts expr = [expr].
Proof.
  intros Hand. destruct expr; try reflexivity.
  destruct kind; try reflexivity. discriminate.
Qed.

(** What the flattening leaves of the context. *)
#[local] Abbreviation flattened context context' expr :=
  (rownum_or_level_list context'
   = rownum_or_level_list context ++ filter on_level (conjuncts expr)
   /\ normal_list context'
      = normal_list context ++ filter (fun e => negb (on_level e)) (conjuncts expr)
   /\ Forall classified (conjuncts expr)
   /\ connect_by_type context' = connect_by_type context
   /\ connectby_prior_name context' = connectby_prior_name context).

Lemma flatten_effect (expr : Node) :
  forall context context',
    flatten context expr = Ok context' -> flattened context context' expr.
Proof.
  induction expr as [expr IH] using Node_children_ind. intros context context' H.
  destruct (is_and expr) eqn:Eand.
  - destruct expr; try discriminate. destruct kind; try discriminate.
    cbn [flattenConnectByExpr] in H. cbn [children conjuncts] in IH |- *.
    apply Forall_app in IH. destruct IH as [IHl IHr].
    assert (Hl : exists c1,
               match lexpr with
               | Some l => flatten context l
               | None => Ok context
               end = Ok c1
               /\ rownum_or_level_list c1
                  = rownum_or_level_list context
                    ++ filter on_level
                         match lexpr with Some l => conjuncts l | None => [] end
               /\ normal_list c1
                  = normal_list context
                    ++ filter (fun e => negb (on_level e))
                         match lexpr with Some l => conjuncts l | None => [] end
               /\ Forall classified
                    match lexpr with Some l => conjuncts l | None => [] end
               /\ connect_by_type c1 = connect_by_type context
               /\ connectby_prior_name c1 = connectby_prior_name context).
    { destruct lexpr as [l|]; cbn [opt_list] in IHl.
      - inversion IHl as [|? ? Hl0 _]; subst.
        destruct (flatten context l) as [c1|] eqn:E; [|discriminate].
        exists c1. split; [reflexivity|]. exact (Hl0 _ _ E).
      - exists context. cbn [filter]. rewrite !app_nil_r. repeat split. constructor. }
    destruct Hl as (c1 & E1 & Hl1 & Hn1 & Hc1 & Ht1 & Hp1).
    rewrite E1 in H. cbn [bind] in H.
    rewrite !filter_app, !app_assoc, <- Hl1, <- Hn1, <- Ht1, <- Hp1.
    destruct rexpr as [r|]; cbn [opt_list] in IHr.
    + inversion IHr as [|? ? Hr0 _]; subst.
      destruct (Hr0 _ _ H) as (Hl2 & Hn2 & Hc2 & Ht2 & Hp2).
      repeat split; auto. apply Forall_app. auto.
    + inversion H; subst. cbn [filter]. rewrite !app_nil_r.
      repeat split; auto.
  - rewrite (flatten_conjunct context expr Eand) in H.
    rewrite (conjuncts_conjunct expr Eand). cbn [filter].
    unfold SwColumns.classified, SwColumns.on_level.
    destruct (found_in expr) as [[l p]|] eqn:E; cbn [bind] in H; [|discriminate].
    assert (Hc : Forall classified [expr]).
    { constructor; [|constructor]. exists l, p. split; [exact E|].
      destruct l, p; try reflexivity. discriminate H. }
    destruct l, p; cbn [andb negb] in H |- *; try discriminate;
      inversion H; subst; cbn; rewrite ?app_nil_r;
      repeat split; try reflexivity; exact Hc.
Qed.

Lemma conjuncts_are_conjuncts (expr : Node) :
  Forall (fun e => is_and e = false) (conjuncts expr).
Proof.
  induction expr as [expr IH] using Node_children_ind.
  destruct (is_and expr) eqn:Eand.
  - destruct expr; try discriminate. destruct kind; try discriminate.
    cbn [children conjuncts] in IH |- *.
    apply Forall_app in IH. destruct IH as [IHl IHr]. apply Forall_app. split.
    + destruct lexpr; [now inversion IHl|constructor].
    + destruct rexpr; [now inversion IHr|constructor].
  - rewrite (conjuncts_conjunct expr Eand). repeat constructor. exact Eand.
Qed.

Lemma conjuncts_buildExprUsingAnd (l : list Node) :
  Forall (fun e => is_and e = false) l -> conjuncts_opt (buildExprUsingAnd l) = l.
Proof.
  induction 1 as [|x l Hx _ IH]; cbn [buildExprUsingAnd]; [reflexivity|].
  destruct (buildExprUsingAnd l) as [nextExpr|] eqn:E.
  - cbn [conjuncts_opt makeA_Expr conjuncts] in *.
    now rewrite (conjuncts_conjunct x Hx), IH.
  - cbn [conjuncts_opt] in *. subst l. exact (conjuncts_conjunct x Hx).
Qed.

Lemma Forall_filter {A : Type} (P : A -> Prop) (f : A -> bool) (l : list A) :
  Forall P l -> Forall P (filter f l).
Proof.
  intros H. apply Forall_forall. intros x Hin. apply filter_In in Hin.
  rewrite Forall_forall in H. now apply H.
Qed.

(** X18.  The CONNECT BY condition is split without loss and in order: when
    flattenConnectByExpr succeeds, the conjuncts of the condition in which
    rowNumOrLevelWalker finds LEVEL or ROWNUM are appended to
    rownum_or_level_list and the others to normal_list, each in the order of
    the condition; in no conjunct was a PRIOR found together with LEVEL or
    ROWNUM; and the conjuncts of the condition that buildExprUsingAnd builds
    from either list are the members of that list again. *)
Theorem connect_by_condition_is_split_in_order
    (context context' : StartWithTransformContext) (expr : Node) :
  flatten context expr = Ok context' ->
  rownum_or_level_list context'
  = rownum_or_level_list context ++ filter on_level (conjuncts expr)
  /\ normal_list context'
     = normal_list context ++ filter (fun e => negb (on_level e)) (conjuncts expr)
  /\ Forall classified (conjuncts expr)
  /\ conjuncts_opt (buildExprUsingAnd (filter on_level (conjuncts expr)))
     = filter on_level (conjuncts expr)
  /\ conjuncts_opt
       (buildExprUsingAnd (filter (fun e => negb (on_level e)) (conjuncts expr)))
     = filter (fun e => negb (on_level e)) (conjuncts expr).
Proof.
  intros H. destruct (flatten_effect expr _ _ H) as (Hl & Hn & Hc & _ & _).
  repeat split; auto;
    apply conjuncts_buildExprUsingAnd, Forall_filter, conjuncts_are_conjuncts.
Qed.

(** *** What the handling of a column reference does to the context *)

Lemma makeStartWithDummayColname_dummy_name (alias column dummy : string) :
  makeStartWithDummayColname NAMEDATALEN alias column = Ok dummy ->
  dummy_name NAMEDATALEN dummy.
Proof.
  unfold makeStartWithDummayColname, dummy_name. intros H.
  destruct (Z.geb_spec (strlen alias + strlen column + strlen "@") NAMEDATALEN)
    as [Hge|Hlt]; [discriminate|].
  injection H as <-. split; [|exists alias, column; reflexivity].
  rewrite strlen_append. pose proof (strlen_append "@" column) as Hat.
  cbn [String.append] in Hat |- *. lia.
Qed.

Lemma HandleSWCBColumnRef_effect
    (context context' : StartWithTransformContext) (fields : list string)
    (prior : bool) (location : Z) (column : Node) :
  Handle context fields prior location = Ok (context', column) ->
  connect_by_type context' = connect_by_type context
  /\ (connectby_prior_name context' = connectby_prior_name context
      \/ exists dummy,
           dummy_name NAMEDATALEN dummy
           /\ connectby_prior_name context' = connectby_prior_name context ++ [dummy]).
Proof.
  unfold HandleSWCBColumnRef. intros H.
  destruct (pg_strcasecmp_eq _ _); [inversion H; auto|].
  destruct (preSkipPLSQLParams _ _ && negb prior); [inversion H; auto|].
  destruct (transformColumnRef _ _) as [[preResult|]|]; cbn [bind] in H;
    [|inversion H; auto|discriminate].
  destruct (list_length fields =? 1).
  - destruct (ExtractColumnRefStartInfo _ _ _ _) as [[result fields']|];
      cbn [bind] in H; [|discriminate].
    destruct prior; cbn [negb] in H.
    + destruct (list_length fields' <=? 1); [discriminate|].
      destruct (makeStartWithDummayColname _ _ _) as [dummy|] eqn:Ed; [|discriminate].
      cbn [bind] in H. apply makeStartWithDummayColname_dummy_name in Ed.
      inversion H; subst; clear H; cbn; destruct (is_where context); cbn;
        (split; [reflexivity|right; eauto]).
    + inversion H; subst; clear H; cbn; destruct (is_where context); cbn; auto.
  - destruct (list_length fields =? 2); [|discriminate].
    destruct (ExtractColumnRefStartInfo _ _ _ _) as [[result fields']|];
      cbn [bind] in H; [|discriminate].
    destruct prior.
    + destruct (makeStartWithDummayColname _ _ _) as [dummy|] eqn:Ed; [|discriminate].
      cbn [bind] in H. apply makeStartWithDummayColname_dummy_name in Ed.
      inversion H; subst; clear H; cbn; destruct (is_where context); cbn;
        (split; [reflexivity|right; eauto]).
    + inversion H; subst; clear H; cbn; destruct (is_where context); cbn; auto.
Qed.

(** *** The kind of the clause *)

(** A walk leaves a known kind known. *)
#[local] Abbreviation stays_known c c' :=
  (known_type (connect_by_type c) -> known_type (connect_by_type c')).

Lemma StartWithWalker_known (expr : Node) :
  keeps (fun c c' => stays_known c c') (fun _ => false) Walker expr.
Proof.
  set (R := fun c c' : StartWithTransformContext => stays_known c c').
  set (Q := fun _ : Node => false).
  assert (R_refl : forall c, R c c) by (intros c Hk; exact Hk).
  assert (R_trans : forall c1 c2 c3, R c1 c2 -> R c2 c3 -> R c1 c3)
    by (intros c1 c2 c3 H1 H2 Hk; exact (H2 (H1 Hk))).
  assert (R_Handle : forall context fields prior location context' column,
             Q (ColumnRef fields prior location) = false ->
             Handle context fields prior location = Ok (context', column) ->
             R context context').
  { intros context fields prior location context' column _ Hh Hk.
    destruct (HandleSWCBColumnRef_effect _ _ _ _ _ _ Hh) as [-> _]. exact Hk. }
  assert (R_level : forall c, R c (set_connect_by_type c CONNECT_BY_LEVEL))
    by (intros c _; right; left; reflexivity).
  assert (R_rownum : forall c, R c (set_connect_by_type c CONNECT_BY_ROWNUM))
    by (intros c _; right; right; left; reflexivity).
  assert (R_mixed : forall c, R c (set_connect_by_type c CONNECT_BY_MIXED_LEVEL))
    by (intros c _; right; right; right; reflexivity).
  induction expr as [expr IH] using Node_children_ind.
  intros H context context' expr' Hw.
  pose proof (walk_operand_keeps NAMEDATALEN equal_info transformColumnRef R Q
                R_refl R_Handle Walker) as Harg.
  pose proof (walk_operands_keeps R Q R_refl R_trans Walker) as Hargs.
  assert (Hone : forall arg c c' arg',
    Forall (keeps R Q Walker) (opt_list arg) ->
    Forall (fun c => Q c = false) (opt_list arg) ->
    forall (k : option Node -> Node),
      (do '(context, arg) <-
         walk_operand NAMEDATALEN equal_info transformColumnRef Walker c arg;
       Ok (context, k arg)) = Ok (c', arg') ->
      R c c').
  { intros arg c c' arg' HF Hp k Hk.
    destruct (walk_operand _ _ _ Walker c arg) as [[c1 a1]|] eqn:E; [|discriminate].
    inversion Hk; subst. exact (Harg _ HF Hp _ _ _ E). }
  assert (Hlist : forall l c c' l',
    Forall (keeps R Q Walker) l ->
    Forall (fun c => Q c = false) l ->
    forall (k : list Node -> Node),
      (do '(context, l) <- walk_operands Walker c l; Ok (context, k l)) = Ok (c', l') ->
      R c c').
  { intros l c c' l' HF Hp k Hk.
    destruct (walk_operands Walker c l) as [[c1 a1]|] eqn:E; [|discriminate].
    inversion Hk; subst. exact (Hargs _ HF Hp _ _ _ E). }
  assert (Hq : Forall (fun c => Q c = false) (children expr))
    by (apply Forall_forall; reflexivity).
  destruct expr; cbn [StartWithWalker] in Hw; try discriminate;
    cbn [children] in IH, Hq;
    try (inversion Hw; subst; now apply R_refl);
    try (eapply Hone; [| |exact Hw]; assumption);
    try (eapply Hlist; [| |exact Hw]; assumption).
  - exact (R_Handle _ _ _ _ _ _ H Hw).
  - destruct (GetStartWithFakeConstValue val =? _);
      [inversion Hw; subst; apply R_level|].
    destruct (GetStartWithFakeConstValue val =? _); inversion Hw; subst;
      [apply R_rownum | apply R_refl].
  - apply Forall_app in IH. destruct IH as [IHl IHr].
    apply Forall_app in Hq. destruct Hq as [Hl Hr].
    assert (Hboth :
      (do '(context, left_expr) <-
         walk_operand NAMEDATALEN equal_info transformColumnRef Walker context lexpr;
       do '(context, right_expr) <-
         walk_operand NAMEDATALEN equal_info transformColumnRef Walker context rexpr;
       Ok (context, A_Expr kind name left_expr right_expr location))
      = Ok (context', expr') ->
      R context context').
    { clear Hw. intros Hw.
      destruct (walk_operand _ _ _ Walker context lexpr) as [[c1 l1]|] eqn:E1;
        [|discriminate]. cbn [bind] in Hw.
      apply (R_trans _ c1).
      - exact (Harg _ IHl Hl _ _ _ E1).
      - exact (Hone _ _ _ _ IHr Hr _ Hw). }
    destruct kind; try discriminate; try exact (Hboth Hw).
    + destruct lexpr as [[]|]; try exact (Hboth Hw);
        try (destruct (any_level _);
             [inversion Hw; subst; apply R_mixed | exact (Hboth Hw)]).
      inversion Hw; subst; apply R_mixed.
    + exact (Hone _ _ _ _ IHr Hr _ Hw).
  - apply Forall_app in IH. destruct IH as [IHl IHr].
    apply Forall_app in Hq. destruct Hq as [Hl Hr].
    exact (Hone _ _ _ _ IHl Hl _ Hw).
  - apply Forall_app in IH. destruct IH as [IHl IHr].
    apply Forall_app in Hq. destruct Hq as [Hl Hr].
    exact (Hone _ _ _ _ IHl Hl _ Hw).
Qed.

Lemma StartWithWalker_opt_known (expr : option Node)
    (context context' : StartWithTransformContext) (expr' : option Node) :
  Walker_opt context expr = Ok (context', expr') -> stays_known context context'.
Proof.
  intros Hw. destruct expr as [e|]; cbn in Hw.
  - destruct (Walker context e) as [[c1 e1]|] eqn:E; [|discriminate].
    inversion Hw; subst. exact (StartWithWalker_known e eq_refl _ _ _ E).
  - inversion Hw; subst. auto.
Qed.

(** A walk adds dummy names only to the prior keys. *)
#[local] Abbreviation stays_dummy c c' :=
  (Forall (dummy_name NAMEDATALEN) (connectby_prior_name c) ->
   Forall (dummy_name NAMEDATALEN) (connectby_prior_name c')).

Lemma StartWithWalker_opt_dummy (expr : option Node)
    (context context' : StartWithTransformContext) (expr' : option Node) :
  Walker_opt context expr = Ok (context', expr') -> stays_dummy context context'.
Proof.
  apply (StartWithWalker_opt_keeps NAMEDATALEN CONNECT_BY_ROWNUM_FAKEVALUE
           CONNECT_BY_LEVEL_FAKEVALUE GetStartWithFakeConstValue equal_info
           transformColumnRef (fun c c' => stays_dummy c c') (fun _ => false)).
  - auto.
  - auto.
  - intros c t H. exact H.
  - intros node _. apply Forall_forall. reflexivity.
  - intros c fields prior location c' column _ Hh Hd.
    destruct (HandleSWCBColumnRef_effect _ _ _ _ _ _ Hh) as [_ [->|[dummy [Hdn ->]]]];
      [exact Hd|].
    apply Forall_app. split; [exact Hd|]. constructor; [exact Hdn|constructor].
  - now destruct expr.
Qed.

Lemma transform_clause_exprs_effect
    (context context' : StartWithTransformContext)
    (whereClause' startWithExpr' connectByExpr' : option Node)
    (siblingsOrderBy' : list Node) (nocycle' : bool) :
  clause_exprs context whereClause' startWithExpr' connectByExpr' siblingsOrderBy'
    nocycle' = Ok context' ->
  known_type (connect_by_type context')
  /\ stays_dummy context context'.
Proof.
  unfold transform_clause_exprs. intros H.
  destruct (checkConnectByExprValidity _ _ _) as [[]|]; cbn [bind] in H; [|discriminate].
  set (c0 := set_relInfoList _ _) in H.
  assert (H0 : known_type (connect_by_type c0)
               /\ connectby_prior_name c0 = connectby_prior_name context).
  { split; [left; reflexivity|reflexivity]. }
  clearbody c0. destruct H0 as [Hk0 Hn0].
  destruct (match option_map _ connectByExpr' with
            | Some e => flatten c0 e
            | None => Ok c0
            end) as [c1|] eqn:E1; cbn [bind] in H; [|discriminate].
  assert (H1 : known_type (connect_by_type c1)
               /\ connectby_prior_name c1 = connectby_prior_name context).
  { destruct (option_map _ connectByExpr') as [e|].
    - destruct (flatten_effect e _ _ E1) as (_ & _ & _ & Ht & Hp).
      rewrite Ht, Hp. auto.
    - inversion E1; subst. auto. }
  clear E1 Hk0 Hn0. destruct H1 as [Hk1 Hn1].
  set (c2 := set_connectByExpr _ _) in H.
  assert (H2 : known_type (connect_by_type c2)
               /\ connectby_prior_name c2 = connectby_prior_name context).
  { split; [exact Hk1|exact Hn1]. }
  clearbody c2. clear Hk1 Hn1. destruct H2 as [Hk2 Hn2].
  destruct (Walker_opt c2 startWithExpr') as [[c3 sw]|] eqn:E3; cbn [bind] in H;
    [|discriminate].
  pose proof (StartWithWalker_opt_known _ _ _ _ E3 Hk2) as Hk3.
  pose proof (StartWithWalker_opt_dummy _ _ _ _ E3) as Hd3.
  set (c4 := set_startWithExpr c3 sw) in H.
  destruct (Walker_opt c4 (connectByLevelExpr c4)) as [[c5 lv]|] eqn:E5;
    cbn [bind] in H; [|discriminate].
  pose proof (StartWithWalker_opt_known _ _ _ _ E5 Hk3) as Hk5.
  pose proof (StartWithWalker_opt_dummy _ _ _ _ E5) as Hd5.
  set (c6 := set_connectByLevelExpr c5 lv) in H.
  destruct (Walker_opt c6 (connectByExpr c6)) as [[c7 cb]|] eqn:E7;
    cbn [bind] in H; [|discriminate].
  pose proof (StartWithWalker_opt_known _ _ _ _ E7 Hk5) as Hk7.
  pose proof (StartWithWalker_opt_dummy _ _ _ _ E7) as Hd7.
  inversion H; subst context'. clear H.
  split.
  - destruct (negb _); exact Hk7.
  - intros Hd. rewrite <- Hn2 in Hd.
    destruct (negb _); exact (Hd7 (Hd5 (Hd3 Hd))).
Qed.

(** X19.  The analysis of a START WITH clause leaves a kind of CONNECT BY
    that the rewriting knows: after transformStartWithClause the kind is
    PRIOR, LEVEL, ROWNUM or MIXED_LEVEL, so on such a context
    CreateStartWithCTEInnerBranch fails only where the building of the joined
    table or the expansion of the target list fails, and never for an
    unrecognized kind. *)
Theorem analysed_clause_has_a_known_kind
    (context context' : StartWithTransformContext) (stmt : Node)
    (pstate : ParseState) (relInfoList : list StartWithTargetRelInfo)
    (connectByExpr' whereClause' : option Node) :
  transformClause context (Some stmt) = Ok context' ->
  known_type (connect_by_type context')
  /\ forall e,
       CreateStartWithCTEInnerBranch NAMEDATALEN makeBoolAConst pstate context'
         relInfoList connectByExpr' whereClause' = Error e ->
       origin_table_of makeBoolAConst context' relInfoList whereClause' = Error e
       \/ expandAllTargetList NAMEDATALEN relInfoList = Error e.
Proof.
  unfold transformStartWithClause. intros H.
  destruct stmt; try discriminate.
  destruct startWithClause as [[]|]; try discriminate.
  destruct (isForbiddenClausesPresent _); [discriminate|].
  destruct (clause_exprs _ _ _ _ _ _) as [c|] eqn:E; cbn [bind] in H; [|discriminate].
  destruct (isSome _ && isNil _); [discriminate|]. inversion H; subst c. clear H.
  destruct (transform_clause_exprs_effect _ _ _ _ _ _ _ E) as [Hk _].
  split; [exact Hk|].
  unfold CreateStartWithCTEInnerBranch. intros e.
  destruct (AddWithClauseToBranch pstate relInfoList) as [pstate0 with_clause].
  destruct (origin_table_of _ _ _ _) as [origin_table|e0]; cbn [bind].
  - destruct Hk as [->|[->|[->| ->]]];
      destruct (expandAllTargetList _ _) as [targets|e1]; cbn [bind];
      intros Heq; inversion Heq; auto.
  - intros Heq; inversion Heq; auto.
Qed.

(** X20.  The prior keys are dummy column names: every name that
    transformStartWithClause records in connectby_prior_name, beyond those
    that the context held before, was made by makeStartWithDummayColname: it
    is a relation name and a column name around [@], and shorter than
    NAMEDATALEN. *)
Theorem prior_keys_are_dummy_column_names
    (context context' : StartWithTransformContext) (stmt : Node) :
  Forall (dummy_name NAMEDATALEN) (connectby_prior_name context) ->
  transformClause context (Some stmt) = Ok context' ->
  Forall (dummy_name NAMEDATALEN) (connectby_prior_name context').
Proof.
  unfold transformStartWithClause. intros Hd H.
  destruct stmt; try discriminate.
  destruct startWithClause as [[]|]; try discriminate.
  destruct (isForbiddenClausesPresent _); [discriminate|].
  destruct (clause_exprs _ _ _ _ _ _) as [c|] eqn:E; cbn [bind] in H; [|discriminate].
  destruct (isSome _ && isNil _); [discriminate|]. inversion H; subst c. clear H.
  destruct (transform_clause_exprs_effect _ _ _ _ _ _ _ E) as [_ Hs].
  exact (Hs Hd).
Qed.

End SwClauseFacts.

Section SwClauseExampleFacts.
Import StartWith StartWithExamples SwColumns SwClauseExamples.

Lemma connect_by_condition_is_split_in_order_witness :
  flattenConnectByExpr (-2) (-1) example_unflattened example_condition
  = Ok example_flattened
  /\ rownum_or_level_list example_flattened = [example_level_below_3]
  /\ normal_list example_flattened = [example_connect_by true].
Proof.
  assert (H : flattenConnectByExpr (-2) (-1) example_unflattened example_condition
              = Ok example_flattened) by (vm_compute; reflexivity).
  split; [exact H|].
  destruct (connect_by_condition_is_split_in_order (-2) (-1) _ _ _ H) as (Hl & Hn & _).
  split; [rewrite Hl|rewrite Hn]; vm_compute; reflexivity.
Defined.

Lemma analysed_clause_has_a_known_kind_witness :
  connect_by_type example_context = CONNECT_BY_PRIOR
  /\ known_type (connect_by_type example_context).
Proof.
  split; [vm_compute; reflexivity|].
  refine (proj1 (analysed_clause_has_a_known_kind 64 (-2) (-1)
                   example_GetStartWithFakeConstValue example_makeBoolAConst
                   (fun _ _ => true) example_transformColumnRef
                   example_unflattened example_context example_statement
                   (example_pstate example_statement) [example_info] None None _)).
  vm_compute. reflexivity.
Defined.

Lemma prior_keys_are_dummy_column_names_witness :
  connectby_prior_name example_context = ["t@id"]
  /\ Forall (dummy_name 64) (connectby_prior_name example_context).
Proof.
  split; [vm_compute; reflexivity|].
  apply (prior_keys_are_dummy_column_names 64 (-2) (-1)
           example_GetStartWithFakeConstValue (fun _ _ => true)
           example_transformColumnRef example_unflattened example_context
           example_statement).
  - constructor.
  - vm_compute. reflexivity.
Defined.

End SwClauseExampleFacts.

(** ** The entry of the rewriting *)

Section SwEntryFacts.
Import StartWith SwColumns SwEntry.

Variable NAMEDATALEN : Z.
Variable CONNECT_BY_ROWNUM_FAKEVALUE CONNECT_BY_LEVEL_FAKEVALUE : Z.
Variable GetStartWithFakeConstValue : Value -> Z.
Variable makeBoolAConst : bool -> Z -> Node.
Variable equal : Node -> Node -> bool.
Variable equal_info : StartWithTargetRelInfo -> StartWithTargetRelInfo -> bool.
Variable transformColumnRef : ParseState -> Node -> res (option Agg.Node).
Variable transformWhereClause : ParseState -> option Node -> res (option Agg.Node).
Variable assign_expr_collations : ParseState -> option Agg.Node -> option Agg.Node.
Variable transformWithClause : ParseState -> Node -> res (list Node * ParseState).

#[local] Abbreviation Handle :=
  (HandleSWCBColumnRef NAMEDATALEN equal_info transformColumnRef).
#[local] Abbreviation Walker :=
  (StartWithWalker NAMEDATALEN CONNECT_BY_ROWNUM_FAKEVALUE CONNECT_BY_LEVEL_FAKEVALUE
     GetStartWithFakeConstValue equal_info transformColumnRef).
#[local] Abbreviation Walker_opt :=
  (StartWithWalker_opt NAMEDATALEN CONNECT_BY_ROWNUM_FAKEVALUE CONNECT_BY_LEVEL_FAKEVALUE
     GetStartWithFakeConstValue equal_info transformColumnRef).
#[local] Abbreviation flatten :=
  (flattenConnectByExpr CONNECT_BY_ROWNUM_FAKEVALUE CONNECT_BY_LEVEL_FAKEVALUE).
#[local] Abbreviation on_level :=
  (on_level CONNECT_BY_ROWNUM_FAKEVALUE CONNECT_BY_LEVEL_FAKEVALUE).
#[local] Abbreviation other_quals :=
  (other_quals CONNECT_BY_ROWNUM_FAKEVALUE CONNECT_BY_LEVEL_FAKEVALUE).
#[local] Abbreviation clause_exprs :=
  (transform_clause_exprs NAMEDATALEN CONNECT_BY_ROWNUM_FAKEVALUE
     CONNECT_BY_LEVEL_FAKEVALUE GetStartWithFakeConstValue equal_info transformColumnRef).
#[local] Abbreviation transformClause :=
  (transformStartWithClause NAMEDATALEN CONNECT_BY_ROWNUM_FAKEVALUE
     CONNECT_BY_LEVEL_FAKEVALUE GetStartWithFakeConstValue equal_info transformColumnRef).
#[local] Abbreviation exclude := (walker_to_exclude_non_join_quals makeBoolAConst).
#[local] Abbreviation OuterBranch :=
  (CreateStartWithCTEOuterBranch NAMEDATALEN makeBoolAConst).
#[local] Abbreviation InnerBranch :=
  (CreateStartWithCTEInnerBranch NAMEDATALEN makeBoolAConst).
#[local] Abbreviation CreateCTE :=
  (CreateStartWithCTE equal transformWhereClause assign_expr_collations
     transformWithClause).
#[local] Abbreviation transformStartWith' :=
  (transformStartWith NAMEDATALEN CONNECT_BY_ROWNUM_FAKEVALUE CONNECT_BY_LEVEL_FAKEVALUE
     GetStartWithFakeConstValue makeBoolAConst equal equal_info transformColumnRef
     transformWhereClause assign_expr_collations transformWithClause).

(** *** The targets that a column reference adds *)

Lemma list_concat_unique_app {A : Type} (eq : A -> A -> bool) (list2 : list A) :
  forall list1 : list A,
    exists l, list_concat_unique eq list1 list2 = list1 ++ l
              /\ Forall (fun x => In x list2) l.
Proof.
  unfold list_concat_unique.
  induction list2 as [|a list2 IH]; intros list1; cbn [fold_left].
  - exists []. split; [now rewrite app_nil_r|constructor].
  - destruct (existsb (eq a) list1).
    + destruct (IH list1) as [l [Hl Hin]]. exists l. split; [exact Hl|].
      eapply Forall_impl; [|exact Hin]. intros x Hx. now right.
    + destruct (IH (list1 ++ [a])) as [l [Hl Hin]]. exists (a :: l). split.
      * rewrite Hl, <- app_assoc. reflexivity.
      * constructor; [now left|].
        eapply Forall_impl; [|exact Hin]. intros x Hx. now right.
Qed.

(** One step of the loop of [ExtractColumnRefStartInfo]: the target may be
    added to those found; the relation name and the first field are left, or
    become a name of the target. *)
Lemma extract_step_spec (name : string)
    (relname0 : option string) (colname0 : string) (fields0 : list string)
    (infos0 : list StartWithTargetRelInfo) (info : StartWithTargetRelInfo) :
  match extract_step (relname0, colname0, fields0, infos0) info with
  | (relname1, _, fields1, infos1) =>
      (infos1 = infos0 \/ infos1 = infos0 ++ [info])
      /\ (named name info = false ->
          String.eqb "" name = false ->
          String.eqb (hd "" fields0) name = false ->
          String.eqb (strVal relname0) name = false ->
          String.eqb (hd "" fields1) name = false
          /\ String.eqb (strVal relname1) name = false)
  end.
Proof.
  unfold extract_step.
  destruct (if swSubExist (rte info)
            then match find (fun val => strstr val colname0) (columns info) with
                 | Some val => (true, val)
                 | None => (column_exists info relname0 colname0, colname0)
                 end
            else (column_exists info relname0 colname0, colname0))
    as [column_exist colname1].
  destruct column_exist.
  - split; [now right|]. intros Hn Hempty Hf Hr.
    destruct (named_names _ _ Hn) as [Halias Hrel].
    cbn [hd].
    destruct (rtekind info); try (split; exact Hr); try (split; exact Halias);
      destruct (aliasname info); try (split; exact Halias); split; exact Hrel.
  - split; [now left|]. auto.
Qed.

Lemma extract_fold_spec (name : string) (infos : list StartWithTargetRelInfo) :
  forall (relname0 : option string) (colname0 : string) (fields0 : list string)
         (infos0 : list StartWithTargetRelInfo),
    match fold_left extract_step infos (relname0, colname0, fields0, infos0) with
    | (relname1, _, fields1, infos1) =>
        (exists l, infos1 = infos0 ++ l /\ Forall (fun i => In i infos) l)
        /\ (existsb (named name) infos = false ->
            String.eqb "" name = false ->
            String.eqb (hd "" fields0) name = false ->
            String.eqb (strVal relname0) name = false ->
            String.eqb (hd "" fields1) name = false
            /\ String.eqb (strVal relname1) name = false)
    end.
Proof.
  induction infos as [|info infos IH]; intros relname0 colname0 fields0 infos0;
    cbn [fold_left].
  - split; [exists []; split; [now rewrite app_nil_r|constructor]|]. auto.
  - pose proof (extract_step_spec name relname0 colname0 fields0 infos0 info) as Hstep.
    destruct (extract_step (relname0, colname0, fields0, infos0) info)
      as [[[relname1 colname1] fields1] infos1].
    destruct Hstep as [Hinfos Hnames].
    specialize (IH relname1 colname1 fields1 infos1).
    destruct (fold_left extract_step infos (relname1, colname1, fields1, infos1))
      as [[[relname2 colname2] fields2] infos2].
    destruct IH as [[l [Hl Hin]] IHnames]. split.
    + assert (Hin' : Forall (fun i => In i (info :: infos)) l).
      { eapply Forall_impl; [|exact Hin]. intros x Hx. now right. }
      destruct Hinfos as [->| ->].
      * exists l. split; [exact Hl|exact Hin'].
      * exists (info :: l). split; [now rewrite Hl, <- app_assoc|].
        constructor; [now left|exact Hin'].
    + cbn [existsb]. intros Hn Hempty Hf Hr.
      apply orb_false_iff in Hn. destruct Hn as [Hn1 Hn2].
      destruct (Hnames Hn1 Hempty Hf Hr) as [Hf1 Hr1]. now apply IHnames.
Qed.

Lemma ExtractColumnRefStartInfo_spec (name : string) (pstate : ParseState)
    (fields : list string) (relname' : option string) (colname : string)
    (result : list StartWithTargetRelInfo) (fields' : list string) :
  ExtractColumnRefStartInfo pstate fields relname' colname = Ok (result, fields') ->
  Forall (fun i => In i (p_start_info pstate)) result
  /\ (existsb (named name) (p_start_info pstate) = false ->
      String.eqb "" name = false ->
      String.eqb (hd "" fields) name = false ->
      String.eqb (strVal relname') name = false ->
      String.eqb (hd "" fields') name = false).
Proof.
  unfold ExtractColumnRefStartInfo. intros H.
  pose proof (extract_fold_spec name (p_start_info pstate) relname' colname fields [])
    as Hfold.
  destruct (fold_left extract_step (p_start_info pstate) (relname', colname, fields, []))
    as [[[relname1 colname1] fields1] infos1].
  destruct (list_length infos1 >? 1); [discriminate|]. inversion H; subst.
  destruct Hfold as [[l [Hl Hin]] Hnames]. cbn [app] in Hl. subst l.
  split; [exact Hin|]. intros Hn Hempty Hf Hr. now apply Hnames.
Qed.

Lemma targets_grow_refl (c : StartWithTransformContext) : targets_grow c c.
Proof.
  repeat split. exists []. split; [now rewrite app_nil_r|constructor].
Qed.

Lemma targets_grow_trans (c1 c2 c3 : StartWithTransformContext) :
  targets_grow c1 c2 -> targets_grow c2 c3 -> targets_grow c1 c3.
Proof.
  intros (Hp1 & Hf1 & Hw1 & Hs1 & l1 & Hl1 & Hin1) (Hp2 & Hf2 & Hw2 & Hs2 & l2 & Hl2 & Hin2).
  repeat split; try congruence.
  exists (l1 ++ l2). split; [now rewrite Hl2, Hl1, app_assoc|].
  apply Forall_app. split; [exact Hin1|]. now rewrite <- Hp1.
Qed.

Lemma targets_grow_found (c : StartWithTransformContext)
    (result : list StartWithTargetRelInfo) :
  Forall (fun i => In i (p_start_info (pstate c))) result ->
  targets_grow c
    (if is_where c
     then set_where_infos c (list_concat_unique equal_info (where_infos c) result)
     else set_relInfoList c (list_concat_unique equal_info (relInfoList c) result)).
Proof.
  intros Hres. destruct (is_where c).
  { repeat split. exists []. split; [cbn; now rewrite app_nil_r|constructor]. }
  repeat split. cbn.
  destruct (list_concat_unique_app equal_info result (relInfoList c)) as [l [Hl Hin]].
  exists l. split; [exact Hl|].
  rewrite Forall_forall in *. auto.
Qed.

Lemma HandleSWCBColumnRef_targets
    (context context' : StartWithTransformContext) (fields : list string)
    (prior : bool) (location : Z) (column : Node) :
  Handle context fields prior location = Ok (context', column) ->
  targets_grow context context'.
Proof.
  unfold HandleSWCBColumnRef. intros H.
  destruct (pg_strcasecmp_eq _ _); [inversion H; apply targets_grow_refl|].
  destruct (preSkipPLSQLParams _ _ && negb prior);
    [inversion H; apply targets_grow_refl|].
  destruct (transformColumnRef _ _) as [[preResult|]|]; cbn [bind] in H;
    [|inversion H; apply targets_grow_refl|discriminate].
  destruct (list_length fields =? 1).
  - destruct (ExtractColumnRefStartInfo _ _ _ _) as [[result fields']|] eqn:Ex;
      cbn [bind] in H; [|discriminate].
    destruct (ExtractColumnRefStartInfo_spec "" _ _ _ _ _ _ Ex) as [Hres _].
    destruct prior; cbn [negb] in H.
    + destruct (list_length fields' <=? 1); [discriminate|].
      destruct (makeStartWithDummayColname _ _ _) as [dummy|]; [|discriminate].
      cbn [bind] in H. inversion H; subst; clear H.
      exact (targets_grow_found
               (set_connectby_prior_name context (connectby_prior_name context ++ [dummy]))
               result Hres).
    + inversion H; subst; clear H. exact (targets_grow_found context result Hres).
  - destruct (list_length fields =? 2); [|discriminate].
    destruct (ExtractColumnRefStartInfo _ _ _ _) as [[result fields']|] eqn:Ex;
      cbn [bind] in H; [|discriminate].
    destruct (ExtractColumnRefStartInfo_spec "" _ _ _ _ _ _ Ex) as [Hres _].
    destruct prior.
    + destruct (makeStartWithDummayColname _ _ _) as [dummy|]; [|discriminate].
      cbn [bind] in H. inversion H; subst; clear H.
      exact (targets_grow_found
               (set_connectby_prior_name context (connectby_prior_name context ++ [dummy]))
               result Hres).
    + inversion H; subst; clear H. exact (targets_grow_found context result Hres).
Qed.

(** A column reference without PRIOR is left free of the name. *)
Lemma HandleSWCBColumnRef_mentions (name : string)
    (context context' : StartWithTransformContext) (fields : list string)
    (location : Z) (column : Node) :
  String.eqb "" name = false ->
  existsb (named name) (p_start_info (pstate context)) = false ->
  String.eqb (hd "" fields) name = false ->
  Handle context fields false location = Ok (context', column) ->
  mentions_table name column = false.
Proof.
  intros Hempty Hnames Hf. unfold HandleSWCBColumnRef. intros H.
  destruct (pg_strcasecmp_eq _ _); [inversion H; exact Hf|].
  destruct (preSkipPLSQLParams _ _ && negb false); [inversion H; exact Hf|].
  destruct (transformColumnRef _ _) as [[preResult|]|]; cbn [bind] in H;
    [|inversion H; exact Hf|discriminate].
  destruct (list_length fields =? 1).
  - destruct (ExtractColumnRefStartInfo _ _ _ _) as [[result fields']|] eqn:Ex;
      cbn [bind negb] in H; [|discriminate].
    destruct (ExtractColumnRefStartInfo_spec name _ _ _ _ _ _ Ex) as [_ Hout].
    inversion H; subst; clear H. cbn [mentions_table].
    exact (Hout Hnames Hempty Hf Hempty).
  - destruct (list_length fields =? 2); [|discriminate].
    destruct (ExtractColumnRefStartInfo _ _ _ _) as [[result fields']|] eqn:Ex;
      cbn [bind] in H; [|discriminate].
    destruct (ExtractColumnRefStartInfo_spec name _ _ _ _ _ _ Ex) as [_ Hout].
    inversion H; subst; clear H. cbn [mentions_table].
    exact (Hout Hnames Hempty Hf Hf).
Qed.

(** *** What a walk does to the targets and to the expression *)

Lemma StartWithWalker_targets (expr : Node) :
  keeps targets_grow (fun _ => false) Walker expr.
Proof.
  apply (StartWithWalker_keeps NAMEDATALEN CONNECT_BY_ROWNUM_FAKEVALUE
           CONNECT_BY_LEVEL_FAKEVALUE GetStartWithFakeConstValue equal_info
           transformColumnRef targets_grow (fun _ => false)).
  - exact targets_grow_refl.
  - exact targets_grow_trans.
  - intros c t. repeat split. exists []. split; [cbn; now rewrite app_nil_r|constructor].
  - intros node _. apply Forall_forall. reflexivity.
  - intros c fields prior location c' column _ Hh.
    exact (HandleSWCBColumnRef_targets _ _ _ _ _ _ Hh).
Qed.

Lemma StartWithWalker_opt_targets (expr : option Node)
    (context context' : StartWithTransformContext) (expr' : option Node) :
  Walker_opt context expr = Ok (context', expr') -> targets_grow context context'.
Proof.
  intros Hw. destruct expr as [e|]; cbn in Hw.
  - destruct (Walker context e) as [[c1 e1]|] eqn:E; [|discriminate].
    inversion Hw; subst. exact (StartWithWalker_targets e eq_refl _ _ _ E).
  - inversion Hw; subst. apply targets_grow_refl.
Qed.

(** No target of the parse state of the context goes by the name. *)
#[local] Abbreviation clean name c :=
  (existsb (named name) (p_start_info (pstate c)) = false).

(** A walk leaves an expression without PRIOR free of the name. *)
#[local] Abbreviation stays_free name e :=
  (forall c c' e',
      clean name c -> has_prior e = false -> mentions_table name e = false ->
      Walker c e = Ok (c', e') -> mentions_table name e' = false).

Lemma walk_operand_mentions (name : string) (arg : option Node) :
  String.eqb "" name = false ->
  Forall (fun e => stays_free name e) (opt_list arg) ->
  forall c c' arg',
    clean name c ->
    any_node has_prior arg = false ->
    any_node (mentions_table name) arg = false ->
    walk_operand NAMEDATALEN equal_info transformColumnRef Walker c arg = Ok (c', arg') ->
    any_node (mentions_table name) arg' = false.
Proof.
  intros Hempty HF c c' arg' Hclean Hp Hm Hw.
  destruct arg as [a|]; cbn [opt_list any_node] in *; [|now inversion Hw].
  inversion HF as [|? ? Ha _]; subst.
  assert (Hgen :
    (do '(context, a) <- Walker c a; Ok (context, Some a)) = Ok (c', arg') ->
    any_node (mentions_table name) arg' = false).
  { intros Hw'. destruct (Walker c a) as [[c1 a1]|] eqn:E; [|discriminate].
    inversion Hw'; subst. exact (Ha _ _ _ Hclean Hp Hm E). }
  destruct a; exact (Hgen Hw).
Qed.

Lemma walk_operands_mentions (name : string) (l : list Node) :
  Forall (fun e => stays_free name e) l ->
  forall c c' l',
    clean name c ->
    existsb has_prior l = false ->
    existsb (mentions_table name) l = false ->
    walk_operands Walker c l = Ok (c', l') ->
    existsb (mentions_table name) l' = false.
Proof.
  induction 1 as [|x l Hx _ IH]; cbn [walk_operands existsb];
    intros c c' l' Hclean Hp Hm Hw.
  - now inversion Hw.
  - apply orb_false_iff in Hp. destruct Hp as [Hp1 Hp2].
    apply orb_false_iff in Hm. destruct Hm as [Hm1 Hm2].
    destruct (Walker c x) as [[c1 x1]|] eqn:E1; [|discriminate]. cbn [bind] in Hw.
    destruct (walk_operands Walker c1 l) as [[c2 l2]|] eqn:E2; [|discriminate].
    destruct (StartWithWalker_targets x eq_refl _ _ _ E1) as [Hps _].
    assert (Hl2 : existsb (mentions_table name) l2 = false).
    { apply (IH c1 c2 l2); auto. now rewrite Hps. }
    inversion Hw; subst. cbn [existsb].
    now rewrite (Hx _ _ _ Hclean Hp1 Hm1 E1), Hl2.
Qed.

Lemma StartWithWalker_mentions (name : string) :
  String.eqb "" name = false -> forall expr : Node, stays_free name expr.
Proof.
  intros Hempty. induction expr as [expr IH] using Node_children_ind.
  intros c c' e' Hclean Hp Hm Hw.
  assert (Hone : forall arg c c' out (k : option Node -> Node),
    Forall (fun e => stays_free name e) (opt_list arg) ->
    clean name c ->
    any_node has_prior arg = false ->
    any_node (mentions_table name) arg = false ->
    (do '(context, arg) <-
       walk_operand NAMEDATALEN equal_info transformColumnRef Walker c arg;
     Ok (context, k arg)) = Ok (c', out) ->
    exists c1 arg', out = k arg' /\ any_node (mentions_table name) arg' = false
                    /\ walk_operand NAMEDATALEN equal_info transformColumnRef Walker c arg
                       = Ok (c1, arg')).
  { intros arg c0 c0' out k HF Hc Hp0 Hm0 Hk.
    destruct (walk_operand _ _ _ Walker c0 arg) as [[c1 a1]|] eqn:E; [|discriminate].
    inversion Hk; subst. exists c0', a1. split; [reflexivity|]. split; [|reflexivity].
    exact (walk_operand_mentions name arg Hempty HF _ _ _ Hc Hp0 Hm0 E). }
  assert (Hlist : forall l c c' out (k : list Node -> Node),
    Forall (fun e => stays_free name e) l ->
    clean name c ->
    existsb has_prior l = false ->
    existsb (mentions_table name) l = false ->
    (do '(context, l) <- walk_operands Walker c l; Ok (context, k l)) = Ok (c', out) ->
    exists l', out = k l' /\ existsb (mentions_table name) l' = false).
  { intros l c0 c0' out k HF Hc Hp0 Hm0 Hk.
    destruct (walk_operands Walker c0 l) as [[c1 l1]|] eqn:E; [|discriminate].
    inversion Hk; subst. exists l1. split; [reflexivity|].
    exact (walk_operands_mentions name l HF _ _ _ Hc Hp0 Hm0 E). }
  destruct expr; cbn [StartWithWalker] in Hw; try discriminate;
    cbn [children] in IH; cbn [has_prior mentions_table any_child] in Hp, Hm.
  - (* ColumnRef *)
    subst prior. exact (HandleSWCBColumnRef_mentions name _ _ _ _ _ Hempty Hclean Hm Hw).
  - (* A_Const *)
    destruct (GetStartWithFakeConstValue val =? _); [now inversion Hw|].
    destruct (GetStartWithFakeConstValue val =? _); now inversion Hw.
  - (* A_Expr *)
    apply Forall_app in IH. destruct IH as [IHl IHr].
    apply orb_false_iff in Hp. destruct Hp as [Hpl Hpr].
    apply orb_false_iff in Hm. destruct Hm as [Hml Hmr].
    assert (Hfake : forall v context,
      Ok (context, A_Expr kind name0 (Some (A_Const (T_Integer v) (-1))) rexpr location)
      = Ok (c', e') -> mentions_table name e' = false).
    { intros v context Hk. inversion Hk; subst. cbn. exact Hmr. }
    assert (Hboth :
      (do '(context, left_expr) <-
         walk_operand NAMEDATALEN equal_info transformColumnRef Walker c lexpr;
       do '(context, right_expr) <-
         walk_operand NAMEDATALEN equal_info transformColumnRef Walker context rexpr;
       Ok (context, A_Expr kind name0 left_expr right_expr location))
      = Ok (c', e') ->
      mentions_table name e' = false).
    { clear Hw. intros Hw.
      destruct (walk_operand _ _ _ Walker c lexpr) as [[c1 l1]|] eqn:E1;
        [|discriminate]. cbn [bind] in Hw.
      pose proof (walk_operand_mentions name lexpr Hempty IHl _ _ _ Hclean Hpl Hml E1)
        as Hl1.
      assert (Hc1 : clean name c1).
      { pose proof (walk_operand_keeps NAMEDATALEN equal_info transformColumnRef
                      targets_grow (fun _ => false) targets_grow_refl
                      (fun c0 f p l c0' col _ Hh =>
                         HandleSWCBColumnRef_targets _ _ _ _ _ _ Hh)
                      Walker lexpr) as Hk.
        destruct (Hk (proj2 (Forall_forall _ _)
                        (fun e _ => StartWithWalker_targets e))
                     (proj2 (Forall_forall _ _) (fun e _ => eq_refl))
                     _ _ _ E1) as [Hps _].
        now rewrite Hps. }
      destruct (Hone rexpr c1 c' e' (fun a => A_Expr kind name0 l1 a location)
                  IHr Hc1 Hpr Hmr Hw) as (c2 & r1 & -> & Hr1 & _).
      cbn [mentions_table any_child]. now rewrite Hl1, Hr1. }
    destruct kind; try discriminate; try exact (Hboth Hw).
    + destruct lexpr as [[]|]; try exact (Hboth Hw);
        try (destruct (any_level _); [exact (Hfake _ _ Hw) | exact (Hboth Hw)]).
      exact (Hfake _ _ Hw).
    + destruct (Hone rexpr c c' e' (fun a => A_Expr AEXPR_NOT name0 lexpr a location)
                  IHr Hclean Hpr Hmr Hw) as (c2 & r1 & -> & Hr1 & _).
      cbn [mentions_table any_child]. now rewrite Hml, Hr1.
  - (* NullTest *)
    destruct (Hone arg c c' e' NullTest IH Hclean Hp Hm Hw) as (c1 & a1 & -> & Ha1 & _).
    exact Ha1.
  - (* SubLink *)
    apply Forall_app in IH. destruct IH as [IHl IHr].
    apply orb_false_iff in Hp. destruct Hp as [Hpl Hpr].
    apply orb_false_iff in Hm. destruct Hm as [Hml Hmr].
    destruct (Hone testexpr c c' e' (fun a => SubLink a subselect) IHl Hclean Hpl Hml Hw)
      as (c1 & a1 & -> & Ha1 & _).
    cbn [mentions_table any_child]. now rewrite Ha1, Hmr.
  - (* CoalesceExpr *)
    destruct (Hlist args c c' e' CoalesceExpr IH Hclean Hp Hm Hw) as (l1 & -> & Hl1).
    exact Hl1.
  - (* CollateClause *)
    destruct (Hone arg c c' e' CollateClause IH Hclean Hp Hm Hw)
      as (c1 & a1 & -> & Ha1 & _).
    exact Ha1.
  - (* TypeCast *)
    destruct (Hone arg c c' e' (fun a => TypeCast a typeName) IH Hclean Hp Hm Hw)
      as (c1 & a1 & -> & Ha1 & _).
    exact Ha1.
  - (* List *)
    destruct (Hlist elements c c' e' List_ IH Hclean Hp Hm Hw) as (l1 & -> & Hl1).
    exact Hl1.
  - (* A_ArrayExpr *)
    inversion Hw; subst. exact Hm.
  - (* FuncCall *)
    destruct (Hlist args c c' e' (FuncCall funcname) IH Hclean Hp Hm Hw)
      as (l1 & -> & Hl1).
    exact Hl1.
  - (* A_Indirection *)
    apply Forall_app in IH. destruct IH as [IHl IHr].
    apply orb_false_iff in Hp. destruct Hp as [Hpl Hpr].
    apply orb_false_iff in Hm. destruct Hm as [Hml Hmr].
    destruct (Hone arg c c' e' (fun a => A_Indirection a indirection)
                IHl Hclean Hpl Hml Hw) as (c1 & a1 & -> & Ha1 & _).
    cbn [mentions_table any_child]. now rewrite Ha1, Hmr.
  - (* ParamRef *)
    inversion Hw; subst. exact Hm.
Qed.

Lemma StartWithWalker_opt_mentions (name : string) (expr : option Node)
    (c c' : StartWithTransformContext) (expr' : option Node) :
  String.eqb "" name = false ->
  clean name c ->
  any_node has_prior expr = false ->
  any_node (mentions_table name) expr = false ->
  Walker_opt c expr = Ok (c', expr') ->
  any_node (mentions_table name) expr' = false.
Proof.
  intros Hempty Hclean Hp Hm Hw. destruct expr as [e|]; cbn in Hw, Hp, Hm.
  - destruct (Walker c e) as [[c1 e1]|] eqn:E; [|discriminate].
    inversion Hw; subst. exact (StartWithWalker_mentions name Hempty e _ _ _ Hclean Hp Hm E).
  - now inversion Hw.
Qed.


(** *** The analysis of the clause *)

Lemma flatten_lists (expr : Node) :
  forall c c',
    flatten c expr = Ok c' ->
    exists rl nl, c' = set_normal_list (set_rownum_or_level_list c rl) nl.
Proof.
  induction expr as [expr IH] using Node_children_ind. intros c c' H.
  destruct (is_and expr) eqn:Eand.
  - destruct expr; try discriminate. destruct kind; try discriminate.
    cbn [flattenConnectByExpr] in H. cbn [children] in IH.
    apply Forall_app in IH. destruct IH as [IHl IHr].
    assert (Hl : exists c1,
               match lexpr with
               | Some l => flatten c l
               | None => Ok c
               end = Ok c1
               /\ exists rl nl, c1 = set_normal_list (set_rownum_or_level_list c rl) nl).
    { destruct lexpr as [l|]; cbn [opt_list] in IHl.
      - inversion IHl as [|? ? Hl0 _]; subst.
        destruct (flatten c l) as [c1|] eqn:E; [|discriminate].
        exists c1. split; [reflexivity|]. exact (Hl0 _ _ E).
      - exists c. split; [reflexivity|].
        exists (rownum_or_level_list c), (normal_list c). now destruct c. }
    destruct Hl as (c1 & E1 & rl1 & nl1 & ->).
    rewrite E1 in H. cbn [bind] in H.
    destruct rexpr as [r|]; cbn [opt_list] in IHr.
    + inversion IHr as [|? ? Hr0 _]; subst.
      destruct (Hr0 _ _ H) as (rl2 & nl2 & ->). exists rl2, nl2. reflexivity.
    + inversion H; subst. exists rl1, nl1. reflexivity.
  - rewrite (flatten_conjunct CONNECT_BY_ROWNUM_FAKEVALUE CONNECT_BY_LEVEL_FAKEVALUE
               c expr Eand) in H.
    destruct (found_in CONNECT_BY_ROWNUM_FAKEVALUE CONNECT_BY_LEVEL_FAKEVALUE expr)
      as [[l p]|]; cbn [bind] in H; [|discriminate].
    destruct l, p; cbn [andb] in H; try discriminate; inversion H; subst.
    + exists (rownum_or_level_list c ++ [expr]), (normal_list c). now destruct c.
    + exists (rownum_or_level_list c), (normal_list c ++ [expr]). now destruct c.
    + exists (rownum_or_level_list c), (normal_list c ++ [expr]). now destruct c.
Qed.

Lemma transformStartWithClause_clause
    (context context' : StartWithTransformContext) (stmt : Node) :
  transformClause context (Some stmt) = Ok context' ->
  exists siblingsOrderBy' nocycle',
    clause_exprs context (select_whereClause stmt) (start_with_of stmt)
      (connect_by_of stmt) siblingsOrderBy' nocycle' = Ok context'.
Proof.
  unfold transformStartWithClause. intros H.
  destruct stmt; try discriminate.
  destruct startWithClause as [[]|]; try discriminate.
  destruct (isForbiddenClausesPresent _); [discriminate|].
  destruct (clause_exprs _ _ _ _ _ _) as [c|] eqn:E; cbn [bind] in H; [|discriminate].
  destruct (isSome _ && isNil _); [discriminate|]. inversion H; subst c.
  eexists. eexists. exact E.
Qed.

Lemma transform_clause_exprs_shape (name : string)
    (context context' : StartWithTransformContext)
    (whereClause' startWithExpr' connectByExpr' : option Node)
    (siblingsOrderBy' : list Node) (nocycle' : bool) :
  clause_exprs context whereClause' startWithExpr' connectByExpr' siblingsOrderBy'
    nocycle' = Ok context' ->
  pstate context' = pstate context
  /\ fromClause context' = fromClause context
  /\ whereClause context'
     = (if negb (list_length (p_start_info (pstate context)) =? 1)
        then whereClause' else whereClause context)
  /\ (exists l, relInfoList context' = p_start_info (pstate context) ++ l
                /\ Forall (fun i => In i (p_start_info (pstate context))) l)
  /\ (exists c c',
        pstate c = pstate context
        /\ Walker_opt c (buildExprUsingAnd (normal_list context ++ other_quals connectByExpr'))
           = Ok (c', connectByExpr context'))
  /\ (String.eqb "" name = false ->
      clean name context ->
      any_node has_prior startWithExpr' = false ->
      any_node (mentions_table name) startWithExpr' = false ->
      any_node (mentions_table name) (startWithExpr context') = false).
Proof.
  unfold transform_clause_exprs. intros H.
  destruct (checkConnectByExprValidity _ _ _) as [[]|]; cbn [bind] in H; [|discriminate].
  set (c0 := set_relInfoList _ _) in H.
  destruct (match option_map _ connectByExpr' with
            | Some e => flatten c0 e
            | None => Ok c0
            end) as [c1|] eqn:E1; cbn [bind] in H; [|discriminate].
  assert (H1 : (exists rl nl, c1 = set_normal_list (set_rownum_or_level_list c0 rl) nl)
               /\ normal_list c1 = normal_list context ++ other_quals connectByExpr').
  { unfold SwEntry.other_quals. destruct connectByExpr' as [cb|]; cbn [option_map] in *.
    - split; [exact (flatten_lists _ _ _ E1)|].
      destruct (flatten_effect CONNECT_BY_ROWNUM_FAKEVALUE CONNECT_BY_LEVEL_FAKEVALUE
                  _ _ _ E1) as (_ & Hn & _).
      exact Hn.
    - inversion E1; subst c1. split.
      + exists (rownum_or_level_list c0), (normal_list c0). reflexivity.
      + cbn. now rewrite app_nil_r. }
  destruct H1 as [(rl & nl & Hc1) Hnl].
  assert (Hp1 : pstate c1 = pstate context) by (subst c1; reflexivity).
  assert (Hf1 : fromClause c1 = fromClause context) by (subst c1; reflexivity).
  assert (Hw1 : whereClause c1 = whereClause context) by (subst c1; reflexivity).
  assert (Hr1 : relInfoList c1 = p_start_info (pstate context)) by (subst c1; reflexivity).
  clear Hc1 E1. clearbody c0.
  set (c2 := set_connectByExpr _ _) in H.
  assert (Hp2 : pstate c2 = pstate context) by exact Hp1.
  assert (Hf2 : fromClause c2 = fromClause context) by exact Hf1.
  assert (Hw2 : whereClause c2 = whereClause context) by exact Hw1.
  assert (Hr2 : relInfoList c2 = p_start_info (pstate context)) by exact Hr1.
  assert (Hcb2 : connectByExpr c2 = buildExprUsingAnd (normal_list c1)) by reflexivity.
  clearbody c2.
  destruct (Walker_opt c2 startWithExpr') as [[c3 sw3]|] eqn:E3; cbn [bind] in H;
    [|discriminate].
  destruct (StartWithWalker_opt_targets _ _ _ _ E3)
    as (Hp3 & Hf3 & Hw3 & _ & l3 & Hl3 & Hin3).
  destruct (StartWithWalker_opt_same_clause NAMEDATALEN CONNECT_BY_ROWNUM_FAKEVALUE
              CONNECT_BY_LEVEL_FAKEVALUE GetStartWithFakeConstValue equal_info
              transformColumnRef _ _ _ _ E3) as [_ Hcb3].
  set (c4 := set_startWithExpr c3 sw3) in H.
  destruct (Walker_opt c4 (connectByLevelExpr c4)) as [[c5 lv]|] eqn:E5;
    cbn [bind] in H; [|discriminate].
  destruct (StartWithWalker_opt_targets _ _ _ _ E5)
    as (Hp5 & Hf5 & Hw5 & Hs5 & l5 & Hl5 & Hin5).
  destruct (StartWithWalker_opt_same_clause NAMEDATALEN CONNECT_BY_ROWNUM_FAKEVALUE
              CONNECT_BY_LEVEL_FAKEVALUE GetStartWithFakeConstValue equal_info
              transformColumnRef _ _ _ _ E5) as [_ Hcb5].
  set (c6 := set_connectByLevelExpr c5 lv) in H.
  destruct (Walker_opt c6 (connectByExpr c6)) as [[c7 cb7]|] eqn:E7;
    cbn [bind] in H; [|discriminate].
  destruct (StartWithWalker_opt_targets _ _ _ _ E7)
    as (Hp7 & Hf7 & Hw7 & Hs7 & l7 & Hl7 & Hin7).
  cbn [pstate fromClause whereClause startWithExpr relInfoList connectByExpr
         set_startWithExpr set_connectByLevelExpr set_connectByExpr c4 c6]
    in Hp5, Hf5, Hw5, Hs5, Hl5, Hin5, Hcb5, Hp7, Hf7, Hw7, Hs7, Hl7, Hin7, H.
  assert (Hps : pstate c7 = pstate context) by congruence.
  inversion H; subst context'. clear H.
  split; [destruct (negb _); exact Hps|].
  split; [destruct (negb _); cbn; congruence|].
  split.
  { rewrite Hps. destruct (negb _); cbn; [reflexivity|congruence]. }
  split.
  { exists (l3 ++ l5 ++ l7). split.
    - destruct (negb _); cbn; rewrite Hl7, Hl5, Hl3, Hr2, <- !app_assoc; reflexivity.
    - rewrite Hp5, Hp3, Hp2 in Hin7. rewrite Hp3, Hp2 in Hin5. rewrite Hp2 in Hin3.
      repeat (apply Forall_app; split); assumption. }
  split.
  { exists c6, c7. split; [cbn; congruence|].
    assert (Hcb6 : connectByExpr c6
                   = buildExprUsingAnd (normal_list context ++ other_quals connectByExpr')).
    { cbn [c6 connectByExpr set_connectByLevelExpr]. rewrite Hcb5. cbn [c4].
      change (connectByExpr (set_startWithExpr c3 sw3)) with (connectByExpr c3).
      now rewrite Hcb3, Hcb2, Hnl. }
    rewrite <- Hcb6. destruct (negb _); exact E7. }
  intros Hempty Hclean Hp Hm.
  assert (Hsw3 : any_node (mentions_table name) sw3 = false).
  { apply (StartWithWalker_opt_mentions name startWithExpr' c2 c3 sw3); auto.
    now rewrite Hp2. }
  assert (Hsw7 : startWithExpr c7 = sw3) by congruence.
  destruct (negb _); cbn; now rewrite Hsw7.
Qed.


(** *** The two branches and the CTE *)

Lemma rewrite_context_fields (pstate : ParseState) (sw_fromClause : list Node)
    (context : StartWithTransformContext) :
  connectByExpr (rewrite_context pstate sw_fromClause context) = connectByExpr context
  /\ startWithExpr (rewrite_context pstate sw_fromClause context) = startWithExpr context
  /\ whereClause (rewrite_context pstate sw_fromClause context) = whereClause context
  /\ connectByLevelExpr (rewrite_context pstate sw_fromClause context)
     = connectByLevelExpr context
  /\ relInfoList (rewrite_context pstate sw_fromClause context)
     = map mark_swAborted
         (if negb (list_length (p_start_info pstate) =? 1)
          then p_start_info pstate else relInfoList context)
  /\ fromClause (rewrite_context pstate sw_fromClause context)
     = (if negb (list_length (p_start_info pstate) =? 1)
        then sw_fromClause else fromClause context).
Proof. unfold rewrite_context. destruct (negb _); repeat split. Qed.

Lemma existsb_mark (f : StartWithTargetRelInfo -> bool)
    (l : list StartWithTargetRelInfo) :
  (forall info, f (mark_swAborted info) = f info) ->
  existsb f (map mark_swAborted l) = existsb f l.
Proof.
  intros Hf. induction l as [|x l IH]; cbn [map existsb]; [reflexivity|].
  now rewrite Hf, IH.
Qed.

Lemma map_tblstmt_mark (l : list StartWithTargetRelInfo) :
  map tblstmt (map mark_swAborted l) = map tblstmt l.
Proof. rewrite map_map. apply map_ext. reflexivity. Qed.

Lemma existsb_app_members {A : Type} (f : A -> bool) (l1 l2 : list A) :
  existsb f l1 = false -> Forall (fun x => In x l1) l2 -> existsb f (l1 ++ l2) = false.
Proof.
  intros H1 H2. rewrite existsb_app, H1. cbn [orb].
  apply existsb_false_Forall. apply existsb_false_Forall in H1.
  rewrite Forall_forall in *. auto.
Qed.

Lemma seed_quals_mentions (name : string) (startWithExpr' whereClause' : option Node) :
  mentions_table name (makeBoolAConst true (-1)) = false ->
  any_node (mentions_table name) startWithExpr' = false ->
  any_node (mentions_table name) whereClause' = false ->
  any_node (mentions_table name) (seed_quals makeBoolAConst startWithExpr' whereClause')
  = false.
Proof.
  intros Hb Hsw Hwhere. unfold seed_quals.
  pose proof (pushed_where_mentions makeBoolAConst _ _ Hb Hwhere) as Hpushed.
  destruct startWithExpr' as [sw|]; [|exact Hpushed].
  destruct whereClause' as [w|]; [|exact Hsw].
  cbn in *. now rewrite Hpushed, Hsw.
Qed.

(** What the three calls of [transformSingleRTE] and [transformFromList]
    build. *)
Lemma branches_shape (ps pstate' : ParseState) (qry qry' : Query)
    (context : StartWithTransformContext) (pushed : option Node) :
  (do '(ps1, outerBranch) <-
     OuterBranch ps context (relInfoList context) (startWithExpr context) pushed;
   do '(ps2, innerBranch) <-
     InnerBranch ps1 context (relInfoList context) (connectByExpr context) pushed;
   CreateCTE ps2 qry outerBranch innerBranch context) = Ok (pstate', qry') ->
  exists (targets : list Node) (origin_table step_with : option Node)
         (swoptions : Node) (ps1 ps2 : ParseState),
    expandAllTargetList NAMEDATALEN (relInfoList context) = Ok targets
    /\ origin_table_of makeBoolAConst context (relInfoList context) pushed
       = Ok origin_table
    /\ transformWithClause ps1
         (recursive_with
            (branch targets (seed_from context)
               (seed_quals makeBoolAConst (startWithExpr context) pushed)
               (snd (AddWithClauseToBranch ps (relInfoList context))))
            (branch targets
               [JoinExpr JOIN_INNER false (Some work_table) origin_table []
                  (connectByExpr context)]
               None step_with)
            swoptions)
       = Ok (cteList qry', ps2)
    /\ hasRecursive qry' = true.
Proof.
  unfold CreateStartWithCTEOuterBranch, CreateStartWithCTEInnerBranch. intros H.
  destruct (AddWithClauseToBranch ps (relInfoList context)) as [ps1 seed_with].
  destruct (expandAllTargetList NAMEDATALEN (relInfoList context)) as [targets|] eqn:Et;
    cbn [bind] in H; [|discriminate].
  destruct (AddWithClauseToBranch ps1 (relInfoList context)) as [ps2 step_with].
  destruct (origin_table_of makeBoolAConst context (relInfoList context) pushed)
    as [origin_table|] eqn:Eo; cbn [bind] in H; [|discriminate].
  assert (Hcte :
    CreateCTE ps2 qry
      (SelectStmt targets (seed_from context)
         (seed_quals makeBoolAConst (startWithExpr context) pushed) seed_with None
         SETOP_NONE false None None)
      (SelectStmt targets
         [JoinExpr JOIN_INNER false (Some (makeRangeVar None "tmp_reuslt" (-1)))
            origin_table [] (connectByExpr context)]
         None step_with None SETOP_NONE false None None)
      context = Ok (pstate', qry')).
  { destruct (connect_by_type context); cbn [bind] in H; try exact H; discriminate. }
  clear H. unfold CreateStartWithCTE in Hcte.
  destruct (transformWhereClause _ _) as [quals|]; cbn [bind] in Hcte; [|discriminate].
  match type of Hcte with
  | context [transformWithClause ?p ?w] =>
      destruct (transformWithClause p w) as [[ctes ps3]|] eqn:Ew
  end; cbn [bind] in Hcte; [|discriminate].
  inversion Hcte; subst. cbn [cteList hasRecursive with_recursive].
  exists targets, origin_table, step_with. eexists. eexists. exists ps3.
  split; [reflexivity|]. split; [reflexivity|]. split; [exact Ew|reflexivity].
Qed.


End SwEntryFacts.

Section SwEntryExampleFacts.
Import StartWith StartWithExamples SwEntry SwEntryExamples.



End SwEntryExampleFacts.
